(** * The clause builder, SAT driver and bisection minimizer of
    [conda/common/_logic.py], embedded as Rocq functions.

    Python integers are unbounded, so literals, coefficients and bounds are
    [Z]; clause tuples are [list Z]; the mutable driver object is threaded
    explicitly as a record; the dictionaries of the source ([ret] in [BDD],
    [objective_dict] in [minimize]) are [gmap]s and the [set]s of [All] and
    [Any] are [gset]s. A raised exception is [None]. *)

From stdpp Require Import base numbers list list_numbers sorting gmap.

Local Open Scope Z_scope.

(** ** Sentinels *)

(** [TRUE = sys.maxsize] on a 64-bit interpreter, [FALSE = -TRUE]. *)
Definition TRUE : Z := 9223372036854775807.
Definition FALSE : Z := - TRUE.

(** A clause is a tuple of ints. *)
Abbreviation clause := (list Z).

(** ** Python list primitives *)

(** [l[i]], with Python's negative indices; [None] is [IndexError]. *)
Definition getitem {A} (l : list A) (i : Z) : option A :=
  if i <? 0 then
    if - i <=? Z.of_nat (length l) then l !! Z.to_nat (Z.of_nat (length l) + i)
    else None
  else l !! Z.to_nat i.

(** [l[:n]] *)
Definition slice_to {A} (l : list A) (n : Z) : list A :=
  if n <? 0 then take (length l - Z.to_nat (- n))%nat l else take (Z.to_nat n) l.

(** [l[n:]] *)
Definition slice_from {A} (l : list A) (n : Z) : list A :=
  if n <? 0 then drop (length l - Z.to_nat (- n))%nat l else drop (Z.to_nat n) l.

(** [sum(l)] *)
Definition sumZ (l : list Z) : Z := foldr Z.add 0 l.

(** [max(l)]; [None] is the [ValueError] of an empty sequence. *)
Definition py_max (l : list Z) : option Z :=
  match l with
  | [] => None
  | x :: l' => Some (foldl Z.max x l')
  end.

(** ** Clause stores *)

(** [class _ClauseList]: the state is the Python list [_clause_list]. *)
Module ClauseList.

Definition t := list clause.

Definition init : t := [].

(** [append] and [extend] are the bound methods of the underlying list. *)
Definition append (c : clause) (self : t) : t := self ++ [c].
Definition extend (cs : list clause) (self : t) : t := self ++ cs.

Definition get_clause_count (self : t) : nat := length self.

Definition save_state (self : t) : nat := length self.

(** [self._clause_list[len_clauses:] = []] *)
Definition restore_state (saved_state : nat) (self : t) : t :=
  take saved_state self.

Definition as_list (self : t) : list clause := self.

(** The calls a client can make between a save and a restore. *)
Inductive op := Append (c : clause) | Extend (cs : list clause).

Definition run_op (o : op) (self : t) : t :=
  match o with
  | Append c => append c self
  | Extend cs => extend cs self
  end.

Definition run_ops (ops : list op) (self : t) : t :=
  foldl (λ s o, run_op o s) self ops.

End ClauseList.

(** [class _ClauseArray]: the state is the flat [array('i')]. An
    [array('i')] holds C ints: storing a value outside the 32-bit range
    raises [OverflowError], and [array.extend] keeps the items stored before
    the failing one. A method's result is the new array paired with [true]
    when it returned and [false] when it raised. *)
Module ClauseArray.

Definition t := list Z.

Definition init : t := [].

Definition int_fits (v : Z) : bool :=
  (-2147483648 <=? v) && (v <=? 2147483647).

Definition array_append (v : Z) (a : t) : t * bool :=
  if int_fits v then (a ++ [v], true) else (a, false).

Fixpoint array_extend (items : list Z) (a : t) : t * bool :=
  match items with
  | [] => (a, true)
  | v :: items' =>
      let '(a', ok) := array_append v a in
      if ok then array_extend items' a' else (a', false)
  end.

Definition append (c : clause) (self : t) : t * bool :=
  let '(a, ok) := array_extend c self in
  if ok then array_append 0 a else (a, false).

Fixpoint extend (cs : list clause) (self : t) : t * bool :=
  match cs with
  | [] => (self, true)
  | c :: cs' =>
      let '(a, ok) := append c self in
      if ok then extend cs' a else (a, false)
  end.

(** [self._clause_array.count(0)] *)
Definition get_clause_count (self : t) : nat :=
  length (filter (λ v, v = 0) self).

Definition save_state (self : t) : nat := length self.

(** [self._clause_array[len_clause_array:] = array('i')] *)
Definition restore_state (saved_state : nat) (self : t) : t :=
  take saved_state self.

(** The generator [as_list], run to exhaustion; [clause] is its local
    accumulator. *)
Fixpoint as_list_from (clause : list Z) (a : list Z) : list (list Z) :=
  match a with
  | [] => []
  | v :: a' =>
      if v =? 0 then clause :: as_list_from [] a'
      else as_list_from (clause ++ [v]) a'
  end.

Definition as_list (self : t) : list (list Z) := as_list_from [] self.

Definition as_array (self : t) : list Z := self.

Inductive op := Append (c : clause) | Extend (cs : list clause).

Definition run_op (o : op) (self : t) : t * bool :=
  match o with
  | Append c => append c self
  | Extend cs => extend cs self
  end.

(** A sequence of calls; the first one that raises ends it. *)
Fixpoint run_ops (ops : list op) (self : t) : t * bool :=
  match ops with
  | [] => (self, true)
  | o :: ops' =>
      let '(a, ok) := run_op o self in
      if ok then run_ops ops' a else (a, false)
  end.

End ClauseArray.

(** [_ClauseList.as_array]: a fresh [array('i')] is filled clause by clause,
    every clause followed by a 0; the [bool] is [false] when storing a
    literal raised [OverflowError]. *)
Fixpoint ClauseList_as_array_from (cs : list clause) (clause_array : list Z)
    : list Z * bool :=
  match cs with
  | [] => (clause_array, true)
  | c :: cs' =>
      let '(a, ok) := ClauseArray.array_extend c clause_array in
      if ok then
        let '(a', ok') := ClauseArray.array_append 0 a in
        if ok' then ClauseList_as_array_from cs' a' else (a', false)
      else (a, false)
  end.

Definition ClauseList_as_array (self : ClauseList.t) : list Z * bool :=
  ClauseList_as_array_from self [].

(** ** The driver, [class Clauses] *)

(** What a combinator returns: a literal (possibly a sentinel) or the
    deferred pair [(pval, nval)]. *)
Inductive value :=
  | Lit (l : Z)
  | Deferred (pval nval : list clause).

(** The driver object. [_sat_solver] always holds a [_ClauseList];
    [backend_runs] counts the calls of [_sat_solver.run] made so far, the
    way a counting mock backend observes them. *)
Record Clauses := mkClauses {
  unsat : bool;
  m : Z;
  _clauses : ClauseList.t;
  backend_runs : nat;
}.

Definition Clauses_init (m0 : Z) : Clauses :=
  mkClauses false m0 ClauseList.init 0.

Definition set_unsat (b : bool) (self : Clauses) : Clauses :=
  mkClauses b (m self) (_clauses self) (backend_runs self).

Definition set_m (m' : Z) (self : Clauses) : Clauses :=
  mkClauses (unsat self) m' (_clauses self) (backend_runs self).

Definition set_clauses (cs : ClauseList.t) (self : Clauses) : Clauses :=
  mkClauses (unsat self) (m self) cs (backend_runs self).

Definition add_clause (c : clause) (self : Clauses) : Clauses :=
  set_clauses (ClauseList.append c (_clauses self)) self.

Definition add_clauses (cs : list clause) (self : Clauses) : Clauses :=
  set_clauses (ClauseList.extend cs (_clauses self)) self.

Definition get_clause_count (self : Clauses) : nat :=
  ClauseList.get_clause_count (_clauses self).

Definition as_list (self : Clauses) : list clause :=
  ClauseList.as_list (_clauses self).

(** [self._sat_solver.save_state()] and [self._sat_solver.restore_state]:
    only the clause store is touched. *)
Definition save_state (self : Clauses) : nat :=
  ClauseList.save_state (_clauses self).

Definition restore_state (saved_state : nat) (self : Clauses) : Clauses :=
  set_clauses (ClauseList.restore_state saved_state (_clauses self)) self.

Definition new_var (self : Clauses) : Z * Clauses :=
  let m' := m self + 1 in
  (m', set_m m' self).

Definition assign (vals : value) (self : Clauses) : Z * Clauses :=
  match vals with
  | Deferred pval nval =>
      let '(x, self) := new_var self in
      let self := add_clauses (map (λ y, - x :: y) pval) self in
      let self := add_clauses (map (λ y, x :: y) nval) self in
      (x, self)
  | Lit v => (v, self)
  end.

(** [polarity in (True, None)] and [polarity in (False, None)] *)
Definition in_True_None (polarity : option bool) : bool :=
  match polarity with Some false => false | _ => true end.

Definition in_False_None (polarity : option bool) : bool :=
  match polarity with Some true => false | _ => true end.

Definition Not (x : Z) : Z := - x.

Definition And (f g : Z) (polarity : option bool) (add_new_clauses : bool)
    (self : Clauses) : value * Clauses :=
  if (f =? FALSE) || (g =? FALSE) then (Lit FALSE, self)
  else if f =? TRUE then (Lit g, self)
  else if g =? TRUE then (Lit f, self)
  else if f =? g then (Lit f, self)
  else if f =? - g then (Lit FALSE, self)
  else
    let '(f, g) := if g <? f then (g, f) else (f, g) in
    if add_new_clauses then
      let '(x, self) := new_var self in
      let self :=
        if in_True_None polarity
        then add_clauses [[- x; f]; [- x; g]] self else self in
      let self :=
        if in_False_None polarity
        then add_clauses [[x; - f; - g]] self else self in
      (Lit x, self)
    else
      (Deferred (if in_True_None polarity then [[f]; [g]] else [])
                (if in_False_None polarity then [[- f; - g]] else []), self).

Definition Or (f g : Z) (polarity : option bool) (add_new_clauses : bool)
    (self : Clauses) : value * Clauses :=
  if (f =? TRUE) || (g =? TRUE) then (Lit TRUE, self)
  else if f =? FALSE then (Lit g, self)
  else if g =? FALSE then (Lit f, self)
  else if f =? g then (Lit f, self)
  else if f =? - g then (Lit TRUE, self)
  else
    let '(f, g) := if g <? f then (g, f) else (f, g) in
    if add_new_clauses then
      let '(x, self) := new_var self in
      let self :=
        if in_True_None polarity
        then add_clauses [[- x; f; g]] self else self in
      let self :=
        if in_False_None polarity
        then add_clauses [[x; - f]; [x; - g]] self else self in
      (Lit x, self)
    else
      (Deferred (if in_True_None polarity then [[f; g]] else [])
                (if in_False_None polarity then [[- f]; [- g]] else []), self).

Definition Xor (f g : Z) (polarity : option bool) (add_new_clauses : bool)
    (self : Clauses) : value * Clauses :=
  if f =? FALSE then (Lit g, self)
  else if f =? TRUE then (Lit (Not g), self)
  else if g =? FALSE then (Lit f, self)
  else if g =? TRUE then (Lit (- f), self)
  else if f =? g then (Lit FALSE, self)
  else if f =? - g then (Lit TRUE, self)
  else
    let '(f, g) := if g <? f then (g, f) else (f, g) in
    if add_new_clauses then
      let '(x, self) := new_var self in
      let self :=
        if in_True_None polarity
        then add_clauses [[- x; f; g]; [- x; - f; - g]] self else self in
      let self :=
        if in_False_None polarity
        then add_clauses [[x; - f; g]; [x; f; - g]] self else self in
      (Lit x, self)
    else
      (Deferred (if in_True_None polarity then [[f; g]; [- f; - g]] else [])
                (if in_False_None polarity then [[- f; g]; [f; - g]] else []),
       self).

Definition ITE (c t f : Z) (polarity : option bool) (add_new_clauses : bool)
    (self : Clauses) : value * Clauses :=
  if c =? TRUE then (Lit t, self)
  else if c =? FALSE then (Lit f, self)
  else if t =? TRUE then Or c f polarity add_new_clauses self
  else if t =? FALSE then And (- c) f polarity add_new_clauses self
  else if f =? FALSE then And c t polarity add_new_clauses self
  else if f =? TRUE then Or t (- c) polarity add_new_clauses self
  else if t =? c then Or c f polarity add_new_clauses self
  else if t =? - c then And (- c) f polarity add_new_clauses self
  else if f =? c then And c t polarity add_new_clauses self
  else if f =? - c then Or t (- c) polarity add_new_clauses self
  else if t =? f then (Lit t, self)
  else if t =? - f then Xor c f polarity add_new_clauses self
  else
    let '(t, f, c) := if t <? f then (f, t, - c) else (t, f, c) in
    if add_new_clauses then
      let '(x, self) := new_var self in
      let self :=
        if in_True_None polarity
        then add_clauses [[- x; - c; t]; [- x; c; f]; [- x; t; f]] self
        else self in
      let self :=
        if in_False_None polarity
        then add_clauses [[x; - c; - t]; [x; c; - f]; [x; - t; - f]] self
        else self in
      (Lit x, self)
    else
      (Deferred
         (if in_True_None polarity then [[- c; t]; [c; f]; [t; f]] else [])
         (if in_False_None polarity
          then [[- c; - t]; [c; - f]; [- t; - f]] else []),
       self).

(** The loop of [All] over an iterator. [Combine] passes the lazy
    [map(self.assign, args)], so producing the next item may change the
    driver, and an early [return FALSE] leaves the remaining items
    unproduced: [next_item] produces one item. The result is [None] when the
    loop returned [FALSE], the set [vals] otherwise. *)
Fixpoint All_scan {A} (next_item : A → Clauses → Z * Clauses) (iter : list A)
    (vals : gset Z) (self : Clauses) : option (gset Z) * Clauses :=
  match iter with
  | [] => (Some vals, self)
  | a :: iter' =>
      let '(v, self) := next_item a self in
      if v =? TRUE then All_scan next_item iter' vals self
      else if (v =? FALSE) || bool_decide (- v ∈ vals) then (None, self)
      else All_scan next_item iter' ({[ v ]} ∪ vals) self
  end.

(** The set is read in the order of [elements]: Python leaves the
    iteration order of a set to the implementation, and [elements] stands
    for it. [nv == 0] and [nv == 1] are the cases of an empty and of a
    one-element enumeration. *)
Definition All_iter {A} (next_item : A → Clauses → Z * Clauses)
    (iter : list A) (polarity : option bool) (self : Clauses)
    : value * Clauses :=
  match All_scan next_item iter ∅ self with
  | (None, self) => (Lit FALSE, self)
  | (Some vals, self) =>
      match elements vals with
      | [] => (Lit TRUE, self)
      | [v] => (Lit v, self)
      | vs =>
          (Deferred
             (if in_True_None polarity then map (λ v, [v]) vs else [])
             (if in_False_None polarity then [map Z.opp vs] else []),
           self)
      end
  end.

Definition All (iter : list Z) (polarity : option bool) (self : Clauses)
    : value * Clauses :=
  All_iter (λ v s, (v, s)) iter polarity self.

Fixpoint Any_scan (iter : list Z) (vals : gset Z) : option (gset Z) :=
  match iter with
  | [] => Some vals
  | v :: iter' =>
      if v =? FALSE then Any_scan iter' vals
      else if (v =? TRUE) || bool_decide (- v ∈ vals) then None
      else Any_scan iter' ({[ v ]} ∪ vals)
  end.

Definition Any (iter : list Z) (polarity : option bool) (self : Clauses)
    : value * Clauses :=
  match Any_scan iter ∅ with
  | None => (Lit TRUE, self)
  | Some vals =>
      match elements vals with
      | [] => (Lit FALSE, self)
      | [v] => (Lit v, self)
      | vs =>
          (Deferred
             (if in_True_None polarity then [vs] else [])
             (if in_False_None polarity then map (λ v, [- v]) vs else []),
           self)
      end
  end.

(** [v == c] for a returned value [v] and an int [c]: a tuple never equals
    an int. *)
Definition value_is (c : Z) (v : value) : bool :=
  match v with Lit l => l =? c | Deferred _ _ => false end.

Definition is_tuple (v : value) : bool :=
  match v with Lit _ => false | Deferred _ _ => true end.

Definition value_pval (v : value) : list clause :=
  match v with Lit _ => [] | Deferred p _ => p end.

Definition value_nval (v : value) : list clause :=
  match v with Lit _ => [] | Deferred _ n => n end.

Definition Combine (args : list value) (polarity : option bool)
    (self : Clauses) : value * Clauses :=
  if existsb (value_is FALSE) args then (Lit FALSE, self)
  else
    let args := List.filter (λ v, negb (value_is TRUE v)) args in
    match args with
    | [] => (Lit TRUE, self)
    | [v] => (v, self)
    | _ =>
        if forallb is_tuple args then
          (Deferred (concat (map value_pval args))
                    (concat (map value_nval args)), self)
        else All_iter assign args polarity self
    end.

(** [itertools.combinations(l, 2)] *)
Fixpoint combinations2 {A} (l : list A) : list (A * A) :=
  match l with
  | [] => []
  | x :: l' => map (λ y, (x, y)) l' ++ combinations2 l'
  end.

Fixpoint Or_each (pairs : list (Z * Z)) (polarity : option bool)
    (self : Clauses) : list value * Clauses :=
  match pairs with
  | [] => ([], self)
  | (v1, v2) :: pairs' =>
      let '(v, self) := Or v1 v2 polarity false self in
      let '(combos, self) := Or_each pairs' polarity self in
      (v :: combos, self)
  end.

Definition AtMostOne_NSQ (vals : list Z) (polarity : option bool)
    (self : Clauses) : value * Clauses :=
  let '(combos, self) := Or_each (combinations2 (map Not vals)) polarity self in
  Combine combos polarity self.

Definition ExactlyOne_NSQ (vals : list Z) (polarity : option bool)
    (self : Clauses) : value * Clauses :=
  let '(v1, self) := AtMostOne_NSQ vals polarity self in
  let '(v2, self) := Any vals polarity self in
  Combine [v1; v2] polarity self.

(** [sorted] on [(coeff, lit)] tuples compares them lexicographically. *)
Definition tuple_le (p q : Z * Z) : Prop :=
  p.1 < q.1 ∨ (p.1 = q.1 ∧ p.2 ≤ q.2).

Global Instance tuple_le_dec : RelDecision tuple_le.
Proof. intros p q. unfold tuple_le. apply _. Defined.

(** The loop of [LB_Preprocess] over [zip(coeffs, lits)]. *)
Fixpoint LB_equation (pairs : list (Z * Z)) (equation : list (Z * Z))
    (offset : Z) : list (Z * Z) * Z :=
  match pairs with
  | [] => (equation, offset)
  | (coeff, lit) :: pairs' =>
      if lit =? TRUE then LB_equation pairs' equation (offset + coeff)
      else if (lit =? FALSE) || (coeff =? 0) then
        LB_equation pairs' equation offset
      else if coeff <? 0 then
        LB_equation pairs' (equation ++ [(- coeff, - lit)]) (offset + coeff)
      else LB_equation pairs' (equation ++ [(coeff, lit)]) offset
  end.

(** Returns [(lits, coeffs, offset)]. *)
Definition LB_Preprocess (lits coeffs : list Z) : list Z * list Z * Z :=
  let '(equation, offset) := LB_equation (zip coeffs lits) [] 0 in
  let equation := merge_sort tuple_le equation in
  (map snd equation, map fst equation, offset).

(** The memo key [(ndx, csum, total)] of [BDD]. *)
Abbreviation bdd_key := (Z * Z * Z)%type.

(** The state of the [while call_stack] loop: the stack (its top is the
    head of the list), the memo [ret] and the driver. *)
Record bdd_state := mkBDD {
  call_stack : list bdd_key;
  ret : gmap bdd_key Z;
  bdd_self : Clauses;
}.

(** One pass through the body of the loop, the stack being non-empty
    with [key] on top. *)
Definition BDD_body (lits coeffs : list Z) (lo hi : Z)
    (polarity : option bool) (key : bdd_key) (rest : list bdd_key)
    (ret : gmap bdd_key Z) (self : Clauses) : option bdd_state :=
  let '(ndx, csum, total) := key in
  let lower_limit := lo - csum in
  let upper_limit := hi - csum in
  if (lower_limit <=? 0) && (upper_limit >=? total) then
    Some (mkBDD rest (<[key := TRUE]> ret) self)
  else if (lower_limit >? total) || (upper_limit <? 0) then
    Some (mkBDD rest (<[key := FALSE]> ret) self)
  else
    LA ← getitem lits ndx;
    LC ← getitem coeffs ndx;
    let ndx := ndx - 1 in
    let total := total - LC in
    let hi_key := (ndx, if LA <? 0 then csum else csum + LC, total) in
    match ret !! hi_key with
    | None => Some (mkBDD (hi_key :: key :: rest) ret self)
    | Some thi =>
        let lo_key := (ndx, if LA <? 0 then csum + LC else csum, total) in
        match ret !! lo_key with
        | None => Some (mkBDD (lo_key :: key :: rest) ret self)
        | Some tlo =>
            let '(x, self) := ITE (Z.abs LA) thi tlo polarity true self in
            match x with
            | Lit x => Some (mkBDD rest (<[key := x]> ret) self)
            | Deferred _ _ => None
            end
        end
    end.

(** The loop, cut after [fuel] passes. *)
Fixpoint BDD_loop (fuel : nat) (lits coeffs : list Z) (lo hi : Z)
    (polarity : option bool) (st : bdd_state) : option bdd_state :=
  match fuel with
  | O => None
  | S fuel' =>
      match call_stack st with
      | [] => Some st
      | key :: rest =>
          st' ← BDD_body lits coeffs lo hi polarity key rest
                  (ret st) (bdd_self st);
          BDD_loop fuel' lits coeffs lo hi polarity st'
      end
  end.

(** A key is pushed only below a key of larger index, and is popped
    after at most two pushes: [2 ^ (nterms + 2)] passes suffice (lemma
    [BDD_returns]). *)
Definition BDD_fuel (nterms : Z) : nat := 2 ^ (Z.to_nat nterms + 2).

Definition BDD (lits coeffs : list Z) (nterms lo hi : Z)
    (polarity : option bool) (self : Clauses) : option (Z * Clauses) :=
  let total := sumZ (slice_to coeffs nterms) in
  let target := (nterms - 1, 0, total) in
  st ← BDD_loop (BDD_fuel nterms) lits coeffs lo hi polarity
         (mkBDD [target] ∅ self);
  r ← ret st !! target;
  Some (r, bdd_self st).

Definition LinearBound (lits coeffs : list Z) (lo hi : Z) (preprocess : bool)
    (polarity : option bool) (self : Clauses) : option (value * Clauses) :=
  let '(lits, coeffs, lo, hi) :=
    if preprocess then
      let '(lits, coeffs, offset) := LB_Preprocess lits coeffs in
      (lits, coeffs, lo - offset, hi - offset)
    else (lits, coeffs, lo, hi) in
  let nterms := Z.of_nat (length coeffs) in
  let '(nterms, nprune) :=
    if negb (nterms =? 0) && (default 0 (last coeffs) >? hi) then
      let nprune := Z.of_nat (length (List.filter (λ c, c >? hi) coeffs)) in
      (nterms - nprune, nprune)
    else (nterms, 0) in
  let total := sumZ (slice_to coeffs nterms) in
  let '(lo, hi) :=
    if preprocess then (Z.max lo 0, Z.min hi total) else (lo, hi) in
  if lo >? hi then Some (Lit FALSE, self)
  else
    '(res, self) ←
      (if nterms =? 0 then Some (if lo =? 0 then TRUE else FALSE, self)
       else BDD lits coeffs nterms lo hi polarity self);
    if negb (nprune =? 0) then
      let '(prune, self) :=
        All (map Z.opp (slice_from lits nterms)) polarity self in
      Some (Combine [Lit res; prune] polarity self)
    else Some (Lit res, self).

Definition AtMostOne_BDD (vals : list Z) (polarity : option bool)
    (self : Clauses) : option (value * Clauses) :=
  LinearBound vals (replicate (length vals) 1) 0 1 true polarity self.

Definition ExactlyOne_BDD (vals : list Z) (polarity : option bool)
    (self : Clauses) : option (value * Clauses) :=
  LinearBound vals (replicate (length vals) 1) 1 1 true polarity self.

(** A combinator applied to its arguments, as [Eval] calls it:
    [func( *args, polarity=polarity)]. *)
Definition combinator := option bool → Clauses → option (value * Clauses).

Definition Eval_ (func : combinator) (polarity : bool) (self : Clauses)
    : option Clauses :=
  let saved_state := save_state self in
  '(vals, self) ← func (Some polarity) self;
  match vals with
  | Deferred pval nval => Some (add_clauses nval (add_clauses pval self))
  | Lit v =>
      if negb ((v =? TRUE) || (v =? FALSE)) then
        Some (add_clause [if polarity then v else - v] self)
      else
        let self := restore_state saved_state self in
        Some (set_unsat (unsat self || negb (eqb (v =? TRUE) polarity)) self)
  end.

Definition Prevent (func : combinator) (self : Clauses) : option Clauses :=
  Eval_ func false self.

Definition Require (func : combinator) (self : Clauses) : option Clauses :=
  Eval_ func true self.

(** The methods of the class, as combinators. *)
Inductive call :=
  | Call_And (f g : Z)
  | Call_Or (f g : Z)
  | Call_Xor (f g : Z)
  | Call_ITE (c t f : Z)
  | Call_All (iter : list Z)
  | Call_Any (iter : list Z)
  | Call_AtMostOne_NSQ (vals : list Z)
  | Call_AtMostOne_BDD (vals : list Z)
  | Call_ExactlyOne_NSQ (vals : list Z)
  | Call_ExactlyOne_BDD (vals : list Z)
  | Call_LinearBound (lits coeffs : list Z) (lo hi : Z) (preprocess : bool).

Definition run_call (c : call) : combinator :=
  λ polarity self,
  match c with
  | Call_And f g => Some (And f g polarity false self)
  | Call_Or f g => Some (Or f g polarity false self)
  | Call_Xor f g => Some (Xor f g polarity false self)
  | Call_ITE c t f => Some (ITE c t f polarity false self)
  | Call_All iter => Some (All iter polarity self)
  | Call_Any iter => Some (Any iter polarity self)
  | Call_AtMostOne_NSQ vals => Some (AtMostOne_NSQ vals polarity self)
  | Call_AtMostOne_BDD vals => AtMostOne_BDD vals polarity self
  | Call_ExactlyOne_NSQ vals => Some (ExactlyOne_NSQ vals polarity self)
  | Call_ExactlyOne_BDD vals => ExactlyOne_BDD vals polarity self
  | Call_LinearBound lits coeffs lo hi preprocess =>
      LinearBound lits coeffs lo hi preprocess polarity self
  end.

(** ** Solving and minimizing *)

(** The messages of [minimize] that report a stage and its range. *)
Inductive event :=
  | Beginning (peak : bool)
  | Initial_range (lo hi : Z)
  | Bisection_failure (lo hi : Z)
  | Bisection_success (lo hi : Z)
  | Final_objective (peak : bool) (bestval : Z).

(** How a computation that may raise or loop ended. *)
Inductive outcome (A : Type) :=
  | Returned (a : A)
  | Raised
  | Out_of_fuel.
Arguments Returned {A} a.
Arguments Raised {A}.
Arguments Out_of_fuel {A}.

(** The variables of the [while True] loop of [minimize]. *)
Record bisect_state := mkBisect {
  bs_lo : Z;
  bs_hi : Z;
  bs_try0 : option Z;
  bs_bestsol : list Z;
  bs_bestval : Z;
  bs_self : Clauses;
  bs_log : list event;
}.

(** The generator [preproc_] inside [sat]. *)
Fixpoint preproc_ (cc : list Z) : list Z :=
  match cc with
  | [] => []
  | c :: cc' =>
      if c =? FALSE then preproc_ cc'
      else if c =? TRUE then [c]
      else c :: preproc_ cc'
  end.

(** The generator [preproc] inside [sat]. *)
Fixpoint preproc (eqs : list clause) : list clause :=
  match eqs with
  | [] => []
  | cc :: eqs' =>
      let cc := preproc_ cc in
      match last cc with
      | None => [cc]
      | Some c => if negb (c =? TRUE) then cc :: preproc eqs' else preproc eqs'
      end
  end.

(** [{a: c for c, a in zip(coeffs, lits)}]: a later pair overrides. *)
Definition objective_dict_of (lits coeffs : list Z) : gmap Z Z :=
  foldl (λ d p, <[p.2 := p.1]> d) ∅ (zip coeffs lits).

(** [objective_dict.get(s, 0) for s in sol] *)
Definition objective_values (sol : list Z) (objective_dict : gmap Z Z)
    : list Z :=
  map (λ s, default 0 (objective_dict !! s)) sol.

Definition peak_val (sol : list Z) (objective_dict : gmap Z Z) : option Z :=
  py_max (objective_values sol objective_dict).

Definition sum_val (sol : list Z) (objective_dict : gmap Z Z) : Z :=
  sumZ (objective_values sol objective_dict).

Definition objval (peak : bool) (sol : list Z) (objective_dict : gmap Z Z)
    : option Z :=
  if peak then peak_val sol objective_dict
  else Some (sum_val sol objective_dict).

(** [tuple(a for c, a in zip(coeffs, lits) if keep c)] *)
Definition lits_where (keep : Z → bool) (lits coeffs : list Z) : list Z :=
  map snd (List.filter (λ p, keep p.1) (zip coeffs lits)).

(** The driver as an exception raised inside [BDD] leaves it: the loop
    stops at the pass that raises, on [lits[ndx]] or [coeffs[ndx]], before
    this pass adds anything; what the earlier passes added stays. *)
Fixpoint BDD_loop_raised (fuel : nat) (lits coeffs : list Z) (lo hi : Z)
    (polarity : option bool) (st : bdd_state) : Clauses :=
  match fuel with
  | O => bdd_self st
  | S fuel' =>
      match call_stack st with
      | [] => bdd_self st
      | key :: rest =>
          match BDD_body lits coeffs lo hi polarity key rest
                  (ret st) (bdd_self st) with
          | None => bdd_self st
          | Some st' => BDD_loop_raised fuel' lits coeffs lo hi polarity st'
          end
      end
  end.

(** The driver as a call of [LinearBound] that raises leaves it: only
    the call of [BDD] can raise. *)
Definition LinearBound_raised (lits coeffs : list Z) (lo hi : Z)
    (preprocess : bool) (polarity : option bool) (self : Clauses)
    : Clauses :=
  let '(lits, coeffs, lo, hi) :=
    if preprocess then
      let '(lits, coeffs, offset) := LB_Preprocess lits coeffs in
      (lits, coeffs, lo - offset, hi - offset)
    else (lits, coeffs, lo, hi) in
  let nterms := Z.of_nat (length coeffs) in
  let nterms :=
    if negb (nterms =? 0) && (default 0 (last coeffs) >? hi) then
      nterms - Z.of_nat (length (List.filter (λ c, c >? hi) coeffs))
    else nterms in
  let total := sumZ (slice_to coeffs nterms) in
  let '(lo, hi) :=
    if preprocess then (Z.max lo 0, Z.min hi total) else (lo, hi) in
  if (lo >? hi) || (nterms =? 0) then self
  else
    BDD_loop_raised (BDD_fuel nterms) lits coeffs lo hi polarity
      (mkBDD [(nterms - 1, 0, total)] ∅ self).

Section backend.

(** [self._sat_solver.run(m, limit=limit)]: the external SAT solver, a
    function of the clause list, the number of variables and the
    propagation limit; it answers a list of literals or [None]. *)
Variable run : list clause → Z → Z → option (list Z).

Definition _run_sat (limit : Z) (self : Clauses)
    : option (list Z) * Clauses :=
  (run (as_list self) (m self) limit,
   mkClauses (unsat self) (m self) (_clauses self) (S (backend_runs self))).

Definition sat (additional : option (list clause)) (includeIf : bool)
    (limit : Z) (self : Clauses) : option (list Z) * Clauses :=
  if unsat self then (None, self)
  else if m self =? 0 then (Some [], self)
  else
    let saved_state := save_state self in
    (* [additional] after the first [if additional:] block; a falsy one is
       either [None] or empty and is never read again *)
    let additional :=
      match additional with
      | Some (cc :: eqs) => preproc (cc :: eqs)
      | _ => []
      end in
    match last additional with
    | Some [] => (None, self)
    | Some _ =>
        let self := add_clauses additional self in
        let '(solution, self) := _run_sat limit self in
        if bool_decide (solution = None) || negb includeIf
        then (solution, restore_state saved_state self)
        else (solution, self)
    | None => _run_sat limit self
    end.

(** The end of a pass of the loop that did not [break]. *)
Definition bisect_reset (m_orig : Z) (saved_state : nat) (self : Clauses)
    : Clauses :=
  let self := set_m m_orig self in
  let self :=
    if bool_decide (save_state self ≠ saved_state)
    then restore_state saved_state self else self in
  set_unsat false self.

(** The constraints of a probe: the first statements of the body of
    [while True], up to the call of [sat]. *)
Definition bisect_probe (peak : bool) (lits coeffs : list Z) (lo mid : Z)
    (self : Clauses) : option Clauses :=
  if peak then
    let prevent := lits_where (λ c, c >? mid) lits coeffs in
    let require :=
      lits_where (λ c, (lo <=? c) && (c <=? mid)) lits coeffs in
    self ← Prevent (run_call (Call_Any prevent)) self;
    match require with
    | [] => Some self
    | _ => Require (run_call (Call_Any require)) self
    end
  else
    Require (run_call (Call_LinearBound lits coeffs lo mid false)) self.

(** One pass through the body of [while True]; the boolean tells whether
    it ended in [break]. *)
Definition bisect_body (peak : bool) (lits coeffs : list Z)
    (objective_dict : gmap Z Z) (m_orig : Z) (saved_state : nat)
    (st : bisect_state) : option (bool * bisect_state) :=
  let lo := bs_lo st in
  let hi := bs_hi st in
  let mid :=
    match bs_try0 st with
    | None => (lo + hi) `div` 2
    | Some try0 => try0
    end in
  self ← bisect_probe peak lits coeffs lo mid (bs_self st);
  let '(newsol, self) := sat None false 0 self in
  match newsol with
  | None =>
      let lo := mid + 1 in
      let log := bs_log st ++ [Bisection_failure lo hi] in
      if lo >? hi then
        Some (true, mkBisect lo hi (bs_try0 st) (bs_bestsol st)
                      (bs_bestval st) self log)
      else
        Some (false, mkBisect lo hi None (bs_bestsol st) (bs_bestval st)
                       (bisect_reset m_orig saved_state self) log)
  | Some newsol =>
      let done := lo =? mid in
      bestval ← objval peak newsol objective_dict;
      let hi := bestval in
      let log := bs_log st ++ [Bisection_success lo hi] in
      if done then
        Some (true, mkBisect lo hi (bs_try0 st) newsol bestval self log)
      else
        Some (false, mkBisect lo hi None newsol bestval
                       (bisect_reset m_orig saved_state self) log)
  end.

(** The variables as a pass that raises leaves them. The exception comes
    from the encoding of the probe (of the sum stage: [Any] never raises),
    and the driver keeps what the encoding had added; or it comes from
    [objval], [max] of an empty sequence, after the constraints of the
    probe were added, [sat] was called and [bestsol] was rebound. Nothing
    is logged before either. *)
Definition bisect_raised (peak : bool) (lits coeffs : list Z)
    (st : bisect_state) : bisect_state :=
  let lo := bs_lo st in
  let hi := bs_hi st in
  let mid :=
    match bs_try0 st with
    | None => (lo + hi) `div` 2
    | Some try0 => try0
    end in
  match bisect_probe peak lits coeffs lo mid (bs_self st) with
  | None =>
      let self :=
        if peak then bs_self st
        else LinearBound_raised lits coeffs lo mid false (Some true)
               (bs_self st) in
      mkBisect lo hi (bs_try0 st) (bs_bestsol st) (bs_bestval st) self
        (bs_log st)
  | Some self =>
      let '(newsol, self) := sat None false 0 self in
      mkBisect lo hi (bs_try0 st) (default (bs_bestsol st) newsol)
        (bs_bestval st) self (bs_log st)
  end.

(** The loop, cut after [fuel] passes; the state is the last one
    reached, after a pass that raises the one this pass leaves. *)
Fixpoint bisect_loop (fuel : nat) (peak : bool) (lits coeffs : list Z)
    (objective_dict : gmap Z Z) (m_orig : Z) (saved_state : nat)
    (st : bisect_state) : outcome unit * bisect_state :=
  match fuel with
  | O => (Out_of_fuel, st)
  | S fuel' =>
      match bisect_body peak lits coeffs objective_dict m_orig saved_state st
      with
      | None => (Raised, bisect_raised peak lits coeffs st)
      | Some (true, st') => (Returned (), st')
      | Some (false, st') =>
          bisect_loop fuel' peak lits coeffs objective_dict m_orig
            saved_state st'
      end
  end.

(** One turn of [for peak in ...] up to the end of its [while] loop. *)
Definition minimize_stage (fuel : nat) (peak trymax : bool)
    (lits coeffs : list Z) (lo try0 : Z) (bestsol : list Z)
    (self : Clauses) (log : list event) : outcome unit * bisect_state :=
  let objective_dict := objective_dict_of lits coeffs in
  let log := log ++ [Beginning peak] in
  match objval peak bestsol objective_dict with
  | None => (Raised, mkBisect lo lo (Some try0) bestsol 0 self log)
  | Some bestval =>
      let hi := bestval in
      let m_orig := m self in
      let saved_state := save_state self in
      let try0 := if trymax && negb peak then hi - 1 else try0 in
      let log := log ++ [Initial_range lo hi] in
      bisect_loop fuel peak lits coeffs objective_dict m_orig saved_state
        (mkBisect lo hi (Some try0) bestsol bestval self log)
  end.

(** [minimize]: the result, the messages logged and the driver. Each
    [while] loop is cut after [fuel] passes. *)
Definition minimize (fuel : nat) (lits coeffs : list Z)
    (bestsol : option (list Z)) (trymax : bool) (self : Clauses)
    : outcome (option (list Z) * Z) * list event * Clauses :=
  let '(bestsol, self) :=
    match bestsol with
    | None => sat None false 0 self
    | Some sol =>
        if Z.of_nat (length sol) <? m self then sat None false 0 self
        else (Some sol, self)
    end in
  let unsat_cost :=
    match coeffs with
    | [] => 1
    | _ => sumZ (map Z.abs coeffs) + 1
    end in
  match bestsol with
  | None => (Returned (None, unsat_cost), [], self)
  | Some bestsol =>
      if unsat self then (Returned (Some bestsol, unsat_cost), [], self)
      else
        match coeffs with
        | [] => (Returned (Some bestsol, 0), [], self)
        | _ =>
            let '(lits, coeffs, offset) := LB_Preprocess lits coeffs in
            match py_max coeffs with
            | None => (Raised, [], self)
            | Some maxval =>
                let finish (r : outcome unit * bisect_state) (peak : bool)
                    (next : bisect_state → list event →
                            outcome (option (list Z) * Z) * list event
                            * Clauses) :=
                  let st := r.2 in
                  match r.1 with
                  | Raised => (Raised, bs_log st, bs_self st)
                  | Out_of_fuel => (Out_of_fuel, bs_log st, bs_self st)
                  | Returned _ =>
                      let log :=
                        bs_log st ++ [Final_objective peak (bs_bestval st)] in
                      if bs_bestval st =? 0 then
                        (Returned (Some (bs_bestsol st), bs_bestval st),
                         log, bs_self st)
                      else next st log
                  end in
                let last_stage (st : bisect_state) (log : list event) :=
                  (Returned (Some (bs_bestsol st), bs_bestval st), log,
                   bs_self st) in
                if maxval >? 1 then
                  finish
                    (minimize_stage fuel true trymax lits coeffs 0 0
                       bestsol self [])
                    true
                    (λ st log,
                      let bestval := bs_bestval st in
                      let objective_dict := objective_dict_of lits coeffs in
                      let lits' :=
                        lits_where (λ c, c <=? bestval) lits coeffs in
                      let coeffs' :=
                        List.filter (λ c, c <=? bestval) coeffs in
                      let try0 := sum_val (bs_bestsol st) objective_dict in
                      let lo := bestval in
                      finish
                        (minimize_stage fuel false trymax lits' coeffs' lo
                           try0 (bs_bestsol st) (bs_self st) log)
                        false last_stage)
                else
                  finish
                    (minimize_stage fuel false trymax lits coeffs 0 0
                       bestsol self [])
                    false last_stage
            end
        end
  end.

End backend.

(** A reference backend: the first satisfying assignment in an
    enumeration of all the assignments of the variables [1..nvars], each
    written as the list of its true literals; it refuses a variable count
    that reaches the sentinel. *)
Definition satisfies (sol : list Z) (c : clause) : bool :=
  existsb (λ l, bool_decide (l ∈ sol)) c.

Fixpoint enumerate (n : nat) : list (list Z) :=
  match n with
  | O => [[]]
  | S n' =>
      let v := Z.of_nat n in
      map (λ sol, sol ++ [- v]) (enumerate n')
      ++ map (λ sol, sol ++ [v]) (enumerate n')
  end.

Definition brute_force (clauses : list clause) (nvars limit : Z)
    : option (list Z) :=
  if TRUE <=? nvars then None
  else
    head (List.filter (λ sol, forallb (satisfies sol) clauses)
            (enumerate (Z.to_nat nvars))).

(** The calls a client can make on a driver; a call that raises ends the
    sequence with [None]. *)
Inductive driver_op :=
  | Op_new_var
  | Op_add_clause (c : clause)
  | Op_add_clauses (cs : list clause)
  | Op_assign (vals : value)
  | Op_And (f g : Z) (polarity : option bool) (add_new_clauses : bool)
  | Op_Or (f g : Z) (polarity : option bool) (add_new_clauses : bool)
  | Op_Xor (f g : Z) (polarity : option bool) (add_new_clauses : bool)
  | Op_ITE (c t f : Z) (polarity : option bool) (add_new_clauses : bool)
  | Op_call (c : call) (polarity : option bool)
  | Op_Require (c : call)
  | Op_Prevent (c : call)
  | Op_sat (additional : option (list clause)) (includeIf : bool) (limit : Z).

Definition run_driver_op (run : list clause → Z → Z → option (list Z))
    (o : driver_op) (self : Clauses) : option Clauses :=
  match o with
  | Op_new_var => Some (new_var self).2
  | Op_add_clause c => Some (add_clause c self)
  | Op_add_clauses cs => Some (add_clauses cs self)
  | Op_assign vals => Some (assign vals self).2
  | Op_And f g polarity add_new_clauses =>
      Some (And f g polarity add_new_clauses self).2
  | Op_Or f g polarity add_new_clauses =>
      Some (Or f g polarity add_new_clauses self).2
  | Op_Xor f g polarity add_new_clauses =>
      Some (Xor f g polarity add_new_clauses self).2
  | Op_ITE c t f polarity add_new_clauses =>
      Some (ITE c t f polarity add_new_clauses self).2
  | Op_call c polarity => snd <$> run_call c polarity self
  | Op_Require c => Require (run_call c) self
  | Op_Prevent c => Prevent (run_call c) self
  | Op_sat additional includeIf limit =>
      Some (sat run additional includeIf limit self).2
  end.

Fixpoint run_driver_ops (run : list clause → Z → Z → option (list Z))
    (ops : list driver_op) (self : Clauses) : option Clauses :=
  match ops with
  | [] => Some self
  | o :: ops' =>
      self ← run_driver_op run o self;
      run_driver_ops run ops' self
  end.

(** * Specification vocabulary *)

(** ** Models *)

(** The truth of a literal under an assignment [M] of the variables. The
    sentinels are constants, the way [sat] reads them in a clause. *)
Definition lit_true (M : Z → bool) (l : Z) : bool :=
  if l =? TRUE then true
  else if l =? FALSE then false
  else if 0 <? l then M l else negb (M (- l)).

Definition clause_true (M : Z → bool) (c : clause) : bool :=
  existsb (lit_true M) c.

Definition models (M : Z → bool) (cs : list clause) : Prop :=
  forallb (clause_true M) cs = true.

(** [Σ coeffsᵢ · [litsᵢ is true]] over [zip(coeffs, lits)]. *)
Definition wsum (M : Z → bool) (lits coeffs : list Z) : Z :=
  sumZ (map (λ p : Z * Z, if lit_true M p.2 then p.1 else 0) (zip coeffs lits)).

(** A returned literal [b] stands for the condition [e] as far as the
    polarity asks: [b] implies [e] when the positive clauses are emitted,
    [e] implies [b] when the negative ones are. *)
Definition agrees (polarity : option bool) (b e : bool) : Prop :=
  (in_True_None polarity = true → b = true → e = true)
  ∧ (in_False_None polarity = true → e = true → b = true).

(** ** The contract of the backend *)

(** A solution over the variables [1..nvars], in the form in which
    pycosat, the default backend, answers: each variable occurs once, as
    itself or negated, and no literal is a sentinel. *)
Definition assignment (nvars : Z) (sol : list Z) : Prop :=
  NoDup sol
  ∧ (∀ l, l ∈ sol → 1 ≤ Z.abs l ≤ nvars ∧ Z.abs l ≠ TRUE)
  ∧ (∀ v, 1 ≤ v ≤ nvars → (v ∈ sol ↔ - v ∉ sol)).

Definition satisfies_all (sol : list Z) (cs : list clause) : Prop :=
  forallb (satisfies sol) cs = true.

(** A solution the backend returns is an assignment that satisfies every
    clause. *)
Definition backend_sound (run : list clause → Z → Z → option (list Z))
    : Prop :=
  ∀ cs nvars limit sol,
    run cs nvars limit = Some sol → assignment nvars sol ∧ satisfies_all sol cs.

(** Without a propagation limit, the backend finds a solution when there
    is one. *)
Definition backend_complete (run : list clause → Z → Z → option (list Z))
    : Prop :=
  ∀ cs nvars sol,
    assignment nvars sol → satisfies_all sol cs → run cs nvars 0 ≠ None.

(** ** The bounds of the bisection *)

(** The log of [minimize] holds the pair [(lo, hi)] at the entry of each
    [while] loop ([Initial_range]) and at the end of every pass through it
    ([Bisection_failure], [Bisection_success]); [Beginning] opens a stage.
    [monotone_from prev log] tells whether every pair of the log lies
    within the pair before it in the same stage, [prev] being the last
    pair seen, if any. *)
Definition within (prev : option (Z * Z)) (lo hi : Z) : bool :=
  match prev with
  | None => true
  | Some (lo0, hi0) => (lo0 <=? lo) && (hi <=? hi0)
  end.

Fixpoint monotone_from (prev : option (Z * Z)) (log : list event) : bool :=
  match log with
  | [] => true
  | Beginning _ :: log' => monotone_from None log'
  | Initial_range lo hi :: log' =>
      within prev lo hi && monotone_from (Some (lo, hi)) log'
  | Bisection_failure lo hi :: log' =>
      within prev lo hi && monotone_from (Some (lo, hi)) log'
  | Bisection_success lo hi :: log' =>
      within prev lo hi && monotone_from (Some (lo, hi)) log'
  | Final_objective _ _ :: log' => monotone_from prev log'
  end.

Definition monotone_log (log : list event) : bool := monotone_from None log.

(** The last pair of the current stage. *)
Fixpoint last_range (prev : option (Z * Z)) (log : list event)
    : option (Z * Z) :=
  match log with
  | [] => prev
  | Beginning _ :: log' => last_range None log'
  | Initial_range lo hi :: log' => last_range (Some (lo, hi)) log'
  | Bisection_failure lo hi :: log' => last_range (Some (lo, hi)) log'
  | Bisection_success lo hi :: log' => last_range (Some (lo, hi)) log'
  | Final_objective _ _ :: log' => last_range prev log'
  end.


(** * Properties *)

(** ** Sentinels *)

Lemma TRUE_pos : 0 < TRUE.
Proof. reflexivity. Qed.

Lemma FALSE_opp : FALSE = - TRUE.
Proof. reflexivity. Qed.

Global Opaque TRUE FALSE.

Lemma TRUE_opp : TRUE = - FALSE.
Proof. rewrite FALSE_opp. lia. Qed.

Lemma FALSE_neg : FALSE < 0.
Proof. pose proof TRUE_pos. rewrite FALSE_opp. lia. Qed.

Lemma TRUE_ne_FALSE : TRUE ≠ FALSE.
Proof. pose proof TRUE_pos. rewrite FALSE_opp. lia. Qed.

(** ** Save and restore on the two clause stores *)

Lemma ClauseList_run_ops_prefix (ops : list ClauseList.op)
    (store : ClauseList.t) :
  store `prefix_of` ClauseList.run_ops ops store.
Proof.
  revert store. induction ops as [|o ops IH]; intros store; [done|].
  cbn. etrans; [|apply IH].
  destruct o; apply prefix_app_r; done.
Qed.

Lemma ClauseArray_array_extend_prefix (items : list Z) (a : ClauseArray.t) :
  a `prefix_of` (ClauseArray.array_extend items a).1.
Proof.
  revert a. induction items as [|v items IH]; intros a; cbn; [done|].
  unfold ClauseArray.array_append. destruct (ClauseArray.int_fits v); cbn; [|done].
  etrans; [|apply IH]. by apply prefix_app_r.
Qed.

Lemma ClauseArray_append_prefix (c : clause) (a : ClauseArray.t) :
  a `prefix_of` (ClauseArray.append c a).1.
Proof.
  unfold ClauseArray.append.
  pose proof (ClauseArray_array_extend_prefix c a) as H.
  destruct (ClauseArray.array_extend c a) as [a' [|]]; cbn in *; [|done].
  by apply prefix_app_r.
Qed.

Lemma ClauseArray_extend_prefix (cs : list clause) (a : ClauseArray.t) :
  a `prefix_of` (ClauseArray.extend cs a).1.
Proof.
  revert a. induction cs as [|c cs IH]; intros a; cbn; [done|].
  pose proof (ClauseArray_append_prefix c a) as H.
  destruct (ClauseArray.append c a) as [a' [|]]; cbn in *; [|done].
  etrans; [exact H|apply IH].
Qed.

Lemma ClauseArray_run_ops_prefix (ops : list ClauseArray.op)
    (a : ClauseArray.t) :
  a `prefix_of` (ClauseArray.run_ops ops a).1.
Proof.
  revert a. induction ops as [|o ops IH]; intros a; cbn; [done|].
  assert (a `prefix_of` (ClauseArray.run_op o a).1) as H.
  { destruct o; [apply ClauseArray_append_prefix|apply ClauseArray_extend_prefix]. }
  destruct (ClauseArray.run_op o a) as [a' [|]]; cbn in *; [|done].
  etrans; [exact H|apply IH].
Qed.

Lemma take_length_prefix {A} (l k : list A) :
  l `prefix_of` k → take (length l) k = l.
Proof. intros [k' ->]. by rewrite take_app_length. Qed.

(** C6. On a [_ClauseList] and on a [_ClauseArray], whatever the store
    holds and whatever [append] and [extend] calls follow
    [token = save_state()] (on the array, up to a call that raises),
    [restore_state(token)] makes [as_list()] yield the clauses present at
    save time; restoring a token equal to the current state changes
    nothing. *)
Theorem save_restore_as_list :
  (∀ (store : ClauseList.t) (ops : list ClauseList.op),
     ClauseList.as_list
       (ClauseList.restore_state (ClauseList.save_state store)
          (ClauseList.run_ops ops store))
     = ClauseList.as_list store)
  ∧ (∀ (store : ClauseArray.t) (ops : list ClauseArray.op),
     ClauseArray.as_list
       (ClauseArray.restore_state (ClauseArray.save_state store)
          (ClauseArray.run_ops ops store).1)
     = ClauseArray.as_list store)
  ∧ (∀ store : ClauseList.t,
     ClauseList.restore_state (ClauseList.save_state store) store = store)
  ∧ (∀ store : ClauseArray.t,
     ClauseArray.restore_state (ClauseArray.save_state store) store = store).
Proof.
  repeat split.
  - intros store ops. unfold ClauseList.as_list, ClauseList.restore_state,
      ClauseList.save_state.
    apply take_length_prefix, ClauseList_run_ops_prefix.
  - intros store ops. unfold ClauseArray.restore_state, ClauseArray.save_state.
    f_equal. apply take_length_prefix, ClauseArray_run_ops_prefix.
  - intros store. apply firstn_all.
  - intros store. apply firstn_all.
Qed.

(** ** What a call may change in the driver *)

(** [grows d d']: the clause store was only appended to, and [m] did not
    decrease. *)
Definition grows (d d' : Clauses) : Prop :=
  _clauses d `prefix_of` _clauses d' ∧ m d ≤ m d'.

(** [extends d d']: moreover the flag and the backend were left alone. *)
Definition extends (d d' : Clauses) : Prop :=
  grows d d' ∧ unsat d' = unsat d ∧ backend_runs d' = backend_runs d.

Global Instance grows_preorder : PreOrder grows.
Proof.
  split.
  - intros d. split; [done|lia].
  - intros d1 d2 d3 [H1 H2] [H3 H4]. split; [by etrans|lia].
Qed.

Global Instance extends_preorder : PreOrder extends.
Proof.
  split.
  - intros d. split; [reflexivity|done].
  - intros d1 d2 d3 (H1 & H2 & H3) (H4 & H5 & H6).
    split; [by etrans|split; congruence].
Qed.

Lemma extends_grows d d' : extends d d' → grows d d'.
Proof. by intros [? _]. Qed.

Lemma extends_add_clauses cs d : extends d (add_clauses cs d).
Proof.
  repeat split; cbn; [|lia]. by apply prefix_app_r.
Qed.

Lemma extends_add_clause c d : extends d (add_clause c d).
Proof.
  repeat split; cbn; [|lia]. by apply prefix_app_r.
Qed.

Lemma extends_new_var d : extends d (new_var d).2.
Proof. repeat split; cbn; [done|lia]. Qed.

(** Closes [extends d d'] when [d'] is [d] after [new_var] and
    [add_clauses], whatever the path taken through the combinator. *)
Ltac extends_step :=
  first
    [ reflexivity
    | etrans; [|apply extends_add_clauses]
    | etrans; [|apply extends_add_clause]
    | apply extends_new_var ].

Ltac solve_extends :=
  unfold new_var; cbn [fst snd]; repeat case_match; simplify_eq/=;
  repeat extends_step.

Lemma And_extends f g polarity add_new_clauses d :
  extends d (And f g polarity add_new_clauses d).2.
Proof. unfold And. solve_extends. Qed.

Lemma Or_extends f g polarity add_new_clauses d :
  extends d (Or f g polarity add_new_clauses d).2.
Proof. unfold Or. solve_extends. Qed.

Lemma Xor_extends f g polarity add_new_clauses d :
  extends d (Xor f g polarity add_new_clauses d).2.
Proof. unfold Xor. solve_extends. Qed.

Lemma ITE_extends c t f polarity add_new_clauses d :
  extends d (ITE c t f polarity add_new_clauses d).2.
Proof.
  unfold ITE.
  repeat (case_match; [solve [apply And_extends | apply Or_extends
                             | apply Xor_extends | reflexivity]|]).
  solve_extends.
Qed.

Lemma assign_extends vals d : extends d (assign vals d).2.
Proof. unfold assign. solve_extends. Qed.

Lemma All_scan_extends {A} (next_item : A → Clauses → Z * Clauses)
    (iter : list A) vals d :
  (∀ a d0, extends d0 (next_item a d0).2) →
  extends d (All_scan next_item iter vals d).2.
Proof.
  intros Hnext. revert vals d.
  induction iter as [|a iter IH]; intros vals d; cbn; [reflexivity|].
  pose proof (Hnext a d) as Ha.
  destruct (next_item a d) as [v d1]; cbn in Ha.
  repeat case_match; cbn; try done; etrans; eauto.
Qed.

Lemma All_iter_extends {A} (next_item : A → Clauses → Z * Clauses)
    (iter : list A) polarity d :
  (∀ a d0, extends d0 (next_item a d0).2) →
  extends d (All_iter next_item iter polarity d).2.
Proof.
  intros Hnext. unfold All_iter.
  pose proof (All_scan_extends next_item iter ∅ d Hnext) as H.
  destruct (All_scan next_item iter ∅ d) as [[vals|] d1]; cbn in H;
    repeat case_match; done.
Qed.

Lemma All_same_driver iter polarity d : (All iter polarity d).2 = d.
Proof.
  unfold All, All_iter.
  assert (∀ vals, (All_scan (λ v s, (v, s)) iter vals d).2 = d) as H.
  { induction iter as [|v iter IH]; intros vals; cbn; [done|].
    repeat case_match; cbn; auto. }
  specialize (H ∅).
  destruct (All_scan _ iter ∅ d) as [[vals|] d1]; cbn in H; subst;
    repeat case_match; done.
Qed.

Lemma Any_same_driver iter polarity d : (Any iter polarity d).2 = d.
Proof. unfold Any. repeat case_match; done. Qed.

Lemma Combine_extends args polarity d :
  extends d (Combine args polarity d).2.
Proof.
  unfold Combine. repeat case_match; try reflexivity.
  apply All_iter_extends. intros; apply assign_extends.
Qed.

Lemma Or_each_extends pairs polarity d :
  extends d (Or_each pairs polarity d).2.
Proof.
  revert d. induction pairs as [|[v1 v2] pairs IH]; intros d; cbn;
    [reflexivity|].
  pose proof (Or_extends v1 v2 polarity false d) as H1.
  destruct (Or v1 v2 polarity false d) as [v d1]; cbn in H1.
  specialize (IH d1). destruct (Or_each pairs polarity d1) as [combos d2].
  cbn in *. by etrans.
Qed.

Lemma AtMostOne_NSQ_extends vals polarity d :
  extends d (AtMostOne_NSQ vals polarity d).2.
Proof.
  unfold AtMostOne_NSQ.
  pose proof (Or_each_extends (combinations2 (map Not vals)) polarity d) as H.
  destruct (Or_each _ polarity d) as [combos d1]; cbn in H.
  etrans; [exact H|apply Combine_extends].
Qed.

Lemma ExactlyOne_NSQ_extends vals polarity d :
  extends d (ExactlyOne_NSQ vals polarity d).2.
Proof.
  unfold ExactlyOne_NSQ.
  pose proof (AtMostOne_NSQ_extends vals polarity d) as H1.
  destruct (AtMostOne_NSQ vals polarity d) as [v1 d1]; cbn in H1.
  pose proof (Any_same_driver vals polarity d1) as H2.
  destruct (Any vals polarity d1) as [v2 d2]; cbn in H2; subst d2.
  etrans; [exact H1|apply Combine_extends].
Qed.

Lemma BDD_body_extends lits coeffs lo hi polarity key rest memo d st :
  BDD_body lits coeffs lo hi polarity key rest memo d = Some st →
  extends d (bdd_self st).
Proof.
  unfold BDD_body. intros H.
  repeat (case_match; simplify_option_eq); try reflexivity.
  all: match goal with
  | H : ITE ?c ?t ?f ?p ?a ?d = _ |- _ =>
      pose proof (ITE_extends c t f p a d) as He; rewrite H in He
  end; exact He.
Qed.

Lemma BDD_loop_extends fuel lits coeffs lo hi polarity st st' :
  BDD_loop fuel lits coeffs lo hi polarity st = Some st' →
  extends (bdd_self st) (bdd_self st').
Proof.
  revert st. induction fuel as [|fuel IH]; intros st; cbn; [done|].
  destruct (call_stack st) as [|key rest]; [intros; simplify_eq; reflexivity|].
  intros H. apply bind_Some in H as (st1 & H1 & H2).
  etrans; [eapply BDD_body_extends; exact H1|by apply IH].
Qed.

Lemma BDD_extends lits coeffs nterms lo hi polarity d r d' :
  BDD lits coeffs nterms lo hi polarity d = Some (r, d') → extends d d'.
Proof.
  unfold BDD. intros H.
  apply bind_Some in H as (st & H1 & H2).
  apply bind_Some in H2 as (x & H2 & H3). simplify_eq.
  by apply BDD_loop_extends in H1.
Qed.

Lemma LinearBound_extends lits coeffs lo hi preprocess polarity d v d' :
  LinearBound lits coeffs lo hi preprocess polarity d = Some (v, d') →
  extends d d'.
Proof.
  unfold LinearBound. intros HLB.
  repeat (case_match; simplify_eq); try reflexivity;
    apply bind_Some in HLB as ([res d1] & HBDD & HLB);
    (assert (extends d d1) as Hd1
      by (simplify_eq; try reflexivity; by eapply BDD_extends));
    repeat case_match; simplify_eq; try done.
  all:  match goal with
    | HA : All ?i ?p ?d = _, HC : Combine ?a ?q ?e = _ |- _ =>
        pose proof (All_same_driver i p d) as E1; rewrite HA in E1;
        pose proof (Combine_extends a q e) as E2; rewrite HC in E2;
        cbn in *; subst
    end; by etrans.
Qed.

Lemma run_call_extends c polarity d v d' :
  run_call c polarity d = Some (v, d') → extends d d'.
Proof.
  destruct c; cbn; intros H; try (eapply LinearBound_extends; exact H);
    injection H as H.
  - pose proof (And_extends f g polarity false d) as E. by rewrite H in E.
  - pose proof (Or_extends f g polarity false d) as E. by rewrite H in E.
  - pose proof (Xor_extends f g polarity false d) as E. by rewrite H in E.
  - pose proof (ITE_extends c t f polarity false d) as E. by rewrite H in E.
  - pose proof (All_same_driver iter polarity d) as E. rewrite H in E.
    cbn in E; subst. reflexivity.
  - pose proof (Any_same_driver iter polarity d) as E. rewrite H in E.
    cbn in E; subst. reflexivity.
  - pose proof (AtMostOne_NSQ_extends vals polarity d) as E.
    by rewrite H in E.
  - pose proof (ExactlyOne_NSQ_extends vals polarity d) as E.
    by rewrite H in E.
Qed.
Lemma restore_save_extends d d' :
  _clauses d `prefix_of` _clauses d' →
  _clauses (restore_state (save_state d) d') = _clauses d.
Proof.
  intros H. cbn. unfold ClauseList.restore_state, ClauseList.save_state.
  by apply take_length_prefix.
Qed.

(** What [Eval] does once the combinator has returned [vals]. *)
Lemma Eval_unfold func polarity d vals d1 :
  func (Some polarity) d = Some (vals, d1) →
  Eval_ func polarity d =
    match vals with
    | Deferred pval nval => Some (add_clauses nval (add_clauses pval d1))
    | Lit v =>
        if negb ((v =? TRUE) || (v =? FALSE)) then
          Some (add_clause [if polarity then v else - v] d1)
        else
          Some (set_unsat (unsat d1 || negb (eqb (v =? TRUE) polarity))
                  (restore_state (save_state d) d1))
    end.
Proof. intros H. unfold Eval_. rewrite H. cbn. by destruct vals. Qed.

Lemma Eval_grows func polarity d d' :
  (∀ p d0 v d1, func p d0 = Some (v, d1) → extends d0 d1) →
  Eval_ func polarity d = Some d' →
  grows d d' ∧ backend_runs d' = backend_runs d
  ∧ (unsat d = true → unsat d' = true).
Proof.
  intros Hfunc H.
  destruct (func (Some polarity) d) as [[vals d1]|] eqn:Hf;
    [|by unfold Eval_ in H; rewrite Hf in H].
  rewrite (Eval_unfold _ _ _ _ _ Hf) in H.
  destruct (Hfunc _ _ _ _ Hf) as ([Hpre Hm] & Hu & Hr).
  destruct vals as [v|pval nval]; [case_match|]; simplify_eq.
  - repeat split; cbn; [by apply prefix_app_r|done..|congruence].
  - repeat split; cbn; [|done..|].
    + unfold ClauseList.restore_state, save_state, ClauseList.save_state.
      by rewrite take_length_prefix.
    + intros Hd. rewrite Hu, Hd. done.
  - repeat split; cbn; [by do 2 apply prefix_app_r|done..|congruence].
Qed.

Section backend_frame.

Variable run : list clause → Z → Z → option (list Z).

Lemma sat_unsat additional includeIf limit d :
  unsat d = true → sat run additional includeIf limit d = (None, d).
Proof. intros H. unfold sat. by rewrite H. Qed.

(** What [sat] leaves in the driver. *)
Lemma sat_frame additional includeIf limit d :
  let r := sat run additional includeIf limit d in
  m r.2 = m d ∧ unsat r.2 = unsat d
  ∧ (_clauses r.2 = _clauses d
     ∨ r.1 ≠ None ∧ includeIf = true
       ∧ ∃ eqs, additional = Some eqs
                ∧ _clauses r.2 = _clauses d ++ preproc eqs).
Proof.
  unfold sat. destruct (unsat d) eqn:Hu; [by auto|].
  destruct (m d =? 0); [by auto|].
  set (add := match additional with Some (cc :: eqs) => preproc (cc :: eqs)
                               | _ => [] end).
  destruct (last add) as [[|x c]|] eqn:Hlast; cbn; [by auto| |by auto].
  destruct (run _ _ _) as [sol|] eqn:Hrun; cbn.
  - destruct includeIf; cbn.
    + repeat split; try done. right. repeat split; try done.
      subst add. destruct additional as [[|cc eqs]|]; try done. eauto.
    + repeat split; try done. left.
      unfold ClauseList.restore_state, save_state, ClauseList.save_state,
        ClauseList.extend.
      by rewrite take_app_length.
  - repeat split; try done. left.
    unfold ClauseList.restore_state, save_state, ClauseList.save_state,
      ClauseList.extend.
    by rewrite take_app_length.
Qed.

Lemma sat_grows additional includeIf limit d :
  grows d (sat run additional includeIf limit d).2.
Proof.
  destruct (sat_frame additional includeIf limit d) as (Hm & _ & Hc).
  split; [|lia].
  destruct Hc as [->|(_ & _ & eqs & _ & ->)]; [done|by apply prefix_app_r].
Qed.

Lemma run_driver_op_grows o d d' :
  run_driver_op run o d = Some d' →
  grows d d' ∧ (unsat d = true →
                unsat d' = true ∧ backend_runs d' = backend_runs d).
Proof.
  assert (∀ e, extends d e →
            grows d e ∧ (unsat d = true →
                         unsat e = true ∧ backend_runs e = backend_runs d))
    as Hext.
  { intros e (Hg & Hu & Hr). split; [done|]. intros; split; congruence. }
  destruct o; cbn; intros H; simplify_eq;
    try (apply Hext;
         first [ apply extends_new_var | apply extends_add_clause
               | apply extends_add_clauses | apply assign_extends
               | apply And_extends | apply Or_extends | apply Xor_extends
               | apply ITE_extends ]).
  - apply fmap_Some in H as ([v e] & H & ->).
    apply Hext. by eapply run_call_extends.
  - apply Eval_grows in H as (? & ? & ?); [auto|apply run_call_extends].
  - apply Eval_grows in H as (? & ? & ?); [auto|apply run_call_extends].
  - split; [apply sat_grows|]. intros Hu. by rewrite sat_unsat.
Qed.

Lemma run_driver_ops_grows ops d d' :
  run_driver_ops run ops d = Some d' →
  grows d d' ∧ (unsat d = true →
                unsat d' = true ∧ backend_runs d' = backend_runs d).
Proof.
  revert d. induction ops as [|o ops IH]; intros d; cbn.
  - intros; simplify_eq. split; [reflexivity|done].
  - intros H. apply bind_Some in H as (d1 & H1 & H2).
    apply run_driver_op_grows in H1 as (Hg1 & Hu1).
    apply IH in H2 as (Hg2 & Hu2).
    split; [by etrans|]. intros Hu.
    destruct (Hu1 Hu) as [Hu1' Hr1]. destruct (Hu2 Hu1') as [? ?].
    split; [done|congruence].
Qed.

End backend_frame.
(** ** Short circuits, rollback and the sticky flag *)

Ltac sentinel_facts := pose proof TRUE_pos; pose proof FALSE_opp.

Ltac case_eqb :=
  repeat match goal with
    | |- context [?a =? ?b] =>
        destruct (Z.eqb_spec a b); cbn [orb andb negb]
    end.

(** C8. For every literal [x] (a nonzero integer), every polarity and
    either value of [add_new_clauses], [And] and [Or] short-circuit on a
    constant or aliased argument: [And(TRUE, x) = x], [And(FALSE, x) = FALSE],
    [And(x, x) = x], [And(x, -x) = FALSE], [Or(FALSE, x) = x],
    [Or(TRUE, x) = TRUE], [Or(x, x) = x], [Or(x, -x) = TRUE], also with the
    constant as second argument; the driver, and so the clause store, is the
    same after the call as before. *)
Theorem And_Or_short_circuit (x : Z) (polarity : option bool)
    (add_new_clauses : bool) (d : Clauses) :
  x ≠ 0 →
  And TRUE x polarity add_new_clauses d = (Lit x, d)
  ∧ And FALSE x polarity add_new_clauses d = (Lit FALSE, d)
  ∧ And x x polarity add_new_clauses d = (Lit x, d)
  ∧ And x (- x) polarity add_new_clauses d = (Lit FALSE, d)
  ∧ Or FALSE x polarity add_new_clauses d = (Lit x, d)
  ∧ Or TRUE x polarity add_new_clauses d = (Lit TRUE, d)
  ∧ Or x x polarity add_new_clauses d = (Lit x, d)
  ∧ Or x (- x) polarity add_new_clauses d = (Lit TRUE, d)
  ∧ And x TRUE polarity add_new_clauses d = (Lit x, d)
  ∧ And x FALSE polarity add_new_clauses d = (Lit FALSE, d)
  ∧ Or x FALSE polarity add_new_clauses d = (Lit x, d)
  ∧ Or x TRUE polarity add_new_clauses d = (Lit TRUE, d).
Proof.
  intros Hx. sentinel_facts. unfold And, Or.
  repeat split; case_eqb;
    first [reflexivity | lia | congruence | repeat f_equal; lia].
Qed.

Lemma And_Or_short_circuit_witness :
  And TRUE 3 None true (Clauses_init 4) = (Lit 3, Clauses_init 4)
  ∧ And 3 (- 3) (Some true) false (Clauses_init 4)
    = (Lit FALSE, Clauses_init 4)
  ∧ Or 3 (- 3) (Some false) true (Clauses_init 4)
    = (Lit TRUE, Clauses_init 4).
Proof.
  assert (3 ≠ 0) as H by lia.
  split; [|split].
  - exact (proj1 (And_Or_short_circuit 3 None true (Clauses_init 4) H)).
  - exact (proj1 (proj2 (proj2 (proj2
      (And_Or_short_circuit 3 (Some true) false (Clauses_init 4) H))))).
  - exact (proj1 (proj2 (proj2 (proj2 (proj2 (proj2 (proj2 (proj2
      (And_Or_short_circuit 3 (Some false) true (Clauses_init 4) H))))))))).
Defined.

(** C9. [restore_state] never changes [m]. After any sequence of
    [new_var], clause-appending and combinator calls (also [Require],
    [Prevent] and [sat]) that follows [token = save_state()], restoring the
    token leaves [as_list()] as it was at the save point, while [m] keeps the
    value it has reached, which is at least its value at the save point. *)
Theorem restore_state_keeps_m (run : list clause → Z → Z → option (list Z))
    (ops : list driver_op) (d d' : Clauses) :
  run_driver_ops run ops d = Some d' →
  (∀ token e, m (restore_state token e) = m e)
  ∧ m (restore_state (save_state d) d') = m d'
  ∧ m d ≤ m d'
  ∧ as_list (restore_state (save_state d) d') = as_list d.
Proof.
  intros H. apply run_driver_ops_grows in H as [[Hpre Hm] _].
  repeat split; try done.
  unfold as_list, ClauseList.as_list. by apply restore_save_extends.
Qed.

Lemma restore_state_keeps_m_witness :
  ∃ d',
    run_driver_ops brute_force
      [Op_new_var; Op_add_clause [1; -4]; Op_ITE 1 2 3 None true;
       Op_Require (Call_LinearBound [1; 2; 3] [1; 2; 3] 2 4 true)]
      (Clauses_init 3) = Some d'
    ∧ m d' = 6 ∧ length (as_list d') = 10%nat
    ∧ m (restore_state (save_state (Clauses_init 3)) d') = 6
    ∧ as_list (restore_state (save_state (Clauses_init 3)) d') = [].
Proof.
  eexists. split; [vm_compute; reflexivity|].
  split; [reflexivity|]. split; [reflexivity|].
  match goal with
  | |- context [restore_state _ ?e] =>
      destruct (restore_state_keeps_m brute_force
        [Op_new_var; Op_add_clause [1; -4]; Op_ITE 1 2 3 None true;
         Op_Require (Call_LinearBound [1; 2; 3] [1; 2; 3] 2 4 true)]
        (Clauses_init 3) e) as (_ & H1 & _ & H2); [vm_compute; reflexivity|]
  end.
  split; [exact H1|exact H2].
Defined.
(** [Eval] on a combinator that evaluates to a constant. *)
Lemma Eval_of_constant (c : call) (polarity : bool) (d d1 : Clauses) (v : Z) :
  run_call c (Some polarity) d = Some (Lit v, d1) →
  v = TRUE ∨ v = FALSE →
  Eval_ (run_call c) polarity d
  = Some (set_unsat (unsat d1 || negb (eqb (v =? TRUE) polarity))
            (restore_state (save_state d) d1)).
Proof.
  intros Hc Hv. sentinel_facts. rewrite (Eval_unfold _ _ _ _ _ Hc).
  destruct Hv as [-> | ->]; case_eqb; try lia; done.
Qed.

(** C10. When the combinator called by [Require] or [Prevent] evaluates
    to the constant [TRUE] or [FALSE], the clause store after the call
    equals the store before it (clauses emitted during the evaluation, for
    instance by [BDD], are rolled back); [m] keeps the value the evaluation
    left, the backend is not run, and the flag becomes
    [unsat or (vals == TRUE) != polarity]. *)
Theorem Eval_constant_rolls_back (c : call) (polarity : bool)
    (d d1 : Clauses) (v : Z) :
  run_call c (Some polarity) d = Some (Lit v, d1) →
  v = TRUE ∨ v = FALSE →
  ∃ d',
    (if polarity then Require (run_call c) d else Prevent (run_call c) d)
    = Some d'
    ∧ as_list d' = as_list d
    ∧ m d' = m d1 ∧ m d ≤ m d'
    ∧ backend_runs d' = backend_runs d
    ∧ unsat d' = unsat d || negb (eqb (v =? TRUE) polarity).
Proof.
  intros Hc Hv.
  pose proof (Eval_of_constant c polarity d d1 v Hc Hv) as HE.
  apply run_call_extends in Hc as ([Hpre Hm] & Hu & Hr).
  eexists. split; [by destruct polarity|].
  repeat split; cbn; try done.
  - unfold as_list, ClauseList.as_list. by apply restore_save_extends.
  - by rewrite Hu.
Qed.

Lemma Eval_constant_rolls_back_witness :
  ∃ d1 d',
    run_call (Call_LinearBound [1; 2; 3; -3] [1; 1; 5; 5] 1 2 false)
      (Some true) (add_clause [1; 2] (Clauses_init 3)) = Some (Lit FALSE, d1)
    ∧ as_list d1 = [[1; 2]; [-4; 1; 2]]
    ∧ Require (run_call (Call_LinearBound [1; 2; 3; -3] [1; 1; 5; 5] 1 2 false))
        (add_clause [1; 2] (Clauses_init 3)) = Some d'
    ∧ as_list d' = [[1; 2]] ∧ m d' = 4 ∧ unsat d' = true.
Proof.
  eexists.
  destruct (Eval_constant_rolls_back
    (Call_LinearBound [1; 2; 3; -3] [1; 1; 5; 5] 1 2 false) true
    (add_clause [1; 2] (Clauses_init 3))
    (mkClauses false 4 [[1; 2]; [-4; 1; 2]] 0) FALSE)
    as (d' & H1 & H2 & H3 & H4 & H5 & H6);
    [vm_compute; reflexivity|by right|].
  exists d'. split; [vm_compute; reflexivity|]. split; [reflexivity|].
  split; [exact H1|]. split; [exact H2|]. split; [exact H3|].
  rewrite H6. reflexivity.
Defined.

(** C2. Once [Require] of a combinator that evaluates to [FALSE] (such
    as [Any] of nothing) or [Prevent] of one that evaluates to [TRUE] has set
    the flag, and whatever calls follow that do not reset it, every
    [sat] call returns [None] and leaves the driver as it is: the backend
    has not been run since the flag was set. *)
Theorem unsat_is_sticky (run : list clause → Z → Z → option (list Z))
    (c : call) (polarity : bool) (d d1 : Clauses) (v : Z) :
  run_call c (Some polarity) d = Some (Lit v, d1) →
  (polarity = true ∧ v = FALSE) ∨ (polarity = false ∧ v = TRUE) →
  ∃ d',
    (if polarity then Require (run_call c) d else Prevent (run_call c) d)
    = Some d'
    ∧ unsat d' = true
    ∧ ∀ ops d'' additional includeIf limit,
        run_driver_ops run ops d' = Some d'' →
        sat run additional includeIf limit d'' = (None, d'')
        ∧ backend_runs d'' = backend_runs d'.
Proof.
  intros Hc Hv. sentinel_facts.
  pose proof (Eval_of_constant c polarity d d1 v Hc) as HE.
  eexists. split.
  { destruct polarity; apply HE; destruct Hv as [[_ ->]|[_ ->]]; auto. }
  assert (unsat d1 || negb (eqb (v =? TRUE) polarity) = true) as Hd'.
  { destruct Hv as [[-> ->]|[-> ->]]; case_eqb; try lia;
      by destruct (unsat d1). }
  split; [done|].
  intros ops d'' additional includeIf limit Hops.
  apply run_driver_ops_grows in Hops as [_ Hs].
  destruct (Hs Hd') as [Hu'' Hr]. split; [by apply sat_unsat|done].
Qed.

Lemma unsat_is_sticky_witness :
  ∃ d',
    Require (run_call (Call_Any [])) (Clauses_init 3) = Some d'
    ∧ unsat d' = true
    ∧ ∀ ops d'' additional includeIf limit,
        run_driver_ops brute_force ops d' = Some d'' →
        sat brute_force additional includeIf limit d'' = (None, d'')
        ∧ backend_runs d'' = backend_runs d'.
Proof.
  apply (unsat_is_sticky brute_force (Call_Any []) true (Clauses_init 3)
           (Clauses_init 3) FALSE).
  - vm_compute; reflexivity.
  - left. split; reflexivity.
Defined.

(** C3. Whatever the driver and the [additional] clauses, after
    [sat(additional, includeIf, limit)] the clause store is the one before
    the call whenever no solution is returned or [includeIf] is false; it
    differs only when a solution was found and [includeIf] is true, and then
    it is the old store followed by the preprocessed [additional]
    clauses. [m] and the flag are unchanged. *)
Theorem sat_restores_store (run : list clause → Z → Z → option (list Z))
    (additional : option (list clause)) (includeIf : bool) (limit : Z)
    (d : Clauses) :
  let r := sat run additional includeIf limit d in
  (r.1 = None ∨ includeIf = false → as_list r.2 = as_list d)
  ∧ (as_list r.2 ≠ as_list d →
     r.1 ≠ None ∧ includeIf = true
     ∧ ∃ eqs, additional = Some eqs ∧ eqs ≠ []
              ∧ as_list r.2 = as_list d ++ preproc eqs)
  ∧ m r.2 = m d ∧ unsat r.2 = unsat d.
Proof.
  destruct (sat_frame run additional includeIf limit d) as (Hm & Hu & Hc).
  cbv zeta. unfold as_list, ClauseList.as_list.
  split; [|split; [|done]].
  - intros Hn. destruct Hc as [Hc|(Hs & Hi & _)]; [done|].
    destruct Hn; [done|congruence].
  - intros Hne. destruct Hc as [Hc|(Hs & Hi & eqs & Ha & Hc)]; [done|].
    repeat split; try done. exists eqs. repeat split; try done.
    intros ->. rewrite Hc in Hne. cbn in Hne. by rewrite app_nil_r in Hne.
Qed.
(** ** The preprocessing of a linear bound *)

(** The terms [LB_Preprocess] keeps, in the order of the input: a term
    with a negative coefficient is replaced by its complement. *)
Fixpoint LB_terms (pairs : list (Z * Z)) : list (Z * Z) :=
  match pairs with
  | [] => []
  | (coeff, lit) :: pairs' =>
      if lit =? TRUE then LB_terms pairs'
      else if (lit =? FALSE) || (coeff =? 0) then LB_terms pairs'
      else if coeff <? 0 then (- coeff, - lit) :: LB_terms pairs'
      else (coeff, lit) :: LB_terms pairs'
  end.

(** What one input term adds to the offset: its coefficient when the
    literal is [TRUE], and when the coefficient is negative and the literal
    is not a constant. *)
Definition LB_offset_term (p : Z * Z) : Z :=
  if p.2 =? TRUE then p.1
  else if (p.2 =? FALSE) || (p.1 =? 0) then 0
  else if p.1 <? 0 then p.1 else 0.

Definition LB_normal (p : Z * Z) : Prop :=
  0 < p.1 ∧ p.2 ≠ TRUE ∧ p.2 ≠ FALSE.

Lemma sumZ_cons x l : sumZ (x :: l) = x + sumZ l.
Proof. reflexivity. Qed.

Lemma sumZ_app l k : sumZ (l ++ k) = sumZ l + sumZ k.
Proof. induction l as [|x l IH]; cbn; [done|]. fold (sumZ (l ++ k)). fold (sumZ l). lia. Qed.

Lemma LB_equation_spec pairs equation offset :
  LB_equation pairs equation offset
  = (equation ++ LB_terms pairs, offset + sumZ (map LB_offset_term pairs)).
Proof.
  revert equation offset.
  induction pairs as [|[c l] pairs IH]; intros equation offset.
  { cbn. f_equal; [by rewrite app_nil_r|lia]. }
  cbn [LB_equation LB_terms map]. rewrite sumZ_cons. unfold LB_offset_term at 1. cbn [fst snd].
  repeat case_match; rewrite IH; f_equal; rewrite <- ?app_assoc; cbn;
    done || lia.
Qed.

Lemma LB_terms_normal pairs : Forall LB_normal (LB_terms pairs).
Proof.
  sentinel_facts.
  induction pairs as [|[c l] pairs IH]; cbn; [done|].
  case_eqb; try done; destruct (Z.ltb_spec c 0); constructor; try done;
    unfold LB_normal; cbn; lia.
Qed.

Lemma LB_terms_of_normal pairs :
  Forall LB_normal pairs → LB_terms pairs = pairs.
Proof.
  induction 1 as [|[c l] pairs (Hc & Ht & Hf) _ IH]; cbn in *; [done|].
  case_eqb; try lia. destruct (Z.ltb_spec c 0); [lia|]. by rewrite IH.
Qed.

Lemma LB_offset_of_normal pairs :
  Forall LB_normal pairs → sumZ (map LB_offset_term pairs) = 0.
Proof.
  induction 1 as [|[c l] pairs (Hc & Ht & Hf) _ IH]; [done|].
  cbn [map]. rewrite sumZ_cons, IH. unfold LB_offset_term; cbn in *.
  case_eqb; try lia. destruct (Z.ltb_spec c 0); lia.
Qed.

Global Instance tuple_le_total : Total tuple_le.
Proof. intros [a b] [c d]. unfold tuple_le; cbn. lia. Qed.

Global Instance tuple_le_trans : Transitive tuple_le.
Proof. intros [a b] [c d] [e f]. unfold tuple_le; cbn. lia. Qed.

Global Instance tuple_le_antisymm : AntiSymm (=) tuple_le.
Proof.
  intros [a b] [c d]. unfold tuple_le; cbn. intros H1 H2.
  f_equal; lia.
Qed.

Lemma tuple_le_Sorted_fst (l : list (Z * Z)) :
  Sorted tuple_le l → Sorted Z.le (map fst l).
Proof.
  induction 1 as [|p l Hl IH Hhd]; cbn; constructor; [done|].
  destruct Hhd as [|q l Hpq]; cbn; constructor.
  unfold tuple_le in Hpq. lia.
Qed.

Lemma merge_sort_sorted (l : list (Z * Z)) :
  Sorted tuple_le l → merge_sort tuple_le l = l.
Proof.
  intros Hl. apply (Sorted_unique tuple_le); [|done|].
  - apply (Sorted_merge_sort tuple_le).
  - apply merge_sort_Permutation.
Qed.

Lemma LB_Preprocess_unfold lits coeffs :
  LB_Preprocess lits coeffs
  = (map snd (merge_sort tuple_le (LB_terms (zip coeffs lits))),
     map fst (merge_sort tuple_le (LB_terms (zip coeffs lits))),
     sumZ (map LB_offset_term (zip coeffs lits))).
Proof. unfold LB_Preprocess. by rewrite LB_equation_spec. Qed.

Lemma LB_sorted_terms_normal lits coeffs :
  Forall LB_normal (merge_sort tuple_le (LB_terms (zip coeffs lits))).
Proof.
  rewrite (merge_sort_Permutation tuple_le). apply LB_terms_normal.
Qed.

(** C7. Whatever [lits] and [coeffs] are, [LB_Preprocess] returns
    [(lits', coeffs', offset)] where every coefficient is strictly positive,
    no literal is [TRUE] or [FALSE], and the coefficients ascend;
    preprocessing [(lits', coeffs')] again returns the same two sequences
    (and offset 0); and the offset is exactly the sum of the coefficients of
    the [TRUE] literals and of the negative coefficients of the other kept
    terms. *)
Theorem LB_Preprocess_normal_form (lits coeffs : list Z) :
  let '(lits', coeffs', offset) := LB_Preprocess lits coeffs in
  Forall (λ c, 0 < c) coeffs'
  ∧ Forall (λ l, l ≠ TRUE ∧ l ≠ FALSE) lits'
  ∧ Sorted Z.le coeffs'
  ∧ length lits' = length coeffs'
  ∧ LB_Preprocess lits' coeffs' = (lits', coeffs', 0)
  ∧ offset = sumZ (map LB_offset_term (zip coeffs lits)).
Proof.
  rewrite LB_Preprocess_unfold.
  set (eq := merge_sort tuple_le (LB_terms (zip coeffs lits))).
  pose proof (LB_sorted_terms_normal lits coeffs) as Hn. fold eq in Hn.
  assert (Sorted tuple_le eq) as Hs by apply (Sorted_merge_sort tuple_le).
  repeat split.
  - apply Forall_map. eapply Forall_impl; [exact Hn|]. by intros p (? & _).
  - apply Forall_map. eapply Forall_impl; [exact Hn|]. by intros p (_ & ?).
  - by apply tuple_le_Sorted_fst.
  - by rewrite !length_map.
  - rewrite LB_Preprocess_unfold.
    change (map fst eq) with (eq.*1). change (map snd eq) with (eq.*2).
    rewrite zip_fst_snd, (LB_terms_of_normal eq Hn),
      (LB_offset_of_normal eq Hn), (merge_sort_sorted eq Hs).
    done.
Qed.
(** ** Facts about models *)

Lemma lit_true_TRUE M : lit_true M TRUE = true.
Proof. unfold lit_true. by rewrite Z.eqb_refl. Qed.

Lemma lit_true_FALSE M : lit_true M FALSE = false.
Proof.
  sentinel_facts. unfold lit_true. rewrite Z.eqb_refl.
  destruct (Z.eqb_spec FALSE TRUE); [lia|done].
Qed.

Lemma lit_true_opp M l : l ≠ 0 → lit_true M (- l) = negb (lit_true M l).
Proof.
  intros Hl. sentinel_facts. unfold lit_true. case_eqb; try lia; try done.
  destruct (Z.ltb_spec 0 (- l)), (Z.ltb_spec 0 l); try lia;
    by rewrite ?Z.opp_involutive, ?negb_involutive.
Qed.

Lemma models_app M cs1 cs2 :
  models M (cs1 ++ cs2) ↔ models M cs1 ∧ models M cs2.
Proof. unfold models. rewrite forallb_app. apply andb_true_iff. Qed.

Lemma models_nil M : models M [].
Proof. done. Qed.

Lemma agrees_refl polarity b : agrees polarity b b.
Proof. by split. Qed.

Lemma agrees_None b e : agrees None b e ↔ (b = true ↔ e = true).
Proof. unfold agrees; cbn. intuition. Qed.

(** ** What the gates emit *)

(** [gate_ok polarity d res sem]: the call returned a nonzero literal
    and appended clauses in every model of which the literal stands for
    [sem]. *)
Definition gate_ok (polarity : option bool) (d : Clauses)
    (res : value * Clauses) (sem : (Z → bool) → bool) : Prop :=
  ∃ r E,
    res.1 = Lit r ∧ r ≠ 0
    ∧ _clauses res.2 = _clauses d ++ E
    ∧ m d ≤ m res.2
    ∧ ∀ M, models M E → agrees polarity (lit_true M r) (sem M).

Lemma gate_ok_ext polarity d res sem sem' :
  (∀ M, sem M = sem' M) →
  gate_ok polarity d res sem → gate_ok polarity d res sem'.
Proof.
  intros Hs (r & E & ? & ? & ? & ? & H). exists r, E.
  do 4 (split; [done|]). intros M HM. rewrite <- Hs. by apply H.
Qed.

Lemma opp_nz x : x ≠ 0 → - x ≠ 0.
Proof. lia. Qed.

Lemma TRUE_nz : TRUE ≠ 0.
Proof. sentinel_facts. lia. Qed.

Lemma FALSE_nz : FALSE ≠ 0.
Proof. sentinel_facts. lia. Qed.

Lemma succ_nz x : 0 ≤ x → x + 1 ≠ 0.
Proof. lia. Qed.

(** Proves that a literal built from nonzero ones is nonzero. *)
Ltac nz :=
  solve [repeat first [ assumption | apply TRUE_nz | apply FALSE_nz
                      | apply opp_nz | apply succ_nz ]].

(** Turns the truth of each literal into a boolean and tries all
    cases. *)
Ltac lit_cases :=
  rewrite ?lit_true_TRUE, ?lit_true_FALSE;
  repeat rewrite lit_true_opp by nz;
  repeat match goal with
    | |- context [lit_true ?M ?l] => generalize (lit_true M l); intro
    end;
  repeat match goal with b : bool |- _ => destruct b end;
  cbn; try done; try (intros; split; intros; done).

(** The result of a gate that took a short circuit. *)
Ltac gate_short :=
  eexists _, []; cbn [fst snd];
  split; [reflexivity|];
  split; [nz|];
  split; [by rewrite app_nil_r|];
  split; [clear; lia|];
  intros M _; unfold agrees; lit_cases.

(** The result of a gate that allocated a variable. *)
Ltac gate_fresh :=
  unfold new_var; cbn [fst snd];
  match goal with
  | |- context [in_True_None ?p] => destruct p as [[|]|]
  end; cbn [in_True_None in_False_None];
  eexists _, _; cbn;
  (split; [reflexivity|]);
  (split; [nz|]);
  (split; [unfold ClauseList.extend; rewrite <- ?app_assoc; reflexivity|]);
  (split; [clear; lia|]);
  intros M; unfold models, agrees; cbn [forallb existsb clause_true app];
  rewrite ?orb_false_r, ?andb_true_r;
  lit_cases.

Lemma And_ok f g polarity d :
  f ≠ 0 → g ≠ 0 → 0 ≤ m d →
  gate_ok polarity d (And f g polarity true d)
    (λ M, lit_true M f && lit_true M g).
Proof.
  intros Hf Hg Hm. unfold And, gate_ok. sentinel_facts.
  case_eqb; subst;
    lazymatch goal with
    | |- context [new_var] => idtac
    | |- _ => gate_short
    end.
  destruct (g <? f); gate_fresh.
Qed.

Lemma Or_ok f g polarity d :
  f ≠ 0 → g ≠ 0 → 0 ≤ m d →
  gate_ok polarity d (Or f g polarity true d)
    (λ M, lit_true M f || lit_true M g).
Proof.
  intros Hf Hg Hm. unfold Or, gate_ok. sentinel_facts.
  case_eqb; subst;
    lazymatch goal with
    | |- context [new_var] => idtac
    | |- _ => gate_short
    end.
  destruct (g <? f); gate_fresh.
Qed.

Lemma Xor_ok f g polarity d :
  f ≠ 0 → g ≠ 0 → 0 ≤ m d →
  gate_ok polarity d (Xor f g polarity true d)
    (λ M, xorb (lit_true M f) (lit_true M g)).
Proof.
  intros Hf Hg Hm. unfold Xor, Not, gate_ok. sentinel_facts.
  case_eqb; subst;
    lazymatch goal with
    | |- context [new_var] => idtac
    | |- _ => gate_short
    end.
  destruct (g <? f); gate_fresh.
Qed.

Lemma ITE_ok c t f polarity d :
  c ≠ 0 → t ≠ 0 → f ≠ 0 → 0 ≤ m d →
  gate_ok polarity d (ITE c t f polarity true d)
    (λ M, if lit_true M c then lit_true M t else lit_true M f).
Proof.
  intros Hc Ht Hf Hm. unfold ITE. sentinel_facts.
  case_eqb; subst;
    lazymatch goal with
    | |- gate_ok _ _ (Or _ _ _ _ _) _ =>
        eapply gate_ok_ext; [|apply Or_ok; nz]; intros M; cbn beta;
        lit_cases
    | |- gate_ok _ _ (And _ _ _ _ _) _ =>
        eapply gate_ok_ext; [|apply And_ok; nz]; intros M; cbn beta;
        lit_cases
    | |- gate_ok _ _ (Xor _ _ _ _ _) _ =>
        eapply gate_ok_ext; [|apply Xor_ok; nz]; intros M; cbn beta;
        lit_cases
    | |- gate_ok _ _ (Lit _, _) _ => unfold gate_ok; gate_short
    | |- _ => idtac
    end.
  unfold gate_ok. destruct (t <? f); gate_fresh.
Qed.
(** ** The decision diagram *)

Lemma wsum_nil_l M coeffs : wsum M [] coeffs = 0.
Proof. unfold wsum. by destruct coeffs. Qed.

Lemma wsum_cons M l lits c coeffs :
  wsum M (l :: lits) (c :: coeffs)
  = (if lit_true M l then c else 0) + wsum M lits coeffs.
Proof. reflexivity. Qed.

Lemma wsum_app M lits1 lits2 coeffs1 coeffs2 :
  length lits1 = length coeffs1 →
  wsum M (lits1 ++ lits2) (coeffs1 ++ coeffs2)
  = wsum M lits1 coeffs1 + wsum M lits2 coeffs2.
Proof.
  intros Hlen. unfold wsum.
  rewrite zip_with_app, map_app, sumZ_app by done. done.
Qed.

Lemma wsum_bounds M lits coeffs :
  Forall (λ c, 0 ≤ c) coeffs → 0 ≤ wsum M lits coeffs ≤ sumZ coeffs.
Proof.
  intros H. revert lits.
  induction H as [|c coeffs Hc _ IH]; intros [|l lits];
    rewrite ?wsum_nil_l, ?wsum_cons, ?sumZ_cons; cbn; try lia.
  - pose proof (IH []) as IH'. rewrite wsum_nil_l in IH'. lia.
  - specialize (IH lits). destruct (lit_true M l); lia.
Qed.

Lemma agrees_ite polarity (b c t f et ef : bool) :
  agrees polarity b (if c then t else f) →
  agrees polarity t et → agrees polarity f ef →
  agrees polarity b (if c then et else ef).
Proof. unfold agrees. destruct c; intuition. Qed.

Section bdd.

Variables (lits coeffs : list Z) (lo hi : Z) (polarity : option bool).
Hypothesis lits_nonzero : Forall (λ l, l ≠ 0) lits.
Hypothesis coeffs_nonneg : Forall (λ c, 0 ≤ c) coeffs.

(** The weighted sum of the first [n] terms. *)
Definition psum (M : Z → bool) (n : nat) : Z :=
  wsum M (take n lits) (take n coeffs).

Lemma psum_S M n LA LC :
  lits !! n = Some LA → coeffs !! n = Some LC →
  psum M (S n) = psum M n + (if lit_true M LA then LC else 0).
Proof.
  intros HA HC. unfold psum.
  rewrite (take_S_r _ _ _ HA), (take_S_r _ _ _ HC).
  rewrite wsum_app.
  - rewrite wsum_cons, wsum_nil_l. lia.
  - apply lookup_lt_Some in HA, HC. rewrite !length_take. lia.
Qed.

Lemma psum_bounds M n : 0 ≤ psum M n ≤ sumZ (take n coeffs).
Proof. apply wsum_bounds. by apply Forall_take. Qed.

(** The key is one the loop can reach: its total is the sum of the
    coefficients up to its index. *)
Definition key_ok (key : bdd_key) : Prop :=
  let '(ndx, csum, total) := key in
  -1 ≤ ndx ∧ ndx < Z.of_nat (length lits) ∧ ndx < Z.of_nat (length coeffs)
  ∧ total = sumZ (take (Z.to_nat (ndx + 1)) coeffs).

(** What the memo entry of a key stands for. *)
Definition key_sem (M : Z → bool) (key : bdd_key) : bool :=
  let '(ndx, csum, total) := key in
  let s := csum + psum M (Z.to_nat (ndx + 1)) in
  (lo <=? s) && (s <=? hi).

Definition memo_ok (E : list clause) (memo : gmap bdd_key Z) : Prop :=
  ∀ key r, memo !! key = Some r →
    r ≠ 0 ∧ ∀ M, models M E → agrees polarity (lit_true M r) (key_sem M key).

Lemma memo_ok_app E E' memo : memo_ok E memo → memo_ok (E ++ E') memo.
Proof.
  intros H key r Hr. destruct (H key r Hr) as [Hnz HM].
  split; [done|]. intros M HE. apply models_app in HE as [HE _]. auto.
Qed.

Lemma memo_ok_insert E memo key r :
  memo_ok E memo → r ≠ 0 →
  (∀ M, models M E → agrees polarity (lit_true M r) (key_sem M key)) →
  memo_ok E (<[key := r]> memo).
Proof.
  intros Hmemo Hr HM key' r' Hk.
  rewrite lookup_insert in Hk. case_decide; simplify_eq; auto.
Qed.

(** [k] passes of the loop lead from [st] to [st']. *)
Definition runs_to (k : nat) (st st' : bdd_state) : Prop :=
  ∀ fuel,
    BDD_loop (k + fuel) lits coeffs lo hi polarity st
    = BDD_loop fuel lits coeffs lo hi polarity st'.

Lemma runs_to_trans k1 k2 st1 st2 st3 :
  runs_to k1 st1 st2 → runs_to k2 st2 st3 → runs_to (k1 + k2) st1 st3.
Proof.
  intros H1 H2 fuel. rewrite <- Nat.add_assoc, H1, H2. done.
Qed.

Lemma runs_to_step key rest memo d st' :
  BDD_body lits coeffs lo hi polarity key rest memo d = Some st' →
  runs_to 1 (mkBDD (key :: rest) memo d) st'.
Proof. intros H fuel. cbn. by rewrite H. Qed.

Lemma pow2_ge (n : nat) : (4 ≤ 2 ^ (n + 2))%nat.
Proof.
  rewrite Nat.pow_add_r. pose proof (Nat.pow_nonzero 2 n). cbn. lia.
Qed.

Lemma sumZ_take_S (l : list Z) n x :
  l !! n = Some x → sumZ (take (S n) l) = sumZ (take n l) + x.
Proof.
  intros H. rewrite (take_S_r _ _ _ H), sumZ_app. cbn. lia.
Qed.

(** The keys pushed for [key], when [key] is not a leaf. *)
Definition hi_key_of (key : bdd_key) (LA LC : Z) : bdd_key :=
  let '(ndx, csum, total) := key in
  (ndx - 1, if LA <? 0 then csum else csum + LC, total - LC).

Definition lo_key_of (key : bdd_key) (LA LC : Z) : bdd_key :=
  let '(ndx, csum, total) := key in
  (ndx - 1, if LA <? 0 then csum + LC else csum, total - LC).

(** A pass either stores a constant for a leaf, or looks at the two
    children of the key. *)
Lemma BDD_body_cases key :
  key_ok key →
  (∃ v, (∀ rest memo d,
           BDD_body lits coeffs lo hi polarity key rest memo d
           = Some (mkBDD rest (<[key := v]> memo) d))
        ∧ v ≠ 0
        ∧ ∀ M, agrees polarity (lit_true M v) (key_sem M key))
  ∨ (0 ≤ key.1.1
     ∧ ∃ LA LC,
         key_ok (hi_key_of key LA LC) ∧ key_ok (lo_key_of key LA LC)
         ∧ LA ≠ 0
         ∧ (∀ M, key_sem M key
                 = if lit_true M (Z.abs LA)
                   then key_sem M (hi_key_of key LA LC)
                   else key_sem M (lo_key_of key LA LC))
         ∧ ∀ rest memo d,
           BDD_body lits coeffs lo hi polarity key rest memo d
           = match memo !! hi_key_of key LA LC with
             | None => Some (mkBDD (hi_key_of key LA LC :: key :: rest) memo d)
             | Some thi =>
                 match memo !! lo_key_of key LA LC with
                 | None =>
                     Some (mkBDD (lo_key_of key LA LC :: key :: rest) memo d)
                 | Some tlo =>
                     let '(x, self) :=
                       ITE (Z.abs LA) thi tlo polarity true d in
                     match x with
                     | Lit x => Some (mkBDD rest (<[key := x]> memo) self)
                     | Deferred _ _ => None
                     end
                 end
             end).
Proof.
  destruct key as [[ndx csum] total]. intros (H1 & H2 & H3 & Htot).
  unfold BDD_body.
  destruct ((lo - csum <=? 0) && (hi - csum >=? total)) eqn:C1.
  { left. exists TRUE. split; [done|]. split; [apply TRUE_nz|].
    intros M. rewrite lit_true_TRUE.
    replace (key_sem M (ndx, csum, total)) with true; [apply agrees_refl|].
    symmetry. unfold key_sem.
    pose proof (psum_bounds M (Z.to_nat (ndx + 1))) as Hb.
    rewrite <- Htot in Hb.
    apply andb_true_iff in C1 as [C1 C1'].
    apply andb_true_iff; split; lia. }
  destruct ((lo - csum >? total) || (hi - csum <? 0)) eqn:C2.
  { left. exists FALSE. split; [done|]. split; [apply FALSE_nz|].
    intros M. rewrite lit_true_FALSE.
    replace (key_sem M (ndx, csum, total)) with false; [apply agrees_refl|].
    symmetry. unfold key_sem.
    pose proof (psum_bounds M (Z.to_nat (ndx + 1))) as Hb.
    rewrite <- Htot in Hb.
    apply orb_true_iff in C2 as [C2|C2];
      apply andb_false_iff; [left|right]; lia. }
  right.
  apply andb_false_iff in C1. apply orb_false_iff in C2 as [C2 C2'].
  assert (0 ≤ ndx) as Hndx.
  { destruct (decide (ndx = -1)) as [->|]; [|lia].
    assert (total = 0) by (rewrite Htot; reflexivity). lia. }
  split; [done|].
  destruct (lookup_lt_is_Some_2 lits (Z.to_nat ndx)) as [LA HA]; [lia|].
  destruct (lookup_lt_is_Some_2 coeffs (Z.to_nat ndx)) as [LC HC]; [lia|].
  exists LA, LC.
  assert (Z.to_nat (ndx + 1) = S (Z.to_nat ndx)) as EqS by lia.
  assert (Z.to_nat (ndx - 1 + 1) = Z.to_nat ndx) as EqP by lia.
  assert (LA ≠ 0) as HLA.
  { eapply (Forall_lookup_1 _ _ _ _ lits_nonzero HA). }
  assert (total - LC = sumZ (take (Z.to_nat (ndx - 1 + 1)) coeffs)) as Htot'.
  { rewrite EqP, Htot, EqS, (sumZ_take_S _ _ _ HC). lia. }
  split; [cbn; split_and!; by (lia || done)|].
  split; [cbn; split_and!; by (lia || done)|].
  split; [done|]. split.
  - intros M. unfold key_sem, hi_key_of, lo_key_of.
    rewrite EqP, EqS, (psum_S M _ _ _ HA HC).
    destruct (Z.ltb_spec LA 0).
    + replace (Z.abs LA) with (- LA) by lia.
      rewrite lit_true_opp by done.
      destruct (lit_true M LA); cbn [negb];
        match goal with
        | |- (_ <=? ?a) && _ = (_ <=? ?b) && _ => by replace a with b by lia
        end.
    + replace (Z.abs LA) with LA by lia.
      destruct (lit_true M LA);
        match goal with
        | |- (_ <=? ?a) && _ = (_ <=? ?b) && _ => by replace a with b by lia
        end.
  - intros rest memo d. unfold getitem. destruct (Z.ltb_spec ndx 0); [lia|].
    rewrite HA, HC. reflexivity.
Qed.

(** Every key on top of the stack is popped, with a sound memo entry,
    within [2 ^ (n + 2) - 3] passes, [n] being its number of terms. *)
Lemma BDD_pops (n : nat) key rest memo d E :
  key_ok key → Z.to_nat (key.1.1 + 1) = n → memo_ok E memo → 0 ≤ m d →
  ∃ k memo' d' E',
    (k + 3 ≤ 2 ^ (n + 2))%nat
    ∧ runs_to k (mkBDD (key :: rest) memo d) (mkBDD rest memo' d')
    ∧ dom memo ⊆ dom memo' ∧ key ∈ dom memo'
    ∧ memo_ok (E ++ E') memo'
    ∧ _clauses d' = _clauses d ++ E' ∧ m d ≤ m d'.
Proof.
  revert key rest memo d E.
  induction n as [|n IH]; intros key rest memo d E Hok Hn Hmemo Hm;
    (destruct (BDD_body_cases key Hok)
      as [(v & Hbody & Hv & Hsem)
         |(Hndx & LA & LC & Hhi & Hlo & HLA & Hsem & Hbody)]);
    try (exists 1%nat, (<[key := v]> memo), d, [];
         split_and!;
         [ match goal with
           | |- (_ ≤ 2 ^ (?x + 2))%nat => pose proof (pow2_ge x); lia
           end
         | by apply runs_to_step
         | rewrite dom_insert_L; set_solver
         | rewrite dom_insert_L; set_solver
         | apply memo_ok_insert; [by apply memo_ok_app|done|by intros]
         | by rewrite app_nil_r
         | lia ]).
  { lia. }
  set (hk := hi_key_of key LA LC) in *. set (lk := lo_key_of key LA LC) in *.
  assert (Z.to_nat (hk.1.1 + 1) = n ∧ Z.to_nat (lk.1.1 + 1) = n) as [Hnh Hnl].
  { subst hk lk. destruct key as [[ndx csum] total]. cbn in *. lia. }
  assert (∀ memo1 d1 E1,
            memo_ok E1 memo1 → 0 ≤ m d1 →
            is_Some (memo1 !! hk) → is_Some (memo1 !! lk) →
            ∃ memo' d' E',
              runs_to 1 (mkBDD (key :: rest) memo1 d1) (mkBDD rest memo' d')
              ∧ dom memo1 ⊆ dom memo' ∧ key ∈ dom memo'
              ∧ memo_ok (E1 ++ E') memo'
              ∧ _clauses d' = _clauses d1 ++ E' ∧ m d1 ≤ m d') as Hfin.
  { intros memo1 d1 E1 Hm1 Hmd1 [thi Hthi] [tlo Htlo].
    pose proof (Hbody rest memo1 d1) as Hb. rewrite Hthi, Htlo in Hb.
    destruct (Hm1 _ _ Hthi) as [Hthi0 Hthi_sem].
    destruct (Hm1 _ _ Htlo) as [Htlo0 Htlo_sem].
    destruct (ITE_ok (Z.abs LA) thi tlo polarity d1)
      as (r & E' & Hr & Hr0 & HE' & Hmr & Hr_sem); [lia|done..|].
    destruct (ITE (Z.abs LA) thi tlo polarity true d1) as [x d'].
    cbn in Hr, HE', Hmr. subst x.
    exists (<[key := r]> memo1), d', E'. split_and!.
    - by apply runs_to_step.
    - rewrite dom_insert_L. set_solver.
    - rewrite dom_insert_L. set_solver.
    - apply memo_ok_insert; [by apply memo_ok_app|done|].
      intros M [HE1 HE2]%models_app. rewrite Hsem.
      eapply agrees_ite; eauto.
    - done.
    - done. }
  assert (∀ memo1 d1 E1,
            memo_ok E1 memo1 → 0 ≤ m d1 → is_Some (memo1 !! hk) →
            ∃ k memo' d' E',
              (k + 1 ≤ 2 ^ (n + 2))%nat
              ∧ runs_to k (mkBDD (key :: rest) memo1 d1)
                  (mkBDD rest memo' d')
              ∧ dom memo1 ⊆ dom memo' ∧ key ∈ dom memo'
              ∧ memo_ok (E1 ++ E') memo'
              ∧ _clauses d' = _clauses d1 ++ E' ∧ m d1 ≤ m d') as Hwith.
  { intros memo1 d1 E1 Hm1 Hmd1 Hh.
    destruct (memo1 !! lk) as [tlo|] eqn:Hl.
    - destruct (Hfin memo1 d1 E1) as (memo' & d' & E' & ?); [by eauto..|].
      exists 1%nat, memo', d', E'. split; [|done].
      pose proof (pow2_ge n). lia.
    - assert (runs_to 1 (mkBDD (key :: rest) memo1 d1)
                (mkBDD (lk :: key :: rest) memo1 d1)) as Hpush.
      { apply runs_to_step. rewrite Hbody. destruct Hh as [thi Hthi].
        fold hk lk. by rewrite Hthi, Hl. }
      destruct (IH lk (key :: rest) memo1 d1 E1)
        as (k2 & memo2 & d2 & E2 & Hk2 & Hrun2 & Hd2 & Hlk & Hm2 & Hc2 & Hmd2);
        [done..|].
      destruct (Hfin memo2 d2 (E1 ++ E2))
        as (memo' & d' & E' & Hrun & Hd' & Hkey & Hm' & Hc' & Hmd');
        [done|lia| | |].
      { apply elem_of_dom. apply Hd2. by apply elem_of_dom. }
      { by apply elem_of_dom. }
      exists (1 + k2 + 1)%nat, memo', d', (E2 ++ E'). split_and!.
      + lia.
      + eapply runs_to_trans; [eapply runs_to_trans|]; eauto.
      + set_solver.
      + done.
      + by rewrite app_assoc.
      + by rewrite Hc', Hc2, app_assoc.
      + lia. }
  assert (2 ^ (S n + 2) = 2 * 2 ^ (n + 2))%nat as Hpow by (cbn; lia).
  pose proof (pow2_ge n) as Hge.
  destruct (memo !! hk) as [thi|] eqn:Hh.
  - destruct (Hwith memo d E) as (k & memo' & d' & E' & Hk & ?);
      [by eauto..|].
    exists k, memo', d', E'. split; [lia|done].
  - assert (runs_to 1 (mkBDD (key :: rest) memo d)
              (mkBDD (hk :: key :: rest) memo d)) as Hpush.
    { apply runs_to_step. rewrite Hbody. fold hk. by rewrite Hh. }
    destruct (IH hk (key :: rest) memo d E)
      as (k1 & memo1 & d1 & E1 & Hk1 & Hrun1 & Hd1 & Hhk & Hm1 & Hc1 & Hmd1);
      [done..|].
    destruct (Hwith memo1 d1 (E ++ E1))
      as (k2 & memo' & d' & E' & Hk2 & Hrun & Hd' & Hkey & Hm' & Hc' & Hmd');
      [done|lia| |].
    { by apply elem_of_dom. }
    exists (1 + k1 + k2)%nat, memo', d', (E1 ++ E'). split_and!.
    + lia.
    + eapply runs_to_trans; [eapply runs_to_trans|]; eauto.
    + set_solver.
    + done.
    + by rewrite app_assoc.
    + by rewrite Hc', Hc1, app_assoc.
    + lia.
Qed.

End bdd.
(** [lo ≤ s ≤ hi] *)
Definition in_range (lo s hi : Z) : bool := (lo <=? s) && (s <=? hi).

(** [BDD] returns, and its literal stands for
    [lo ≤ Σ_{i < nterms} coeffsᵢ · [litsᵢ] ≤ hi]. *)
Lemma BDD_returns lits coeffs nterms lo hi polarity d :
  Forall (λ l, l ≠ 0) lits → Forall (λ c, 0 ≤ c) coeffs →
  0 ≤ nterms ≤ Z.of_nat (length lits) →
  nterms ≤ Z.of_nat (length coeffs) →
  0 ≤ m d →
  ∃ r d' E,
    BDD lits coeffs nterms lo hi polarity d = Some (r, d')
    ∧ r ≠ 0
    ∧ _clauses d' = _clauses d ++ E ∧ m d ≤ m d'
    ∧ ∀ M, models M E →
        agrees polarity (lit_true M r)
          (in_range lo (psum lits coeffs M (Z.to_nat nterms)) hi).
Proof.
  intros Hlits Hcoeffs Hn1 Hn2 Hm.
  set (target := (nterms - 1, 0, sumZ (slice_to coeffs nterms))).
  assert (key_ok lits coeffs target) as Hok.
  { unfold target, key_ok, slice_to.
    destruct (Z.ltb_spec nterms 0); [lia|].
    split_and!; try lia. do 2 f_equal. lia. }
  destruct (BDD_pops lits coeffs lo hi polarity Hlits Hcoeffs
              (Z.to_nat nterms) target [] ∅ d [] Hok)
    as (k & memo' & d' & E' & Hk & Hrun & _ & Hkey & Hmemo & Hc & Hmd);
    [unfold target; cbn; lia|by intros ???|done|].
  apply elem_of_dom in Hkey as [r Hr].
  destruct (Hmemo _ _ Hr) as [Hr0 Hsem].
  exists r, d', E'. split_and!; try done.
  - unfold BDD. fold target.
    replace (BDD_fuel nterms)
      with (k + S (BDD_fuel nterms - k - 1))%nat by (unfold BDD_fuel; lia).
    rewrite Hrun. cbn. by rewrite Hr.
  - intros M HM. specialize (Hsem M HM).
    unfold target, key_sem in Hsem.
    replace (Z.to_nat (nterms - 1 + 1)) with (Z.to_nat nterms) in Hsem by lia.
    by rewrite Z.add_0_l in Hsem.
Qed.
(** ** Deferred values, [assign], [All] and [Combine] *)

(** A returned value stands for the condition [e]: a literal as in
    [agrees]; of a deferred pair, the positive clauses entail [e] and the
    negative ones entail its negation. *)
Definition value_agrees (polarity : option bool) (M : Z → bool) (v : value)
    (e : bool) : Prop :=
  match v with
  | Lit r => agrees polarity (lit_true M r) e
  | Deferred pval nval =>
      (in_True_None polarity = true → models M pval → e = true)
      ∧ (in_False_None polarity = true → models M nval → e = false)
  end.

Definition value_nonzero (v : value) : Prop :=
  match v with Lit r => r ≠ 0 | Deferred _ _ => True end.

Lemma models_cons M c cs :
  models M (c :: cs) ↔ clause_true M c = true ∧ models M cs.
Proof. unfold models. cbn. apply andb_true_iff. Qed.

Lemma models_map_cons M x cs :
  models M (map (λ y, x :: y) cs) ↔ lit_true M x = true ∨ models M cs.
Proof.
  induction cs as [|c cs IH]; cbn [map].
  - split; [by right|done].
  - rewrite !models_cons, IH. cbn. rewrite orb_true_iff. tauto.
Qed.

Lemma assign_ok polarity v d :
  0 ≤ m d → value_nonzero v →
  ∃ E,
    (assign v d).1 ≠ 0
    ∧ _clauses (assign v d).2 = _clauses d ++ E
    ∧ m d ≤ m (assign v d).2
    ∧ ∀ M e, value_agrees polarity M v e → models M E →
        agrees polarity (lit_true M (assign v d).1) e.
Proof.
  intros Hm Hv. destruct v as [r|pval nval]; cbn.
  { exists []. rewrite app_nil_r. split_and!; try done; lia. }
  exists (map (λ y, - (m d + 1) :: y) pval ++ map (λ y, (m d + 1) :: y) nval).
  unfold ClauseList.extend. rewrite <- app_assoc.
  split_and!; try done; try lia.
  intros M e [Hp Hn] [HP HN]%models_app.
  apply models_map_cons in HP, HN.
  rewrite lit_true_opp in HP by lia.
  split; intros Hpol.
  - intros Hx. apply Hp; [done|]. destruct HP as [HP|]; [|done].
    by rewrite Hx in HP.
  - intros He. destruct HN as [|HN]; [done|].
    rewrite Hn in He; done.
Qed.

Section all_iter.

Context {A : Type}.
Variables (next_item : A → Clauses → Z * Clauses)
          (sem : A → (Z → bool) → bool)
          (item_ok : A → Prop)
          (good : (Z → bool) → Prop)
          (polarity : option bool).

(** Producing an item appends clauses in whose models (among the good
    ones) the literal produced stands for the meaning of the item. *)
Hypothesis next_item_ok : ∀ a d,
  item_ok a → 0 ≤ m d →
  ∃ E,
    (next_item a d).1 ≠ 0
    ∧ _clauses (next_item a d).2 = _clauses d ++ E
    ∧ m d ≤ m (next_item a d).2
    ∧ ∀ M, good M → models M E →
        agrees polarity (lit_true M (next_item a d).1) (sem a M).

Definition conj_of (items : list A) (M : Z → bool) : bool :=
  forallb (λ a, sem a M) items.

(** The set [vals] after the items [seen]. *)
Definition vals_ok (E : list clause) (vals : gset Z) (seen : list A) : Prop :=
  (∀ v, v ∈ vals → v ≠ 0)
  ∧ ∀ M, good M → models M E →
      (in_True_None polarity = true →
       (∀ v, v ∈ vals → lit_true M v = true) → conj_of seen M = true)
      ∧ (in_False_None polarity = true →
         ∀ v, v ∈ vals → lit_true M v = false → conj_of seen M = false).

Lemma conj_of_snoc seen a M :
  conj_of (seen ++ [a]) M = conj_of seen M && sem a M.
Proof. unfold conj_of. rewrite forallb_app. cbn. by rewrite andb_true_r. Qed.

Lemma conj_of_app seen iter M :
  conj_of (seen ++ iter) M = conj_of seen M && conj_of iter M.
Proof. unfold conj_of. by rewrite forallb_app. Qed.

Lemma All_scan_ok iter : ∀ seen vals d E,
  Forall item_ok iter → 0 ≤ m d → vals_ok E vals seen →
  ∃ E',
    _clauses (All_scan next_item iter vals d).2 = _clauses d ++ E'
    ∧ m d ≤ m (All_scan next_item iter vals d).2
    ∧ match (All_scan next_item iter vals d).1 with
      | None =>
          ∀ M, good M → models M (E ++ E') →
            in_False_None polarity = true →
            conj_of (seen ++ iter) M = false
      | Some vals' => vals_ok (E ++ E') vals' (seen ++ iter)
      end.
Proof.
  induction iter as [|a iter IH]; intros seen vals d E Hiter Hm Hvals.
  { exists []. cbn. rewrite !app_nil_r. split_and!; try done. }
  apply Forall_cons in Hiter as [Ha Hiter].
  destruct (next_item_ok a d Ha Hm) as (E1 & Hv0 & Hc1 & Hm1 & Hsem).
  cbn [All_scan]. destruct (next_item a d) as [v d1]; cbn [fst snd] in *.
  destruct Hvals as [Hnz Hvals].
  assert (∀ M, good M → models M (E ++ E1) →
            agrees polarity (lit_true M v) (sem a M)) as Hsem'.
  { intros M HG [_ H1]%models_app. auto. }
  assert (∀ M, good M → models M (E ++ E1) →
     (in_True_None polarity = true →
      (∀ v, v ∈ vals → lit_true M v = true) → conj_of seen M = true)
     ∧ (in_False_None polarity = true →
        ∀ v, v ∈ vals → lit_true M v = false → conj_of seen M = false))
    as Hvals'.
  { intros M HG [H0 _]%models_app. auto. }
  destruct (Z.eqb_spec v TRUE) as [->|HvT].
  { (* [continue] *)
    destruct (IH (seen ++ [a]) vals d1 (E ++ E1)) as (E2 & Hc2 & Hm2 & Hres);
      [done|lia| |].
    - split; [done|]. intros M HG HM.
      destruct (Hvals' M HG HM) as [Hp Hn]. destruct (Hsem' M HG HM) as [Sp Sn].
      rewrite lit_true_TRUE in Sp. rewrite conj_of_snoc.
      split.
      + intros Hpol Hall. by rewrite Hp, Sp.
      + intros Hpol w Hw Hwf. by rewrite (Hn Hpol w Hw Hwf).
    - exists (E1 ++ E2). split_and!.
      + by rewrite Hc2, Hc1, app_assoc.
      + lia.
      + rewrite <- !app_assoc in Hres. exact Hres. }
  destruct ((v =? FALSE) || bool_decide (- v ∈ vals)) eqn:Hexit.
  { (* [return FALSE] *)
    exists E1. cbn. split_and!; [done|done|].
    intros M HG HM Hpol. rewrite conj_of_app. cbn.
    destruct (Hvals' M HG HM) as [_ Hn]. destruct (Hsem' M HG HM) as [_ Sn].
    destruct (sem a M) eqn:Hsa; [|by rewrite andb_false_r].
    specialize (Sn Hpol eq_refl).
    apply orb_true_iff in Hexit as [Hv|Hv].
    - apply Z.eqb_eq in Hv. subst v. by rewrite lit_true_FALSE in Sn.
    - apply bool_decide_eq_true in Hv.
      rewrite (Hn Hpol _ Hv); [done|].
      rewrite lit_true_opp by done. by rewrite Sn. }
  apply orb_false_iff in Hexit as [HvF Hopp].
  apply bool_decide_eq_false in Hopp.
  destruct (IH (seen ++ [a]) ({[v]} ∪ vals) d1 (E ++ E1))
    as (E2 & Hc2 & Hm2 & Hres); [done|lia| |].
  - split.
    { intros w [->%elem_of_singleton|Hw]%elem_of_union; auto. }
    intros M HG HM.
    destruct (Hvals' M HG HM) as [Hp Hn]. destruct (Hsem' M HG HM) as [Sp Sn].
    rewrite conj_of_snoc. split.
    + intros Hpol Hall. rewrite Hp, Sp; try done.
      * apply Hall. set_solver.
      * intros w Hw. apply Hall. set_solver.
    + intros Hpol w [->%elem_of_singleton|Hw]%elem_of_union Hwf.
      * destruct (sem a M); [|by rewrite andb_false_r].
        rewrite Sn in Hwf; done.
      * by rewrite (Hn Hpol w Hw Hwf).
  - exists (E1 ++ E2). split_and!.
    + by rewrite Hc2, Hc1, app_assoc.
    + lia.
    + rewrite <- !app_assoc in Hres. exact Hres.
Qed.

End all_iter.

Lemma clause_true_iff M c :
  clause_true M c = true ↔ ∃ l, l ∈ c ∧ lit_true M l = true.
Proof.
  unfold clause_true. rewrite existsb_exists.
  split; intros (l & Hl & ?); exists l; by rewrite list_elem_of_In in *.
Qed.

Lemma models_units M (vs : list Z) :
  models M (map (λ v, [v]) vs) ↔ ∀ v, v ∈ vs → lit_true M v = true.
Proof.
  induction vs as [|v vs IH]; cbn [map].
  - split; [by intros ? ? ?%elem_of_nil|done].
  - rewrite models_cons, IH. cbn. rewrite orb_false_r. split.
    + intros [Hv Hvs] w [->|Hw]%elem_of_cons; auto.
    + intros H. split; [apply H; left|intros w Hw; apply H; by right].
Qed.

Lemma All_iter_ok {A} (next_item : A → Clauses → Z * Clauses)
    (sem : A → (Z → bool) → bool) (item_ok : A → Prop)
    (good : (Z → bool) → Prop) (polarity : option bool) iter d :
  (∀ a d,
     item_ok a → 0 ≤ m d →
     ∃ E,
       (next_item a d).1 ≠ 0
       ∧ _clauses (next_item a d).2 = _clauses d ++ E
       ∧ m d ≤ m (next_item a d).2
       ∧ ∀ M, good M → models M E →
           agrees polarity (lit_true M (next_item a d).1) (sem a M)) →
  Forall item_ok iter → 0 ≤ m d →
  ∃ E,
    _clauses (All_iter next_item iter polarity d).2 = _clauses d ++ E
    ∧ m d ≤ m (All_iter next_item iter polarity d).2
    ∧ value_nonzero (All_iter next_item iter polarity d).1
    ∧ ∀ M, good M → models M E →
        value_agrees polarity M (All_iter next_item iter polarity d).1
          (conj_of sem iter M).
Proof.
  intros Hnext Hiter Hm.
  destruct (All_scan_ok next_item sem item_ok good polarity Hnext iter
              [] ∅ d [] Hiter Hm) as (E & Hc & Hmd & Hres).
  { split; [set_solver|]. intros M _ _. split; [done|set_solver]. }
  exists E. unfold All_iter.
  destruct (All_scan next_item iter ∅ d) as [[vals|] d1];
    cbn [fst snd app] in *.
  2:{ split_and!; [done|done|apply FALSE_nz|].
      intros M HG HM. cbn. rewrite lit_true_FALSE. split; [done|].
      intros Hpol He. by rewrite (Hres M HG HM Hpol) in He. }
  destruct Hres as [Hnz Hres].
  assert (∀ v, v ∈ elements vals ↔ v ∈ vals) as Hel
    by (intros; apply elem_of_elements).
  destruct (elements vals) as [|v [|w vs]] eqn:Els; cbn [fst snd].
  - split_and!; [done|done|apply TRUE_nz|].
    intros M HG HM. cbn. rewrite lit_true_TRUE.
    destruct (Hres M HG HM) as [Hp _]. split; [|done].
    intros Hpol _. apply Hp; [done|].
    intros v Hv%Hel. by apply elem_of_nil in Hv.
  - assert (v ∈ vals) as Hv by (apply Hel; left).
    split_and!; [done|done|by apply Hnz|].
    intros M HG HM. cbn. destruct (Hres M HG HM) as [Hp Hn]. split.
    + intros Hpol Hvt. apply Hp; [done|].
      intros w Hw%Hel. apply list_elem_of_singleton in Hw. by subst.
    + intros Hpol He. destruct (lit_true M v) eqn:Hvf; [done|].
      by rewrite (Hn Hpol v Hv Hvf) in He.
  - split_and!; [done|done|done|].
    intros M HG HM. cbn [value_agrees].
    destruct (Hres M HG HM) as [Hp Hn]. split.
    + intros Hpol HP. rewrite Hpol in HP.
      pose proof (proj1 (models_units M _) HP) as HP'.
      apply Hp; [done|]. intros x Hx%Hel. by apply HP'.
    + intros Hpol HN. rewrite Hpol in HN.
      apply models_cons in HN as [HN _].
      apply clause_true_iff in HN as (l & Hl & Hlt).
      apply list_elem_of_fmap in Hl as (x & -> & Hx).
      apply Hel in Hx. rewrite lit_true_opp in Hlt by (by apply Hnz).
      apply (Hn Hpol x Hx). by destruct (lit_true M x).
Qed.

(** [All] on a list of literals. *)
Lemma All_ok polarity iter d :
  Forall (λ l, l ≠ 0) iter →
  (All iter polarity d).2 = d
  ∧ value_nonzero (All iter polarity d).1
  ∧ ∀ M, value_agrees polarity M (All iter polarity d).1
           (forallb (lit_true M) iter).
Proof.
  intros Hiter. split; [apply All_same_driver|].
  pose (d0 := mkClauses (unsat d) 0 (_clauses d) (backend_runs d)).
  assert (∀ e, (All iter polarity e).1 = (All iter polarity d0).1) as Hsame.
  { intros e. unfold All, All_iter.
    assert (∀ vals e1 e2,
      (All_scan (λ v s, (v, s)) iter vals e1).1
      = (All_scan (λ v s, (v, s)) iter vals e2).1) as H.
    { induction iter as [|v iter IH]; intros vals e1 e2; cbn; [done|].
      apply Forall_cons in Hiter as [_ Hiter].
      repeat case_match; cbn; auto. }
    specialize (H ∅ e d0).
    destruct (All_scan _ iter ∅ e) as [[?|] ?],
             (All_scan _ iter ∅ d0) as [[?|] ?]; cbn in H; simplify_eq;
      repeat case_match; done. }
  rewrite (Hsame d).
  destruct (All_iter_ok (λ v s, (v, s)) (λ l M, lit_true M l) (λ l, l ≠ 0)
              (λ _, True) polarity iter d0) as (E & Hc & _ & Hnz & Hsem);
    [|done|done|].
  { intros a e Ha He. exists []. cbn. rewrite app_nil_r.
    split_and!; [done|done|lia|intros; apply agrees_refl]. }
  split; [done|]. intros M.
  assert (E = []) as ->.
  { fold (All iter polarity d0) in Hc. rewrite All_same_driver in Hc.
    apply (inj (app (_clauses d0))). by rewrite app_nil_r. }
  by apply Hsem.
Qed.
Lemma All_scan_map {A B} (g : A → B) (f : B → Clauses → Z * Clauses)
    (iter : list A) vals d :
  All_scan (λ a, f (g a)) iter vals d = All_scan f (map g iter) vals d.
Proof.
  revert vals d. induction iter as [|a iter IH]; intros vals d; cbn; [done|].
  destruct (f (g a) d) as [v d1]. repeat case_match; auto.
Qed.

Lemma All_iter_map {A B} (g : A → B) (f : B → Clauses → Z * Clauses)
    (iter : list A) polarity d :
  All_iter (λ a, f (g a)) iter polarity d = All_iter f (map g iter) polarity d.
Proof. unfold All_iter. by rewrite All_scan_map. Qed.

(** [Combine((res, prune), polarity)] for a literal [res]. *)
Lemma Combine_pair_ok polarity r prune d (good : (Z → bool) → Prop)
    (e1 e2 : (Z → bool) → bool) :
  r ≠ 0 → value_nonzero prune → 0 ≤ m d →
  (∀ M, good M → agrees polarity (lit_true M r) (e1 M)) →
  (∀ M, good M → value_agrees polarity M prune (e2 M)) →
  ∃ E,
    _clauses (Combine [Lit r; prune] polarity d).2 = _clauses d ++ E
    ∧ m d ≤ m (Combine [Lit r; prune] polarity d).2
    ∧ value_nonzero (Combine [Lit r; prune] polarity d).1
    ∧ ∀ M, good M → models M E →
        value_agrees polarity M (Combine [Lit r; prune] polarity d).1
          (e1 M && e2 M).
Proof.
  intros Hr Hp Hm H1 H2.
  assert (∃ E,
    _clauses (All_iter assign [Lit r; prune] polarity d).2 = _clauses d ++ E
    ∧ m d ≤ m (All_iter assign [Lit r; prune] polarity d).2
    ∧ value_nonzero (All_iter assign [Lit r; prune] polarity d).1
    ∧ ∀ M, good M → models M E →
        value_agrees polarity M (All_iter assign [Lit r; prune] polarity d).1
          (e1 M && e2 M)) as Hall.
  { change [Lit r; prune] with (map fst [(Lit r, e1); (prune, e2)]).
    rewrite <- (All_iter_map fst assign).
    destruct (All_iter_ok (λ a, assign a.1) (λ a, a.2)
                (λ a, value_nonzero a.1
                      ∧ ∀ M, good M → value_agrees polarity M a.1 (a.2 M))
                good polarity [(Lit r, e1); (prune, e2)] d)
      as (E & Hc & Hmd & Hnz & Hsem); [| |done|].
    - intros [v e] d0 [Hv Hve] Hd0. cbn [fst snd] in *.
      destruct (assign_ok polarity v d0 Hd0 Hv) as (E & ? & ? & ? & Hs).
      exists E. split_and!; try done. intros M HG HM. by apply Hs; auto.
    - apply Forall_cons; split; [by split|].
      apply Forall_cons; split; [by split|constructor].
    - exists E. split_and!; try done. intros M HG HM.
      specialize (Hsem M HG HM). unfold conj_of in Hsem. cbn in Hsem.
      by rewrite andb_true_r in Hsem. }
  unfold Combine. cbn [existsb value_is List.filter negb].
  sentinel_facts.
  destruct (Z.eqb_spec r FALSE) as [->|HrF]; cbn [orb].
  { exists []. rewrite app_nil_r. split_and!; [done|done|apply FALSE_nz|].
    intros M HG _. cbn. destruct (H1 M HG) as [_ Hn].
    rewrite lit_true_FALSE in *. split; [done|].
    intros Hpol He. apply andb_true_iff in He as [He _]. auto. }
  destruct (value_is FALSE prune) eqn:HpF; cbn [orb].
  { destruct prune as [p|]; [|done]. cbn in HpF. apply Z.eqb_eq in HpF as ->.
    exists []. rewrite app_nil_r. split_and!; [done|done|apply FALSE_nz|].
    intros M HG _. cbn. specialize (H2 M HG). cbn in H2.
    destruct H2 as [_ Hn]. rewrite lit_true_FALSE in *. split; [done|].
    intros Hpol He. apply andb_true_iff in He as [_ He]. auto. }
  destruct (Z.eqb_spec r TRUE) as [->|HrT]; cbn [negb];
    destruct (value_is TRUE prune) eqn:HpT; cbn [negb].
  - destruct prune as [p|]; [|done]. cbn in HpT. apply Z.eqb_eq in HpT as ->.
    exists []. rewrite app_nil_r. split_and!; [done|done|apply TRUE_nz|].
    intros M HG _. cbn. specialize (H2 M HG). cbn in H2.
    destruct H2 as [Hp2 _]. destruct (H1 M HG) as [Hp1 _].
    rewrite lit_true_TRUE in *. split; [|done].
    intros Hpol _. rewrite Hp1, Hp2; done.
  - exists []. rewrite app_nil_r. split_and!; [done|done|done|].
    intros M HG _. specialize (H2 M HG). destruct (H1 M HG) as [Hp1 _].
    rewrite lit_true_TRUE in Hp1.
    destruct prune as [p|P N]; cbn in *.
    + destruct H2 as [Hp2 Hn2]. split.
      * intros Hpol Hpt. rewrite Hp1, Hp2; done.
      * intros Hpol He. apply andb_true_iff in He as [_ He]. auto.
    + destruct H2 as [Hp2 Hn2]. split.
      * intros Hpol HP. rewrite Hp1, Hp2; done.
      * intros Hpol HN. rewrite Hn2; [apply andb_false_r|done..].
  - destruct prune as [p|]; [|done]. cbn in HpT. apply Z.eqb_eq in HpT as ->.
    exists []. rewrite app_nil_r. split_and!; [done|done|done|].
    intros M HG _. cbn. specialize (H2 M HG). cbn in H2.
    destruct H2 as [Hp2 _]. destruct (H1 M HG) as [Hp1 Hn1].
    rewrite lit_true_TRUE in *. split.
    + intros Hpol Hrt. rewrite Hp1, Hp2; done.
    + intros Hpol He. apply andb_true_iff in He as [He _]. auto.
  - cbn [forallb is_tuple andb]. exact Hall.
Qed.
(** ** [LinearBound] *)

(** [LinearBound] from [nterms = len(coeffs)] on. *)
Definition LinearBound_tail (lits coeffs : list Z) (lo hi : Z)
    (preprocess : bool) (polarity : option bool) (self : Clauses)
    : option (value * Clauses) :=
  let nterms := Z.of_nat (length coeffs) in
  let '(nterms, nprune) :=
    if negb (nterms =? 0) && (default 0 (last coeffs) >? hi) then
      let nprune := Z.of_nat (length (List.filter (λ c, c >? hi) coeffs)) in
      (nterms - nprune, nprune)
    else (nterms, 0) in
  let total := sumZ (slice_to coeffs nterms) in
  let '(lo, hi) :=
    if preprocess then (Z.max lo 0, Z.min hi total) else (lo, hi) in
  if lo >? hi then Some (Lit FALSE, self)
  else
    '(res, self) ←
      (if nterms =? 0 then Some (if lo =? 0 then TRUE else FALSE, self)
       else BDD lits coeffs nterms lo hi polarity self);
    if negb (nprune =? 0) then
      let '(prune, self) :=
        All (map Z.opp (slice_from lits nterms)) polarity self in
      Some (Combine [Lit res; prune] polarity self)
    else Some (Lit res, self).

Lemma LinearBound_unfold lits coeffs lo hi preprocess polarity d :
  LinearBound lits coeffs lo hi preprocess polarity d
  = if preprocess then
      LinearBound_tail (LB_Preprocess lits coeffs).1.1
        (LB_Preprocess lits coeffs).1.2
        (lo - (LB_Preprocess lits coeffs).2)
        (hi - (LB_Preprocess lits coeffs).2) true polarity d
    else LinearBound_tail lits coeffs lo hi false polarity d.
Proof.
  unfold LinearBound. destruct preprocess; [|done].
  by destruct (LB_Preprocess lits coeffs) as [[l c] off].
Qed.

Lemma filter_gt_all hi (l : list Z) :
  Forall (λ c, hi < c) l → List.filter (λ c, c >? hi) l = l.
Proof.
  induction 1 as [|x l Hx _ IH]; cbn; [done|].
  destruct (Z.gtb_spec x hi); [by rewrite IH|lia].
Qed.

Lemma filter_gt_length hi (l : list Z) :
  (length (List.filter (λ c, c >? hi) l) ≤ length l)%nat.
Proof. induction l as [|x l IH]; cbn; [done|]. case_match; cbn; lia. Qed.

(** In an ascending list the terms above [hi] are the last ones. *)
Lemma filter_sorted_suffix hi (l : list Z) :
  Sorted Z.le l →
  drop (length l - length (List.filter (λ c, c >? hi) l)) l
  = List.filter (λ c, c >? hi) l.
Proof.
  intros H%Sorted_StronglySorted; [|apply _].
  induction H as [|x l Hl IH Hx]; [done|].
  cbn [List.filter]. destruct (Z.gtb_spec x hi) as [Hgt|Hle].
  - rewrite (filter_gt_all hi l).
    + by rewrite Nat.sub_diag.
    + eapply Forall_impl; [exact Hx|]. cbn. lia.
  - pose proof (filter_gt_length hi l).
    replace (length (x :: l) - length (List.filter (λ c, c >? hi) l))%nat
      with (S (length l - length (List.filter (λ c, c >? hi) l)))
      by (cbn; lia).
    exact IH.
Qed.

Lemma Forall_filter_gt hi (l : list Z) :
  Forall (λ c, hi < c) (List.filter (λ c, c >? hi) l).
Proof.
  apply Forall_forall. intros c Hc%list_elem_of_In%filter_In. lia.
Qed.

Lemma wsum_tail_cases M lits coeffs hi :
  length lits = length coeffs →
  Forall (λ l, l ≠ 0) lits → Forall (λ c, 0 ≤ c) coeffs →
  Forall (λ c, hi < c) coeffs →
  (wsum M lits coeffs = 0 ∧ forallb (lit_true M) (map Z.opp lits) = true)
  ∨ (hi < wsum M lits coeffs
     ∧ forallb (lit_true M) (map Z.opp lits) = false).
Proof.
  revert coeffs. induction lits as [|l lits IH]; intros [|c coeffs] Hlen Hl Hc Hhi;
    try done.
  { left. by rewrite wsum_nil_l. }
  apply Forall_cons in Hl as [Hl0 Hl], Hc as [Hc0 Hc], Hhi as [Hhi0 Hhi].
  rewrite wsum_cons. cbn [map forallb]. rewrite lit_true_opp by done.
  pose proof (wsum_bounds M lits coeffs Hc).
  destruct (lit_true M l); cbn [negb andb].
  - right. split; [lia|done].
  - destruct (IH coeffs) as [[? ?]|[? ?]]; try done; [by injection Hlen|..];
      [left|right]; split; try done; lia.
Qed.

Lemma in_range_spec lo s hi : in_range lo s hi = true ↔ lo ≤ s ≤ hi.
Proof. unfold in_range. rewrite andb_true_iff, !Z.leb_le. done. Qed.

Lemma in_range_eq lo1 s1 hi1 lo2 s2 hi2 :
  (lo1 ≤ s1 ≤ hi1 ↔ lo2 ≤ s2 ≤ hi2) →
  in_range lo1 s1 hi1 = in_range lo2 s2 hi2.
Proof.
  intros H. apply eq_true_iff_eq. by rewrite !in_range_spec.
Qed.

(** Dropping the terms above [hi] and forcing their literals false
    keeps the meaning of the bound. *)
Lemma pruned_range M lits coeffs nt lo hi :
  length lits = length coeffs →
  Forall (λ l, l ≠ 0) lits → Forall (λ c, 0 ≤ c) coeffs →
  Forall (λ c, hi < c) (drop nt coeffs) →
  in_range lo (wsum M lits coeffs) hi
  = in_range lo (psum lits coeffs M nt) hi
    && forallb (lit_true M) (map Z.opp (drop nt lits)).
Proof.
  intros Hlen Hl Hc Hhi.
  rewrite <- (take_drop nt lits) at 1. rewrite <- (take_drop nt coeffs) at 1.
  rewrite wsum_app by (rewrite !length_take; lia).
  fold (psum lits coeffs M nt).
  pose proof (psum_bounds lits coeffs Hc M nt) as Hp.
  destruct (wsum_tail_cases M (drop nt lits) (drop nt coeffs) hi)
    as [[-> ->]|[Ht ->]];
    [rewrite !length_drop; lia|by apply Forall_drop|by apply Forall_drop
    |done| |].
  - by rewrite Z.add_0_r, andb_true_r.
  - rewrite andb_false_r. apply not_true_iff_false.
    rewrite in_range_spec. lia.
Qed.
(** On a normalized objective (nonzero literals, nonnegative ascending
    coefficients) [LinearBound] returns, and the value it returns stands for
    [lo ≤ Σ coeffsᵢ · [litsᵢ] ≤ hi] in every model of the clauses it
    emitted. *)
Lemma LinearBound_tail_ok lits coeffs lo hi preprocess polarity d :
  Forall (λ l, l ≠ 0) lits → Forall (λ c, 0 ≤ c) coeffs →
  Sorted Z.le coeffs → length lits = length coeffs → 0 ≤ m d →
  (preprocess = false → 0 ≤ lo) →
  ∃ v d' E,
    LinearBound_tail lits coeffs lo hi preprocess polarity d = Some (v, d')
    ∧ value_nonzero v
    ∧ _clauses d' = _clauses d ++ E ∧ m d ≤ m d'
    ∧ ∀ M, models M E →
        value_agrees polarity M v (in_range lo (wsum M lits coeffs) hi).
Proof.
  intros Hl Hc Hsorted Hlen Hm Hlo. unfold LinearBound_tail.
  set (n := Z.of_nat (length coeffs)).
  set (k := Z.of_nat (length (List.filter (λ c, c >? hi) coeffs))).
  (* the split into kept and pruned terms *)
  assert (∃ nt np,
    (if negb (n =? 0) && (default 0 (last coeffs) >? hi)
     then (n - k, k) else (n, 0)) = (nt, np)
    ∧ 0 ≤ nt ≤ n
    ∧ Forall (λ c, hi < c) (drop (Z.to_nat nt) coeffs)
    ∧ (np = 0 → nt = n)) as (nt & np & -> & Hnt & Hpruned & Hnp).
  { pose proof (filter_gt_length hi coeffs).
    destruct (negb (n =? 0) && (default 0 (last coeffs) >? hi)).
    - exists (n - k), k. split_and!; try done; try lia.
      replace (Z.to_nat (n - k))
        with (length coeffs
              - length (List.filter (λ c, c >? hi) coeffs))%nat by lia.
      rewrite filter_sorted_suffix by done. apply Forall_filter_gt.
    - exists n, 0. split_and!; try done; try lia.
      unfold n. rewrite Nat2Z.id, drop_all. constructor. }
  assert (slice_to coeffs nt = take (Z.to_nat nt) coeffs) as ->.
  { unfold slice_to. by destruct (Z.ltb_spec nt 0); [lia|]. }
  assert (slice_from lits nt = drop (Z.to_nat nt) lits) as ->.
  { unfold slice_from. by destruct (Z.ltb_spec nt 0); [lia|]. }
  set (total := sumZ (take (Z.to_nat nt) coeffs)).
  set (p := λ M, psum lits coeffs M (Z.to_nat nt)).
  set (allfalse := λ M,
         forallb (lit_true M) (map Z.opp (drop (Z.to_nat nt) lits))).
  assert (∀ M, in_range lo (wsum M lits coeffs) hi
               = in_range lo (p M) hi && allfalse M) as Hsplit.
  { intros M. by apply pruned_range. }
  assert (∀ M, 0 ≤ p M ≤ total) as Hp.
  { intros M. by apply psum_bounds. }
  (* the tightened bounds *)
  assert (∃ lo2 hi2,
    (if preprocess then (lo `max` 0, hi `min` total) else (lo, hi))
    = (lo2, hi2)
    ∧ (∀ M, in_range lo2 (p M) hi2 = in_range lo (p M) hi)
    ∧ 0 ≤ lo2) as (lo2 & hi2 & -> & Htight & Hlo2).
  { destruct preprocess.
    - exists (lo `max` 0), (hi `min` total). split_and!; [done| |lia].
      intros M. apply in_range_eq. specialize (Hp M). lia.
    - exists lo, hi. split_and!; auto. }
  destruct (Z.gtb_spec lo2 hi2) as [Hgt|Hle].
  { exists (Lit FALSE), d, []. rewrite app_nil_r.
    split_and!; [done|apply FALSE_nz|done|lia|].
    intros M _. cbn. rewrite lit_true_FALSE, Hsplit, <- Htight.
    replace (in_range lo2 (p M) hi2) with false; [apply agrees_refl|].
    symmetry. apply not_true_iff_false. rewrite in_range_spec. lia. }
  (* the literal for the kept terms *)
  assert (∃ r d1 E1,
    (if nt =? 0 then Some (if lo2 =? 0 then TRUE else FALSE, d)
     else BDD lits coeffs nt lo2 hi2 polarity d) = Some (r, d1)
    ∧ r ≠ 0 ∧ _clauses d1 = _clauses d ++ E1 ∧ m d ≤ m d1
    ∧ ∀ M, models M E1 →
        agrees polarity (lit_true M r) (in_range lo (p M) hi))
    as (r & d1 & E1 & -> & Hr & Hc1 & Hm1 & Hr_sem).
  { destruct (Z.eqb_spec nt 0) as [->|Hnt0].
    - exists (if lo2 =? 0 then TRUE else FALSE), d, []. rewrite app_nil_r.
      split_and!; [done|case_match; [apply TRUE_nz|apply FALSE_nz]|done|lia|].
      intros M _. rewrite <- Htight.
      assert (p M = 0) as -> by (subst p; cbn; apply wsum_nil_l).
      destruct (Z.eqb_spec lo2 0) as [->|Hne].
      + rewrite lit_true_TRUE.
        replace (in_range 0 0 hi2) with true; [apply agrees_refl|].
        symmetry. apply in_range_spec. lia.
      + rewrite lit_true_FALSE.
        replace (in_range lo2 0 hi2) with false; [apply agrees_refl|].
        symmetry. apply not_true_iff_false. rewrite in_range_spec. lia.
    - destruct (BDD_returns lits coeffs nt lo2 hi2 polarity d)
        as (r & d1 & E1 & HB & Hr & Hc1 & Hm1 & Hsem);
        [done|done|lia|lia|done|].
      exists r, d1, E1. split_and!; try done.
      intros M HM. rewrite <- Htight. by apply Hsem. }
  cbn [mbind option_bind].
  destruct (Z.eqb_spec np 0) as [Hnp0|Hnp0]; cbn [negb].
  { exists (Lit r), d1, E1. split_and!; try done.
    intros M HM. cbn. rewrite Hsplit.
    assert (allfalse M = true) as ->.
    { subst allfalse. cbn. rewrite (Hnp Hnp0). unfold n. rewrite <- Hlen.
      by rewrite Nat2Z.id, drop_all. }
    rewrite andb_true_r. by apply Hr_sem. }
  destruct (All_ok polarity (map Z.opp (drop (Z.to_nat nt) lits)) d1)
    as (Hd & Hprune0 & Hprune).
  { apply Forall_map. apply Forall_drop.
    eapply Forall_impl; [exact Hl|]. cbn. lia. }
  destruct (All (map Z.opp (drop (Z.to_nat nt) lits)) polarity d1)
    as [prune d2]. cbn [fst snd] in *. subst d2.
  destruct (Combine_pair_ok polarity r prune d1 (λ M, models M E1)
              (λ M, in_range lo (p M) hi) allfalse)
    as (E2 & Hc2 & Hm2 & Hv0 & Hv); [done|done|lia|done|by intros|].
  destruct (Combine [Lit r; prune] polarity d1) as [v d2].
  cbn [fst snd] in *.
  exists v, d2, (E1 ++ E2). split_and!; try done.
  - by rewrite Hc2, Hc1, app_assoc.
  - lia.
  - intros M [HM1 HM2]%models_app. rewrite Hsplit. by apply Hv.
Qed.
(** What a term [(coeff, lit)] adds to the weighted sum. *)
Definition term_val (M : Z → bool) (p : Z * Z) : Z :=
  if lit_true M p.2 then p.1 else 0.

Lemma wsum_zip M lits coeffs :
  wsum M lits coeffs = sumZ (map (term_val M) (zip coeffs lits)).
Proof. reflexivity. Qed.

Lemma wsum_unzip M (eq : list (Z * Z)) :
  wsum M (map snd eq) (map fst eq) = sumZ (map (term_val M) eq).
Proof.
  rewrite wsum_zip. change (map fst eq) with (eq.*1).
  change (map snd eq) with (eq.*2). by rewrite zip_fst_snd.
Qed.

Lemma sumZ_Permutation (l k : list Z) : l ≡ₚ k → sumZ l = sumZ k.
Proof.
  induction 1; rewrite ?sumZ_cons in *; lia.
Qed.

Lemma term_val_pair M c l :
  term_val M (c, l) = if lit_true M l then c else 0.
Proof. reflexivity. Qed.

Lemma LB_terms_sum M pairs :
  Forall (λ p : Z * Z, p.2 ≠ 0) pairs →
  sumZ (map (term_val M) pairs)
  = sumZ (map LB_offset_term pairs)
    + sumZ (map (term_val M) (LB_terms pairs)).
Proof.
  induction 1 as [|[c l] pairs Hl _ IH]; [done|].
  cbn [map]. rewrite !sumZ_cons, IH. clear IH.
  set (A := sumZ (map LB_offset_term pairs)).
  cbn [LB_terms]. unfold LB_offset_term. cbn [fst snd] in *.
  rewrite term_val_pair.
  destruct (Z.eqb_spec l TRUE) as [->|]; cbv beta iota.
  { rewrite lit_true_TRUE. lia. }
  destruct (Z.eqb_spec l FALSE) as [->|]; cbn [orb]; cbv beta iota.
  { rewrite lit_true_FALSE. lia. }
  destruct (Z.eqb_spec c 0) as [->|]; cbv beta iota.
  { destruct (lit_true M l); lia. }
  destruct (Z.ltb_spec c 0); cbv beta iota; cbn [map];
    rewrite sumZ_cons, term_val_pair.
  - rewrite lit_true_opp by done. destruct (lit_true M l); cbn [negb]; lia.
  - lia.
Qed.

Lemma LB_terms_nonzero pairs :
  Forall (λ p : Z * Z, p.2 ≠ 0) pairs →
  Forall (λ p : Z * Z, p.2 ≠ 0) (LB_terms pairs).
Proof.
  induction 1 as [|[c l] pairs Hl _ IH]; cbn; [done|].
  repeat case_match; try done; constructor; cbn in *; done || lia.
Qed.

Lemma zip_snd_nonzero (lits coeffs : list Z) :
  Forall (λ l, l ≠ 0) lits →
  Forall (λ p : Z * Z, p.2 ≠ 0) (zip coeffs lits).
Proof.
  intros H. revert coeffs.
  induction H as [|l lits Hl _ IH]; intros [|c coeffs]; cbn; try done.
  constructor; [done|apply IH].
Qed.

(** Preprocessing keeps the weighted sum, up to the offset, and hands
    a normalized objective to the rest of [LinearBound]. *)
Lemma LB_Preprocess_ok lits coeffs :
  Forall (λ l, l ≠ 0) lits →
  let lits' := (LB_Preprocess lits coeffs).1.1 in
  let coeffs' := (LB_Preprocess lits coeffs).1.2 in
  let offset := (LB_Preprocess lits coeffs).2 in
  Forall (λ l, l ≠ 0) lits' ∧ Forall (λ c, 0 < c) coeffs'
  ∧ Sorted Z.le coeffs' ∧ length lits' = length coeffs'
  ∧ ∀ M, wsum M lits coeffs = offset + wsum M lits' coeffs'.
Proof.
  intros Hl. rewrite LB_Preprocess_unfold. cbn [fst snd].
  set (eq := merge_sort tuple_le (LB_terms (zip coeffs lits))).
  assert (eq ≡ₚ LB_terms (zip coeffs lits)) as Hperm
    by apply merge_sort_Permutation.
  pose proof (LB_sorted_terms_normal lits coeffs) as Hn. fold eq in Hn.
  split_and!.
  - apply Forall_map. rewrite Hperm.
    by apply LB_terms_nonzero, zip_snd_nonzero.
  - apply Forall_map. eapply Forall_impl; [exact Hn|]. by intros p (? & _).
  - apply tuple_le_Sorted_fst, (Sorted_merge_sort tuple_le).
  - by rewrite !length_map.
  - intros M. rewrite wsum_unzip, wsum_zip.
    rewrite (LB_terms_sum M) by by apply zip_snd_nonzero.
    f_equal. apply sumZ_Permutation. by rewrite Hperm.
Qed.

(** ** Facts about the contract of the backend *)

Lemma satisfies_iff sol c :
  satisfies sol c = true ↔ ∃ l, l ∈ c ∧ l ∈ sol.
Proof.
  unfold satisfies. rewrite existsb_exists. split.
  - intros (l & Hl & Hs). exists l. rewrite list_elem_of_In.
    by apply bool_decide_eq_true in Hs.
  - intros (l & Hl & Hs). exists l. rewrite <- list_elem_of_In.
    by rewrite bool_decide_eq_true.
Qed.

Lemma satisfies_all_iff sol cs :
  satisfies_all sol cs ↔ ∀ c, c ∈ cs → ∃ l, l ∈ c ∧ l ∈ sol.
Proof.
  unfold satisfies_all. rewrite forallb_forall. split.
  - intros H c Hc. apply satisfies_iff, H. by apply list_elem_of_In.
  - intros H c Hc. apply satisfies_iff, H. by apply list_elem_of_In.
Qed.

Lemma satisfies_all_app sol cs1 cs2 :
  satisfies_all sol (cs1 ++ cs2) ↔ satisfies_all sol cs1 ∧ satisfies_all sol cs2.
Proof. unfold satisfies_all. rewrite forallb_app. apply andb_true_iff. Qed.

Lemma satisfies_all_ext sol sol' cs :
  (∀ l, l ∈ sol ↔ l ∈ sol') → satisfies_all sol cs → satisfies_all sol' cs.
Proof.
  intros H. rewrite !satisfies_all_iff. intros Hs c Hc.
  destruct (Hs c Hc) as (l & ? & ?). exists l. by rewrite <- H.
Qed.

(** The assignment that makes variable [v] true iff [f v]. *)
Definition canon (f : Z → bool) (n : nat) : list Z :=
  map (λ i, if f (Z.of_nat i) then Z.of_nat i else - Z.of_nat i) (seq 1 n).

Lemma canon_S f n :
  canon f (S n)
  = canon f n ++ [if f (Z.of_nat (S n)) then Z.of_nat (S n)
                  else - Z.of_nat (S n)].
Proof. unfold canon. by rewrite seq_S, map_app. Qed.

Lemma canon_enumerate f n : canon f n ∈ enumerate n.
Proof.
  induction n as [|n IH]; [by left|].
  rewrite canon_S. cbn [enumerate]. apply elem_of_app.
  destruct (f (Z.of_nat (S n))); [right|left];
    apply list_elem_of_fmap; eauto.
Qed.

Lemma enumerate_canon n sol : sol ∈ enumerate n → ∃ f, sol = canon f n.
Proof.
  revert sol. induction n as [|n IH]; intros sol; cbn [enumerate].
  { intros ->%list_elem_of_singleton. by exists (λ _, true). }
  intros [H|H]%elem_of_app; apply list_elem_of_fmap in H as (s & -> & Hs);
    destruct (IH s Hs) as [f ->].
  - exists (λ v, if v =? Z.of_nat (S n) then false else f v).
    rewrite canon_S, Z.eqb_refl. f_equal.
    unfold canon. apply map_ext_in. intros i Hi%in_seq.
    destruct (Z.eqb_spec (Z.of_nat i) (Z.of_nat (S n))); [lia|done].
  - exists (λ v, if v =? Z.of_nat (S n) then true else f v).
    rewrite canon_S, Z.eqb_refl. f_equal.
    unfold canon. apply map_ext_in. intros i Hi%in_seq.
    destruct (Z.eqb_spec (Z.of_nat i) (Z.of_nat (S n))); [lia|done].
Qed.

Lemma elem_of_canon f n l :
  l ∈ canon f n
  ↔ 1 ≤ Z.abs l ≤ Z.of_nat n ∧ (if 0 <? l then f l = true else f (- l) = false).
Proof.
  unfold canon. rewrite list_elem_of_fmap. split.
  - intros (i & -> & Hi). apply list_elem_of_In, in_seq in Hi.
    destruct (f (Z.of_nat i)) eqn:Hf.
    + split; [lia|]. destruct (Z.ltb_spec 0 (Z.of_nat i)); [done|lia].
    + split; [lia|]. destruct (Z.ltb_spec 0 (- Z.of_nat i)); [lia|].
      by rewrite Z.opp_involutive.
  - intros [Hl Hf]. exists (Z.to_nat (Z.abs l)). split.
    + rewrite Z2Nat.id by lia. destruct (Z.ltb_spec 0 l).
      * replace (Z.abs l) with l by lia. by rewrite Hf.
      * replace (Z.abs l) with (- l) by lia. rewrite Hf. lia.
    + apply list_elem_of_In, in_seq. lia.
Qed.

Lemma canon_NoDup f n : NoDup (canon f n).
Proof.
  unfold canon. apply NoDup_fmap_2_strong; [|apply NoDup_seq].
  intros i j _ _ H. repeat case_match; lia.
Qed.

Lemma canon_assignment f n :
  Z.of_nat n < TRUE → assignment (Z.of_nat n) (canon f n).
Proof.
  intros Hn. split_and!.
  - apply canon_NoDup.
  - intros l [Hl _]%elem_of_canon. lia.
  - intros v Hv. rewrite !elem_of_canon.
    destruct (Z.ltb_spec 0 v); [|lia].
    destruct (Z.ltb_spec 0 (- v)); [lia|]. rewrite Z.opp_involutive.
    destruct (f v); split; try done; lia.
Qed.

Lemma assignment_canon nvars sol :
  assignment nvars sol →
  nvars < TRUE
  ∧ ∀ l, l ∈ canon (λ v, bool_decide (v ∈ sol)) (Z.to_nat nvars) ↔ l ∈ sol.
Proof.
  intros (Hnd & Hb & Ht). sentinel_facts.
  assert (nvars < TRUE) as Hn.
  { destruct (Z.ltb_spec nvars TRUE) as [|Hge]; [done|].
    destruct (decide (TRUE ∈ sol)) as [Hs|Hs].
    - destruct (Hb _ Hs). lia.
    - assert (- TRUE ∈ sol) as Hs'.
      { destruct (decide (- TRUE ∈ sol)); [done|].
        exfalso. apply Hs, Ht; [lia|done]. }
      destruct (Hb _ Hs'). lia. }
  split; [done|]. intros l. rewrite elem_of_canon. split.
  - intros [Hl Hf]. destruct (Z.ltb_spec 0 l).
    + by apply bool_decide_eq_true in Hf.
    + apply bool_decide_eq_false in Hf.
      destruct (decide (l ∈ sol)) as [|Hn']; [done|].
      exfalso. apply Hf. apply Ht; [lia|]. by rewrite Z.opp_involutive.
  - intros Hl. destruct (Hb _ Hl) as [Hl1 _]. split; [lia|].
    destruct (Z.ltb_spec 0 l).
    + by apply bool_decide_eq_true.
    + apply bool_decide_eq_false. intros Hn'.
      apply (proj1 (Ht (- l) ltac:(lia)) Hn'). by rewrite Z.opp_involutive.
Qed.

Lemma brute_force_sound : backend_sound brute_force.
Proof.
  intros cs nvars limit sol. unfold brute_force.
  destruct (Z.leb_spec TRUE nvars); [done|].
  intros Hh%head_Some_elem_of%list_elem_of_In%filter_In.
  destruct Hh as [Hs%list_elem_of_In Hc].
  split; [|done]. destruct (enumerate_canon _ _ Hs) as [f ->].
  destruct (Z.le_gt_cases 0 nvars).
  - rewrite <- (Z2Nat.id nvars) at 1 by done. apply canon_assignment. lia.
  - replace (Z.to_nat nvars) with 0%nat by lia. cbn.
    split_and!; [constructor|by intros ? ?%elem_of_nil|lia].
Qed.

Lemma brute_force_complete : backend_complete brute_force.
Proof.
  intros cs nvars sol Ha Hs. destruct (assignment_canon _ _ Ha) as [Hn Hsame].
  unfold brute_force. destruct (Z.leb_spec TRUE nvars); [lia|].
  set (sol' := canon (λ v, bool_decide (v ∈ sol)) (Z.to_nat nvars)) in *.
  assert (sol' ∈ List.filter (λ s, forallb (satisfies s) cs)
                   (enumerate (Z.to_nat nvars))) as Hin.
  { apply list_elem_of_In, filter_In. split.
    - apply list_elem_of_In, canon_enumerate.
    - eapply satisfies_all_ext; [|exact Hs]. intros l. by rewrite Hsame. }
  destruct (List.filter _ _); [by apply elem_of_nil in Hin|done].
Qed.
(** ** A run of [minimize] on four literals *)

Lemma py_max_spec l p :
  py_max l = Some p → p ∈ l ∧ ∀ x, x ∈ l → x ≤ p.
Proof.
  destruct l as [|x l]; [done|]. cbn. intros [= <-].
  revert x. induction l as [|y l IH]; intros x; cbn.
  - split; [left|]. intros z ->%list_elem_of_singleton. lia.
  - destruct (IH (x `max` y)) as [Hin Hle]. split.
    + apply elem_of_cons in Hin as [Hin|Hin].
      * rewrite Hin. destruct (Z.max_spec x y) as [[_ ->]|[_ ->]];
          [right; left|left].
      * right. by right.
    + intros z [->|[->|Hz]%elem_of_cons]%elem_of_cons.
      * pose proof (Hle (x `max` y) ltac:(left)). lia.
      * pose proof (Hle (x `max` y) ltac:(left)). lia.
      * apply Hle. by right.
Qed.

Section S5.

Variable run : list clause → Z → Z → option (list Z).
Hypothesis run_sound : backend_sound run.
Hypothesis run_complete : backend_complete run.

Lemma S5_probe :
  ∃ sol,
    run [[-3]; [-4]; [-2]; [-1]] 4 0 = Some sol
    ∧ (∀ l, l ∈ sol ↔ l ∈ [-1; -2; -3; -4])
    ∧ peak_val sol (objective_dict_of [1; 2; 3; 4] [1; 1; 5; 5]) = Some 0.
Proof.
  destruct (run [[-3]; [-4]; [-2]; [-1]] 4 0) as [sol|] eqn:Hrun.
  2:{ exfalso. eapply (run_complete _ 4 [-1; -2; -3; -4]); [| |exact Hrun].
      - apply (brute_force_sound [] 4 0). reflexivity.
      - reflexivity. }
  exists sol. split; [done|].
  destruct (run_sound _ _ _ _ Hrun) as [(Hnd & Hb & Ht) Hs].
  rewrite satisfies_all_iff in Hs.
  assert (∀ v, v ∈ [1; 2; 3; 4] → - v ∈ sol) as Hneg.
  { intros v Hv.
    destruct (Hs [- v]) as (l & ->%list_elem_of_singleton & Hl); [|done].
    set_solver. }
  assert (∀ l, l ∈ sol ↔ l ∈ [-1; -2; -3; -4]) as Hsame.
  { intros l. split.
    - intros Hl. destruct (Hb _ Hl) as [Hl1 _].
      assert (l ∈ [1; 2; 3; 4] → False).
      { intros Hv.
        assert (1 ≤ l ≤ 4) as Hr.
        { assert (l = 1 ∨ l = 2 ∨ l = 3 ∨ l = 4) as Hc by set_solver. lia. }
        apply (proj1 (Ht l Hr) Hl). by apply Hneg. }
      assert (l = 1 ∨ l = 2 ∨ l = 3 ∨ l = 4 ∨ l = -1 ∨ l = -2 ∨ l = -3
              ∨ l = -4) as Hcases by lia.
      set_solver.
    - intros Hl.
      assert (- l ∈ [1; 2; 3; 4]) as Hl'.
      { assert (l = -1 ∨ l = -2 ∨ l = -3 ∨ l = -4) as Hc by set_solver.
        destruct Hc as [-> | [-> | [-> | ->]]]; set_solver. }
      apply Hneg in Hl'. by rewrite Z.opp_involutive in Hl'. }
  split; [done|].
  unfold peak_val.
  assert (objective_values sol (objective_dict_of [1; 2; 3; 4] [1; 1; 5; 5])
          = map (λ _, 0) sol) as ->.
  { unfold objective_values. apply map_ext_in. intros l Hl%list_elem_of_In.
    apply Hsame in Hl.
    assert (l = -1 ∨ l = -2 ∨ l = -3 ∨ l = -4) as Hc by set_solver.
    destruct Hc as [-> | [-> | [-> | ->]]]; reflexivity. }
  destruct sol as [|s sol].
  { exfalso. assert (-1 ∈ []) as H1 by (apply Hsame; set_solver).
    by apply elem_of_nil in H1. }
  cbn. f_equal. clear.
  induction sol as [|? sol IH]; cbn; [done|]. exact IH.
Qed.

Lemma S5_body (sol : list Z) (log : list event) :
  run [[-3]; [-4]; [-2]; [-1]] 4 0 = Some sol →
  peak_val sol (objective_dict_of [1; 2; 3; 4] [1; 1; 5; 5]) = Some 0 →
  bisect_body run true [1; 2; 3; 4] [1; 1; 5; 5]
    (objective_dict_of [1; 2; 3; 4] [1; 1; 5; 5]) 4 0
    (mkBisect 0 5 (Some 0) [1; 2; 3; 4] 5 (Clauses_init 4) log)
  = Some (true, mkBisect 0 0 (Some 0) sol 0
                  (mkClauses false 4 [[-3]; [-4]; [-2]; [-1]] 1)
                  (log ++ [Bisection_success 0 0])).
Proof.
  intros Hrun Hpeak. unfold bisect_body, bisect_probe.
  cbn [bs_lo bs_hi bs_try0 bs_self bs_log bs_bestsol bs_bestval].
  assert (lits_where (λ c, c >? 0) [1; 2; 3; 4] [1; 1; 5; 5] = [1; 2; 3; 4])
    as -> by reflexivity.
  assert (lits_where (λ c, (0 <=? c) && (c <=? 0)) [1; 2; 3; 4] [1; 1; 5; 5]
          = []) as -> by reflexivity.
  assert (Prevent (run_call (Call_Any [1; 2; 3; 4])) (Clauses_init 4)
          = Some (mkClauses false 4 [[-3]; [-4]; [-2]; [-1]] 0)) as ->
    by (vm_compute; reflexivity).
  cbn [mbind option_bind].
  unfold sat, _run_sat. cbn -[objval objective_dict_of]. rewrite Hrun.
  cbn [objval]. rewrite Hpeak. reflexivity.
Qed.

End S5.

(** C4, as the code has it. For a driver with four variables and an
    empty clause store, on every sound and complete backend,
    [minimize(lits=[1,2,3,4], coeffs=[1,1,5,5], bestsol=[1,2,3,4])] runs
    the peak stage only: the first probe forbids every literal of the
    objective, the backend answers the assignment that makes the four of
    them false, the peak objective is 0, and the call returns at once with
    [bestval = 0]; no sum stage runs and no term is dropped. The store is
    left with the four unit clauses of the probe, in the order in which the
    set of [Any] is read. *)
Theorem minimize_S5 (run : list clause → Z → Z → option (list Z))
    (fuel : nat) (trymax : bool) :
  backend_sound run → backend_complete run → (0 < fuel)%nat →
  ∃ sol d',
    minimize run fuel [1; 2; 3; 4] [1; 1; 5; 5] (Some [1; 2; 3; 4]) trymax
      (Clauses_init 4)
    = (Returned (Some sol, 0),
       [Beginning true; Initial_range 0 5; Bisection_success 0 0;
        Final_objective true 0],
       d')
    ∧ (∀ l, l ∈ sol ↔ l ∈ [-1; -2; -3; -4])
    ∧ unsat d' = false ∧ m d' = 4
    ∧ as_list d' ≡ₚ [[-1]; [-2]; [-3]; [-4]].
Proof.
  intros Hsound Hcomplete Hfuel.
  destruct fuel as [|fuel]; [lia|].
  destruct (S5_probe run Hsound Hcomplete) as (sol & Hrun & Hsame & Hpeak).
  pose proof (S5_body run sol [Beginning true; Initial_range 0 5] Hrun Hpeak)
    as Hbody.
  exists sol, (mkClauses false 4 [[-3]; [-4]; [-2]; [-1]] 1).
  split; [|split_and!; [done|done|done|]].
  2:{ apply NoDup_Permutation;
        [apply (bool_decide_unpack _); by vm_compute..|].
      intros c. cbn. rewrite !elem_of_cons. tauto. }
  unfold minimize.
  change (Z.of_nat (length [1; 2; 3; 4]) <? m (Clauses_init 4)) with false.
  cbv iota.
  change (unsat (Clauses_init 4)) with false. cbv iota.
  assert (LB_Preprocess [1; 2; 3; 4] [1; 1; 5; 5]
          = ([1; 2; 3; 4], [1; 1; 5; 5], 0)) as -> by (vm_compute; reflexivity).
  change (py_max [1; 1; 5; 5]) with (Some 5).
  cbv iota beta zeta.
  change (5 >? 1) with true. cbv iota.
  unfold minimize_stage.
  assert (objval true [1; 2; 3; 4]
            (objective_dict_of [1; 2; 3; 4] [1; 1; 5; 5]) = Some 5) as ->
    by (vm_compute; reflexivity).
  change (m (Clauses_init 4)) with 4.
  change (save_state (Clauses_init 4)) with 0%nat.
  cbn [bisect_loop negb app].
  rewrite andb_false_r, Hbody. reflexivity.
Qed.

Lemma minimize_S5_witness :
  ∃ sol d',
    minimize brute_force 1 [1; 2; 3; 4] [1; 1; 5; 5] (Some [1; 2; 3; 4]) false
      (Clauses_init 4)
    = (Returned (Some sol, 0),
       [Beginning true; Initial_range 0 5; Bisection_success 0 0;
        Final_objective true 0],
       d')
    ∧ (∀ l, l ∈ sol ↔ l ∈ [-1; -2; -3; -4])
    ∧ unsat d' = false ∧ m d' = 4
    ∧ as_list d' ≡ₚ [[-1]; [-2]; [-3]; [-4]].
Proof.
  apply (minimize_S5 brute_force 1 false).
  - exact brute_force_sound.
  - exact brute_force_complete.
  - lia.
Defined.

(** C4, as the spec has it, fails on the reference backend: the call
    returns the cost 0, not 2, after a peak stage whose final objective
    is 0, not 1. *)
Lemma minimize_S5_spec_fails :
  let r :=
    minimize brute_force 8 [1; 2; 3; 4] [1; 1; 5; 5] (Some [1; 2; 3; 4]) false
      (Clauses_init 4) in
  r.1.1 = Returned (Some [-1; -2; -3; -4], 0)
  ∧ ¬ (∃ sol, r.1.1 = Returned (sol, 2))
  ∧ Final_objective true 1 ∉ r.1.2.
Proof.
  assert (minimize brute_force 8 [1; 2; 3; 4] [1; 1; 5; 5]
            (Some [1; 2; 3; 4]) false (Clauses_init 4)
          = (Returned (Some [-1; -2; -3; -4], 0),
             [Beginning true; Initial_range 0 5; Bisection_success 0 0;
              Final_objective true 0],
             mkClauses false 4 [[-3]; [-4]; [-2]; [-1]] 1)) as ->
    by (vm_compute; reflexivity).
  cbn. split; [done|]. split.
  - intros [sol [=]].
  - intros Hin. repeat (apply elem_of_cons in Hin as [[=]|Hin]).
    by apply elem_of_nil in Hin.
Qed.

(** With the two unit-coefficient literals forced by hard clauses the
    numbers of the scenario do come out: peak objective 1, cost 2. *)
Example minimize_S5_with_hard_clauses :
  (minimize brute_force 8 [1; 2; 3; 4] [1; 1; 5; 5] (Some [1; 2; 3; 4]) false
     (add_clauses [[1]; [2]] (Clauses_init 4))).1
  = (Returned (Some [1; 2; -3; -4; 5], 2),
     [Beginning true; Initial_range 0 5; Bisection_failure 1 5;
      Bisection_success 1 1; Bisection_success 1 1; Final_objective true 1;
      Beginning false; Initial_range 1 2; Bisection_success 1 2;
      Bisection_failure 2 2; Bisection_success 2 2;
      Final_objective false 2]).
Proof. vm_compute. reflexivity. Qed.
(** ** Facts about the bounds of the bisection *)

Lemma monotone_from_app prev log1 log2 :
  monotone_from prev (log1 ++ log2)
  = monotone_from prev log1 && monotone_from (last_range prev log1) log2.
Proof.
  revert prev. induction log1 as [|e log1 IH]; intros prev; [done|].
  destruct e; cbn; rewrite ?IH, ?andb_assoc; done.
Qed.


(** The log of a stage in progress: monotone so far, and its last pair
    is the current [(lo, hi)]. *)
Definition log_at (log : list event) (lo hi : Z) : Prop :=
  monotone_log log = true ∧ last_range None log = Some (lo, hi).




Lemma log_at_final log lo hi peak bestval :
  log_at log lo hi →
  monotone_log (log ++ [Final_objective peak bestval]) = true.
Proof.
  intros [Hlog Hlast]. unfold monotone_log in *.
  by rewrite monotone_from_app, Hlog.
Qed.

(** ** The objective and its dictionary *)

(** What [minimize] relies on after [LB_Preprocess]: positive ascending
    coefficients, literals of pairwise distinct variables of the driver. *)
Definition objective_ok (nvars : Z) (lits coeffs : list Z) : Prop :=
  length lits = length coeffs
  ∧ Forall (λ c, 0 < c) coeffs
  ∧ Sorted Z.le coeffs
  ∧ NoDup (map Z.abs lits)
  ∧ Forall (λ l, 1 ≤ Z.abs l ≤ nvars ∧ Z.abs l ≠ TRUE) lits.

Lemma NoDup_abs (lits : list Z) : NoDup (map Z.abs lits) → NoDup lits.
Proof. apply NoDup_fmap_1. Qed.

Lemma dict_lookup_acc (pairs : list (Z * Z)) : ∀ (acc : gmap Z Z) a c,
  NoDup (map snd pairs) →
  foldl (λ d p, insert p.2 p.1 d) acc pairs !! a = Some c
  ↔ (c, a) ∈ pairs ∨ ((a ∉ map snd pairs) ∧ acc !! a = Some c).
Proof.
  induction pairs as [|[c0 a0] pairs IH]; intros acc a c Hnd; cbn.
  - split; [intros ?; right; split; [apply not_elem_of_nil|done]|].
    intros [[]%elem_of_nil|[_ ?]]; done.
  - apply NoDup_cons in Hnd as [Hnin Hnd]. rewrite IH by done.
    rewrite elem_of_cons, not_elem_of_cons.
    destruct (decide (a = a0)) as [->|Hne].
    + rewrite lookup_insert. split.
      * intros [Hin|[_ Heq]].
        { exfalso. apply Hnin. apply list_elem_of_fmap. by exists (c, a0). }
        { rewrite decide_True in Heq by done. left. left. congruence. }
      * intros [[[= -> ]|Hin]|[[? _] _]]; [|left; done|done].
        right. split; [done|]. by rewrite decide_True.
    + rewrite lookup_insert_ne by done. split.
      * intros [Hin|[Hn Heq]]; [left; by right|right; done].
      * intros [[[= ? ?]|Hin]|[[_ Hn] Heq]]; [done|by left|by right].
Qed.

Lemma zip_snd_sublist {A B} (l : list A) (k : list B) :
  map snd (zip l k) `sublist_of` k.
Proof.
  revert k. induction l as [|x l IH]; intros [|y k]; cbn;
    try apply sublist_nil_l.
  by apply sublist_skip.
Qed.

Lemma dict_lookup lits coeffs a c :
  NoDup lits →
  objective_dict_of lits coeffs !! a = Some c ↔ (c, a) ∈ zip coeffs lits.
Proof.
  intros Hnd. unfold objective_dict_of. rewrite dict_lookup_acc.
  - rewrite lookup_empty. naive_solver.
  - eapply sublist_NoDup; [exact Hnd|apply zip_snd_sublist].
Qed.

Lemma dict_value_nonneg lits coeffs s :
  Forall (λ c, 0 < c) coeffs → NoDup lits →
  0 ≤ default 0 (objective_dict_of lits coeffs !! s).
Proof.
  intros Hpos Hnd.
  destruct (objective_dict_of lits coeffs !! s) as [c|] eqn:Hs; [|done].
  apply dict_lookup in Hs; [|done]. cbn.
  apply elem_of_zip_l in Hs. rewrite Forall_forall in Hpos.
  apply Hpos in Hs. lia.
Qed.

Lemma objective_values_nonneg sol lits coeffs :
  Forall (λ c, 0 < c) coeffs → NoDup lits →
  Forall (λ x, 0 ≤ x) (objective_values sol (objective_dict_of lits coeffs)).
Proof.
  intros Hpos Hnd. apply Forall_map, Forall_forall. intros s _.
  by apply dict_value_nonneg.
Qed.

Lemma sumZ_nonneg (l : list Z) : Forall (λ x, 0 ≤ x) l → 0 ≤ sumZ l.
Proof. induction 1; cbn; [done|]. fold (sumZ l). lia. Qed.

Lemma sumZ_ge_elem (l : list Z) x :
  Forall (λ x, 0 ≤ x) l → x ∈ l → x ≤ sumZ l.
Proof.
  induction 1 as [|y l Hy Hl IH]; [by intros ?%elem_of_nil|].
  rewrite sumZ_cons. pose proof (sumZ_nonneg l Hl).
  intros [->|Hin]%elem_of_cons; [lia|]. apply IH in Hin. lia.
Qed.

(** The peak objective of a solution is a value of one of its
    literals, and bounds them all. *)
Lemma peak_val_spec sol dict p :
  peak_val sol dict = Some p →
  (∃ s, s ∈ sol ∧ default 0 (dict !! s) = p)
  ∧ ∀ s, s ∈ sol → default 0 (dict !! s) ≤ p.
Proof.
  intros [Hin Hle]%py_max_spec. split.
  - apply list_elem_of_fmap in Hin as (s & -> & Hs). by exists s.
  - intros s Hs. apply Hle. apply list_elem_of_fmap. by exists s.
Qed.

Lemma peak_val_is_Some sol dict : sol ≠ [] → is_Some (peak_val sol dict).
Proof. destruct sol; [done|]. intros _. by eexists. Qed.

(** Summing over the solution or over the terms of the objective. *)
Lemma sumZ_map_point (sol : list Z) (g g' : Z → Z) a c :
  NoDup sol → (∀ s, s ≠ a → g s = g' s) → g a = c → g' a = 0 →
  sumZ (map g sol)
  = sumZ (map g' sol) + (if bool_decide (a ∈ sol) then c else 0).
Proof.
  intros Hnd Hne Ha Ha'. induction Hnd as [|s sol Hs Hnd IH]; [done|].
  cbn [map]. rewrite !sumZ_cons, IH.
  destruct (decide (s = a)) as [->|Hsa].
  - rewrite (bool_decide_eq_false_2 _ Hs), bool_decide_eq_true_2 by left.
    lia.
  - rewrite (Hne s Hsa).
    destruct (decide (a ∈ sol)) as [Hin|Hnin].
    + rewrite !bool_decide_eq_true_2; [lia|by right|done].
    + rewrite !bool_decide_eq_false_2; [lia| |done].
      intros [?|?]%elem_of_cons; done.
Qed.

Lemma sum_by_terms (sol : list Z) (pairs : list (Z * Z)) : ∀ g : Z → Z,
  NoDup sol → NoDup (map snd pairs) →
  (∀ c s, (c, s) ∈ pairs → g s = c) →
  (∀ s, s ∉ map snd pairs → g s = 0) →
  sumZ (map g sol)
  = sumZ (map (λ p : Z * Z, if bool_decide (p.2 ∈ sol) then p.1 else 0) pairs).
Proof.
  intros g Hsol. revert g.
  induction pairs as [|[c a] pairs IH]; intros g Hnd Hin Hout.
  - cbn. induction sol as [|s sol IHs]; [done|].
    cbn [map]. rewrite sumZ_cons, Hout by apply not_elem_of_nil.
    apply NoDup_cons in Hsol as [_ Hsol]. by rewrite IHs.
  - cbn [map] in *. apply NoDup_cons in Hnd as [Hnin Hnd].
    rewrite sumZ_cons.
    rewrite (sumZ_map_point sol g (λ s, if decide (s = a) then 0 else g s) a c);
      [|done|intros s Hs; by rewrite decide_False|apply Hin; left
       |by rewrite decide_True].
    rewrite (IH (λ s, if decide (s = a) then 0 else g s)); [cbn; lia|done|..].
    + intros c' s Hs. rewrite decide_False.
      * apply Hin. by right.
      * intros ->. apply Hnin. apply list_elem_of_fmap. by exists (c', a).
    + intros s Hs. destruct (decide (s = a)); [done|].
      apply Hout. by intros [?|?]%elem_of_cons.
Qed.

Lemma sum_val_by_terms sol lits coeffs :
  NoDup sol → NoDup lits →
  sum_val sol (objective_dict_of lits coeffs)
  = sumZ (map (λ p : Z * Z, if bool_decide (p.2 ∈ sol) then p.1 else 0)
            (zip coeffs lits)).
Proof.
  intros Hsol Hnd. unfold sum_val, objective_values.
  apply sum_by_terms; [done| |..].
  - eapply sublist_NoDup; [exact Hnd|apply zip_snd_sublist].
  - intros c s Hs. apply dict_lookup in Hs; [|done]. by rewrite Hs.
  - intros s Hs.
    destruct (objective_dict_of lits coeffs !! s) as [c|] eqn:Hc; [|done].
    apply dict_lookup in Hc; [|done]. exfalso. apply Hs.
    apply list_elem_of_fmap. by exists (c, s).
Qed.

(** ** Solutions as models *)

(** The assignment that a solution, the list of its true literals,
    stands for. *)
Definition model_of (sol : list Z) : Z → bool := λ v, bool_decide (v ∈ sol).

Lemma lit_true_model_of nvars sol l :
  assignment nvars sol → 1 ≤ Z.abs l ≤ nvars → Z.abs l ≠ TRUE →
  lit_true (model_of sol) l = bool_decide (l ∈ sol).
Proof.
  intros (Hnd & Hb & Ht) Hl Hs. sentinel_facts. unfold lit_true, model_of.
  case_eqb; try lia.
  destruct (Z.ltb_spec 0 l) as [Hpos|Hneg]; [done|].
  pose proof (Ht (- l) ltac:(lia)) as Hv. rewrite Z.opp_involutive in Hv.
  destruct (decide (l ∈ sol)) as [Hin|Hnin].
  - rewrite (bool_decide_eq_true_2 _ Hin).
    rewrite bool_decide_eq_false_2; [done|]. tauto.
  - rewrite (bool_decide_eq_false_2 _ Hnin).
    rewrite bool_decide_eq_true_2; [done|].
    destruct (decide (- l ∈ sol)); [done|]. tauto.
Qed.

(** A clause that the solution satisfies is true in its model. *)
Lemma satisfies_clause_true nvars sol c :
  assignment nvars sol → satisfies sol c = true →
  clause_true (model_of sol) c = true.
Proof.
  intros Hsol Hc. pose proof Hsol as (Hnd & Hb & Ht).
  apply satisfies_iff in Hc as (l & Hl & Hin).
  apply clause_true_iff. exists l. split; [done|].
  destruct (Hb l Hin) as [Hr Hs].
  rewrite (lit_true_model_of nvars) by done. by apply bool_decide_eq_true_2.
Qed.

Lemma satisfies_all_models nvars sol cs :
  assignment nvars sol → satisfies_all sol cs → models (model_of sol) cs.
Proof.
  intros Hsol Hcs. unfold models, satisfies_all in *.
  rewrite forallb_forall in *. intros c Hc.
  eapply satisfies_clause_true; [done|]. by apply Hcs.
Qed.

Lemma sum_val_wsum nvars sol lits coeffs :
  assignment nvars sol → NoDup (map Z.abs lits) →
  Forall (λ l, 1 ≤ Z.abs l ≤ nvars ∧ Z.abs l ≠ TRUE) lits →
  sum_val sol (objective_dict_of lits coeffs)
  = wsum (model_of sol) lits coeffs.
Proof.
  intros Hsol Hnd Hl. pose proof Hsol as (Hnds & _).
  rewrite sum_val_by_terms by (done || by apply NoDup_abs).
  unfold wsum. f_equal. apply map_ext_in. intros [c a] Hin%list_elem_of_In.
  apply elem_of_zip_r in Hin. rewrite Forall_forall in Hl.
  destruct (Hl a Hin) as [Hr Hs]. cbn.
  by rewrite (lit_true_model_of nvars).
Qed.

(** ** The objective through [LB_Preprocess] and through the pruning
    between the two stages *)

Lemma LB_terms_abs_sublist pairs :
  map (λ p : Z * Z, Z.abs p.2) (LB_terms pairs)
  `sublist_of` map (λ p : Z * Z, Z.abs p.2) pairs.
Proof.
  induction pairs as [|[c l] pairs IH]; cbn; [done|].
  repeat case_match; cbn; rewrite ?Z.abs_opp;
    first [by apply sublist_skip | by apply sublist_cons].
Qed.

Lemma LB_Preprocess_objective_ok nvars lits coeffs :
  NoDup (map Z.abs lits) → Forall (λ l, 1 ≤ Z.abs l ≤ nvars) lits →
  objective_ok nvars (LB_Preprocess lits coeffs).1.1
    (LB_Preprocess lits coeffs).1.2.
Proof.
  intros Hnd Hl. rewrite LB_Preprocess_unfold. cbn [fst snd].
  set (eq := merge_sort tuple_le (LB_terms (zip coeffs lits))).
  assert (eq ≡ₚ LB_terms (zip coeffs lits)) as Hperm
    by apply merge_sort_Permutation.
  pose proof (LB_sorted_terms_normal lits coeffs) as Hn. fold eq in Hn.
  assert (map Z.abs (map snd (LB_terms (zip coeffs lits)))
          `sublist_of` map Z.abs lits) as Hsub.
  { rewrite (map_map snd Z.abs).
    etrans; [apply LB_terms_abs_sublist|].
    rewrite <- (map_map snd Z.abs). apply fmap_sublist, zip_snd_sublist. }
  unfold objective_ok. split_and!.
  - by rewrite !length_map.
  - apply Forall_map. eapply Forall_impl; [exact Hn|]. by intros p (? & _).
  - apply tuple_le_Sorted_fst, (Sorted_merge_sort tuple_le).
  - rewrite Hperm. eapply sublist_NoDup; [exact Hnd|exact Hsub].
  - apply Forall_forall. intros l Hin.
    assert (Z.abs l ∈ map Z.abs lits) as Habs.
    { eapply elem_of_sublist; [|exact Hsub]. rewrite <- Hperm.
      apply list_elem_of_fmap. by exists l. }
    apply list_elem_of_fmap in Habs as (l' & Heq & Hl').
    rewrite Forall_forall in Hl. apply Hl in Hl'.
    apply list_elem_of_fmap in Hin as ([c a] & -> & Hin).
    rewrite Forall_forall in Hn. destruct (Hn _ Hin) as (_ & Ht & Hf).
    cbn in *. sentinel_facts. split; lia.
Qed.

Lemma zip_filter_fst (keep : Z → bool) (coeffs lits : list Z) :
  length lits = length coeffs →
  zip (List.filter keep coeffs) (lits_where keep lits coeffs)
  = List.filter (λ p : Z * Z, keep p.1) (zip coeffs lits).
Proof.
  unfold lits_where. revert lits.
  induction coeffs as [|c coeffs IH]; intros [|l lits] Hlen; try done.
  cbn in *. destruct (keep c); cbn; rewrite IH by lia; done.
Qed.

Lemma objective_ok_filter nvars (keep : Z → bool) lits coeffs :
  objective_ok nvars lits coeffs →
  objective_ok nvars (lits_where keep lits coeffs) (List.filter keep coeffs).
Proof.
  intros (Hlen & Hpos & Hsorted & Hnd & Hl).
  assert (lits_where keep lits coeffs `sublist_of` lits) as Hsub.
  { unfold lits_where. clear -Hlen. revert lits Hlen.
    induction coeffs as [|c coeffs IH]; intros [|l lits] Hlen; try done.
    cbn in *. destruct (keep c); cbn.
    - apply sublist_skip, IH. lia.
    - apply sublist_cons, IH. lia. }
  unfold objective_ok. split_and!.
  - pose proof (zip_filter_fst keep coeffs lits Hlen) as Hz.
    apply (f_equal length) in Hz. unfold lits_where in *.
    rewrite length_map. clear -Hlen. revert lits Hlen.
    induction coeffs as [|c coeffs IH]; intros [|l lits] Hlen; try done.
    cbn in *. destruct (keep c); cbn; rewrite IH by lia; done.
  - clear -Hpos. induction Hpos as [|c coeffs Hc Hpos IH]; cbn; [done|].
    destruct (keep c); [by constructor|done].
  - apply Sorted_StronglySorted in Hsorted; [|intros ???; lia].
    apply StronglySorted_Sorted.
    clear -Hsorted. induction Hsorted as [|c coeffs Hs IH Hc]; cbn;
      [constructor|].
    destruct (keep c); [|done]. constructor; [done|].
    apply Forall_forall. intros x Hx%list_elem_of_In%filter_In.
    rewrite Forall_forall in Hc. apply Hc, list_elem_of_In, Hx.
  - eapply sublist_NoDup; [exact Hnd|]. by apply fmap_sublist.
  - eapply Forall_forall. intros l Hin. rewrite Forall_forall in Hl.
    apply Hl. eapply elem_of_sublist; [exact Hin|exact Hsub].
Qed.

(** ** The constraints of a probe of the peak stage *)

Lemma Any_scan_distinct (iter : list Z) : ∀ vals : gset Z,
  Forall (λ v, Z.abs v ≠ TRUE) iter → NoDup (map Z.abs iter) →
  (∀ v, v ∈ iter → - v ∉ vals) →
  Any_scan iter vals = Some (list_to_set iter ∪ vals).
Proof.
  sentinel_facts.
  induction iter as [|v iter IH]; intros vals Hs Hnd Hvals; cbn.
  { f_equal. set_solver. }
  apply Forall_cons in Hs as [Hv Hs]. cbn in Hnd.
  apply NoDup_cons in Hnd as [Hnin Hnd].
  case_eqb; try lia.
  rewrite bool_decide_eq_false_2 by (apply Hvals; left). cbn.
  rewrite IH; [f_equal; set_solver|done|done|].
  intros v' Hv' [Heq%elem_of_singleton|Hin]%elem_of_union.
  - apply Hnin. apply list_elem_of_fmap. exists v'. split; [lia|done].
  - apply (Hvals v'); [by right|done].
Qed.

Lemma Any_distinct (iter : list Z) polarity d :
  Forall (λ v, Z.abs v ≠ TRUE) iter → NoDup (map Z.abs iter) →
  ∃ vs, vs ≡ₚ iter
    ∧ Any iter polarity d
      = (match vs with
         | [] => Lit FALSE
         | [v] => Lit v
         | _ => Deferred
                  (if in_True_None polarity then [vs] else [])
                  (if in_False_None polarity then map (λ v, [- v]) vs
                   else [])
         end, d).
Proof.
  intros Hs Hnd. exists (elements (list_to_set iter : gset Z)). split.
  - apply elements_list_to_set. by apply NoDup_abs.
  - unfold Any. rewrite Any_scan_distinct by (done || set_solver).
    rewrite (right_id_L ∅ (∪)).
    by destruct (elements (list_to_set iter : gset Z)) as [|? [|? ?]].
Qed.

Lemma restore_save (d : Clauses) : restore_state (save_state d) d = d.
Proof.
  destruct d as [u n cs r].
  unfold restore_state, save_state, set_clauses, ClauseList.restore_state,
    ClauseList.save_state. cbn. by rewrite firstn_all.
Qed.

Lemma Prevent_Any (iter : list Z) d :
  Forall (λ v, Z.abs v ≠ TRUE) iter → NoDup (map Z.abs iter) →
  ∃ vs, vs ≡ₚ iter
    ∧ Prevent (run_call (Call_Any iter)) d
      = Some (mkClauses (unsat d) (m d)
                (_clauses d ++ map (λ v, [- v]) vs) (backend_runs d)).
Proof.
  intros Hs Hnd. sentinel_facts.
  destruct (Any_distinct iter (Some false) d Hs Hnd) as (vs & Hperm & HAny).
  exists vs. split; [done|].
  unfold Prevent, Eval_, run_call. cbn [mbind option_bind]. rewrite HAny.
  destruct vs as [|v [|v' vs]].
  - rewrite restore_save. destruct d as [u n cs r]. cbn.
    rewrite Z.eqb_refl. destruct (Z.eqb_spec FALSE TRUE); [lia|]. cbn.
    by rewrite orb_false_r, app_nil_r.
  - assert (Z.abs v ≠ TRUE) as Hv.
    { rewrite Forall_forall in Hs. apply Hs. rewrite <- Hperm. left. }
    case_eqb; try lia. done.
  - cbn. unfold add_clauses, set_clauses, ClauseList.extend. cbn.
    by rewrite app_nil_r.
Qed.

Lemma Require_Any (iter : list Z) d :
  Forall (λ v, Z.abs v ≠ TRUE) iter → NoDup (map Z.abs iter) → iter ≠ [] →
  ∃ vs, vs ≡ₚ iter
    ∧ Require (run_call (Call_Any iter)) d
      = Some (mkClauses (unsat d) (m d) (_clauses d ++ [vs])
                (backend_runs d)).
Proof.
  intros Hs Hnd Hne. sentinel_facts.
  destruct (Any_distinct iter (Some true) d Hs Hnd) as (vs & Hperm & HAny).
  exists vs. split; [done|].
  unfold Require, Eval_, run_call. cbn [mbind option_bind]. rewrite HAny.
  destruct vs as [|v [|v' vs]].
  - apply Permutation_nil_l in Hperm. done.
  - assert (Z.abs v ≠ TRUE) as Hv.
    { rewrite Forall_forall in Hs. apply Hs. rewrite <- Hperm. left. }
    case_eqb; try lia. done.
  - cbn. unfold add_clauses, set_clauses, ClauseList.extend. cbn.
    by rewrite app_nil_r.
Qed.

Lemma satisfies_all_units sol (vs : list Z) :
  satisfies_all sol (map (λ v, [- v]) vs) ↔ ∀ v, v ∈ vs → - v ∈ sol.
Proof.
  rewrite satisfies_all_iff. split.
  - intros H v Hv.
    destruct (H [- v]) as (l & ->%list_elem_of_singleton & Hl); [|done].
    apply list_elem_of_fmap. by exists v.
  - intros H c (v & -> & Hv)%list_elem_of_fmap. exists (- v).
    split; [left|by apply H].
Qed.

Lemma satisfies_all_one sol (vs : list Z) :
  satisfies_all sol [vs] ↔ ∃ v, v ∈ vs ∧ v ∈ sol.
Proof.
  rewrite satisfies_all_iff. split.
  - intros H. apply H. left.
  - by intros H c ->%list_elem_of_singleton.
Qed.

Lemma objective_ok_literals nvars lits coeffs :
  objective_ok nvars lits coeffs →
  Forall (λ v, Z.abs v ≠ TRUE) lits ∧ NoDup (map Z.abs lits).
Proof.
  intros (_ & _ & _ & Hnd & Hl). split; [|done].
  eapply Forall_impl; [exact Hl|]. by intros l [_ ?].
Qed.

(** The clauses that a probe of the peak stage adds: they hold in a
    solution iff none of the literals in [prevent] is true and, when
    there are literals in [require], one of them is. *)
Lemma peak_probe nvars lits coeffs lo mid d :
  objective_ok nvars lits coeffs →
  let prevent := lits_where (λ c, c >? mid) lits coeffs in
  let require := lits_where (λ c, (lo <=? c) && (c <=? mid)) lits coeffs in
  ∃ F,
    (self ← Prevent (run_call (Call_Any prevent)) d;
     match require with
     | [] => Some self
     | _ => Require (run_call (Call_Any require)) self
     end)
    = Some (mkClauses (unsat d) (m d) (_clauses d ++ F) (backend_runs d))
    ∧ ∀ sol, satisfies_all sol F
        ↔ (∀ a, a ∈ prevent → - a ∈ sol)
          ∧ (require ≠ [] → ∃ a, a ∈ require ∧ a ∈ sol).
Proof.
  intros Hok prevent require.
  destruct (objective_ok_literals _ _ _
              (objective_ok_filter nvars (λ c, c >? mid) _ _ Hok))
    as [Hps Hpnd].
  destruct (objective_ok_literals _ _ _
              (objective_ok_filter nvars
                 (λ c, (lo <=? c) && (c <=? mid)) _ _ Hok))
    as [Hrs Hrnd].
  fold prevent in Hps, Hpnd. fold require in Hrs, Hrnd.
  destruct (Prevent_Any prevent d Hps Hpnd) as (ps & Hpperm & ->).
  cbn [mbind option_bind].
  destruct require as [|r require'] eqn:Hreq.
  - exists (map (λ v, [- v]) ps). split.
    + by destruct d.
    + intros sol. rewrite satisfies_all_units. split.
      * intros H. split; [|done]. intros a Ha. apply H. by rewrite Hpperm.
      * intros [H _] v Hv. apply H. by rewrite <- Hpperm.
  - rewrite <- Hreq in *.
    assert (require ≠ []) as Hne by by rewrite Hreq.
    destruct (Require_Any require
                (mkClauses (unsat d) (m d)
                   (_clauses d ++ map (λ v, [- v]) ps) (backend_runs d))
                Hrs Hrnd Hne) as (rs & Hrperm & HR).
    exists (map (λ v, [- v]) ps ++ [rs]). split.
    + rewrite Hreq in HR |- *. rewrite HR. cbn. by rewrite app_assoc.
    + intros sol.
      rewrite satisfies_all_app, satisfies_all_units, satisfies_all_one.
      split.
      * intros [H (v & Hv & Hs)]. split.
        { intros a Ha. apply H. by rewrite Hpperm. }
        { intros _. exists v. by rewrite <- Hrperm. }
      * intros [H Hr]. split.
        { intros v Hv. apply H. by rewrite <- Hpperm. }
        { destruct (Hr Hne) as (a & Ha & Hs). exists a. by rewrite Hrperm. }
Qed.
(** ** The clauses of a positive polarity *)





















Lemma assignment_below_TRUE nvars sol : assignment nvars sol → nvars < TRUE.
Proof.
  intros (_ & Hb & Ht). sentinel_facts.
  destruct (Z.lt_ge_cases nvars TRUE) as [|Hge]; [done|].
  exfalso. destruct (Ht TRUE ltac:(lia)) as [_ Hin].
  assert (TRUE ∈ sol) as HT.
  { apply Hin. intros HF%Hb. lia. }
  apply Hb in HT. lia.
Qed.

(** ** The constraint of a probe of the sum stage *)

(** ** One pass of the bisection *)

Lemma assignment_consistent nvars sol l :
  assignment nvars sol → l ∈ sol → - l ∈ sol → False.
Proof.
  intros (_ & Hb & Ht) Hl Hnl. destruct (Hb l Hl) as [Hr _].
  destruct (Z.lt_ge_cases 0 l).
  - apply (proj1 (Ht l ltac:(lia)) Hl Hnl).
  - apply (proj1 (Ht (- l) ltac:(lia)) Hnl). by rewrite Z.opp_involutive.
Qed.

Lemma assignment_total nvars sol l :
  assignment nvars sol → 1 ≤ Z.abs l ≤ nvars → l ∉ sol → - l ∈ sol.
Proof.
  intros (_ & Hb & Ht) Hr Hl.
  destruct (Z.lt_ge_cases 0 l).
  - destruct (decide (- l ∈ sol)) as [|Hn]; [done|].
    exfalso. apply Hl. by apply (Ht l ltac:(lia)).
  - apply (Ht (- l) ltac:(lia)). by rewrite Z.opp_involutive.
Qed.

Lemma assignment_nonempty nvars sol : assignment nvars sol → 1 ≤ nvars → sol ≠ [].
Proof.
  intros (_ & _ & Ht) Hn ->.
  destruct (Ht 1 ltac:(lia)) as [_ H1].
  eapply elem_of_nil, H1, not_elem_of_nil.
Qed.

Lemma elem_of_lits_where (keep : Z → bool) lits coeffs a :
  a ∈ lits_where keep lits coeffs
  ↔ ∃ c, (c, a) ∈ zip coeffs lits ∧ keep c = true.
Proof.
  unfold lits_where. rewrite list_elem_of_fmap. split.
  - intros ([c a'] & -> & Hin%list_elem_of_In%filter_In). exists c.
    by rewrite list_elem_of_In.
  - intros (c & Hin & Hk). exists (c, a). split; [done|].
    apply list_elem_of_In, filter_In. by rewrite <- list_elem_of_In.
Qed.

Lemma objective_ok_mono nvars nvars' lits coeffs :
  objective_ok nvars lits coeffs → nvars ≤ nvars' →
  objective_ok nvars' lits coeffs.
Proof.
  intros (? & ? & ? & ? & Hl) Hle. split_and!; try done.
  eapply Forall_impl; [exact Hl|]. intros l [? ?]. split; [lia|done].
Qed.

Section bisection.

Variable run : list clause → Z → Z → option (list Z).
Hypothesis run_sound : backend_sound run.
Hypothesis run_complete : backend_complete run.

(** [self.sat()] on a driver with variables. *)
Lemma sat_plain d :
  m d ≠ 0 →
  sat run None false 0 d
  = if unsat d then (None, d)
    else (run (_clauses d) (m d) 0,
          mkClauses (unsat d) (m d) (_clauses d) (S (backend_runs d))).
Proof.
  intros Hm. unfold sat, _run_sat, as_list, ClauseList.as_list.
  destruct (unsat d); [done|].
  destruct (Z.eqb_spec (m d) 0); [lia|]. done.
Qed.

Lemma bisect_reset_spec m_orig (H : list clause) d :
  H `prefix_of` _clauses d →
  bisect_reset m_orig (length H) d
  = mkClauses false m_orig H (backend_runs d).
Proof.
  intros Hpre. unfold bisect_reset.
  destruct (decide (save_state (set_m m_orig d) = length H)) as [Heq|Hne].
  - rewrite bool_decide_eq_false_2 by (by intros ?). cbn.
    unfold set_unsat, set_m. cbn. f_equal.
    cbn in Heq. unfold ClauseList.save_state in Heq.
    destruct Hpre as [k Hk]. rewrite Hk in Heq |- *.
    rewrite length_app in Heq. destruct k; [by rewrite app_nil_r|].
    cbn in Heq. lia.
  - rewrite bool_decide_eq_true_2 by done. cbn.
    unfold set_unsat. cbn. f_equal.
    unfold ClauseList.restore_state. by apply take_length_prefix.
Qed.

Section stage.

Variables (nvars : Z) (lits coeffs : list Z) (m_orig : Z) (H : list clause).
Hypothesis objective : objective_ok nvars lits coeffs.
Hypothesis nvars_le : nvars ≤ m_orig.
Hypothesis m_orig_pos : 1 ≤ m_orig.

Let dict := objective_dict_of lits coeffs.

(** No solution of the clauses at the entry of the stage has a peak
    below [lo]. *)
Definition peak_at_least (lo : Z) : Prop :=
  ∀ sol p, assignment m_orig sol → satisfies_all sol H →
    peak_val sol dict = Some p → lo ≤ p.







End stage.

(** ** The loop and the stages *)





Lemma peak_val_nonneg sol lits coeffs p :
  Forall (λ c, 0 < c) coeffs → NoDup lits →
  peak_val sol (objective_dict_of lits coeffs) = Some p → 0 ≤ p.
Proof.
  intros Hpos Hnd [(s & _ & <-) _]%peak_val_spec.
  by apply dict_value_nonneg.
Qed.



End bisection.

(** Dropping the terms above the peak of a solution keeps the value of
    each of its literals. *)
Lemma prune_keeps_values nvars lits coeffs sol b :
  objective_ok nvars lits coeffs →
  peak_val sol (objective_dict_of lits coeffs) = Some b →
  objective_values sol
    (objective_dict_of (lits_where (λ c, c <=? b) lits coeffs)
       (List.filter (λ c, c <=? b) coeffs))
  = objective_values sol (objective_dict_of lits coeffs).
Proof.
  intros Hok Hb.
  pose proof (objective_ok_filter nvars (λ c, c <=? b) _ _ Hok) as Hok'.
  pose proof Hok as (Hlen & _ & _ & Hnd%NoDup_abs & _).
  pose proof Hok' as (_ & _ & _ & Hnd'%NoDup_abs & _).
  apply peak_val_spec in Hb as [_ Hbound].
  unfold objective_values. apply map_ext_in. intros s Hs%list_elem_of_In.
  specialize (Hbound s Hs).
  assert (∀ c, (c, s) ∈ zip (List.filter (λ c, c <=? b) coeffs)
                          (lits_where (λ c, c <=? b) lits coeffs)
               ↔ (c, s) ∈ zip coeffs lits ∧ c ≤ b) as Hzip.
  { intros c. rewrite zip_filter_fst by done.
    rewrite !list_elem_of_In, filter_In. cbn. by rewrite Z.leb_le. }
  destruct (objective_dict_of lits coeffs !! s) as [c|] eqn:E1.
  - cbn in Hbound. apply dict_lookup in E1; [|done].
    assert (objective_dict_of (lits_where (λ c, c <=? b) lits coeffs)
              (List.filter (λ c, c <=? b) coeffs) !! s = Some c) as ->; [|done].
    apply dict_lookup; [done|]. by apply Hzip.
  - destruct (objective_dict_of (lits_where (λ c, c <=? b) lits coeffs)
                (List.filter (λ c, c <=? b) coeffs) !! s) as [c|] eqn:E2;
      [|done].
    apply dict_lookup in E2; [|done]. apply Hzip in E2 as [E2 _].
    apply dict_lookup in E2; [|done]. congruence.
Qed.

Lemma peak_le_sum sol lits coeffs p :
  Forall (λ c, 0 < c) coeffs → NoDup lits →
  peak_val sol (objective_dict_of lits coeffs) = Some p →
  p ≤ sum_val sol (objective_dict_of lits coeffs).
Proof.
  intros Hpos Hnd [Hin _]%py_max_spec.
  apply sumZ_ge_elem; [|done]. by apply objective_values_nonneg.
Qed.



(** ** The emitted clauses define their variables *)

(** The soundness of a gate says what holds in the models of its
    clauses; here, that there are such models: the clauses of a gate can
    be satisfied by choosing the value of the variable it allocates,
    whatever the values of the variables it reads. *)

(** [l] is a literal over the variables [1..n]. *)
Definition in_scope (n l : Z) : Prop := 1 ≤ Z.abs l ≤ n.

(** A literal handed to a gate: a sentinel or a literal in scope. *)
Definition lit_in (n l : Z) : Prop := l = TRUE ∨ l = FALSE ∨ in_scope n l.

Definition scoped (n : Z) (E : list clause) : Prop :=
  Forall (Forall (in_scope n)) E.

Definition agree_upto (n : Z) (M M' : Z → bool) : Prop :=
  ∀ x, x ≤ n → M' x = M x.

(** [M] with the variable [x] set to [b]. *)
Definition upd (M : Z → bool) (x : Z) (b : bool) : Z → bool :=
  λ y, if y =? x then b else M y.

(** [definable d d']: the clauses added from [d] to [d'] are over the
    variables of [d'], and every assignment of the variables of [d] can be
    extended to one that satisfies them; this as long as the variables stay
    below the sentinel. *)
Definition definable (d d' : Clauses) : Prop :=
  ∃ E, _clauses d' = _clauses d ++ E ∧ m d ≤ m d'
       ∧ (m d' < TRUE →
          scoped (m d') E
          ∧ ∀ M, ∃ M', agree_upto (m d) M M' ∧ models M' E).

Lemma in_scope_opp n l : in_scope n l → in_scope n (- l).
Proof. unfold in_scope. lia. Qed.

Lemma in_scope_mono n n' l : in_scope n l → n ≤ n' → in_scope n' l.
Proof. unfold in_scope. lia. Qed.

Lemma in_scope_nz n l : in_scope n l → l ≠ 0.
Proof. unfold in_scope. lia. Qed.

Lemma lit_in_opp n l : lit_in n l → lit_in n (- l).
Proof.
  sentinel_facts. intros [->|[->|Hl]].
  - right; left. lia.
  - left. lia.
  - right; right. by apply in_scope_opp.
Qed.

Lemma lit_in_mono n n' l : lit_in n l → n ≤ n' → lit_in n' l.
Proof.
  intros [->|[->|Hl]] Hn; [by left|by right; left|].
  right; right. by eapply in_scope_mono.
Qed.

Lemma scoped_mono n n' E : scoped n E → n ≤ n' → scoped n' E.
Proof.
  intros HE Hn. eapply Forall_impl; [exact HE|]. intros c Hc.
  eapply Forall_impl; [exact Hc|]. intros l Hl. by eapply in_scope_mono.
Qed.

Lemma scoped_app n E1 E2 : scoped n (E1 ++ E2) ↔ scoped n E1 ∧ scoped n E2.
Proof. apply Forall_app. Qed.

Lemma lit_true_agree n M M' l :
  n < TRUE → in_scope n l → agree_upto n M M' →
  lit_true M' l = lit_true M l.
Proof.
  intros Hn Hl Hag. sentinel_facts. unfold in_scope in Hl.
  unfold lit_true. case_eqb; try lia.
  destruct (Z.ltb_spec 0 l); rewrite Hag by lia; done.
Qed.

Lemma models_agree n M M' E :
  n < TRUE → scoped n E → agree_upto n M M' → models M E → models M' E.
Proof.
  intros Hn HE Hag. unfold scoped in HE. unfold models.
  rewrite !forallb_forall.
  intros HM c Hc. specialize (HM c Hc). apply list_elem_of_In in Hc.
  rewrite Forall_forall in HE. specialize (HE c Hc).
  apply clause_true_iff in HM as (l & Hl & Ht).
  apply clause_true_iff. exists l. split; [done|].
  rewrite Forall_forall in HE.
  rewrite (lit_true_agree n M M'); [done|done|by apply HE|done].
Qed.

Lemma definable_refl d : definable d d.
Proof.
  exists []. rewrite app_nil_r. split_and!; [done|lia|].
  intros _. split; [constructor|]. intros M. by exists M.
Qed.

Lemma definable_trans d1 d2 d3 :
  definable d1 d2 → definable d2 d3 → definable d1 d3.
Proof.
  intros (E1 & H1 & Hm1 & HE1) (E2 & H2 & Hm2 & HE2).
  exists (E1 ++ E2). split_and!.
  - by rewrite H2, H1, app_assoc.
  - lia.
  - intros Hb. destruct (HE1 ltac:(lia)) as [Hs1 Hx1].
    destruct (HE2 Hb) as [Hs2 Hx2]. split.
    + apply scoped_app. split; [by eapply scoped_mono|done].
    + intros M. destruct (Hx1 M) as (M1 & Hag1 & HM1).
      destruct (Hx2 M1) as (M2 & Hag2 & HM2). exists M2. split.
      * intros x Hx. rewrite Hag2 by lia. by apply Hag1.
      * apply models_app. split; [|done].
        eapply (models_agree (m d2)); [lia|done|exact Hag2|done].
Qed.

Lemma definable_m d d' : definable d d' → m d ≤ m d'.
Proof. by intros (_ & _ & ? & _). Qed.

Lemma lit_true_upd_pos M x b :
  0 < x → x < TRUE → lit_true (upd M x b) x = b.
Proof.
  intros Hx Ht. sentinel_facts. unfold lit_true, upd. case_eqb; try lia.
  by destruct (Z.ltb_spec 0 x); [|lia].
Qed.

Lemma lit_true_upd_neg M x b :
  0 < x → x < TRUE → lit_true (upd M x b) (- x) = negb b.
Proof.
  intros Hx Ht. sentinel_facts. unfold lit_true, upd. case_eqb; try lia.
  by destruct (Z.ltb_spec 0 (- x)); [lia|].
Qed.

Lemma lit_true_upd_other M x b l :
  Z.abs l < x → lit_true (upd M x b) l = lit_true M l.
Proof.
  intros Hl. unfold lit_true, upd.
  destruct (l =? TRUE); [done|]. destruct (l =? FALSE); [done|].
  destruct (Z.ltb_spec 0 l).
  - destruct (Z.eqb_spec l x); [lia|done].
  - destruct (Z.eqb_spec (- l) x); [lia|done].
Qed.

(** A gate that allocates [x = m + 1] and emits [cs], satisfied when
    [x] takes the value [b M]. *)
Lemma definable_fresh d d' (cs : list clause) (b : (Z → bool) → bool) :
  0 ≤ m d → m d' = m d + 1 → _clauses d' = _clauses d ++ cs →
  (m d + 1 < TRUE →
   scoped (m d + 1) cs ∧ ∀ M, models (upd M (m d + 1) (b M)) cs) →
  definable d d'.
Proof.
  intros Hm Hm' Hcl Hcs. exists cs. split_and!; [done|lia|].
  rewrite Hm'. intros Hb. destruct (Hcs Hb) as [Hs HM]. split; [done|].
  intros M. exists (upd M (m d + 1) (b M)). split; [|done].
  intros x Hx. unfold upd. destruct (Z.eqb_spec x (m d + 1)); [lia|done].
Qed.

(** The result of a gate, as far as definability goes. *)
Definition gate_definable (d : Clauses) (res : value * Clauses) : Prop :=
  ∃ r, res.1 = Lit r ∧ lit_in (m res.2) r ∧ definable d res.2.

Ltac def_short :=
  eexists; cbn [fst snd];
  split; [reflexivity|];
  split; [first [ assumption | by left | by right; left
                | by apply lit_in_opp ]
         |apply definable_refl].

Ltac in_scope_facts :=
  repeat match goal with
    | H : lit_in _ _ |- _ =>
        destruct H as [?|[?|H]]; [done|done|];
        pose proof (in_scope_nz _ _ H)
    end;
  repeat match goal with
    | H : ?a ≠ ?b |- _ =>
        lazymatch b with 0 => fail | _ => clear H end
    end;
  unfold in_scope in *.

Ltac def_fresh b :=
  unfold new_var; cbn [fst snd];
  match goal with
  | |- context [in_True_None ?p] => destruct p as [[|]|]
  end; cbn [in_True_None in_False_None];
  eexists; cbn [fst snd];
  (split; [reflexivity|]);
  (split; [right; right; unfold in_scope; cbn; lia|]);
  (eapply (definable_fresh _ _ _ b);
    [ done
    | reflexivity
    | cbn; unfold ClauseList.extend; rewrite <- ?app_assoc; reflexivity
    | intros Hb; split;
      [ repeat (apply Forall_cons; split); try apply Forall_nil;
        unfold in_scope; cbn; lia
      | intros M; unfold models; cbn [forallb existsb clause_true app];
        rewrite ?lit_true_upd_pos, ?lit_true_upd_neg by lia;
        rewrite ?lit_true_upd_other by lia;
        rewrite ?orb_false_r, ?andb_true_r;
        lit_cases ] ]).

Lemma And_definable f g polarity d :
  0 ≤ m d → lit_in (m d) f → lit_in (m d) g →
  gate_definable d (And f g polarity true d).
Proof.
  intros Hm Hf Hg. unfold And, gate_definable. sentinel_facts.
  case_eqb; subst;
    lazymatch goal with
    | |- context [new_var] => idtac
    | |- _ => def_short
    end.
  in_scope_facts.
  destruct (g <? f); def_fresh (λ M, lit_true M f && lit_true M g).
Qed.

Lemma Or_definable f g polarity d :
  0 ≤ m d → lit_in (m d) f → lit_in (m d) g →
  gate_definable d (Or f g polarity true d).
Proof.
  intros Hm Hf Hg. unfold Or, gate_definable. sentinel_facts.
  case_eqb; subst;
    lazymatch goal with
    | |- context [new_var] => idtac
    | |- _ => def_short
    end.
  in_scope_facts.
  destruct (g <? f); def_fresh (λ M, lit_true M f || lit_true M g).
Qed.

Lemma Xor_definable f g polarity d :
  0 ≤ m d → lit_in (m d) f → lit_in (m d) g →
  gate_definable d (Xor f g polarity true d).
Proof.
  intros Hm Hf Hg. unfold Xor, Not, gate_definable. sentinel_facts.
  case_eqb; subst;
    lazymatch goal with
    | |- context [new_var] => idtac
    | |- _ => def_short
    end.
  in_scope_facts.
  destruct (g <? f); def_fresh (λ M, xorb (lit_true M f) (lit_true M g)).
Qed.

Lemma ITE_definable c t f polarity d :
  0 ≤ m d → lit_in (m d) c → lit_in (m d) t → lit_in (m d) f →
  gate_definable d (ITE c t f polarity true d).
Proof.
  intros Hm Hc Ht Hf. unfold ITE. sentinel_facts.
  case_eqb; subst;
    lazymatch goal with
    | |- gate_definable _ (Or _ _ _ _ _) =>
        apply Or_definable; try done; by apply lit_in_opp
    | |- gate_definable _ (And _ _ _ _ _) =>
        apply And_definable; try done; by apply lit_in_opp
    | |- gate_definable _ (Xor _ _ _ _ _) =>
        apply Xor_definable; try done; by apply lit_in_opp
    | |- gate_definable _ (Lit _, _) => unfold gate_definable; def_short
    | |- _ => idtac
    end.
  unfold gate_definable. in_scope_facts.
  destruct (t <? f);
    def_fresh (λ M, if lit_true M c then lit_true M t else lit_true M f).
Qed.

Lemma getitem_elem_of {A} (l : list A) i x : getitem l i = Some x → x ∈ l.
Proof.
  unfold getitem. repeat case_match; try done;
    apply list_elem_of_lookup_2.
Qed.

Definition memo_in (n : Z) (memo : gmap bdd_key Z) : Prop :=
  ∀ k r, memo !! k = Some r → lit_in n r.

Lemma memo_in_mono n n' memo : memo_in n memo → n ≤ n' → memo_in n' memo.
Proof. intros H Hn k r Hk. eapply lit_in_mono; [by eapply H|done]. Qed.

Lemma memo_in_insert n memo k r :
  memo_in n memo → lit_in n r → memo_in n (<[k := r]> memo).
Proof.
  intros H Hr k' r'. destruct (decide (k' = k)) as [->|Hne].
  - rewrite lookup_insert_eq. by intros [= <-].
  - rewrite lookup_insert_ne by done. apply H.
Qed.

Lemma BDD_body_definable lits coeffs lo hi polarity key rest memo d st' :
  0 ≤ m d → Forall (in_scope (m d)) lits → memo_in (m d) memo →
  BDD_body lits coeffs lo hi polarity key rest memo d = Some st' →
  definable d (bdd_self st') ∧ memo_in (m (bdd_self st')) (ret st').
Proof.
  intros Hm Hl Hmemo. unfold BDD_body. destruct key as [[ndx csum] total].
  intros HB.
  assert (lit_in (m d) TRUE) as HT by by left.
  assert (lit_in (m d) FALSE) as HF by by right; left.
  repeat case_match; simplify_eq; cbn;
    try (split; [apply definable_refl|by apply memo_in_insert]).
  apply bind_Some in HB as (LA & HLA & HB).
  apply bind_Some in HB as (LC & HLC & HB).
  assert (lit_in (m d) (Z.abs LA)) as HA.
  { right; right. apply getitem_elem_of in HLA.
    rewrite Forall_forall in Hl. specialize (Hl LA HLA).
    unfold in_scope in *. lia. }
  repeat case_match; simplify_eq; cbn;
    try (split; [apply definable_refl|done]).
  all: match goal with
  | H : ITE ?c ?t ?f _ _ _ = _, H1 : _ !! _ = Some ?t,
    H2 : _ !! _ = Some ?f |- _ =>
      destruct (ITE_definable c t f polarity d Hm HA
                  (Hmemo _ _ H1) (Hmemo _ _ H2)) as (r & Hr & Hin & Hdef);
      rewrite H in Hr, Hin, Hdef; cbn in Hr, Hin, Hdef
  end.
  all: simplify_eq; (split; [done|]).
  all: apply memo_in_insert; [|done].
  all: eapply memo_in_mono; [done|by apply definable_m].
Qed.

Lemma BDD_loop_definable lits coeffs lo hi polarity (fuel : nat) :
  ∀ st st',
  0 ≤ m (bdd_self st) → Forall (in_scope (m (bdd_self st))) lits →
  memo_in (m (bdd_self st)) (ret st) →
  BDD_loop fuel lits coeffs lo hi polarity st = Some st' →
  definable (bdd_self st) (bdd_self st')
  ∧ memo_in (m (bdd_self st')) (ret st').
Proof.
  induction fuel as [|fuel IH]; intros st st' Hm Hl Hmemo; cbn; [done|].
  destruct (call_stack st) as [|key rest].
  { intros [= <-]. split; [apply definable_refl|done]. }
  intros (st1 & Hbody & Hloop)%bind_Some.
  destruct (BDD_body_definable _ _ _ _ _ _ _ _ _ _ Hm Hl Hmemo Hbody)
    as [Hd1 Hm1].
  pose proof (definable_m _ _ Hd1) as Hle.
  destruct (IH st1 st') as [Hd2 Hm2]; [lia| |done|done|].
  { eapply Forall_impl; [exact Hl|]. intros l ?. by eapply in_scope_mono. }
  split; [by eapply definable_trans|done].
Qed.

Lemma BDD_definable lits coeffs nterms lo hi polarity d r d' :
  0 ≤ m d → Forall (in_scope (m d)) lits →
  BDD lits coeffs nterms lo hi polarity d = Some (r, d') →
  definable d d' ∧ lit_in (m d') r.
Proof.
  intros Hm Hl. unfold BDD.
  intros (st & Hloop & (x & Hx & [= <- <-])%bind_Some)%bind_Some.
  apply BDD_loop_definable in Hloop as [Hd Hmemo]; [|done|done|done].
  split; [done|]. by eapply Hmemo.
Qed.

(** A returned value whose clauses, once [assign] has given them a
    variable, can be satisfied by the choice of that variable. *)
Definition value_ok (n : Z) (v : value) : Prop :=
  match v with
  | Lit r => lit_in n r
  | Deferred pval nval =>
      scoped n pval ∧ scoped n nval ∧ ∀ M, models M pval ∨ models M nval
  end.

Lemma value_ok_mono n n' v : value_ok n v → n ≤ n' → value_ok n' v.
Proof.
  destruct v as [r|pval nval]; cbn.
  - apply lit_in_mono.
  - intros (Hp & Hn & Hc) Hle. split_and!; [| |done]; by eapply scoped_mono.
Qed.

Lemma scoped_map_cons n x (cs : list clause) :
  in_scope n x → scoped n cs → scoped n (map (λ y, x :: y) cs).
Proof.
  intros Hx Hcs. apply Forall_map. eapply Forall_impl; [exact Hcs|].
  intros c Hc. cbn. by apply Forall_cons.
Qed.

Lemma assign_definable v d :
  0 ≤ m d → value_ok (m d) v →
  definable d (assign v d).2 ∧ lit_in (m (assign v d).2) (assign v d).1.
Proof.
  intros Hm Hv. destruct v as [r|pval nval]; cbn in Hv |- *.
  { split; [apply definable_refl|done]. }
  destruct Hv as (Hp & Hn & Hc). split.
  2:{ right; right. unfold in_scope. lia. }
  eapply (definable_fresh _ _
            (map (λ y, - (m d + 1) :: y) pval ++ map (λ y, (m d + 1) :: y) nval)
            (λ M, forallb (clause_true M) pval)).
  - done.
  - reflexivity.
  - cbn. unfold ClauseList.extend. by rewrite <- app_assoc.
  - intros Hb. split.
    + apply scoped_app. split; apply scoped_map_cons;
        try (by eapply scoped_mono; [|apply Z.le_succ_diag_r]);
        unfold in_scope; lia.
    + intros M. set (M' := upd M (m d + 1) (forallb (clause_true M) pval)).
      assert (agree_upto (m d) M M') as Hag.
      { intros x Hx. unfold M', upd.
        destruct (Z.eqb_spec x (m d + 1)); [lia|done]. }
      apply models_app. split; apply models_map_cons.
      * unfold M'. rewrite lit_true_upd_neg by lia.
        destruct (forallb (clause_true M) pval) eqn:HP; [right|by left].
        eapply (models_agree (m d)); [lia|done|done|done].
      * unfold M'. rewrite lit_true_upd_pos by lia.
        destruct (forallb (clause_true M) pval) eqn:HP; [by left|right].
        destruct (Hc M) as [HP'|HN]; [unfold models in HP'; congruence|].
        eapply (models_agree (m d)); [lia|done|done|done].
Qed.

(** The value that [All] builds from the elements of its set. *)
Lemma elements_value_ok n polarity (vs : list Z) :
  Forall (in_scope n) vs →
  value_ok n
    (match vs with
     | [] => Lit TRUE
     | [v] => Lit v
     | _ => Deferred
              (if in_True_None polarity then map (λ v, [v]) vs else [])
              (if in_False_None polarity then [map Z.opp vs] else [])
     end).
Proof.
  intros Hvs.
  assert (value_ok n
            (Deferred
               (if in_True_None polarity then map (λ v, [v]) vs else [])
               (if in_False_None polarity then [map Z.opp vs] else [])))
    as Hdef.
  { cbn. split_and!.
    - destruct (in_True_None polarity); [|constructor].
      apply Forall_map. eapply Forall_impl; [exact Hvs|].
      intros v Hv. by apply Forall_cons.
    - destruct (in_False_None polarity); [|constructor].
      apply Forall_cons. split; [|constructor].
      apply Forall_map. eapply Forall_impl; [exact Hvs|].
      intros v Hv. by apply in_scope_opp.
    - intros M. destruct (in_True_None polarity); [|by left].
      destruct (in_False_None polarity); [|by right].
      destruct (forallb (lit_true M) vs) eqn:Hall.
      + left. apply models_units. intros v Hv.
        rewrite forallb_forall in Hall. by apply Hall, list_elem_of_In.
      + right. apply models_cons. split; [|done].
        assert (∃ v, v ∈ vs ∧ lit_true M v = false) as (v & Hv & Hf).
        { apply not_true_iff_false in Hall.
          destruct (decide (Exists (λ v, lit_true M v = false) vs))
            as [(v & ? & ?)%Exists_exists|Hne]; [by exists v|].
          exfalso. apply Hall. apply forallb_forall. intros v Hv%list_elem_of_In.
          destruct (lit_true M v) eqn:E; [done|].
          exfalso. apply Hne. apply Exists_exists. by exists v. }
        apply clause_true_iff. exists (- v). split.
        * apply list_elem_of_fmap. by exists v.
        * rewrite Forall_forall in Hvs.
          rewrite lit_true_opp by (eapply in_scope_nz; by apply Hvs).
          by rewrite Hf. }
  destruct vs as [|v [|v' vs]]; [by left| |exact Hdef].
  right; right. by apply Forall_cons in Hvs as [? _].
Qed.

Lemma All_scan_pure_vals (iter : list Z) : ∀ vals d vals' d',
  All_scan (λ v s, (v, s)) iter vals d = (Some vals', d') →
  ∀ v, v ∈ vals' → v ∈ vals ∨ (v ∈ iter ∧ v ≠ TRUE ∧ v ≠ FALSE).
Proof.
  induction iter as [|a iter IH]; intros vals d vals' d'; cbn.
  { intros [= <- <-] v Hv. by left. }
  destruct (Z.eqb_spec a TRUE) as [->|HT].
  { intros Hs v Hv. destruct (IH _ _ _ _ Hs v Hv) as [?|(? & ? & ?)];
      [by left|right]. split; [by right|done]. }
  destruct (Z.eqb_spec a FALSE) as [->|HF]; cbn [orb]; [done|].
  case_match; [done|].
  intros Hs v Hv. destruct (IH _ _ _ _ Hs v Hv) as [Hin|(? & ? & ?)].
  - apply elem_of_union in Hin as [->%elem_of_singleton|Hin]; [|by left].
    right. split; [left|done].
  - right. split; [by right|done].
Qed.

Lemma lit_in_in_scope n l : lit_in n l → l ≠ TRUE → l ≠ FALSE → in_scope n l.
Proof. by intros [?|[?|?]]. Qed.

Lemma All_value_ok n iter polarity d :
  Forall (lit_in n) iter → value_ok n (All iter polarity d).1.
Proof.
  intros Hiter. unfold All, All_iter.
  destruct (All_scan (λ v s, (v, s)) iter ∅ d) as [[vals|] d1] eqn:Hs;
    [|by right; left].
  pose proof (All_scan_pure_vals _ _ _ _ _ Hs) as Hvals.
  pose proof (elements_value_ok n polarity (elements vals)) as Hok.
  destruct (elements vals) as [|v [|v' vs]] eqn:He; cbn [fst]; apply Hok.
  all: apply Forall_forall; intros x Hx; rewrite <- He in Hx.
  all: apply elem_of_elements, Hvals in Hx as [[]%elem_of_empty|(Hx & ? & ?)].
  all: rewrite Forall_forall in Hiter.
  all: apply lit_in_in_scope; [by apply Hiter|done|done].
Qed.

Lemma All_scan_assign_definable (args : list value) : ∀ vals d res d',
  0 ≤ m d → Forall (value_ok (m d)) args →
  All_scan assign args vals d = (res, d') →
  definable d d'
  ∧ ∀ vals', res = Some vals' →
      ∀ v, v ∈ vals' → v ∈ vals ∨ in_scope (m d') v.
Proof.
  induction args as [|a args IH]; intros vals d res d' Hm Hargs; cbn.
  { intros [= <- <-]. split; [apply definable_refl|].
    intros vals' [= <-] v Hv. by left. }
  apply Forall_cons in Hargs as [Ha Hargs].
  destruct (assign_definable a d Hm Ha) as [Hd1 Hin].
  destruct (assign a d) as [x d1]. cbn [fst snd] in *.
  pose proof (definable_m _ _ Hd1) as Hle.
  assert (Forall (value_ok (m d1)) args) as Hargs1.
  { eapply Forall_impl; [exact Hargs|]. intros v ?. by eapply value_ok_mono. }
  destruct (Z.eqb_spec x TRUE) as [->|HT].
  { intros Hs. destruct (IH _ d1 _ _ ltac:(lia) Hargs1 Hs) as [Hd2 Hv].
    split; [by eapply definable_trans|done]. }
  destruct (Z.eqb_spec x FALSE) as [->|HF]; cbn [orb].
  { intros [= <- <-]. split; [done|]. by intros. }
  case_match.
  { intros [= <- <-]. split; [done|]. by intros. }
  intros Hs. destruct (IH _ d1 _ _ ltac:(lia) Hargs1 Hs) as [Hd2 Hv].
  split; [by eapply definable_trans|].
  intros vals' -> v Hin'. destruct (Hv _ eq_refl v Hin') as [Hu|?]; [|by right].
  apply elem_of_union in Hu as [->%elem_of_singleton|Hu]; [|by left].
  right. eapply in_scope_mono; [by apply lit_in_in_scope|].
  by apply definable_m.
Qed.

(** [Combine((res, prune), polarity)] for a literal [res]. *)
Lemma Combine_pair_definable r prune polarity d :
  0 ≤ m d → lit_in (m d) r → value_ok (m d) prune →
  definable d (Combine [Lit r; prune] polarity d).2
  ∧ value_ok (m (Combine [Lit r; prune] polarity d).2)
      (Combine [Lit r; prune] polarity d).1.
Proof.
  intros Hm Hr Hp. unfold Combine. cbn [existsb value_is List.filter negb].
  destruct (r =? FALSE); cbn [orb].
  { split; [apply definable_refl|by right; left]. }
  destruct (value_is FALSE prune); cbn [orb].
  { split; [apply definable_refl|by right; left]. }
  destruct (r =? TRUE); cbn [negb]; destruct (value_is TRUE prune);
    cbn [negb forallb is_tuple andb];
    try (split; [apply definable_refl|first [by left|done]]).
  unfold All_iter.
  assert (Forall (value_ok (m d)) [Lit r; prune]) as Hargs.
  { apply Forall_cons. split; [done|]. apply Forall_cons. by split. }
  destruct (All_scan assign [Lit r; prune] ∅ d) as [[vals|] d1] eqn:Hs.
  - destruct (All_scan_assign_definable _ _ _ _ _ Hm Hargs Hs) as [Hd Hv].
    pose proof (elements_value_ok (m d1) polarity (elements vals)) as Hok.
    assert (Forall (in_scope (m d1)) (elements vals)) as Hel.
    { apply Forall_forall. intros x Hx%elem_of_elements.
      by destruct (Hv _ eq_refl x Hx) as [[]%elem_of_empty|?]. }
    destruct (elements vals) as [|v [|v' vs]]; cbn [fst snd];
      (split; [done|by apply Hok]).
  - destruct (All_scan_assign_definable _ _ _ _ _ Hm Hargs Hs) as [Hd _].
    split; [done|by right; left].
Qed.

Lemma LinearBound_tail_definable lits coeffs lo hi preprocess polarity d v d' :
  0 ≤ m d → Forall (in_scope (m d)) lits →
  LinearBound_tail lits coeffs lo hi preprocess polarity d = Some (v, d') →
  definable d d' ∧ value_ok (m d') v.
Proof.
  intros Hm Hl. unfold LinearBound_tail. intros HLB.
  assert (lit_in (m d) TRUE) as HT by by left.
  assert (lit_in (m d) FALSE) as HF by by right; left.
  assert (∀ n e, m d ≤ m e →
            Forall (lit_in (m e)) (map Z.opp (slice_from lits n))) as Hprune.
  { intros n e Hle. apply Forall_map, Forall_forall. intros l Hin.
    apply lit_in_opp. right; right. rewrite Forall_forall in Hl.
    eapply in_scope_mono; [apply Hl|done].
    unfold slice_from in Hin.
    case_match; (eapply elem_of_sublist; [exact Hin|apply sublist_drop]). }
  repeat (case_match; simplify_eq);
    try (split; [apply definable_refl|done]);
    apply bind_Some in HLB as ([res d1] & HBDD & HLB);
    (assert (definable d d1 ∧ lit_in (m d1) res) as [Hd1 Hres]
      by (simplify_eq;
          first [ by eapply BDD_definable
                | split; [apply definable_refl|done] ]));
    pose proof (definable_m _ _ Hd1) as Hle;
    repeat case_match; simplify_eq; try done.
  all: match goal with
       | HA : All ?i ?p ?d1 = (?prune, ?e),
         HC : Combine [Lit ?r; ?prune] ?q ?e = _ |- _ =>
           pose proof (All_same_driver i p d1) as E1; rewrite HA in E1;
           pose proof (All_value_ok (m d1) i p d1 (Hprune _ d1 Hle)) as E3;
           rewrite HA in E3; cbn in E1, E3; subst;
           assert (lit_in (m d1) r) as Hr0 by assumption;
           destruct (Combine_pair_definable r prune q d1
                       ltac:(lia) Hr0 E3) as [E2 E4];
           rewrite HC in E2, E4; cbn in E2, E4
       end.
  all: split; [exact (definable_trans _ _ _ Hd1 E2)|done].
Qed.

Lemma LB_Preprocess_in_scope n lits coeffs :
  Forall (in_scope n) lits →
  Forall (in_scope n) (LB_Preprocess lits coeffs).1.1.
Proof.
  intros Hl. rewrite LB_Preprocess_unfold. cbn [fst snd].
  apply Forall_forall. intros l Hin.
  assert (Z.abs l ∈ map Z.abs lits) as Habs.
  { eapply elem_of_sublist.
    2:{ etrans; [apply LB_terms_abs_sublist|].
        rewrite <- (map_map snd Z.abs).
        apply fmap_sublist, zip_snd_sublist. }
    rewrite <- (map_map snd Z.abs).
    rewrite <- (merge_sort_Permutation tuple_le).
    apply list_elem_of_fmap. by exists l. }
  apply list_elem_of_fmap in Habs as (l' & Heq & Hl').
  rewrite Forall_forall in Hl. apply Hl in Hl'. unfold in_scope in *. lia.
Qed.

Lemma wsum_agree n M M' lits coeffs :
  n < TRUE → Forall (in_scope n) lits → agree_upto n M M' →
  wsum M' lits coeffs = wsum M lits coeffs.
Proof.
  intros Hn Hl Hag. unfold wsum. f_equal. apply map_ext_in.
  intros [c a] Hin%list_elem_of_In%elem_of_zip_r. cbn.
  rewrite Forall_forall in Hl.
  by rewrite (lit_true_agree n M M') by auto.
Qed.

(** C1. For every list [lits] of nonzero literals (distinct variable
    literals among them) and every list [coeffs] of integers (positive ones
    of the same length among them) and bounds [lo], [hi], on a driver with
    [m ≥ 0], [LinearBound(lits, coeffs, lo, hi, True, None)] returns; and in
    every model of the clauses the call has emitted, a deferred pair being
    materialized by [assign], the result is true exactly when
    [lo ≤ Σ coeffsᵢ · [litsᵢ is true] ≤ hi]. Moreover, when the literals
    are over the variables of the driver and the allocated variables stay
    below the sentinel, the clauses rule out no assignment of those
    variables: each extends to a model, in which the result tells whether
    the sum of the assignment lies within the bounds. *)
Theorem LinearBound_sound (lits coeffs : list Z) (lo hi : Z) (d : Clauses) :
  Forall (λ l, l ≠ 0) lits → 0 ≤ m d →
  ∃ v d1 emitted,
    LinearBound lits coeffs lo hi true None d = Some (v, d1)
    ∧ as_list (assign v d1).2 = as_list d ++ emitted
    ∧ (∀ M, models M emitted →
         (lit_true M (assign v d1).1 = true ↔ lo ≤ wsum M lits coeffs ≤ hi))
    ∧ (Forall (λ l, Z.abs l ≤ m d) lits → m (assign v d1).2 < TRUE →
       ∀ M0, ∃ M,
         (∀ x, x ≤ m d → M x = M0 x) ∧ models M emitted
         ∧ (lit_true M (assign v d1).1 = true
            ↔ lo ≤ wsum M0 lits coeffs ≤ hi)).
Proof.
  intros Hl Hm.
  destruct (LB_Preprocess_ok lits coeffs Hl) as (Hl' & Hc' & Hs & Hlen & Hsum).
  rewrite LinearBound_unfold.
  destruct (LinearBound_tail_ok (LB_Preprocess lits coeffs).1.1
              (LB_Preprocess lits coeffs).1.2
              (lo - (LB_Preprocess lits coeffs).2)
              (hi - (LB_Preprocess lits coeffs).2) true None d)
    as (v & d1 & E1 & HLB & Hv & Hc1 & Hm1 & Hsem); try done.
  { eapply Forall_impl; [exact Hc'|]. cbn. lia. }
  destruct (assign_ok None v d1) as (E2 & _ & Hc2 & _ & Hassign);
    [lia|done|].
  assert (∀ M, models M (E1 ++ E2) →
            (lit_true M (assign v d1).1 = true
             ↔ lo ≤ wsum M lits coeffs ≤ hi)) as Hsound.
  { intros M [HM1 HM2]%models_app.
    pose proof (Hassign M _ (Hsem M HM1) HM2) as Ha.
    apply agrees_None in Ha. rewrite Ha, in_range_spec, (Hsum M). lia. }
  exists v, d1, (E1 ++ E2). split_and!; [done| |done|].
  - unfold as_list, ClauseList.as_list. by rewrite Hc2, Hc1, app_assoc.
  - intros Hscope Hbound M0.
    assert (Forall (in_scope (m d)) lits) as Hin.
    { apply Forall_forall. intros l Hl0. rewrite Forall_forall in Hl, Hscope.
      specialize (Hl l Hl0). specialize (Hscope l Hl0).
      unfold in_scope. lia. }
    destruct (LinearBound_tail_definable _ _ _ _ _ _ _ _ _ Hm
                (LB_Preprocess_in_scope _ _ coeffs Hin) HLB) as [Hd1 Hok].
    destruct (assign_definable v d1 ltac:(lia) Hok) as [Hd2 _].
    destruct (definable_trans _ _ _ Hd1 Hd2) as (E & HE & Hle & Hext).
    assert (E = E1 ++ E2) as ->.
    { rewrite Hc2, Hc1, <- app_assoc in HE. by apply app_inv_head in HE. }
    destruct (Hext Hbound) as [_ Hex]. destruct (Hex M0) as (M & Hag & HM).
    exists M. split_and!; [done|done|].
    rewrite (Hsound M HM).
    by rewrite (wsum_agree (m d) M0 M) by (done || lia).
Qed.

Lemma LinearBound_sound_witness :
  ∃ v d1 emitted,
    LinearBound [1; 2; 3; 4] [1; 2; 3; 4] 5 7 true None (Clauses_init 4)
    = Some (v, d1)
    ∧ as_list (assign v d1).2 = as_list (Clauses_init 4) ++ emitted
    ∧ (∀ M, models M emitted →
         (lit_true M (assign v d1).1 = true
          ↔ 5 ≤ wsum M [1; 2; 3; 4] [1; 2; 3; 4] ≤ 7))
    ∧ (∀ M0, ∃ M,
         (∀ x, x ≤ 4 → M x = M0 x) ∧ models M emitted
         ∧ (lit_true M (assign v d1).1 = true
            ↔ 5 ≤ wsum M0 [1; 2; 3; 4] [1; 2; 3; 4] ≤ 7)).
Proof.
  destruct (LinearBound_sound [1; 2; 3; 4] [1; 2; 3; 4] 5 7 (Clauses_init 4))
    as (v & d1 & emitted & H1 & H2 & H3 & H4).
  - repeat constructor; lia.
  - cbn. lia.
  - exists v, d1, emitted. split_and!; [done..|].
    apply H4.
    + repeat constructor; cbn; lia.
    + vm_compute in H1. injection H1 as <- <-. vm_compute. reflexivity.
Defined.
(** * Further properties of the clause stores *)

(** What a sequence of literals must satisfy to be stored and read back as
    one clause: no literal is the terminator 0, and each fits a C int. *)
Definition storable (c : clause) : Prop :=
  Forall (λ v, v ≠ 0 ∧ ClauseArray.int_fits v = true) c.

(** The array is complete when it is empty or ends with a terminator. *)
Definition terminated (a : ClauseArray.t) : Prop :=
  ∀ v, last a = Some v → v = 0.

Lemma array_extend_fits (c : clause) (a : ClauseArray.t) :
  Forall (λ v, ClauseArray.int_fits v = true) c →
  ClauseArray.array_extend c a = (a ++ c, true).
Proof.
  revert a. induction c as [|v c IH]; intros a Hc; cbn.
  - by rewrite app_nil_r.
  - inversion Hc as [|? ? Hv Hc']; subst.
    unfold ClauseArray.array_append. rewrite Hv.
    rewrite IH by done. by rewrite <- app_assoc.
Qed.

Lemma storable_fits (c : clause) :
  storable c → Forall (λ v, ClauseArray.int_fits v = true) c.
Proof. intros H. eapply Forall_impl; [exact H|]. cbn. tauto. Qed.

Lemma append_storable (c : clause) (a : ClauseArray.t) :
  storable c → ClauseArray.append c a = (a ++ c ++ [0], true).
Proof.
  intros Hc. unfold ClauseArray.append.
  rewrite array_extend_fits by by apply storable_fits.
  unfold ClauseArray.array_append. cbn. by rewrite <- app_assoc.
Qed.

Lemma extend_storable (cs : list clause) (a : ClauseArray.t) :
  Forall storable cs →
  ClauseArray.extend cs a = (a ++ concat (map (λ c, c ++ [0]) cs), true).
Proof.
  revert a. induction cs as [|c cs IH]; intros a Hcs; cbn.
  - by rewrite app_nil_r.
  - inversion Hcs; subst. rewrite append_storable by done.
    rewrite IH by done. by rewrite <- !app_assoc.
Qed.

Lemma as_array_from_storable (cs : list clause) (a : list Z) :
  Forall storable cs →
  ClauseList_as_array_from cs a = (a ++ concat (map (λ c, c ++ [0]) cs), true).
Proof.
  revert a. induction cs as [|c cs IH]; intros a Hcs; cbn.
  - by rewrite app_nil_r.
  - inversion Hcs; subst.
    rewrite array_extend_fits by by apply storable_fits.
    unfold ClauseArray.array_append. cbn.
    rewrite IH by done. by rewrite <- !app_assoc.
Qed.

Lemma as_list_from_nonzero (acc c : list Z) (b : list Z) :
  Forall (λ v, v ≠ 0) c →
  ClauseArray.as_list_from acc (c ++ b) = ClauseArray.as_list_from (acc ++ c) b.
Proof.
  revert acc. induction c as [|v c IH]; intros acc Hc; cbn.
  - by rewrite app_nil_r.
  - inversion Hc; subst. destruct (Z.eqb_spec v 0); [done|].
    rewrite IH by done. by rewrite <- app_assoc.
Qed.

Lemma as_list_from_encoded (cs : list clause) (b : list Z) :
  Forall (Forall (λ v, v ≠ 0)) cs →
  ClauseArray.as_list_from [] (concat (map (λ c, c ++ [0]) cs) ++ b) =
  cs ++ ClauseArray.as_list_from [] b.
Proof.
  induction cs as [|c cs IH]; intros Hcs; [done|].
  inversion Hcs; subst. cbn. rewrite <- !app_assoc.
  rewrite as_list_from_nonzero by done. cbn. by rewrite IH.
Qed.

(** The accumulator only matters up to the first terminator. *)
Lemma as_list_from_terminated (acc : list Z) (a b : list Z) :
  terminated a → a ≠ [] →
  ClauseArray.as_list_from acc (a ++ b) =
  ClauseArray.as_list_from acc a ++ ClauseArray.as_list_from [] b.
Proof.
  revert acc. induction a as [|v a IH]; intros acc Ht Hne; [done|].
  cbn. destruct a as [|w a].
  - rewrite (Ht v eq_refl). done.
  - assert (terminated (w :: a)) as Ht' by (intros x Hx; apply Ht; done).
    destruct (v =? 0); [cbn; f_equal|]; by apply IH.
Qed.

Lemma as_list_app_terminated (a b : list Z) :
  terminated a →
  ClauseArray.as_list (a ++ b) = ClauseArray.as_list a ++ ClauseArray.as_list b.
Proof.
  intros Ht. destruct a as [|v a]; [done|].
  by apply as_list_from_terminated.
Qed.

Lemma count_app (a b : list Z) :
  ClauseArray.get_clause_count (a ++ b) =
  (ClauseArray.get_clause_count a + ClauseArray.get_clause_count b)%nat.
Proof.
  unfold ClauseArray.get_clause_count, ClauseArray.t.
  by rewrite filter_app, length_app.
Qed.

Lemma as_list_from_count (acc : list Z) (a : list Z) :
  length (ClauseArray.as_list_from acc a) = ClauseArray.get_clause_count a.
Proof.
  revert acc. induction a as [|v a IH]; intros acc; [done|].
  change (v :: a) with ([v] ++ a). rewrite count_app. cbn.
  destruct (Z.eqb_spec v 0) as [->|Hv]; cbn; rewrite IH; [done|].
  by destruct (decide (v = 0)).
Qed.

(** X1 (clause array, round trip). Clauses whose literals are non-zero and
    fit a C int are stored without an error by [_ClauseArray.extend] on an
    array that is empty or ends with a terminator; [as_list] then yields the
    clauses the array held before followed by exactly the new ones,
    [get_clause_count] grows by their number, and [_ClauseList.as_array] of
    the same clauses is the very array [_ClauseArray] builds from scratch. *)
Theorem ClauseArray_round_trip (cs : list clause) (self : ClauseArray.t) :
  Forall storable cs → terminated self →
  ∃ a, ClauseArray.extend cs self = (a, true) ∧
       ClauseArray.as_list a = ClauseArray.as_list self ++ cs ∧
       ClauseArray.get_clause_count a =
         (ClauseArray.get_clause_count self + length cs)%nat ∧
       ClauseList_as_array (ClauseList.extend cs ClauseList.init) =
         ClauseArray.extend cs ClauseArray.init.
Proof.
  intros Hcs Ht. eexists. split; [by apply extend_storable|].
  assert (Forall (Forall (λ v, v ≠ 0)) cs) as Hnz.
  { eapply Forall_impl; [exact Hcs|]. intros c Hc.
    eapply Forall_impl; [exact Hc|]. cbn. tauto. }
  split_and!.
  - rewrite as_list_app_terminated by done. f_equal.
    pose proof (as_list_from_encoded cs [] Hnz) as H.
    rewrite !app_nil_r in H. exact H.
  - rewrite count_app. f_equal.
    rewrite <- (as_list_from_count []).
    pose proof (as_list_from_encoded cs [] Hnz) as H.
    rewrite !app_nil_r in H. by rewrite H.
  - unfold ClauseList_as_array, ClauseList.extend, ClauseList.init,
      ClauseArray.init. cbn.
    by rewrite as_array_from_storable, extend_storable.
Qed.

Lemma ClauseArray_round_trip_witness :
  ∃ a, ClauseArray.extend [[1; -2]; [3]] [7; 0] = (a, true) ∧
       ClauseArray.as_list a = [[7]; [1; -2]; [3]] ∧
       ClauseArray.get_clause_count a = 3%nat ∧
       ClauseList_as_array [[1; -2]; [3]] = ([1; -2; 0; 3; 0], true).
Proof.
  apply (ClauseArray_round_trip [[1; -2]; [3]] [7; 0]).
  - repeat constructor; done.
  - intros v Hv. vm_compute in Hv. by injection Hv as <-.
Defined.

Lemma terminated_cons (v w : Z) (a : list Z) :
  terminated (v :: w :: a) → terminated (w :: a).
Proof. intros Ht x Hx. by apply Ht. Qed.

Lemma as_list_from_encode (acc : list Z) (a : ClauseArray.t) :
  terminated a → a ≠ [] →
  concat (map (λ c, c ++ [0]) (ClauseArray.as_list_from acc a)) = acc ++ a.
Proof.
  revert acc. induction a as [|v a IH]; intros acc Ht Hne; [done|].
  cbn. destruct a as [|w a].
  - rewrite (Ht v eq_refl). cbn. by rewrite app_nil_r.
  - apply terminated_cons in Ht.
    destruct (Z.eqb_spec v 0) as [->|Hv].
    + cbn [map concat]. rewrite (IH []) by done. by rewrite <- app_assoc.
    + rewrite IH by done. by rewrite <- app_assoc.
Qed.

Lemma as_list_from_no_zero (acc : list Z) (a : ClauseArray.t) :
  Forall (λ v, v ≠ 0) acc →
  Forall (Forall (λ v, v ≠ 0)) (ClauseArray.as_list_from acc a).
Proof.
  revert acc. induction a as [|v a IH]; intros acc Hacc; cbn; [done|].
  destruct (Z.eqb_spec v 0) as [->|Hv].
  - constructor; [done|]. by apply IH.
  - apply IH. apply Forall_app. split; [done|]. by constructor.
Qed.

(** X2 (clause array, decoding). Whatever the array holds, [as_list] yields
    as many clauses as [get_clause_count] counts and none of them contains
    a 0; when the array is empty or ends with a terminator, writing each
    yielded clause followed by a 0 gives the array back. *)
Theorem ClauseArray_as_list_encodes (self : ClauseArray.t) :
  length (ClauseArray.as_list self) = ClauseArray.get_clause_count self ∧
  Forall (Forall (λ v, v ≠ 0)) (ClauseArray.as_list self) ∧
  (terminated self →
   concat (map (λ c, c ++ [0]) (ClauseArray.as_list self)) =
     ClauseArray.as_array self).
Proof.
  split_and!.
  - apply as_list_from_count.
  - by apply as_list_from_no_zero.
  - intros Ht. destruct self as [|v a]; [done|].
    by apply (as_list_from_encode []).
Qed.

Lemma array_extend_failed (c : clause) (a a' : ClauseArray.t) :
  ClauseArray.array_extend c a = (a', false) →
  ∃ kept v rest, c = kept ++ v :: rest ∧ a' = a ++ kept ∧
    Forall (λ v, ClauseArray.int_fits v = true) kept ∧
    ClauseArray.int_fits v = false.
Proof.
  revert a. induction c as [|v c IH]; intros a; cbn; [done|].
  unfold ClauseArray.array_append.
  destruct (ClauseArray.int_fits v) eqn:Hv.
  - intros (kept & w & rest & -> & -> & Hk & Hw)%IH.
    exists (v :: kept), w, rest. rewrite <- app_assoc. split_and!; try done.
    by constructor.
  - intros [= <-]. exists [], v, c. by rewrite app_nil_r.
Qed.

(** X3 (clause array, failed append). When [_ClauseArray.append] raises
    because a literal does not fit a C int, the literals before it stay in
    the array without a terminator: [as_list] and [get_clause_count] still
    report the old clauses only, but the next clause appended is read back
    with those left-over literals in front of it. *)
Theorem ClauseArray_failed_append (c c2 : clause) (self a : ClauseArray.t) :
  terminated self → Forall (λ v, v ≠ 0) c → storable c2 →
  ClauseArray.append c self = (a, false) →
  ∃ kept v rest, c = kept ++ v :: rest ∧
    ClauseArray.int_fits v = false ∧
    ClauseArray.as_array a = ClauseArray.as_array self ++ kept ∧
    ClauseArray.as_list a = ClauseArray.as_list self ∧
    ClauseArray.get_clause_count a = ClauseArray.get_clause_count self ∧
    ∃ a2, ClauseArray.append c2 a = (a2, true) ∧
      ClauseArray.as_list a2 = ClauseArray.as_list self ++ [kept ++ c2].
Proof.
  intros Ht Hc Hc2. unfold ClauseArray.append at 1.
  destruct (ClauseArray.array_extend c self) as [a' ok] eqn:E.
  destruct ok; [unfold ClauseArray.array_append; cbn; done|].
  intros [= <-].
  apply array_extend_failed in E as (kept & v & rest & -> & -> & Hk & Hv).
  apply Forall_app in Hc as [Hkz _].
  assert (∀ b, ClauseArray.as_list_from [] (kept ++ b) =
               ClauseArray.as_list_from kept b) as Hkept.
  { intros b. by rewrite as_list_from_nonzero. }
  assert (ClauseArray.as_list (self ++ kept) = ClauseArray.as_list self) as Hl.
  { rewrite as_list_app_terminated by done. unfold ClauseArray.as_list at 2.
    rewrite <- (app_nil_r kept), Hkept. cbn. by rewrite app_nil_r. }
  exists kept, v, rest. split_and!; try done.
  - rewrite <- !(as_list_from_count []). exact (f_equal length Hl).
  - eexists. split; [by apply append_storable|].
    rewrite <- app_assoc. rewrite as_list_app_terminated by done. f_equal.
    unfold ClauseArray.as_list. rewrite Hkept.
    assert (Forall (λ v, v ≠ 0) c2) as Hc2z.
    { eapply Forall_impl; [exact Hc2|]. cbn. tauto. }
    rewrite as_list_from_nonzero by done. cbn. done.
Qed.

Lemma ClauseArray_failed_append_witness :
  ∃ kept v rest, [1; 2; TRUE; 3] = kept ++ v :: rest ∧
    ClauseArray.int_fits v = false ∧
    ClauseArray.as_array [5; 0; 1; 2] = ClauseArray.as_array [5; 0] ++ kept ∧
    ClauseArray.as_list [5; 0; 1; 2] = ClauseArray.as_list [5; 0] ∧
    ClauseArray.get_clause_count [5; 0; 1; 2] =
      ClauseArray.get_clause_count [5; 0] ∧
    ∃ a2, ClauseArray.append [4] [5; 0; 1; 2] = (a2, true) ∧
      ClauseArray.as_list a2 = ClauseArray.as_list [5; 0] ++ [kept ++ [4]].
Proof.
  apply (ClauseArray_failed_append [1; 2; TRUE; 3] [4] [5; 0] [5; 0; 1; 2]).
  - intros v Hv. vm_compute in Hv. by injection Hv as <-.
  - repeat constructor; done.
  - repeat constructor; done.
  - by vm_compute.
Defined.
(** * Further properties of the gates *)

(** [self.assign] applied to what a combinator returned. *)
Definition then_assign (r : value * Clauses) : value * Clauses :=
  let '(x, self) := assign r.1 r.2 in (Lit x, self).

Lemma add_clauses_nil d : add_clauses [] d = d.
Proof.
  destruct d. unfold add_clauses, set_clauses, ClauseList.extend. cbn.
  by rewrite app_nil_r.
Qed.

Ltac gate_assign :=
  match goal with
  | |- context [in_True_None ?p] => destruct p as [[|]|]
  end;
  cbn [in_True_None in_False_None];
  unfold then_assign, assign, new_var; cbn [fst snd map];
  rewrite ?add_clauses_nil; reflexivity.

Lemma And_then_assign f g polarity d :
  And f g polarity true d = then_assign (And f g polarity false d).
Proof.
  unfold And. case_eqb; try reflexivity. destruct (g <? f); gate_assign.
Qed.

Lemma Or_then_assign f g polarity d :
  Or f g polarity true d = then_assign (Or f g polarity false d).
Proof.
  unfold Or. case_eqb; try reflexivity. destruct (g <? f); gate_assign.
Qed.

Lemma Xor_then_assign f g polarity d :
  Xor f g polarity true d = then_assign (Xor f g polarity false d).
Proof.
  unfold Xor. case_eqb; try reflexivity. destruct (g <? f); gate_assign.
Qed.

Lemma ITE_then_assign c t f polarity d :
  ITE c t f polarity true d = then_assign (ITE c t f polarity false d).
Proof.
  unfold ITE.
  case_eqb; try reflexivity;
    try apply And_then_assign; try apply Or_then_assign;
    try apply Xor_then_assign.
  destruct (t <? f); gate_assign.
Qed.

(** X4 (gates, [add_new_clauses]). For each of [And], [Or], [Xor] and
    [ITE], on all arguments, polarities and drivers, the call with
    [add_new_clauses=True] returns the literal and leaves the driver that
    [assign] gives on the result of the same call with
    [add_new_clauses=False]: the same variable is allocated and the same
    clauses are appended in the same order. *)
Theorem gates_add_new_clauses (c f g : Z) (polarity : option bool)
    (d : Clauses) :
  And f g polarity true d = then_assign (And f g polarity false d)
  ∧ Or f g polarity true d = then_assign (Or f g polarity false d)
  ∧ Xor f g polarity true d = then_assign (Xor f g polarity false d)
  ∧ ITE c f g polarity true d = then_assign (ITE c f g polarity false d).
Proof.
  split_and!;
    [apply And_then_assign | apply Or_then_assign | apply Xor_then_assign
    | apply ITE_then_assign].
Qed.

(** X5 (gates, soundness). For nonzero literals and a driver with
    [0 ≤ m], each of [And], [Or], [Xor] and [ITE] called with
    [add_new_clauses=True] returns a nonzero literal and only appends
    clauses; in every model of the appended clauses the literal stands for
    the conjunction, disjunction, exclusive or, or if-then-else of its
    arguments, in the directions the polarity asks for (both for
    [None]). *)
Theorem gates_sound (c f g : Z) (polarity : option bool) (d : Clauses) :
  c ≠ 0 → f ≠ 0 → g ≠ 0 → 0 ≤ m d →
  gate_ok polarity d (And f g polarity true d)
    (λ M, lit_true M f && lit_true M g)
  ∧ gate_ok polarity d (Or f g polarity true d)
      (λ M, lit_true M f || lit_true M g)
  ∧ gate_ok polarity d (Xor f g polarity true d)
      (λ M, xorb (lit_true M f) (lit_true M g))
  ∧ gate_ok polarity d (ITE c f g polarity true d)
      (λ M, if lit_true M c then lit_true M f else lit_true M g).
Proof.
  intros Hc Hf Hg Hm. split_and!;
    [by apply And_ok | by apply Or_ok | by apply Xor_ok | by apply ITE_ok].
Qed.

Lemma gates_sound_witness :
  gate_ok None (Clauses_init 3) (And 1 (-2) None true (Clauses_init 3))
    (λ M, lit_true M 1 && lit_true M (-2))
  ∧ gate_ok None (Clauses_init 3) (Or 1 (-2) None true (Clauses_init 3))
      (λ M, lit_true M 1 || lit_true M (-2))
  ∧ gate_ok None (Clauses_init 3) (Xor 1 (-2) None true (Clauses_init 3))
      (λ M, xorb (lit_true M 1) (lit_true M (-2)))
  ∧ gate_ok None (Clauses_init 3) (ITE 3 1 (-2) None true (Clauses_init 3))
      (λ M, if lit_true M 3 then lit_true M 1 else lit_true M (-2)).
Proof.
  apply (gates_sound 3 1 (-2) None (Clauses_init 3)); cbn; lia.
Defined.

(** X6 (gates, no over-constraint). For arguments that are sentinels or
    literals over the variables [1..m] of the driver, each of [And], [Or],
    [Xor] and [ITE] called with [add_new_clauses=True] returns a sentinel
    or a literal over the variables of the new driver, and, as long as [m]
    stays below the sentinel, the appended clauses mention those variables
    only and every assignment of the old variables extends to a model of
    them: the call excludes no solution. *)
Theorem gates_conservative (c f g : Z) (polarity : option bool)
    (d : Clauses) :
  0 ≤ m d → lit_in (m d) c → lit_in (m d) f → lit_in (m d) g →
  gate_definable d (And f g polarity true d)
  ∧ gate_definable d (Or f g polarity true d)
  ∧ gate_definable d (Xor f g polarity true d)
  ∧ gate_definable d (ITE c f g polarity true d).
Proof.
  intros Hm Hc Hf Hg. split_and!;
    [ by apply And_definable | by apply Or_definable
    | by apply Xor_definable | by apply ITE_definable ].
Qed.

Lemma gates_conservative_witness :
  gate_definable (Clauses_init 3) (And 1 (-2) None true (Clauses_init 3))
  ∧ gate_definable (Clauses_init 3) (Or 1 (-2) None true (Clauses_init 3))
  ∧ gate_definable (Clauses_init 3) (Xor 1 (-2) None true (Clauses_init 3))
  ∧ gate_definable (Clauses_init 3)
      (ITE 3 1 (-2) None true (Clauses_init 3)).
Proof.
  apply (gates_conservative 3 1 (-2) None (Clauses_init 3));
    [cbn; lia|..]; right; right; unfold in_scope; cbn; lia.
Defined.

(** * What [Require] and [Prevent] add *)

(** A returned value is exactly the condition [e]: a literal has the
    truth value of [e]; of a deferred pair, the positive clauses hold
    exactly when [e] does and the negative ones exactly when it does not,
    the list that the polarity does not ask for being empty. *)
Definition value_exact (polarity : option bool) (M : Z → bool) (v : value)
    (e : bool) : Prop :=
  match v with
  | Lit r => r ≠ 0 ∧ lit_true M r = e
  | Deferred pval nval =>
      (if in_True_None polarity then models M pval ↔ e = true
       else pval = [])
      ∧ (if in_False_None polarity then models M nval ↔ e = false
         else nval = [])
  end.

Ltac exact_short :=
  split; [reflexivity|]; intros M; cbn [fst value_exact];
  split; [nz|]; lit_cases.

Ltac exact_deferred :=
  split; [reflexivity|]; intros M;
  match goal with
  | |- context [in_True_None ?p] => destruct p as [[|]|]
  end;
  cbn [fst value_exact in_True_None in_False_None];
  unfold models; cbn [forallb existsb clause_true];
  rewrite ?orb_false_r, ?andb_true_r;
  (split; [try reflexivity|try reflexivity]); lit_cases.


Lemma Or_exact f g polarity d :
  f ≠ 0 → g ≠ 0 →
  (Or f g polarity false d).2 = d
  ∧ ∀ M, value_exact polarity M (Or f g polarity false d).1
           (lit_true M f || lit_true M g).
Proof.
  intros Hf Hg. unfold Or. sentinel_facts.
  case_eqb; subst; try exact_short.
  destruct (g <? f); exact_deferred.
Qed.


Lemma value_exact_ext polarity M v e e' :
  e = e' → value_exact polarity M v e → value_exact polarity M v e'.
Proof. by intros ->. Qed.



Lemma models_one_clause M (vs : list Z) :
  models M [vs] ↔ ∃ v, v ∈ vs ∧ lit_true M v = true.
Proof.
  rewrite models_cons, clause_true_iff. split; [tauto|].
  intros ?. split; [done|apply models_nil].
Qed.

Lemma all_or_ex {A} (p : A → bool) (l : list A) :
  (∀ x, x ∈ l → p x = true) ∨ (∃ x, x ∈ l ∧ p x = false).
Proof.
  induction l as [|a l [IH|(x & Hx & Hp)]].
  - left. by intros ? ?%elem_of_nil.
  - destruct (p a) eqn:Ha.
    + left. by intros x [->|Hx]%elem_of_cons; auto.
    + right. exists a. split; [left|done].
  - right. exists x. split; [by right|done].
Qed.


Lemma Any_scan_exact (iter : list Z) : ∀ (vals : gset Z),
  Forall (λ l, l ≠ 0) iter → (∀ v, v ∈ vals → v ≠ 0) →
  match Any_scan iter vals with
  | None =>
      ∀ M, (∀ v, v ∈ vals → lit_true M v = false) →
           existsb (lit_true M) iter = true
  | Some vals' =>
      (∀ v, v ∈ vals' → v ≠ 0)
      ∧ ∀ M, (∀ v, v ∈ vals' → lit_true M v = false)
             ↔ (∀ v, v ∈ vals → lit_true M v = false)
               ∧ existsb (lit_true M) iter = false
  end.
Proof.
  induction iter as [|v iter IH]; intros vals Hiter Hvals; cbn.
  { split; [done|]. intros M. tauto. }
  apply Forall_cons in Hiter as [Hv Hiter].
  destruct (Z.eqb_spec v FALSE) as [->|HF].
  { specialize (IH vals Hiter Hvals).
    destruct (Any_scan iter vals) as [vals'|]; cbn in *.
    - destruct IH as [Hnz IH]. split; [done|]. intros M.
      by rewrite lit_true_FALSE.
    - intros M HM. rewrite lit_true_FALSE. by apply IH. }
  destruct (Z.eqb_spec v TRUE) as [->|HT]; cbn.
  { intros M _. by rewrite lit_true_TRUE. }
  destruct (decide (- v ∈ vals)) as [Hin|Hnin].
  { rewrite bool_decide_eq_true_2 by done. cbn. intros M HM.
    specialize (HM _ Hin). rewrite lit_true_opp in HM by done.
    by destruct (lit_true M v). }
  rewrite bool_decide_eq_false_2 by done.
  assert (∀ w, w ∈ ({[v]} ∪ vals : gset Z) → w ≠ 0) as Hvals'.
  { intros w [->%elem_of_singleton|Hw]%elem_of_union; auto. }
  specialize (IH ({[v]} ∪ vals) Hiter Hvals').
  destruct (Any_scan iter ({[v]} ∪ vals)) as [vals'|]; cbn in *.
  - destruct IH as [Hnz IH]. split; [done|]. intros M. rewrite IH.
    rewrite orb_false_iff. split.
    + intros [HM Hrest]. split_and!; [|apply HM|done]; set_solver.
    + intros [HM [Hvt Hrest]]. split; [|done].
      intros w [->%elem_of_singleton|Hw]%elem_of_union; auto.
  - intros M HM. destruct (lit_true M v) eqn:Hvt; [done|]. cbn.
    apply IH. intros w [->%elem_of_singleton|Hw]%elem_of_union; auto.
Qed.

Lemma models_neg_units M (vs : list Z) :
  (∀ v, v ∈ vs → v ≠ 0) →
  models M (map (λ v, [- v]) vs) ↔ ∀ v, v ∈ vs → lit_true M v = false.
Proof.
  induction vs as [|v vs IH]; intros Hnz; cbn [map].
  - split; [by intros ? ? ?%elem_of_nil|done].
  - rewrite models_cons, IH by (intros; apply Hnz; by right).
    cbn. rewrite orb_false_r, lit_true_opp by (apply Hnz; left).
    rewrite negb_true_iff. split.
    + intros [Hv Hvs] w [->|Hw]%elem_of_cons; auto.
    + intros H. split; [apply H; left|intros w Hw; apply H; by right].
Qed.

Lemma Any_exact iter polarity d :
  Forall (λ l, l ≠ 0) iter →
  (Any iter polarity d).2 = d
  ∧ ∀ M, value_exact polarity M (Any iter polarity d).1
           (existsb (lit_true M) iter).
Proof.
  intros Hiter. split; [apply Any_same_driver|]. intros M.
  unfold Any.
  pose proof (Any_scan_exact iter ∅ Hiter) as H.
  destruct (Any_scan iter ∅) as [vals|]; cbn [fst snd] in *.
  2:{ cbn. split; [apply TRUE_nz|]. rewrite lit_true_TRUE.
      symmetry. apply H; set_solver. }
  destruct H as [Hnz H]; [set_solver|].
  assert (existsb (lit_true M) iter = false
          ↔ ∀ v, v ∈ elements vals → lit_true M v = false) as Hall.
  { setoid_rewrite elem_of_elements. rewrite H. set_solver. }
  assert (∀ v, v ∈ elements vals → v ≠ 0) as Hnz'.
  { intros v Hv%elem_of_elements. by apply Hnz. }
  destruct (elements vals) as [|v [|w vs]]; cbn [fst value_exact].
  - split; [apply FALSE_nz|]. rewrite lit_true_FALSE. symmetry.
    apply Hall. by intros ? ?%elem_of_nil.
  - split; [apply Hnz'; left|].
    apply Bool.eq_true_iff_eq. rewrite <- !not_false_iff_true, Hall.
    split.
    + intros Hv Hno. apply Hv, Hno. left.
    + intros Hv Hvf. apply Hv. by intros ? ->%list_elem_of_singleton.
  - destruct polarity as [[|]|]; cbn [in_True_None in_False_None];
      (split; [try done|try done]).
    all: try by rewrite models_neg_units.
    all: rewrite models_one_clause, <- not_false_iff_true, Hall.
    all: split.
    all: try (intros (x & Hx & Hxt) Hno; by rewrite (Hno x Hx) in Hxt).
    all: intros Hne;
      destruct (all_or_ex (λ x, negb (lit_true M x)) (v :: w :: vs))
        as [Hyes|(x & Hx & Hxf)];
      [ exfalso; apply Hne; intros x Hx; specialize (Hyes x Hx);
        by apply negb_true_iff in Hyes
      | exists x; split; [done|]; by apply negb_false_iff in Hxf ].
Qed.

(** [constrains polarity d res sem]: the call of [Eval] returned, changed
    neither [m] nor the record of backend runs and only appended clauses,
    over the variables already there; either the flag [unsat] is as before
    and the appended clauses hold in exactly the assignments in which the
    condition [sem] has the value [polarity], or no assignment gives [sem]
    that value, nothing was appended and [unsat] is set. *)
Definition constrains (polarity : bool) (d : Clauses) (res : option Clauses)
    (sem : (Z → bool) → bool) : Prop :=
  ∃ F d',
    res = Some d' ∧ _clauses d' = _clauses d ++ F ∧ m d' = m d
    ∧ backend_runs d' = backend_runs d
    ∧ ((unsat d' = unsat d ∧ ∀ M, models M F ↔ sem M = polarity)
       ∨ (unsat d' = true ∧ F = [] ∧ ∀ M, sem M = negb polarity)).

Lemma Eval_exact (func : combinator) (polarity : bool) (d : Clauses)
    (sem : (Z → bool) → bool) (v : value) :
  func (Some polarity) d = Some (v, d) →
  (∀ M, value_exact (Some polarity) M v (sem M)) →
  constrains polarity d (Eval_ func polarity d) sem.
Proof.
  intros Hf Hv. rewrite (Eval_unfold _ _ _ _ _ Hf). sentinel_facts.
  destruct v as [r|pval nval].
  - destruct (Z.eqb_spec r TRUE) as [->|HT]; cbn [orb negb].
    { rewrite restore_save.
      assert (∀ M, sem M = true) as Hs.
      { intros M. destruct (Hv M) as [_ <-]. apply lit_true_TRUE. }
      exists [], (set_unsat (unsat d || negb (eqb true polarity)) d).
      rewrite app_nil_r. split_and!; try done.
      destruct polarity; cbn.
      - left. rewrite orb_false_r. split; [done|]. intros M.
        rewrite Hs. split; [done|]. intros _. apply models_nil.
      - right. by rewrite orb_true_r. }
    destruct (Z.eqb_spec r FALSE) as [->|HF]; cbn [orb negb].
    { rewrite restore_save.
      assert (∀ M, sem M = false) as Hs.
      { intros M. destruct (Hv M) as [_ <-]. apply lit_true_FALSE. }
      exists [], (set_unsat (unsat d || negb (eqb false polarity)) d).
      rewrite app_nil_r. split_and!; try done.
      destruct polarity; cbn.
      - right. by rewrite orb_true_r.
      - left. rewrite orb_false_r. split; [done|]. intros M.
        rewrite Hs. split; [done|]. intros _. apply models_nil. }
    eexists [[if polarity then r else - r]], _.
    split; [reflexivity|]. split_and!; try done.
    left. split; [done|]. intros M. destruct (Hv M) as [Hr <-].
    rewrite models_cons. cbn. rewrite orb_false_r.
    destruct polarity; [|rewrite lit_true_opp by done];
      destruct (lit_true M r); cbn; split; try done;
      try (by intros [? _]); intros _; split; try done; apply models_nil.
  - eexists (pval ++ nval), _. split; [reflexivity|].
    split_and!; try done.
    { cbn. unfold ClauseList.extend. by rewrite app_assoc. }
    left. split; [done|]. intros M. destruct (Hv M) as [Hp Hn].
    destruct polarity; cbn in Hp, Hn.
    + subst nval. by rewrite app_nil_r.
    + by subst pval.
Qed.


(** * The pairwise encodings [AtMostOne_NSQ] and [ExactlyOne_NSQ] *)

(** The number of literals of [vals] that are true. *)
Definition count_true (M : Z → bool) (vals : list Z) : nat :=
  length (List.filter (lit_true M) vals).

(** A literal of a variable: neither 0 nor a sentinel. *)
Definition proper (v : Z) : Prop := v ≠ 0 ∧ Z.abs v ≠ TRUE.

Lemma Or_is_tuple f g polarity d :
  Z.abs f ≠ TRUE → Z.abs g ≠ TRUE → Z.abs f ≠ Z.abs g →
  is_tuple (Or f g polarity false d).1 = true.
Proof.
  intros Hf Hg Hfg. unfold Or. sentinel_facts.
  case_eqb; try lia. by destruct (g <? f).
Qed.

Lemma combinations2_elem {A} (l : list A) x y :
  (x, y) ∈ combinations2 l →
  ∃ l1 l2, l = l1 ++ x :: l2 ∧ y ∈ l2.
Proof.
  induction l as [|a l IH]; cbn; [by intros ?%elem_of_nil|].
  intros [Hin|Hin]%elem_of_app.
  - apply list_elem_of_fmap in Hin as (z & [= -> ->] & Hz).
    by exists [], l.
  - destruct (IH Hin) as (l1 & l2 & -> & Hy). by exists (a :: l1), l2.
Qed.

Lemma combinations2_distinct (vals : list Z) x y :
  NoDup (map Z.abs vals) → Forall proper vals →
  (x, y) ∈ combinations2 (map Not vals) →
  proper x ∧ proper y ∧ Z.abs x ≠ Z.abs y.
Proof.
  intros Hnd Hp (l1 & l2 & Hl & Hy)%combinations2_elem.
  assert (Forall proper (map Not vals)) as Hp'.
  { apply Forall_fmap. eapply Forall_impl; [exact Hp|].
    intros v [? ?]. unfold proper, Not. cbn. split; lia. }
  assert (NoDup (map Z.abs (map Not vals))) as Hnd'.
  { rewrite <- list_fmap_compose.
    erewrite (list_fmap_ext _ Z.abs); [exact Hnd|].
    intros _ v _. cbn. unfold Not. lia. }
  rewrite Hl in Hp', Hnd'.
  apply Forall_app in Hp' as [_ [Hx Hl2]%Forall_cons].
  rewrite fmap_app, fmap_cons in Hnd'.
  apply NoDup_app in Hnd' as (_ & _ & [Hnin _]%NoDup_cons).
  split_and!; [done|by eapply Forall_forall in Hl2|].
  intros Heq. apply Hnin. rewrite Heq. by apply list_elem_of_fmap_2.
Qed.

Lemma Or_each_exact pairs polarity d :
  Forall (λ p : Z * Z, proper p.1 ∧ proper p.2 ∧ Z.abs p.1 ≠ Z.abs p.2)
    pairs →
  (Or_each pairs polarity d).2 = d
  ∧ Forall2 (λ (p : Z * Z) v,
       is_tuple v = true
       ∧ ∀ M, value_exact polarity M v (lit_true M p.1 || lit_true M p.2))
      pairs (Or_each pairs polarity d).1.
Proof.
  induction pairs as [|[x y] pairs IH]; intros Hp; cbn; [by split|].
  apply Forall_cons in Hp as [([Hx Hx'] & [Hy Hy'] & Hxy) Hp]. cbn in *.
  destruct (Or_exact x y polarity d Hx Hy) as [Hd Hv].
  pose proof (Or_is_tuple x y polarity d Hx' Hy' Hxy) as Ht.
  destruct (Or x y polarity false d) as [v d1]. cbn in *. subst d1.
  destruct (IH Hp) as [Hd' Hrest].
  destruct (Or_each pairs polarity d) as [combos d2]. cbn in *.
  split; [done|]. by constructor.
Qed.

(** When [Combine] neither allocates a variable nor emits a clause: some
    argument is [FALSE], or the arguments other than [TRUE] are at most
    one, or all of them deferred pairs. *)
Definition Combine_pure (args : list value) : bool :=
  existsb (value_is FALSE) args
  || (let rest := List.filter (λ v, negb (value_is TRUE v)) args in
      (length rest <=? 1)%nat || forallb is_tuple rest).

Lemma Combine_filter_exact polarity (args : list value)
    (es : list ((Z → bool) → bool)) :
  Forall2 (λ v e, ∀ M, value_exact polarity M v (e M)) args es →
  ∃ es',
    Forall2 (λ v e, ∀ M, value_exact polarity M v (e M))
      (List.filter (λ v, negb (value_is TRUE v)) args) es'
    ∧ ∀ M, forallb (λ e, e M) es = forallb (λ e, e M) es'.
Proof.
  induction 1 as [|v e args es Hv Hrest (es' & IH & Heq)]; cbn.
  { by exists []. }
  destruct (value_is TRUE v) eqn:E; cbn.
  - exists es'. split; [done|]. intros M. rewrite <- Heq.
    destruct v as [r|]; [|done]. cbn in E.
    apply Z.eqb_eq in E as ->. destruct (Hv M) as [_ <-].
    by rewrite lit_true_TRUE.
  - exists (e :: es'). split; [by constructor|]. intros M. cbn.
    by rewrite Heq.
Qed.

Lemma Combine_tuples_exact (rest : list value)
    (es : list ((Z → bool) → bool)) :
  Forall2 (λ v e, ∀ M, value_exact (Some true) M v (e M)) rest es →
  forallb is_tuple rest = true →
  concat (map value_nval rest) = []
  ∧ ∀ M, models M (concat (map value_pval rest))
         ↔ forallb (λ e, e M) es = true.
Proof.
  induction 1 as [|v e rest es Hv Hrest IH]; cbn; [done|].
  intros [Ht Hts]%andb_true_iff. destruct (IH Hts) as [Hn Hp].
  destruct v as [|pval nval]; [done|]. cbn in *.
  split.
  - destruct (Hv (λ _, true)) as [_ ->]. done.
  - intros M. rewrite models_app, andb_true_iff, Hp.
    destruct (Hv M) as [-> _]. done.
Qed.

Lemma Combine_exact (args : list value) (es : list ((Z → bool) → bool)) d :
  Combine_pure args = true →
  Forall2 (λ v e, ∀ M, value_exact (Some true) M v (e M)) args es →
  (Combine args (Some true) d).2 = d
  ∧ ∀ M, value_exact (Some true) M (Combine args (Some true) d).1
           (forallb (λ e, e M) es).
Proof.
  intros Hpure Hargs. unfold Combine, Combine_pure in *.
  destruct (existsb (value_is FALSE) args) eqn:EF.
  { split; [done|]. intros M. cbn. split; [apply FALSE_nz|].
    rewrite lit_true_FALSE. symmetry.
    apply existsb_exists in EF as (v & Hin & Hv).
    destruct v as [r|]; [|done]. cbn in Hv. apply Z.eqb_eq in Hv as ->.
    apply list_elem_of_In, list_elem_of_lookup in Hin as [i Hi].
    destruct (Forall2_lookup_l _ _ _ _ _ Hargs Hi) as (e & He & Hex).
    apply not_true_iff_false. intros Hall.
    rewrite forallb_forall in Hall.
    specialize (Hall e). rewrite <- list_elem_of_In in Hall.
    specialize (Hall (list_elem_of_lookup_2 _ _ _ He)).
    destruct (Hex M) as [_ Hx]. rewrite lit_true_FALSE in Hx. congruence. }
  cbn [orb] in Hpure.
  destruct (Combine_filter_exact _ _ _ Hargs) as (es' & Hrest & Heq).
  destruct (List.filter _ args) as [|v [|w rest]] eqn:Efil.
  - split; [done|]. intros M. cbn. split; [apply TRUE_nz|].
    rewrite lit_true_TRUE, Heq. by inversion Hrest.
  - split; [done|]. intros M. cbn [fst]. rewrite Heq.
    inversion Hrest as [|? e ? ? Hv Hnil]; subst. inversion Hnil; subst.
    cbn. rewrite andb_true_r. apply Hv.
  - cbn [length Nat.leb orb] in Hpure. rewrite Hpure.
    split; [done|]. intros M. cbn [fst value_exact in_True_None
      in_False_None].
    destruct (Combine_tuples_exact _ _ Hrest Hpure) as [Hn Hp].
    split; [|done]. by rewrite Hp, Heq.
Qed.

Lemma count_true_cons M a l :
  count_true M (a :: l)
  = ((if lit_true M a then 1 else 0) + count_true M l)%nat.
Proof. unfold count_true. cbn. by destruct (lit_true M a). Qed.

Lemma count_true_zero M l :
  count_true M l = 0%nat ↔ ∀ y, y ∈ l → lit_true M y = false.
Proof.
  induction l as [|a l IH].
  - split; [by intros _ ? ?%elem_of_nil|done].
  - rewrite count_true_cons. split.
    + intros H y [->|Hy]%elem_of_cons.
      * by destruct (lit_true M a).
      * apply IH; [|done]. destruct (lit_true M a); [done|lia].
    + intros H. rewrite (H a) by left. apply IH.
      intros y Hy. apply H. by right.
Qed.

Lemma existsb_count_true M l :
  existsb (lit_true M) l = (0 <? count_true M l)%nat.
Proof.
  induction l as [|a l IH]; [done|]. rewrite count_true_cons. cbn.
  rewrite IH. by destruct (lit_true M a).
Qed.

Lemma forallb_fmap {A B} (f : A → B) (p : B → bool) (l : list A) :
  forallb p (map f l) = forallb (λ a, p (f a)) l.
Proof. induction l as [|a l IH]; cbn; [done|]. by rewrite IH. Qed.

Lemma existsb_fmap {A B} (f : A → B) (p : B → bool) (l : list A) :
  existsb p (map f l) = existsb (λ a, p (f a)) l.
Proof. induction l as [|a l IH]; cbn; [done|]. by rewrite IH. Qed.

Lemma pairs_true_at_most_one M (vals : list Z) :
  Forall (λ v, v ≠ 0) vals →
  forallb (λ p : Z * Z, lit_true M p.1 || lit_true M p.2)
    (combinations2 (map Not vals))
  = (count_true M vals <=? 1)%nat.
Proof.
  induction vals as [|a l IH]; intros Hnz; [done|].
  apply Forall_cons in Hnz as [Ha Hl].
  cbn [map combinations2]. rewrite forallb_app, IH by done.
  rewrite count_true_cons. unfold Not at 1.
  rewrite !forallb_fmap. cbn [fst snd].
  rewrite lit_true_opp by done.
  assert (∀ y, y ∈ l → lit_true M (Not y) = negb (lit_true M y)) as Hopp.
  { intros y Hy. unfold Not. apply lit_true_opp.
    rewrite Forall_forall in Hl. by apply Hl. }
  destruct (lit_true M a) eqn:Eq; cbn [negb orb].
  - destruct (count_true M l) as [|n] eqn:Ec.
    + cbn. rewrite andb_true_r. apply forallb_forall.
      intros y Hy%list_elem_of_In. rewrite Hopp by done.
      rewrite count_true_zero in Ec. by rewrite Ec.
    + replace (1 + S n <=? 1)%nat with false by done.
      rewrite andb_false_iff. left. apply not_true_iff_false.
      intros Hall. rewrite forallb_forall in Hall.
      assert (count_true M l = 0%nat); [|lia].
      apply count_true_zero. intros y Hy.
      specialize (Hall y). rewrite <- list_elem_of_In in Hall.
      specialize (Hall Hy). rewrite Hopp in Hall by done.
      by apply negb_true_iff.
  - cbn. replace (forallb (λ _ : Z, true) l) with true; [done|].
    symmetry. by apply forallb_forall.
Qed.

Lemma pairs_false_all_true M (vals : list Z) :
  Forall (λ v, v ≠ 0) vals →
  existsb (λ p : Z * Z, lit_true M p.1 || lit_true M p.2)
    (combinations2 (map Not vals)) = false
  ↔ (length vals ≤ 1)%nat ∨ forallb (lit_true M) vals = true.
Proof.
  induction vals as [|a l IH]; intros Hnz; [cbn; split; [left; lia|done]|].
  apply Forall_cons in Hnz as [Ha Hl].
  cbn [map combinations2 forallb length].
  rewrite existsb_app, orb_false_iff, IH by done.
  unfold Not at 1. rewrite !existsb_fmap. cbn [fst snd].
  rewrite lit_true_opp by done.
  assert (existsb (λ y, negb (lit_true M a) || lit_true M (Not y)) l = false
          ↔ l = [] ∨ (lit_true M a = true ∧ forallb (lit_true M) l = true))
    as ->.
  { destruct l as [|b l]; [cbn; tauto|].
    rewrite <- not_true_iff_false, existsb_exists. split.
    - intros Hno. right. split.
      + destruct (lit_true M a) eqn:E; [done|]. exfalso. apply Hno.
        exists b. split; [by left|done].
      + apply forallb_forall. intros y Hy.
        destruct (lit_true M y) eqn:E; [done|]. exfalso. apply Hno.
        exists y. split; [done|]. unfold Not. rewrite lit_true_opp.
        * rewrite E. apply orb_true_r.
        * rewrite Forall_forall in Hl. by apply Hl, list_elem_of_In.
    - intros [?|[Hat Hall]]; [done|]. intros (y & Hy & Ht).
      rewrite Hat in Ht. cbn in Ht. unfold Not in Ht.
      rewrite lit_true_opp in Ht
        by (rewrite Forall_forall in Hl; by apply Hl, list_elem_of_In).
      rewrite forallb_forall in Hall. rewrite (Hall y Hy) in Ht. done. }
  rewrite andb_true_iff. destruct l as [|b l]; cbn [length].
  - split; [left; lia|]. intros _. split; left; [done|lia].
  - split.
    + intros [[?|[? ?]] _]; [done|]. by right.
    + intros [?|[? ?]]; [lia|]. split; right; done.
Qed.

Lemma combinations2_nil {A} (l : list A) :
  combinations2 l = [] ↔ (length l ≤ 1)%nat.
Proof.
  destruct l as [|a [|b l]]; cbn; [split; [lia|done]..|].
  split; [done|lia].
Qed.

(** [AtMostOne_NSQ] on literals of distinct variables: the pairwise
    disjunctions, all deferred. *)
Lemma AtMostOne_NSQ_combos (vals : list Z) polarity d :
  NoDup (map Z.abs vals) → Forall proper vals →
  ∃ combos,
    AtMostOne_NSQ vals polarity d = Combine combos polarity d
    ∧ forallb is_tuple combos = true
    ∧ length combos = length (combinations2 (map Not vals))
    ∧ Forall2 (λ (p : Z * Z) v,
         ∀ M, value_exact polarity M v (lit_true M p.1 || lit_true M p.2))
        (combinations2 (map Not vals)) combos.
Proof.
  intros Hnd Hp. unfold AtMostOne_NSQ.
  destruct (Or_each_exact (combinations2 (map Not vals)) polarity d)
    as [Hd HF].
  { apply Forall_forall. intros [x y] Hin.
    by apply (combinations2_distinct vals). }
  destruct (Or_each _ polarity d) as [combos d1]. cbn in *. subst d1.
  exists combos. split_and!; [done| | |].
  - apply forallb_forall. intros v Hv%list_elem_of_In.
    apply list_elem_of_lookup in Hv as [i Hi].
    by destruct (Forall2_lookup_r _ _ _ _ _ HF Hi) as (p & _ & ? & _).
  - symmetry. by eapply Forall2_length.
  - eapply Forall2_impl; [exact HF|]. by intros ? ? [_ ?].
Qed.

Lemma forallb_tuple_not_sentinel (c : Z) (combos : list value) :
  forallb is_tuple combos = true → existsb (value_is c) combos = false.
Proof.
  intros H. apply not_true_iff_false.
  intros (v & Hin & Hv)%existsb_exists. rewrite forallb_forall in H.
  specialize (H v Hin). by destruct v.
Qed.

Lemma filter_tuples (combos : list value) :
  forallb is_tuple combos = true →
  List.filter (λ v, negb (value_is TRUE v)) combos = combos.
Proof.
  induction combos as [|v combos IH]; cbn; [done|].
  intros [Hv Hrest]%andb_true_iff. destruct v; [done|]. cbn.
  by rewrite IH.
Qed.

Lemma Combine_pure_tuples (combos : list value) :
  forallb is_tuple combos = true → Combine_pure combos = true.
Proof.
  intros H. unfold Combine_pure.
  rewrite forallb_tuple_not_sentinel, filter_tuples, H by done.
  cbn. apply orb_true_r.
Qed.

Lemma forallb_Forall2_sem {A B} (P : A → (Z → bool) → bool)
    (l : list A) (k : list B) (R : B → ((Z → bool) → bool) → Prop) :
  Forall2 (λ a b, R b (P a)) l k → Forall2 R k (map P l).
Proof. induction 1; cbn; by constructor. Qed.

Lemma Combine_tuples_shape (combos : list value) polarity d :
  forallb is_tuple combos = true →
  (combos = [] → (Combine combos polarity d).1 = Lit TRUE)
  ∧ (combos ≠ [] → is_tuple (Combine combos polarity d).1 = true).
Proof.
  intros H. unfold Combine.
  rewrite forallb_tuple_not_sentinel, filter_tuples by done.
  destruct combos as [|v [|w combos]]; cbn [fst].
  - done.
  - split; [done|]. intros _. cbn in H. by rewrite andb_true_r in H.
  - rewrite H. done.
Qed.

Lemma AtMostOne_NSQ_exact (vals : list Z) d :
  NoDup (map Z.abs vals) → Forall proper vals →
  (AtMostOne_NSQ vals (Some true) d).2 = d
  ∧ (∀ M, value_exact (Some true) M (AtMostOne_NSQ vals (Some true) d).1
            (count_true M vals <=? 1)%nat)
  ∧ ((length vals ≤ 1)%nat →
     (AtMostOne_NSQ vals (Some true) d).1 = Lit TRUE)
  ∧ ((2 ≤ length vals)%nat →
     is_tuple (AtMostOne_NSQ vals (Some true) d).1 = true).
Proof.
  intros Hnd Hp.
  destruct (AtMostOne_NSQ_combos vals (Some true) d Hnd Hp)
    as (combos & -> & Ht & Hlen & HF).
  destruct (Combine_exact combos
              (map (λ (p : Z * Z) M, lit_true M p.1 || lit_true M p.2)
                 (combinations2 (map Not vals))) d) as [Hd Hv].
  { by apply Combine_pure_tuples. }
  { by apply (forallb_Forall2_sem
                (λ (p : Z * Z) M, lit_true M p.1 || lit_true M p.2)). }
  destruct (Combine_tuples_shape combos (Some true) d Ht) as [Hnil Hcons].
  assert (combos = [] ↔ (length vals ≤ 1)%nat) as Hiff.
  { rewrite <- (length_map Not vals), <- combinations2_nil.
    rewrite <- !length_zero_iff_nil. by rewrite Hlen. }
  split_and!; [done| | |].
  - intros M. eapply value_exact_ext; [|apply Hv].
    rewrite forallb_fmap. apply pairs_true_at_most_one.
    eapply Forall_impl; [exact Hp|]. by intros ? [? _].
  - intros Hle. by apply Hnil, Hiff.
  - intros Hge. apply Hcons. rewrite Hiff. lia.
Qed.

Lemma Any_shape (vals : list Z) polarity d :
  NoDup (map Z.abs vals) → Forall proper vals →
  match vals with
  | [] => (Any vals polarity d).1 = Lit FALSE
  | [v] => (Any vals polarity d).1 = Lit v
  | _ => is_tuple (Any vals polarity d).1 = true
  end.
Proof.
  intros Hnd Hp.
  destruct (Any_distinct vals polarity d) as (vs & Hperm & ->); [|done|].
  { eapply Forall_impl; [exact Hp|]. by intros ? [_ ?]. }
  destruct vals as [|v [|w vals]].
  - by apply Permutation_nil_r in Hperm as ->.
  - by apply Permutation_singleton_r in Hperm as ->.
  - apply Permutation_length in Hperm. by destruct vs as [|? [|? ?]].
Qed.

(** X8 ([Require] on the pairwise encodings). For literals of pairwise
    distinct variables (no sentinel, no 0), [Require(AtMostOne_NSQ, vals)]
    and [Require(ExactlyOne_NSQ, vals)] allocate no variable and append
    clauses that hold in exactly the assignments making at most one,
    respectively exactly one, of the literals true; [ExactlyOne_NSQ] of no
    literal sets [unsat]. *)
Theorem Require_NSQ_exact (vals : list Z) (d : Clauses) :
  NoDup (map Z.abs vals) → Forall proper vals →
  constrains true d (Require (run_call (Call_AtMostOne_NSQ vals)) d)
    (λ M, (count_true M vals <=? 1)%nat)
  ∧ constrains true d (Require (run_call (Call_ExactlyOne_NSQ vals)) d)
      (λ M, (count_true M vals =? 1)%nat).
Proof.
  intros Hnd Hp.
  destruct (AtMostOne_NSQ_exact vals d Hnd Hp) as (Hd & Hv & Hle & Hge).
  assert (Forall (λ v, v ≠ 0) vals) as Hnz.
  { eapply Forall_impl; [exact Hp|]. by intros ? [? _]. }
  destruct (Any_exact vals (Some true) d Hnz) as [Hd2 Hv2].
  pose proof (Any_shape vals (Some true) d Hnd Hp) as Hshape.
  split.
  - eapply Eval_exact; [|exact Hv]. cbn. f_equal.
    rewrite <- Hd at 3. by destruct (AtMostOne_NSQ _ _ _).
  - destruct (AtMostOne_NSQ vals (Some true) d) as [v1 d1] eqn:E1.
    destruct (Any vals (Some true) d) as [v2 d2] eqn:E2.
    cbn [fst snd] in *. subst d1 d2.
    destruct (Combine_exact [v1; v2]
                [λ M, (count_true M vals <=? 1)%nat;
                 λ M, existsb (lit_true M) vals] d) as [Hd3 Hv3].
    { unfold Combine_pure. sentinel_facts. destruct vals as [|a [|b vals]].
      - rewrite Hshape, Hle by (cbn; lia). cbn. case_eqb; try lia; done.
      - rewrite Hshape, Hle by (cbn; lia). cbn. case_eqb; try lia; done.
      - cbn in Hge. specialize (Hge ltac:(lia)).
        destruct v1, v2; try done. }
    { repeat constructor; done. }
    eapply (Eval_exact _ true d _ (Combine [v1; v2] (Some true) d).1).
    + cbn. unfold ExactlyOne_NSQ. rewrite E1, E2. f_equal.
      rewrite <- Hd3 at 3. by destruct (Combine _ _ _).
    + intros M. eapply value_exact_ext; [|apply Hv3]. cbn.
      rewrite andb_true_r, existsb_count_true.
      destruct (count_true M vals) as [|[|n]]; done.
Qed.

Lemma Require_NSQ_exact_witness :
  constrains true (Clauses_init 3)
    (Require (run_call (Call_AtMostOne_NSQ [1; -2; 3])) (Clauses_init 3))
    (λ M, Nat.leb (count_true M [1; -2; 3]) 1)
  ∧ constrains true (Clauses_init 3)
      (Require (run_call (Call_ExactlyOne_NSQ [1; -2; 3])) (Clauses_init 3))
      (λ M, Nat.eqb (count_true M [1; -2; 3]) 1).
Proof.
  apply (Require_NSQ_exact [1; -2; 3] (Clauses_init 3)).
  - apply (bool_decide_unpack _). by vm_compute.
  - repeat constructor; cbn; try lia; by apply (bool_decide_unpack _).
Defined.

Lemma Combine_tuples_neg (rest : list value)
    (es : list ((Z → bool) → bool)) :
  Forall2 (λ v e, ∀ M, value_exact (Some false) M v (e M)) rest es →
  forallb is_tuple rest = true →
  concat (map value_pval rest) = []
  ∧ ∀ M, models M (concat (map value_nval rest))
         ↔ existsb (λ e, e M) es = false.
Proof.
  induction 1 as [|v e rest es Hv Hrest IH]; cbn; [done|].
  intros [Ht Hts]%andb_true_iff. destruct (IH Hts) as [Hp Hn].
  destruct v as [|pval nval]; [done|]. cbn in *.
  split.
  - destruct (Hv (λ _, true)) as [-> _]. done.
  - intros M. rewrite models_app, orb_false_iff, Hn.
    destruct (Hv M) as [_ ->]. done.
Qed.

(** The value [AtMostOne_NSQ] returns under the negative polarity, for
    two literals or more: its negative clauses hold exactly when all the
    literals are true. *)
Lemma AtMostOne_NSQ_neg (vals : list Z) d :
  NoDup (map Z.abs vals) → Forall proper vals → (2 ≤ length vals)%nat →
  ∃ nval,
    AtMostOne_NSQ vals (Some false) d = (Deferred [] nval, d)
    ∧ ∀ M, models M nval ↔ forallb (lit_true M) vals = true.
Proof.
  intros Hnd Hp Hlen.
  destruct (AtMostOne_NSQ_combos vals (Some false) d Hnd Hp)
    as (combos & -> & Ht & Hlen' & HF).
  pose proof (forallb_Forall2_sem
                (λ (p : Z * Z) M, lit_true M p.1 || lit_true M p.2) _ _
                (λ v e, ∀ M, value_exact (Some false) M v (e M)) HF) as HF'.
  destruct (Combine_tuples_neg _ _ HF' Ht) as [Hpv Hnv].
  assert (Forall (λ v, v ≠ 0) vals) as Hnz.
  { eapply Forall_impl; [exact Hp|]. by intros ? [? _]. }
  assert (∀ M, existsb (λ e : (Z → bool) → bool, e M)
                 (map (λ (p : Z * Z) M, lit_true M p.1 || lit_true M p.2)
                    (combinations2 (map Not vals))) = false
               ↔ forallb (lit_true M) vals = true) as Hsem.
  { intros M. rewrite existsb_fmap, pairs_false_all_true by done.
    split; [intros [?|?]; [lia|done]|by right]. }
  unfold Combine.
  rewrite forallb_tuple_not_sentinel, filter_tuples by done.
  destruct combos as [|v [|w combos]].
  - exfalso. symmetry in Hlen'. apply length_zero_iff_nil in Hlen'.
    apply combinations2_nil in Hlen'. rewrite length_map in Hlen'. lia.
  - cbn in Hpv, Hnv. rewrite app_nil_r in Hpv.
    destruct v as [|pval nval]; [done|]. cbn in Hpv. subst pval.
    exists nval. split; [done|]. intros M. rewrite <- Hsem, <- Hnv. cbn.
    by rewrite app_nil_r.
  - rewrite Ht, Hpv. eexists. split; [reflexivity|].
    intros M. by rewrite Hnv, Hsem.
Qed.

(** An assignment that makes the first two of three literals of
    distinct variables true and the third false. *)
Definition two_of_three (a b c : Z) : Z → bool :=
  λ x, ((x =? Z.abs a) && (0 <? a)) || ((x =? Z.abs b) && (0 <? b))
       || ((x =? Z.abs c) && (c <? 0)).

Lemma lit_true_proper M l :
  proper l → lit_true M l = xorb (l <? 0) (M (Z.abs l)).
Proof.
  intros [Hl Hl']. sentinel_facts. unfold lit_true.
  destruct (Z.eqb_spec l TRUE); [lia|].
  destruct (Z.eqb_spec l FALSE); [lia|].
  destruct (Z.ltb_spec 0 l), (Z.ltb_spec l 0); try lia; cbn.
  - by rewrite Z.abs_eq by lia.
  - rewrite Z.abs_neq by lia. by destruct (M (- l)).
Qed.

Lemma two_of_three_spec (a b c : Z) :
  proper a → proper b → proper c →
  Z.abs a ≠ Z.abs b → Z.abs a ≠ Z.abs c → Z.abs b ≠ Z.abs c →
  lit_true (two_of_three a b c) a = true
  ∧ lit_true (two_of_three a b c) b = true
  ∧ lit_true (two_of_three a b c) c = false.
Proof.
  intros Ha Hb Hc Hab Hac Hbc.
  rewrite !lit_true_proper by done. unfold two_of_three.
  rewrite !Z.eqb_refl.
  destruct (Z.eqb_spec (Z.abs a) (Z.abs b)); [done|].
  destruct (Z.eqb_spec (Z.abs a) (Z.abs c)); [done|].
  destruct (Z.eqb_spec (Z.abs b) (Z.abs a)); [done|].
  destruct (Z.eqb_spec (Z.abs b) (Z.abs c)); [done|].
  destruct (Z.eqb_spec (Z.abs c) (Z.abs a)); [done|].
  destruct (Z.eqb_spec (Z.abs c) (Z.abs b)); [done|].
  cbn [andb orb]. rewrite !orb_false_r.
  destruct Ha as [Ha _], Hb as [Hb _], Hc as [Hc _].
  split_and!.
  - destruct (Z.ltb_spec a 0), (Z.ltb_spec 0 a); try done; lia.
  - destruct (Z.ltb_spec b 0), (Z.ltb_spec 0 b); try done; lia.
  - by destruct (c <? 0).
Qed.

(** X9 ([Prevent] on [AtMostOne_NSQ]). For two or more literals of
    pairwise distinct variables, [Prevent(AtMostOne_NSQ, vals)] appends,
    without allocating a variable, clauses that hold in exactly the
    assignments making every literal of [vals] true. From three literals
    on this is stricter than excluding the assignments with at most one
    true literal: some assignment makes two of them true and violates the
    appended clauses. *)
Theorem Prevent_AtMostOne_NSQ_all_true (vals : list Z) (d : Clauses) :
  NoDup (map Z.abs vals) → Forall proper vals → (2 ≤ length vals)%nat →
  ∃ F d',
    Prevent (run_call (Call_AtMostOne_NSQ vals)) d = Some d'
    ∧ _clauses d' = _clauses d ++ F ∧ m d' = m d ∧ unsat d' = unsat d
    ∧ (∀ M, models M F ↔ forallb (lit_true M) vals = true)
    ∧ ((3 ≤ length vals)%nat →
       ∃ M, (2 ≤ count_true M vals)%nat ∧ ¬ models M F).
Proof.
  intros Hnd Hp Hlen.
  destruct (AtMostOne_NSQ_neg vals d Hnd Hp Hlen) as (nval & HA & Hsem).
  exists nval, (add_clauses nval (add_clauses [] d)).
  split_and!; try done.
  - unfold Prevent.
    rewrite (Eval_unfold _ false d (Deferred [] nval) d); [done|].
    cbn. by rewrite HA.
  - cbn. unfold ClauseList.extend. by rewrite app_nil_r.
  - intros Hlen3. destruct vals as [|a [|b [|c vals]]]; cbn in Hlen3;
      try lia.
    apply Forall_cons in Hp as [Ha [Hb [Hc _]%Forall_cons]%Forall_cons].
    cbn in Hnd.
    apply NoDup_cons in Hnd as [Hna [Hnb _]%NoDup_cons].
    destruct (two_of_three_spec a b c) as (Hat & Hbt & Hcf); try done.
    { intros Heq. apply Hna. rewrite Heq. left. }
    { intros Heq. apply Hna. rewrite Heq. right. left. }
    { intros Heq. apply Hnb. rewrite Heq. left. }
    exists (two_of_three a b c). split.
    + rewrite !count_true_cons, Hat, Hbt. lia.
    + rewrite Hsem. cbn. by rewrite Hat, Hbt, Hcf.
Qed.

Lemma Prevent_AtMostOne_NSQ_all_true_witness :
  ∃ F d',
    Prevent (run_call (Call_AtMostOne_NSQ [1; -2; 3])) (Clauses_init 3)
      = Some d'
    ∧ _clauses d' = _clauses (Clauses_init 3) ++ F
    ∧ m d' = m (Clauses_init 3) ∧ unsat d' = unsat (Clauses_init 3)
    ∧ (∀ M, models M F ↔ forallb (lit_true M) [1; -2; 3] = true)
    ∧ ((3 ≤ 3)%nat →
       ∃ M, (2 ≤ count_true M (cons 1%Z (cons (-2)%Z (cons 3%Z nil))))%nat
            ∧ ¬ models M F).
Proof.
  apply (Prevent_AtMostOne_NSQ_all_true [1; -2; 3] (Clauses_init 3)).
  - apply (bool_decide_unpack _). by vm_compute.
  - repeat constructor; cbn; try lia; by apply (bool_decide_unpack _).
  - cbn. lia.
Defined.
(** * Further properties of the pseudo-boolean encoding *)

(** X10 ([LB_Preprocess], meaning). For nonzero literals, the
    preprocessed objective has the value of the given one in every
    assignment, up to the offset:
    [Σ coeffsᵢ·[litsᵢ] = offset + Σ coeffs'ᵢ·[lits'ᵢ]]; terms beyond the
    shorter of the two lists are ignored on both sides. *)
Theorem LB_Preprocess_preserves_sum (lits coeffs : list Z) (M : Z → bool) :
  Forall (λ l, l ≠ 0) lits →
  wsum M lits coeffs
  = (LB_Preprocess lits coeffs).2
    + wsum M (LB_Preprocess lits coeffs).1.1 (LB_Preprocess lits coeffs).1.2.
Proof.
  intros Hl. by destruct (LB_Preprocess_ok lits coeffs Hl) as (_ & _ & _ & _ & ->).
Qed.

Lemma LB_Preprocess_preserves_sum_witness :
  wsum (λ x, x =? 2) [1; -2; TRUE; 3] [4; -5; 6; 0]
  = (LB_Preprocess [1; -2; TRUE; 3] [4; -5; 6; 0]).2
    + wsum (λ x, x =? 2) (LB_Preprocess [1; -2; TRUE; 3] [4; -5; 6; 0]).1.1
        (LB_Preprocess [1; -2; TRUE; 3] [4; -5; 6; 0]).1.2.
Proof.
  apply (LB_Preprocess_preserves_sum [1; -2; TRUE; 3] [4; -5; 6; 0]).
  repeat constructor; try lia. apply TRUE_nz.
Defined.

(** X11 ([BDD], termination and meaning). For nonzero literals,
    nonnegative coefficients and [0 ≤ nterms ≤ len(lits), len(coeffs)], on
    a driver with [0 ≤ m], the [while call_stack] loop of [BDD] ends within
    [2 ^ (nterms + 2)] passes without an [IndexError] or [KeyError]; [BDD]
    returns a nonzero literal and only appends clauses, and in every model
    of the appended clauses the literal stands, in the directions the
    polarity asks for, for [lo ≤ Σ_{i < nterms} coeffsᵢ·[litsᵢ] ≤ hi]. *)
Theorem BDD_terminates (lits coeffs : list Z) (nterms lo hi : Z)
    (polarity : option bool) (d : Clauses) :
  Forall (λ l, l ≠ 0) lits → Forall (λ c, 0 ≤ c) coeffs →
  0 ≤ nterms ≤ Z.of_nat (length lits) →
  nterms ≤ Z.of_nat (length coeffs) →
  0 ≤ m d →
  ∃ r d' E,
    BDD lits coeffs nterms lo hi polarity d = Some (r, d')
    ∧ r ≠ 0
    ∧ _clauses d' = _clauses d ++ E ∧ m d ≤ m d'
    ∧ ∀ M, models M E →
        agrees polarity (lit_true M r)
          (in_range lo
             (wsum M (take (Z.to_nat nterms) lits)
                (take (Z.to_nat nterms) coeffs)) hi).
Proof. apply BDD_returns. Qed.

Lemma BDD_terminates_witness :
  ∃ r d' E,
    BDD [1; 2; 3] [1; 2; 2] 3 2 3 None (Clauses_init 3) = Some (r, d')
    ∧ r ≠ 0
    ∧ _clauses d' = _clauses (Clauses_init 3) ++ E
    ∧ m (Clauses_init 3) ≤ m d'
    ∧ ∀ M, models M E →
        agrees None (lit_true M r)
          (in_range 2
             (wsum M (take (Z.to_nat 3) [1; 2; 3])
                (take (Z.to_nat 3) [1; 2; 2])) 3).
Proof.
  apply (BDD_terminates [1; 2; 3] [1; 2; 2] 3 2 3 None (Clauses_init 3));
    try (repeat constructor; lia); cbn; lia.
Defined.
(** * The additional clauses of [sat] *)

Lemma clause_true_preproc_ M (cc : list Z) :
  clause_true M (preproc_ cc) = clause_true M cc.
Proof.
  unfold clause_true. induction cc as [|c cc IH]; cbn; [done|].
  destruct (Z.eqb_spec c FALSE) as [->|HF].
  { by rewrite lit_true_FALSE. }
  destruct (Z.eqb_spec c TRUE) as [->|HT]; cbn.
  { by rewrite lit_true_TRUE. }
  by rewrite IH.
Qed.

Lemma preproc__last_TRUE M (cc : list Z) :
  last (preproc_ cc) = Some TRUE → clause_true M cc = true.
Proof.
  intros Hlast. rewrite <- clause_true_preproc_.
  apply clause_true_iff. exists TRUE. split; [|apply lit_true_TRUE].
  destruct (preproc_ cc) as [|x l] using rev_ind; [done|].
  rewrite last_snoc in Hlast. injection Hlast as ->. set_solver.
Qed.

Lemma preproc_models (M : Z → bool) (eqs : list clause) :
  models M (preproc eqs) ↔ models M eqs.
Proof.
  induction eqs as [|cc eqs IH]; [done|]. cbn [preproc].
  pose proof (clause_true_preproc_ M cc) as Hcc.
  pose proof (preproc__last_TRUE M cc) as Hlast.
  destruct (last (preproc_ cc)) as [c|] eqn:El.
  - destruct (Z.eqb_spec c TRUE) as [->|HT]; cbn [negb].
    + rewrite IH, models_cons. rewrite (Hlast eq_refl). tauto.
    + by rewrite !models_cons, IH, Hcc.
  - apply last_None in El. rewrite El in Hcc |- *.
    rewrite !models_cons, <- Hcc. cbn. intuition congruence.
Qed.

(** X12 ([sat], preprocessing of the additional clauses). The clauses
    that [preproc] yields hold in exactly the assignments in which the
    given clauses hold, the sentinels read as constants: dropping [FALSE]
    literals, cutting a clause after [TRUE], dropping the clauses that
    contain [TRUE] and stopping at a clause left empty change nothing. *)
Theorem preproc_preserves_models (M : Z → bool) (eqs : list clause) :
  models M (preproc eqs) ↔ models M eqs.
Proof. apply preproc_models. Qed.

Lemma preproc_last_empty (eqs : list clause) :
  Exists (Forall (λ c, c = FALSE)) eqs → last (preproc eqs) = Some [].
Proof.
  induction 1 as [cc eqs Hcc|cc eqs Hex IH]; cbn [preproc].
  - assert (preproc_ cc = []) as ->; [|reflexivity].
    clear eqs. induction cc as [|c cc IHcc]; [reflexivity|].
    apply Forall_cons in Hcc as [-> Hcc]. cbn.
    rewrite Z.eqb_refl. by apply IHcc.
  - destruct (last (preproc_ cc)) as [c|] eqn:El;
      [|apply last_None in El; by rewrite El].
    destruct (negb (c =? TRUE)); [|done].
    destruct (preproc eqs) as [|e es] eqn:Ep; [done|].
    by rewrite last_cons, IH.
Qed.

(** X13 ([sat], an additional clause that cannot hold). On a driver with
    variables and [unsat] not set, when one of the additional clauses is
    empty or made of [FALSE] literals only, [sat] returns [None] without
    running the backend and leaves the driver, and so the clause store, as
    it was. *)
Theorem sat_additional_empty_clause
    (run : list clause → Z → Z → option (list Z))
    (eqs : list clause) (includeIf : bool) (limit : Z) (d : Clauses) :
  unsat d = false → m d ≠ 0 →
  Exists (Forall (λ c, c = FALSE)) eqs →
  sat run (Some eqs) includeIf limit d = (None, d).
Proof.
  intros Hu Hm Hex. unfold sat. rewrite Hu.
  destruct (Z.eqb_spec (m d) 0); [done|].
  destruct eqs as [|cc eqs]; [by apply Exists_nil in Hex|].
  by rewrite (preproc_last_empty _ Hex).
Qed.

Lemma sat_additional_empty_clause_witness :
  sat brute_force (Some [[1; 2]; [FALSE; FALSE]; [3]]) true 0
    (Clauses_init 3)
  = (None, Clauses_init 3).
Proof.
  apply (sat_additional_empty_clause brute_force
           [[1; 2]; [FALSE; FALSE]; [3]] true 0 (Clauses_init 3)).
  - reflexivity.
  - cbn. lia.
  - right. left. repeat constructor.
Defined.

Lemma preproc__elems (P : Z → Prop) (cc : list Z) :
  Forall P cc →
  Forall (λ l, P l ∧ l ≠ FALSE) (preproc_ cc)
  ∧ (TRUE ∈ preproc_ cc → last (preproc_ cc) = Some TRUE).
Proof.
  induction 1 as [|c cc Hc Hcc [IH1 IH2]]; cbn.
  { split; [done|]. by intros ?%elem_of_nil. }
  destruct (Z.eqb_spec c FALSE) as [->|HF]; [done|].
  destruct (Z.eqb_spec c TRUE) as [->|HT].
  { split; [by repeat constructor|done]. }
  split; [by constructor|].
  intros [?|Hin]%elem_of_cons; [done|].
  specialize (IH2 Hin). destruct (preproc_ cc); [done|].
  by rewrite last_cons, IH2.
Qed.

Lemma preproc_elems (P : Z → Prop) (eqs : list clause) :
  Forall (Forall P) eqs →
  Forall (Forall (λ l, P l ∧ l ≠ FALSE ∧ l ≠ TRUE)) (preproc eqs)
  ∨ last (preproc eqs) = Some [].
Proof.
  induction 1 as [|cc eqs Hcc Heqs IH]; cbn [preproc]; [by left|].
  destruct (preproc__elems P cc Hcc) as [H1 H2].
  destruct (last (preproc_ cc)) as [c|] eqn:El;
    [|right; apply last_None in El; by rewrite El].
  destruct (Z.eqb_spec c TRUE) as [->|HT]; cbn [negb]; [done|].
  destruct IH as [IH|IH].
  - left. constructor; [|done]. apply Forall_forall. intros l Hl.
    rewrite Forall_forall in H1. destruct (H1 l Hl) as [? ?].
    split_and!; [done..|]. intros ->. specialize (H2 Hl). congruence.
  - right. destruct (preproc eqs); [done|]. by rewrite last_cons, IH.
Qed.

Lemma clause_true_satisfies nvars sol c :
  assignment nvars sol →
  Forall (λ l, in_scope nvars l) c →
  clause_true (model_of sol) c = satisfies sol c.
Proof.
  intros Hsol Hc. pose proof (assignment_below_TRUE _ _ Hsol) as Hb.
  unfold clause_true, satisfies.
  induction Hc as [|l c Hl Hc IH]; cbn; [done|].
  rewrite IH. f_equal. unfold in_scope in Hl.
  apply (lit_true_model_of nvars); [done|lia|lia].
Qed.

Lemma models_satisfies_all nvars sol cs :
  assignment nvars sol → Forall (Forall (in_scope nvars)) cs →
  models (model_of sol) cs ↔ satisfies_all sol cs.
Proof.
  intros Hsol Hcs. unfold models, satisfies_all.
  induction Hcs as [|c cs Hc Hcs IH]; cbn; [done|].
  rewrite !andb_true_iff, IH.
  by rewrite (clause_true_satisfies nvars).
Qed.

(** X14 ([sat], correctness). On a sound backend, a driver with
    variables: a solution that [sat] returns is an assignment of the
    variables [1..m] that satisfies every clause of the store and every
    additional clause. When moreover the backend is complete, no
    propagation limit is set, [unsat] is not set and the additional
    clauses are over sentinels and the variables of the driver, [sat]
    returns [None] only if no assignment satisfies the store together with
    the additional clauses. *)
Theorem sat_correct (run : list clause → Z → Z → option (list Z))
    (additional : option (list clause)) (includeIf : bool) (limit : Z)
    (d : Clauses) :
  backend_sound run → m d ≠ 0 →
  (∀ sol, (sat run additional includeIf limit d).1 = Some sol →
     assignment (m d) sol ∧ satisfies_all sol (as_list d)
     ∧ models (model_of sol) (default [] additional))
  ∧ (backend_complete run → limit = 0 → unsat d = false →
     Forall (Forall (lit_in (m d))) (default [] additional) →
     (sat run additional includeIf limit d).1 = None →
     ∀ sol, assignment (m d) sol → satisfies_all sol (as_list d) →
            ¬ models (model_of sol) (default [] additional)).
Proof.
  intros Hsound Hm. unfold sat.
  destruct (unsat d) eqn:Hu.
  { split; [done|]. by intros _ _ ?. }
  destruct (Z.eqb_spec (m d) 0); [done|].
  set (add := match additional with Some (cc :: eqs) => preproc (cc :: eqs)
                               | _ => [] end).
  assert (∀ M, models M add ↔ models M (default [] additional)) as Hadd.
  { intros M. subst add. destruct additional as [[|cc eqs]|]; try done.
    apply preproc_models. }
  assert (Forall (Forall (lit_in (m d))) (default [] additional) →
          Forall (Forall (in_scope (m d))) add ∨ last add = Some [])
    as Hscope.
  { intros Hsc. subst add.
    destruct additional as [[|cc eqs]|]; try (left; constructor).
    destruct (preproc_elems _ _ Hsc) as [H|H]; [left|by right].
    eapply Forall_impl; [exact H|]. intros c Hc.
    eapply Forall_impl; [exact Hc|]. intros l ([?|[?|?]] & ? & ?); done. }
  unfold _run_sat, as_list, ClauseList.as_list.
  destruct (last add) as [[|x c]|] eqn:Hlast; cbn [fst snd].
  - split; [done|]. intros _ _ _ _ _ sol _ _ HM. apply Hadd in HM.
    destruct add as [|a add'] using rev_ind; [done|].
    rewrite last_snoc in Hlast. injection Hlast as ->.
    apply models_app in HM as [_ HM]. by apply models_cons in HM as [? _].
  - cbn [_clauses m add_clauses set_clauses]. unfold ClauseList.extend.
    split.
    + intros sol Hsol.
      assert (run (_clauses d ++ add) (m d) limit = Some sol) as Hrun.
      { destruct (run _ _ _); [|done]. by destruct (_ || _). }
      destruct (Hsound _ _ _ _ Hrun) as [Ha Hs].
      apply satisfies_all_app in Hs as [Hs1 Hs2].
      split_and!; [done..|]. apply Hadd. by eapply satisfies_all_models.
    + intros Hcomplete -> _ Hsc Hnone sol Ha Hs HM.
      assert (run (_clauses d ++ add) (m d) 0 = None) as Hrun.
      { destruct (run _ _ _); [|done]. by destruct (_ || _). }
      apply (Hcomplete (_clauses d ++ add) _ _ Ha); [|done].
      apply satisfies_all_app. split; [done|].
      destruct (Hscope Hsc) as [Hin|Hl]; [|congruence].
      apply (models_satisfies_all (m d)); [done..|]. by apply Hadd.
  - assert (add = []) as Hnil by by apply last_None.
    split.
    + intros sol Hrun. destruct (Hsound _ _ _ _ Hrun) as [Ha Hs].
      split_and!; [done..|]. apply Hadd. by rewrite Hnil.
    + intros Hcomplete -> _ _ Hrun sol Ha Hs _.
      by apply (Hcomplete (_clauses d) _ _ Ha Hs).
Qed.

Lemma sat_correct_witness :
  (∀ sol, (sat brute_force (Some [[1; FALSE]; [-2; 3]]) false 0
             (add_clause [-1; 2] (Clauses_init 3))).1 = Some sol →
     assignment 3 sol
     ∧ satisfies_all sol (as_list (add_clause [-1; 2] (Clauses_init 3)))
     ∧ models (model_of sol) [[1; FALSE]; [-2; 3]])
  ∧ (backend_complete brute_force → 0 = 0 → false = false →
     Forall (Forall (lit_in 3)) [[1; FALSE]; [-2; 3]] →
     (sat brute_force (Some [[1; FALSE]; [-2; 3]]) false 0
        (add_clause [-1; 2] (Clauses_init 3))).1 = None →
     ∀ sol, assignment 3 sol →
            satisfies_all sol (as_list (add_clause [-1; 2] (Clauses_init 3))) →
            ¬ models (model_of sol) [[1; FALSE]; [-2; 3]]).
Proof.
  apply (sat_correct brute_force (Some [[1; FALSE]; [-2; 3]]) false 0
           (add_clause [-1; 2] (Clauses_init 3))).
  - apply brute_force_sound.
  - cbn. lia.
Defined.
(** * Edge cases of [minimize] *)

Lemma LB_equation_all_dropped (pairs : list (Z * Z)) equation offset :
  Forall (λ p : Z * Z, p.2 = TRUE ∨ p.2 = FALSE ∨ p.1 = 0) pairs →
  (LB_equation pairs equation offset).1 = equation.
Proof.
  sentinel_facts. revert equation offset.
  induction pairs as [|[c l] pairs IH]; intros equation offset Hp; [done|].
  apply Forall_cons in Hp as [Hcl Hp]. cbn in *.
  destruct (Z.eqb_spec l TRUE); [by apply IH|].
  destruct (Z.eqb_spec l FALSE); cbn; [by apply IH|].
  destruct (Z.eqb_spec c 0); [by apply IH|].
  by destruct Hcl as [?|[?|?]].
Qed.

(** X15 ([minimize], an objective without terms). When [coeffs] is not
    empty but [LB_Preprocess] keeps no term (every literal is a sentinel
    or has coefficient 0, or [lits] is shorter than [coeffs] and runs
    out), on a driver whose flag [unsat] is not set and with an initial
    solution that is not recomputed, [minimize] raises ([max] of an empty
    sequence) before any bisection; nothing is logged and the driver is
    untouched. *)
Theorem minimize_empty_objective_raises
    (run : list clause → Z → Z → option (list Z)) (fuel : nat)
    (lits coeffs sol : list Z) (trymax : bool) (d : Clauses) :
  unsat d = false → m d ≤ Z.of_nat (length sol) → coeffs ≠ [] →
  Forall (λ p : Z * Z, p.2 = TRUE ∨ p.2 = FALSE ∨ p.1 = 0)
    (zip coeffs lits) →
  minimize run fuel lits coeffs (Some sol) trymax d = (Raised, [], d).
Proof.
  intros Hu Hlen Hne Hp. unfold minimize.
  destruct (Z.ltb_spec (Z.of_nat (length sol)) (m d)); [lia|].
  rewrite Hu. destruct coeffs as [|c coeffs]; [done|].
  unfold LB_Preprocess.
  pose proof (LB_equation_all_dropped _ [] 0 Hp) as He.
  destruct (LB_equation (zip (c :: coeffs) lits) [] 0) as [eq off].
  cbn in He. subst eq. done.
Qed.

Lemma minimize_empty_objective_raises_witness :
  minimize brute_force 5 [1; TRUE] [0; 3] (Some [1; 2]) false
    (Clauses_init 2)
  = (Raised, [], Clauses_init 2).
Proof.
  apply (minimize_empty_objective_raises brute_force 5 [1; TRUE] [0; 3]
           [1; 2] false (Clauses_init 2)).
  - reflexivity.
  - cbn. lia.
  - done.
  - apply Forall_cons. split; [right; right; reflexivity|].
    apply Forall_cons. split; [left; reflexivity|]. by apply Forall_nil.
Defined.
(** A pass that raises leaves the constraints of its probe in the driver.
    On a driver without variables [sat] answers the empty solution without
    running the backend, and the peak value of the empty solution is [max]
    of an empty sequence: the first pass of the peak stage raises after
    [Prevent(Any, (1,))] has added the clause [(-1,)]. *)
Example minimize_raise_keeps_probe :
  minimize brute_force 5 [1] [2] (Some [1]) false (Clauses_init 0)
  = (Raised, [Beginning true; Initial_range 0 2],
     mkClauses false 0 [[-1]] 0).
Proof. by vm_compute. Qed.
(** * A polarity emits part of what the polarity [None] emits *)

(** [below base d0 d]: the two drivers have the same [m], and both
    stores are [base] followed by clauses, those of [d0] being among those
    of [d]. A call under a polarity and the same call under [None], started
    from drivers so related, end in drivers so related, with the same
    result. *)
Definition below (base : list clause) (d0 d : Clauses) : Prop :=
  m d0 = m d
  ∧ ∃ E0 E, _clauses d0 = base ++ E0 ∧ _clauses d = base ++ E
            ∧ ∀ c, c ∈ E0 → c ∈ E.

Lemma below_refl d : below (_clauses d) d d.
Proof. split; [done|]. exists [], []. by rewrite app_nil_r. Qed.

Lemma below_fresh base d0 d (cs0 cs : list clause) :
  below base d0 d → (∀ c, c ∈ cs0 → c ∈ cs) →
  below base (add_clauses cs0 (set_m (m d0 + 1) d0))
    (add_clauses cs (set_m (m d + 1) d)).
Proof.
  intros (Hm & E0 & E & H0 & H1 & Hsub) Hcs. split; [cbn; lia|].
  exists (E0 ++ cs0), (E ++ cs). cbn. unfold ClauseList.extend.
  rewrite H0, H1, <- !app_assoc. split_and!; [done..|].
  intros c [?|?]%elem_of_app; apply elem_of_app; auto.
Qed.

Definition value_below (p : option bool) (v0 v : value) : Prop :=
  match v0, v with
  | Lit a, Lit b => a = b
  | Deferred pval0 nval0, Deferred pval nval =>
      pval0 = (if in_True_None p then pval else [])
      ∧ nval0 = (if in_False_None p then nval else [])
  | _, _ => False
  end.

Definition gate_below (base : list clause)
    (r0 r : value * Clauses) : Prop :=
  r0.1 = r.1 ∧ below base r0.2 r.2.

Lemma add_clauses_app cs1 cs2 d :
  add_clauses cs2 (add_clauses cs1 d) = add_clauses (cs1 ++ cs2) d.
Proof.
  unfold add_clauses, set_clauses, ClauseList.extend. cbn.
  by rewrite app_assoc.
Qed.

(** A gate that allocates [x] and emits, under the polarity [p], the
    positive clauses [pos x] and the negative ones [neg x]. *)
Lemma fresh_below base p d0 d (pos neg : Z → list clause) :
  below base d0 d →
  gate_below base
    (let '(x, self) := new_var d0 in
     let self := if in_True_None p then add_clauses (pos x) self else self in
     let self := if in_False_None p then add_clauses (neg x) self else self in
     (Lit x, self))
    (let '(x, self) := new_var d in
     let self := add_clauses (pos x) self in
     let self := add_clauses (neg x) self in
     (Lit x, self)).
Proof.
  destruct d0 as [u0 n0 c0 r0], d as [u n c r].
  intros (Hm & E0 & E & H0 & H1 & Hsub). cbn in Hm, H0, H1. subst.
  unfold gate_below, new_var. cbn [fst snd m].
  split; [done|]. rewrite add_clauses_app.
  assert (∀ cs0, (∀ c, c ∈ cs0 → c ∈ pos (n + 1) ++ neg (n + 1)) →
            below base
              (add_clauses cs0 (set_m (n + 1) (mkClauses u0 n (base ++ E0) r0)))
              (add_clauses (pos (n + 1) ++ neg (n + 1))
                 (set_m (n + 1) (mkClauses u n (base ++ E) r)))) as Hgen.
  { intros cs0 Hcs0. split; [done|].
    exists (E0 ++ cs0), (E ++ pos (n + 1) ++ neg (n + 1)). cbn.
    unfold ClauseList.extend. rewrite <- !app_assoc. split_and!; [done..|].
    intros c' [?|?]%elem_of_app; apply elem_of_app; auto. }
  destruct p as [[|]|]; cbn [in_True_None in_False_None].
  - apply Hgen. intros c' ?. apply elem_of_app. by left.
  - apply Hgen. intros c' ?. apply elem_of_app. by right.
  - rewrite add_clauses_app. by apply Hgen.
Qed.

Lemma And_below base f g p d0 d :
  below base d0 d →
  gate_below base (And f g p true d0) (And f g None true d).
Proof.
  intros Hb. unfold And. case_eqb; try (by split).
  destruct (g <? f);
    [apply (fresh_below base p d0 d (λ x, [[- x; g]; [- x; f]])
              (λ x, [[x; - g; - f]]) Hb)
    |apply (fresh_below base p d0 d (λ x, [[- x; f]; [- x; g]])
              (λ x, [[x; - f; - g]]) Hb)].
Qed.

Lemma Or_below base f g p d0 d :
  below base d0 d →
  gate_below base (Or f g p true d0) (Or f g None true d).
Proof.
  intros Hb. unfold Or. case_eqb; try (by split).
  destruct (g <? f);
    [apply (fresh_below base p d0 d (λ x, [[- x; g; f]])
              (λ x, [[x; - g]; [x; - f]]) Hb)
    |apply (fresh_below base p d0 d (λ x, [[- x; f; g]])
              (λ x, [[x; - f]; [x; - g]]) Hb)].
Qed.

Lemma Xor_below base f g p d0 d :
  below base d0 d →
  gate_below base (Xor f g p true d0) (Xor f g None true d).
Proof.
  intros Hb. unfold Xor. case_eqb; try (by split).
  destruct (g <? f);
    [apply (fresh_below base p d0 d (λ x, [[- x; g; f]; [- x; - g; - f]])
              (λ x, [[x; - g; f]; [x; g; - f]]) Hb)
    |apply (fresh_below base p d0 d (λ x, [[- x; f; g]; [- x; - f; - g]])
              (λ x, [[x; - f; g]; [x; f; - g]]) Hb)].
Qed.

Lemma ITE_below base c t f p d0 d :
  below base d0 d →
  gate_below base (ITE c t f p true d0) (ITE c t f None true d).
Proof.
  intros Hb. unfold ITE.
  case_eqb; try (by split);
    try (by apply And_below); try (by apply Or_below);
    try (by apply Xor_below).
  destruct (t <? f);
    [apply (fresh_below base p d0 d
              (λ x, [[- x; - - c; f]; [- x; - c; t]; [- x; f; t]])
              (λ x, [[x; - - c; - f]; [x; - c; - t]; [x; - f; - t]]) Hb)
    |apply (fresh_below base p d0 d
              (λ x, [[- x; - c; t]; [- x; c; f]; [- x; t; f]])
              (λ x, [[x; - c; - t]; [x; c; - f]; [x; - t; - f]]) Hb)].
Qed.

Definition bdd_below (base : list clause) (r0 r : option bdd_state) : Prop :=
  match r0, r with
  | Some st0, Some st =>
      call_stack st0 = call_stack st ∧ ret st0 = ret st
      ∧ below base (bdd_self st0) (bdd_self st)
  | None, None => True
  | _, _ => False
  end.

Lemma BDD_body_below base lits coeffs lo hi p key rest memo d0 d :
  below base d0 d →
  bdd_below base (BDD_body lits coeffs lo hi p key rest memo d0)
    (BDD_body lits coeffs lo hi None key rest memo d).
Proof.
  intros Hb. unfold BDD_body. destruct key as [[ndx csum] total].
  destruct (_ && _); [done|]. destruct (_ || _); [done|].
  destruct (getitem lits ndx) as [LA|]; [|done]. cbn [mbind option_bind].
  destruct (getitem coeffs ndx) as [LC|]; [|done]. cbn [mbind option_bind].
  destruct (memo !! _) as [thi|]; [|done].
  destruct (memo !! _) as [tlo|]; [|done].
  destruct (ITE_below base (Z.abs LA) thi tlo p d0 d Hb) as [Hv Hd].
  destruct (ITE (Z.abs LA) thi tlo p true d0) as [v0 e0],
           (ITE (Z.abs LA) thi tlo None true d) as [v e].
  cbn in Hv, Hd. subst v0. by destruct v.
Qed.

Lemma BDD_loop_below base lits coeffs lo hi p (fuel : nat) : ∀ st0 st,
  bdd_below base (Some st0) (Some st) →
  bdd_below base (BDD_loop fuel lits coeffs lo hi p st0)
    (BDD_loop fuel lits coeffs lo hi None st).
Proof.
  induction fuel as [|fuel IH]; intros st0 st (Hs & Hr & Hb); [done|].
  cbn [BDD_loop]. rewrite Hs, Hr.
  destruct (call_stack st) as [|key rest] eqn:Es;
    [cbn; split_and!; [congruence|done|done]|].
  pose proof (BDD_body_below base lits coeffs lo hi p key rest (ret st)
                _ _ Hb) as Hbody.
  destruct (BDD_body lits coeffs lo hi p key rest (ret st) (bdd_self st0))
    as [st0'|],
    (BDD_body lits coeffs lo hi None key rest (ret st) (bdd_self st))
    as [st'|]; try done.
  cbn [mbind option_bind]. by apply IH.
Qed.

Lemma BDD_below base lits coeffs nterms lo hi p d0 d :
  below base d0 d →
  match BDD lits coeffs nterms lo hi p d0,
        BDD lits coeffs nterms lo hi None d with
  | Some (r0, e0), Some (r, e) => r0 = r ∧ below base e0 e
  | None, None => True
  | _, _ => False
  end.
Proof.
  intros Hb. unfold BDD.
  pose proof (BDD_loop_below base lits coeffs lo hi p (BDD_fuel nterms)
                (mkBDD [(nterms - 1, 0, sumZ (slice_to coeffs nterms))] ∅ d0)
                (mkBDD [(nterms - 1, 0, sumZ (slice_to coeffs nterms))] ∅ d))
    as Hloop.
  specialize (Hloop ltac:(by split_and!)).
  destruct (BDD_loop _ _ _ _ _ p _) as [st0|],
           (BDD_loop _ _ _ _ _ None _) as [st|]; cbn in Hloop |- *;
    try done.
  destruct Hloop as (_ & Hr & Hb'). rewrite Hr.
  by destruct (ret st !! _).
Qed.

Lemma All_scan_pure_fst (iter : list Z) : ∀ (vals : gset Z) e1 e2,
  (All_scan (λ v s, (v, s)) iter vals e1).1
  = (All_scan (λ v s, (v, s)) iter vals e2).1.
Proof.
  induction iter as [|v iter IH]; intros vals e1 e2; cbn; [done|].
  repeat case_match; cbn; auto.
Qed.

Lemma All_below iter p d0 d :
  value_below p (All iter p d0).1 (All iter None d).1.
Proof.
  unfold All, All_iter.
  pose proof (All_scan_pure_fst iter ∅ d0 d) as H.
  destruct (All_scan _ iter ∅ d0) as [[vals0|] e0],
           (All_scan _ iter ∅ d) as [[vals|] e]; cbn in H; simplify_eq;
    [|done].
  destruct (elements vals) as [|v [|w vs]]; cbn; try done.
  all: by destruct p as [[|]|].
Qed.

Lemma assign_below base p v0 v d0 d :
  value_below p v0 v → below base d0 d →
  (assign v0 d0).1 = (assign v d).1
  ∧ below base (assign v0 d0).2 (assign v d).2.
Proof.
  intros Hv Hb. destruct v0 as [a|pv0 nv0], v as [b|pv nv]; try done.
  destruct Hv as [-> ->]. pose proof Hb as [Hm _].
  cbn -[add_clauses]. unfold new_var. cbn [fst snd].
  split; [by rewrite Hm|]. rewrite !add_clauses_app.
  apply below_fresh; [done|]. rewrite Hm.
  intros c [Hc|Hc]%elem_of_app; apply elem_of_app;
    destruct p as [[|]|]; cbn in Hc; auto; by apply elem_of_nil in Hc.
Qed.

Lemma All_scan_assign_below base p (args0 args : list value) :
  Forall2 (value_below p) args0 args → ∀ vals d0 d,
  below base d0 d →
  (All_scan assign args0 vals d0).1 = (All_scan assign args vals d).1
  ∧ below base (All_scan assign args0 vals d0).2
      (All_scan assign args vals d).2.
Proof.
  induction 1 as [|v0 v args0 args Hv Hargs IH]; intros vals d0 d Hb;
    [done|].
  cbn [All_scan].
  destruct (assign_below base p v0 v d0 d Hv Hb) as [Hx Hb'].
  destruct (assign v0 d0) as [x0 e0], (assign v d) as [x e].
  cbn in Hx, Hb'. subst x0.
  destruct (x =? TRUE); [by apply IH|].
  destruct (_ || _); [done|]. by apply IH.
Qed.

Lemma Combine_below base p (args0 args : list value) d0 d :
  Forall2 (value_below p) args0 args → below base d0 d →
  value_below p (Combine args0 p d0).1 (Combine args None d).1
  ∧ below base (Combine args0 p d0).2 (Combine args None d).2.
Proof.
  intros Hargs Hb. unfold Combine.
  assert (∀ c v0 v, value_below p v0 v → value_is c v0 = value_is c v)
    as Hvis.
  { intros c [a|? ?] [b|? ?] Hv; try done. cbn in *. by subst. }
  assert (existsb (value_is FALSE) args0 = existsb (value_is FALSE) args)
    as ->.
  { induction Hargs as [|v0 v a0 a Hv _ IH]; cbn; [done|].
    by rewrite (Hvis _ _ _ Hv), IH. }
  destruct (existsb (value_is FALSE) args); [done|].
  assert (Forall2 (value_below p)
            (List.filter (λ v, negb (value_is TRUE v)) args0)
            (List.filter (λ v, negb (value_is TRUE v)) args)) as Hfil.
  { induction Hargs as [|v0 v a0 a Hv _ IH]; cbn; [constructor|].
    rewrite (Hvis _ _ _ Hv). destruct (negb _); [by constructor|done]. }
  destruct Hfil as [|v0 v rest0 rest Hv Hrest]; [done|].
  destruct Hrest as [|w0 w rest0 rest Hw Hrest]; [done|].
  assert (Forall2 (value_below p) (v0 :: w0 :: rest0) (v :: w :: rest))
    as Hall by (by repeat constructor).
  assert (forallb is_tuple (v0 :: w0 :: rest0)
          = forallb is_tuple (v :: w :: rest)) as ->.
  { clear -Hall. induction Hall as [|x0 x a0 a Hx _ IH]; cbn; [done|].
    rewrite IH. by destruct x0, x. }
  destruct (forallb is_tuple (v :: w :: rest)) eqn:Ht.
  - split; [|done]. cbn [fst value_below]. clear -Hall Ht.
    induction Hall as [|x0 x a0 a Hx _ IH]; cbn.
    { by destruct p as [[|]|]. }
    cbn in Ht. apply andb_true_iff in Ht as [Hx' Ht].
    destruct (IH Ht) as [-> ->].
    destruct x0 as [|pv0 nv0], x as [|pv nv]; try done.
    destruct Hx as [-> ->]. cbn.
    destruct p as [[|]|]; cbn; by rewrite ?app_nil_r.
  - unfold All_iter.
    destruct (All_scan_assign_below base p _ _ Hall ∅ d0 d Hb) as [Hs Hb'].
    destruct (All_scan assign (v0 :: w0 :: rest0) ∅ d0) as [[vals0|] e0],
             (All_scan assign (v :: w :: rest) ∅ d) as [[vals|] e];
      cbn in Hs, Hb'; simplify_eq; [|done].
    destruct (elements vals) as [|x [|y vs]]; cbn; try done.
    all: split; [|done]; by destruct p as [[|]|].
Qed.

(** The part of [LinearBound] after the bounds are fixed. *)
Lemma LinearBound_core_below lits coeffs nterms nprune lo hi p d :
  let core q :=
    '(res, self) ←
      (if nterms =? 0 then Some (if lo =? 0 then TRUE else FALSE, d)
       else BDD lits coeffs nterms lo hi q d);
    if negb (nprune =? 0) then
      let '(prune, self) :=
        All (map Z.opp (slice_from lits nterms)) q self in
      Some (Combine [Lit res; prune] q self)
    else Some (Lit res, self) in
  match core p, core None with
  | Some (v0, e0), Some (v, e) =>
      value_below p v0 v ∧ below (_clauses d) e0 e
  | None, None => True
  | _, _ => False
  end.
Proof.
  pose proof (below_refl d) as Hb. cbv zeta.
  assert (∀ res e0 e, below (_clauses d) e0 e →
            match
              (if negb (nprune =? 0) then
                 let '(prune, self) :=
                   All (map Z.opp (slice_from lits nterms)) p e0 in
                 Some (Combine [Lit res; prune] p self)
               else Some (Lit res, e0)),
              (if negb (nprune =? 0) then
                 let '(prune, self) :=
                   All (map Z.opp (slice_from lits nterms)) None e in
                 Some (Combine [Lit res; prune] None self)
               else Some (Lit res, e))
            with
            | Some (v0, e0), Some (v, e) =>
                value_below p v0 v ∧ below (_clauses d) e0 e
            | None, None => True
            | _, _ => False
            end) as Hrest.
  { intros res e0 e Hb'. destruct (negb _); [|done].
    pose proof (All_below (map Z.opp (slice_from lits nterms)) p e0 e) as HA.
    pose proof (All_same_driver (map Z.opp (slice_from lits nterms)) p e0)
      as H1.
    pose proof (All_same_driver (map Z.opp (slice_from lits nterms)) None e)
      as H2.
    destruct (All _ p e0) as [prune0 e0'], (All _ None e) as [prune e'].
    cbn in HA, H1, H2. subst e0' e'.
    pose proof (Combine_below (_clauses d) p [Lit res; prune0]
                  [Lit res; prune] e0 e) as HC.
    destruct (Combine [Lit res; prune0] p e0) as [v0 f0],
             (Combine [Lit res; prune] None e) as [v f].
    apply HC; [by repeat constructor|done]. }
  destruct (nterms =? 0); cbn [mbind option_bind]; [by apply Hrest|].
  pose proof (BDD_below (_clauses d) lits coeffs nterms lo hi p d d Hb) as HB.
  destruct (BDD lits coeffs nterms lo hi p d) as [[r0 e0]|],
           (BDD lits coeffs nterms lo hi None d) as [[r e]|]; try done.
  destruct HB as [-> Hb']. cbn [mbind option_bind]. by apply Hrest.
Qed.

Lemma LinearBound_tail_below lits coeffs lo hi preprocess p d :
  match LinearBound_tail lits coeffs lo hi preprocess p d,
        LinearBound_tail lits coeffs lo hi preprocess None d with
  | Some (v0, e0), Some (v, e) =>
      value_below p v0 v ∧ below (_clauses d) e0 e
  | None, None => True
  | _, _ => False
  end.
Proof.
  unfold LinearBound_tail.
  destruct (negb _ && _); destruct preprocess;
    (destruct (_ >? _); [split; [done|apply below_refl]|]);
    apply LinearBound_core_below.
Qed.

Lemma LinearBound_tail_extends lits coeffs lo hi preprocess polarity d v d' :
  LinearBound_tail lits coeffs lo hi preprocess polarity d = Some (v, d') →
  extends d d'.
Proof.
  unfold LinearBound_tail. intros HLB.
  repeat (case_match; simplify_eq); try reflexivity;
    apply bind_Some in HLB as ([res d1] & HBDD & HLB);
    (assert (extends d d1) as Hd1
      by (simplify_eq; try reflexivity; by eapply BDD_extends));
    repeat case_match; simplify_eq; try done.
  all:  match goal with
    | HA : All ?i ?p ?d = _, HC : Combine ?a ?q ?e = _ |- _ =>
        pose proof (All_same_driver i p d) as E1; rewrite HA in E1;
        pose proof (Combine_extends a q e) as E2; rewrite HC in E2;
        cbn in *; subst
    end; by etrans.
Qed.

(** What [LinearBound] under the polarity [None] returns, on a
    normalized objective over the variables of the driver: every
    assignment of these variables extends to a model of the emitted
    clauses in which the value returned tells whether the sum is within the
    bounds. *)
Lemma LinearBound_tail_None_exact lits coeffs lo hi preprocess d :
  Forall (in_scope (m d)) lits → Forall (λ c, 0 ≤ c) coeffs →
  Sorted Z.le coeffs → length lits = length coeffs → 0 ≤ m d →
  (preprocess = false → 0 ≤ lo) →
  ∃ v d' E,
    LinearBound_tail lits coeffs lo hi preprocess None d = Some (v, d')
    ∧ _clauses d' = _clauses d ++ E
    ∧ value_nonzero v
    ∧ (m d' < TRUE →
       ∀ M0, ∃ M,
         agree_upto (m d) M0 M ∧ models M E
         ∧ match v with
           | Lit r => lit_true M r = in_range lo (wsum M0 lits coeffs) hi
           | Deferred pval nval =>
               if in_range lo (wsum M0 lits coeffs) hi
               then models M pval else models M nval
           end).
Proof.
  intros Hin Hc Hs Hlen Hm Hlo.
  assert (Forall (λ l, l ≠ 0) lits) as Hnz.
  { eapply Forall_impl; [exact Hin|]. intros l. apply in_scope_nz. }
  destruct (LinearBound_tail_ok lits coeffs lo hi preprocess None d
              Hnz Hc Hs Hlen Hm Hlo)
    as (v & d' & E & HLB & Hv & Hcl & Hmd & Hsem).
  destruct (LinearBound_tail_definable _ _ _ _ _ _ _ _ _ Hm Hin HLB)
    as [(E' & Hcl' & _ & Hdef) Hok].
  assert (E' = E) as ->.
  { rewrite Hcl in Hcl'. by apply app_inv_head in Hcl'. }
  exists v, d', E. split_and!; try done.
  intros Hbound M0. destruct (Hdef Hbound) as [_ Hext].
  destruct (Hext M0) as (M & Hag & HM). exists M. split_and!; try done.
  specialize (Hsem M HM).
  rewrite (wsum_agree (m d) M0 M) in Hsem by (done || lia).
  destruct v as [r|pval nval].
  - cbn in Hsem. apply agrees_None in Hsem.
    by apply Bool.eq_true_iff_eq.
  - destruct Hsem as [Hp Hn]. destruct Hok as (_ & _ & Hor).
    destruct (in_range lo (wsum M0 lits coeffs) hi) eqn:E0.
    + destruct (Hor M) as [?|HN]; [done|]. by specialize (Hn eq_refl HN).
    + destruct (Hor M) as [HP|?]; [|done]. by specialize (Hp eq_refl HP).
Qed.

(** [constrains_upto polarity d res sem]: the call of [Eval] returned
    and only appended clauses, possibly over new variables; as long as [m]
    stays below the sentinel, either [unsat] is as before, the appended
    clauses are over the variables of the new driver, they hold only in
    assignments in which the condition [sem] has the value [polarity], and
    every assignment of the variables of [d] in which it has that value
    extends to one in which they hold; or no assignment gives [sem] that
    value, nothing was appended and [unsat] is set. *)
Definition constrains_upto (polarity : bool) (d : Clauses)
    (res : option Clauses) (sem : (Z → bool) → bool) : Prop :=
  ∃ F d',
    res = Some d' ∧ _clauses d' = _clauses d ++ F ∧ m d ≤ m d'
    ∧ backend_runs d' = backend_runs d
    ∧ (m d' < TRUE →
       (unsat d' = unsat d
        ∧ scoped (m d') F
        ∧ (∀ M, models M F → sem M = polarity)
        ∧ (∀ M0, sem M0 = polarity →
             ∃ M, agree_upto (m d) M0 M ∧ models M F))
       ∨ (unsat d' = true ∧ F = [] ∧ ∀ M0, sem M0 = negb polarity)).

Lemma models_subset M (E0 E : list clause) :
  (∀ c, c ∈ E0 → c ∈ E) → models M E → models M E0.
Proof.
  unfold models. rewrite !forallb_forall. intros Hsub HE c Hc.
  apply HE. rewrite <- list_elem_of_In in *. by apply Hsub.
Qed.

Lemma Eval_LinearBound_tail (polarity : bool) lits coeffs lo hi preprocess d :
  Forall (in_scope (m d)) lits → Forall (λ c, 0 ≤ c) coeffs →
  Sorted Z.le coeffs → length lits = length coeffs → 0 ≤ m d →
  (preprocess = false → 0 ≤ lo) →
  constrains_upto polarity d
    (Eval_ (LinearBound_tail lits coeffs lo hi preprocess) polarity d)
    (λ M, in_range lo (wsum M lits coeffs) hi).
Proof.
  intros Hin Hc Hs Hlen Hm Hlo. sentinel_facts.
  assert (Forall (λ l, l ≠ 0) lits) as Hnz.
  { eapply Forall_impl; [exact Hin|]. intros l. apply in_scope_nz. }
  destruct (LinearBound_tail_ok lits coeffs lo hi preprocess (Some polarity)
              d Hnz Hc Hs Hlen Hm Hlo)
    as (v0 & d0 & E0 & HLB0 & Hv0 & Hcl0 & Hmd0 & Hsem0).
  destruct (LinearBound_tail_None_exact lits coeffs lo hi preprocess d
              Hin Hc Hs Hlen Hm Hlo)
    as (v & d' & E & HLB & Hcl & Hv & Hexact).
  pose proof (LinearBound_tail_below lits coeffs lo hi preprocess
                (Some polarity) d) as Hbelow.
  rewrite HLB0, HLB in Hbelow.
  destruct Hbelow as (Hvb & Hmeq & E0' & E' & Hc0 & Hc1 & Hsub).
  assert (E0' = E0) as ->.
  { rewrite Hcl0 in Hc0. by apply app_inv_head in Hc0. }
  assert (E' = E) as ->.
  { rewrite Hcl in Hc1. by apply app_inv_head in Hc1. }
  destruct (LinearBound_tail_extends _ _ _ _ _ _ _ _ _ HLB0)
    as (_ & Hu0 & Hr0).
  destruct (LinearBound_tail_definable _ _ _ _ _ _ _ _ _ Hm Hin HLB0)
    as [(E0' & Hc0' & _ & Hdef0) Hok0].
  assert (E0' = E0) as ->.
  { rewrite Hcl0 in Hc0'. by apply app_inv_head in Hc0'. }
  rewrite (Eval_unfold _ _ _ _ _ HLB0).
  assert (∀ M0, m d0 < TRUE → ∃ M,
            agree_upto (m d) M0 M ∧ models M E0
            ∧ match v with
              | Lit r => lit_true M r = in_range lo (wsum M0 lits coeffs) hi
              | Deferred pval nval =>
                  if in_range lo (wsum M0 lits coeffs) hi
                  then models M pval else models M nval
              end) as Hex.
  { intros M0 Hb. rewrite Hmeq in Hb.
    destruct (Hexact Hb M0) as (M & Hag & HM & Hval). exists M.
    split_and!; [done| |done]. by eapply models_subset. }
  destruct v0 as [r|pval0 nval0], v as [r'|pval nval]; try done.
  - cbn in Hvb. subst r'. cbn in Hv0.
    destruct (Z.eqb_spec r TRUE) as [->|HT]; cbn [orb negb].
    { eexists [], _. split; [reflexivity|]. split_and!.
      - cbn. unfold ClauseList.restore_state, save_state,
          ClauseList.save_state. rewrite Hcl0, take_app_length.
        by rewrite app_nil_r.
      - done.
      - done.
      - cbn. intros Hb.
        assert (∀ M0, in_range lo (wsum M0 lits coeffs) hi = true) as Hall.
        { intros M0. destruct (Hex M0 Hb) as (M & _ & _ & <-).
          apply lit_true_TRUE. }
        rewrite Hu0. destruct polarity; cbn.
        + left. rewrite orb_false_r. split_and!; [done|constructor|done|].
          intros M0 _. exists M0. split; [done|apply models_nil].
        + right. rewrite orb_true_r. done. }
    destruct (Z.eqb_spec r FALSE) as [->|HF]; cbn [orb negb].
    { eexists [], _. split; [reflexivity|]. split_and!.
      - cbn. unfold ClauseList.restore_state, save_state,
          ClauseList.save_state. rewrite Hcl0, take_app_length.
        by rewrite app_nil_r.
      - done.
      - done.
      - cbn. intros Hb.
        assert (∀ M0, in_range lo (wsum M0 lits coeffs) hi = false) as Hall.
        { intros M0. destruct (Hex M0 Hb) as (M & _ & _ & <-).
          apply lit_true_FALSE. }
        rewrite Hu0. destruct polarity; cbn.
        + right. rewrite orb_true_r. done.
        + left. rewrite orb_false_r. split_and!; [done|constructor|done|].
          intros M0 _. exists M0. split; [done|apply models_nil]. }
    eexists (E0 ++ [[if polarity then r else - r]]), _.
    split; [reflexivity|]. split_and!.
    + cbn. unfold ClauseList.append. by rewrite Hcl0, <- app_assoc.
    + done.
    + done.
    + cbn. intros Hb. left. split_and!; [done| | |].
      * destruct (Hdef0 Hb) as [Hsc0 _]. apply scoped_app. split; [done|].
        assert (in_scope (m d0) r) as Hr by (by apply lit_in_in_scope).
        apply Forall_cons. split; [|by apply Forall_nil].
        apply Forall_cons. split; [|by apply Forall_nil].
        destruct polarity; [done|]. by apply in_scope_opp.
      * intros M [HM0 HMr]%models_app. specialize (Hsem0 M HM0).
        cbn in Hsem0. apply models_cons in HMr as [HMr _]. cbn in HMr.
        rewrite orb_false_r in HMr. destruct Hsem0 as [Hp Hn].
        destruct polarity; cbn in Hp, Hn.
        -- by apply Hp.
        -- rewrite lit_true_opp in HMr by done.
           destruct (in_range lo (wsum M lits coeffs) hi); [|done].
           rewrite Hn in HMr; done.
      * intros M0 He. destruct (Hex M0 Hb) as (M & Hag & HM & Hval).
        exists M. split; [done|]. apply models_app. split; [done|].
        apply models_cons. split; [|apply models_nil]. cbn.
        rewrite orb_false_r. cbn beta in He.
        destruct polarity; [by rewrite Hval|].
        rewrite lit_true_opp by done. by rewrite Hval, He.
  - destruct Hvb as [-> ->].
    eexists (E0 ++ (if in_True_None (Some polarity) then pval else [])
               ++ (if in_False_None (Some polarity) then nval else [])), _.
    split; [reflexivity|]. split_and!.
    + cbn. unfold ClauseList.extend. by rewrite Hcl0, <- !app_assoc.
    + done.
    + done.
    + cbn. intros Hb. left. split_and!; [done| | |].
      * destruct (Hdef0 Hb) as [Hsc0 _]. destruct Hok0 as (Hsp & Hsn & _).
        rewrite !scoped_app. done.
      * intros M [HM0 [HMp HMn]%models_app]%models_app.
        destruct (Hsem0 M HM0) as [Hp Hn].
        destruct polarity; cbn in Hp, Hn, HMp, HMn;
          [by apply Hp|by apply Hn].
      * intros M0 He. destruct (Hex M0 Hb) as (M & Hag & HM & Hval).
        exists M. split; [done|]. cbn beta in He. rewrite He in Hval.
        rewrite !models_app.
        destruct polarity; cbn [in_True_None in_False_None];
          split_and!; first [assumption | apply models_nil].
Qed.

Lemma constrains_upto_ext polarity d res (sem sem' : (Z → bool) → bool) :
  (∀ M, sem M = sem' M) →
  constrains_upto polarity d res sem → constrains_upto polarity d res sem'.
Proof.
  intros Hs (F & d' & ? & ? & ? & ? & Hc). exists F, d'.
  split_and!; try done. intros Hb.
  destruct (Hc Hb) as [(? & ? & Hsound & Hcompl)|(? & ? & Hnone)];
    [left|right].
  - split_and!; [done|done| |].
    + intros M HM. rewrite <- Hs. by apply Hsound.
    + intros M0 HM0. apply Hcompl. by rewrite Hs.
  - split_and!; [done|done|]. intros M0. by rewrite <- Hs.
Qed.

Lemma Eval_LinearBound_tail_pre (polarity : bool) (lits coeffs : list Z)
    (lo hi : Z) (d : Clauses) :
  Forall (in_scope (m d)) lits → 0 ≤ m d →
  constrains_upto polarity d
    (Eval_ (LinearBound lits coeffs lo hi true) polarity d)
    (λ M, in_range lo (wsum M lits coeffs) hi).
Proof.
  intros Hin Hm.
  assert (Forall (λ l, l ≠ 0) lits) as Hnz.
  { eapply Forall_impl; [exact Hin|]. intros l. apply in_scope_nz. }
  destruct (LB_Preprocess_ok lits coeffs Hnz) as (_ & Hc & Hs & Hlen & Hsum).
  pose proof (Eval_LinearBound_tail polarity
                (LB_Preprocess lits coeffs).1.1
                (LB_Preprocess lits coeffs).1.2
                (lo - (LB_Preprocess lits coeffs).2)
                (hi - (LB_Preprocess lits coeffs).2) true d) as H.
  assert (Eval_ (LinearBound lits coeffs lo hi true) polarity d
          = Eval_ (LinearBound_tail (LB_Preprocess lits coeffs).1.1
                     (LB_Preprocess lits coeffs).1.2
                     (lo - (LB_Preprocess lits coeffs).2)
                     (hi - (LB_Preprocess lits coeffs).2) true) polarity d)
    as ->.
  { unfold Eval_. by rewrite LinearBound_unfold. }
  eapply constrains_upto_ext; [|apply H; try done].
  - intros M. cbn beta. apply in_range_eq. rewrite (Hsum M). lia.
  - by apply LB_Preprocess_in_scope.
  - eapply Forall_impl; [exact Hc|]. cbn. lia.
Qed.

(** X16 ([Require] and [Prevent] on [LinearBound]). For literals over
    the variables of the driver and any coefficients and bounds,
    [Eval(LinearBound, (lits, coeffs, lo, hi, True), polarity)] returns and
    only appends clauses. As long as [m] stays below the sentinel, one of
    two things holds. Either [unsat] is left as it was, the appended
    clauses are over the variables of the new driver and hold only in
    assignments whose weighted sum is within [lo..hi] (for [Require];
    outside for [Prevent]), and every assignment of the variables the
    driver had whose sum is so extends, by values for the new variables, to
    one in which they hold. Or [unsat] is set and nothing is appended, and
    then no assignment qualifies. The flag is not set in every case where
    no assignment qualifies: the call may append clauses that have no
    model instead (example [Require_LinearBound_no_model] below). *)
Theorem Eval_LinearBound_exact (polarity : bool) (lits coeffs : list Z)
    (lo hi : Z) (d : Clauses) :
  Forall (in_scope (m d)) lits → 0 ≤ m d →
  constrains_upto polarity d
    (Eval_ (run_call (Call_LinearBound lits coeffs lo hi true)) polarity d)
    (λ M, in_range lo (wsum M lits coeffs) hi).
Proof. apply Eval_LinearBound_tail_pre. Qed.

Lemma Eval_LinearBound_exact_witness :
  constrains_upto true (Clauses_init 4)
    (Eval_ (run_call (Call_LinearBound [1; -2; 3; 4] [3; -1; 2; 2] 2 4 true))
       true (Clauses_init 4))
    (λ M, in_range 2 (wsum M [1; -2; 3; 4] [3; -1; 2; 2]) 4).
Proof.
  apply (Eval_LinearBound_exact true [1; -2; 3; 4] [3; -1; 2; 2] 2 4
           (Clauses_init 4)).
  - repeat constructor; cbn; lia.
  - cbn. lia.
Defined.

(** No assignment gives the sum 1 to [x1 + x1 + x2 + x2]; the call
    allocates three variables and appends eight clauses, which have no
    model, and leaves [unsat] unset. *)
Example Require_LinearBound_no_model :
  Require (run_call (Call_LinearBound [1; 1; 2; 2] [1; 1; 1; 1] 1 1 true))
    (Clauses_init 2)
  = Some (mkClauses false 5
            [[-3; -2]; [-3; -1]; [-4; -1]; [-4; 2]; [-5; 2; 4]; [-5; -2; 3];
             [-5; 4; 3]; [5]] 0)
  ∧ ∀ x1 x2 : bool, (if x1 then 2 else 0) + (if x2 then 2 else 0) ≠ 1.
Proof. split; [by vm_compute|]. intros [|] [|]; lia. Qed.

Lemma wsum_ones M (vals : list Z) :
  wsum M vals (replicate (length vals) 1) = Z.of_nat (count_true M vals).
Proof.
  induction vals as [|v vals IH]; [done|].
  cbn [length replicate]. rewrite wsum_cons, IH, count_true_cons.
  destruct (lit_true M v); lia.
Qed.

(** X17 ([Require] and [Prevent] on the BDD encodings of counting). For
    literals over the variables of the driver,
    [Eval(AtMostOne_BDD, vals, polarity)] and
    [Eval(ExactlyOne_BDD, vals, polarity)] constrain, in the sense of X16,
    the number of true literals of [vals]: at most one, respectively
    exactly one, for [Require]; the contrary for [Prevent]. *)
Theorem Eval_count_BDD_exact (polarity : bool) (vals : list Z)
    (d : Clauses) :
  Forall (in_scope (m d)) vals → 0 ≤ m d →
  constrains_upto polarity d
    (Eval_ (run_call (Call_AtMostOne_BDD vals)) polarity d)
    (λ M, (count_true M vals <=? 1)%nat)
  ∧ constrains_upto polarity d
      (Eval_ (run_call (Call_ExactlyOne_BDD vals)) polarity d)
      (λ M, (count_true M vals =? 1)%nat).
Proof.
  intros Hin Hm. split.
  - eapply constrains_upto_ext;
      [|apply (Eval_LinearBound_tail_pre polarity vals
                 (replicate (length vals) 1) 0 1 d Hin Hm)].
    intros M. cbn beta. rewrite wsum_ones. unfold in_range.
    destruct (count_true M vals) as [|[|n]]; try done.
    apply andb_false_iff. right. apply Z.leb_gt. lia.
  - eapply constrains_upto_ext;
      [|apply (Eval_LinearBound_tail_pre polarity vals
                 (replicate (length vals) 1) 1 1 d Hin Hm)].
    intros M. cbn beta. rewrite wsum_ones. unfold in_range.
    destruct (count_true M vals) as [|[|n]]; try done.
    apply andb_false_iff. right. apply Z.leb_gt. lia.
Qed.

Lemma Eval_count_BDD_exact_witness :
  constrains_upto false (Clauses_init 3)
    (Eval_ (run_call (Call_AtMostOne_BDD [1; -2; 3])) false (Clauses_init 3))
    (λ M, Nat.leb (count_true M [1; -2; 3]) 1)
  ∧ constrains_upto false (Clauses_init 3)
      (Eval_ (run_call (Call_ExactlyOne_BDD [1; -2; 3])) false
         (Clauses_init 3))
      (λ M, Nat.eqb (count_true M [1; -2; 3]) 1).
Proof.
  apply (Eval_count_BDD_exact false [1; -2; 3] (Clauses_init 3)).
  - repeat constructor; cbn; lia.
  - cbn. lia.
Defined.
(** * How many variables the encoding allocates *)

Lemma gates_m_le c f g p a d :
  m (And f g p a d).2 ≤ m d + 1 ∧ m (Or f g p a d).2 ≤ m d + 1
  ∧ m (Xor f g p a d).2 ≤ m d + 1 ∧ m (ITE c f g p a d).2 ≤ m d + 1.
Proof.
  assert (∀ f g, m (And f g p a d).2 ≤ m d + 1) as HA.
  { intros f' g'. unfold And, new_var. repeat case_match; cbn; lia. }
  assert (∀ f g, m (Or f g p a d).2 ≤ m d + 1) as HO.
  { intros f' g'. unfold Or, new_var. repeat case_match; cbn; lia. }
  assert (∀ f g, m (Xor f g p a d).2 ≤ m d + 1) as HX.
  { intros f' g'. unfold Xor, new_var. repeat case_match; cbn; lia. }
  split_and!; try done.
  unfold ITE, new_var.
  repeat match goal with
    | |- context [if ?b then _ else _] =>
        lazymatch b with
        | (_ =? _) => destruct b; [first [apply HA|apply HO|apply HX|cbn; lia]|]
        end
    end.
  repeat case_match; cbn; lia.
Qed.

Lemma BDD_body_m_le lits coeffs lo hi p key rest memo d st' :
  BDD_body lits coeffs lo hi p key rest memo d = Some st' →
  m (bdd_self st') ≤ m d + 1.
Proof.
  unfold BDD_body. destruct key as [[ndx csum] total]. intros H.
  pose proof (λ c f g, proj2 (proj2 (proj2 (gates_m_le c f g p true d))))
    as HI.
  repeat (case_match; simplify_eq; cbn; try lia);
    repeat match goal with
      | H : _ ≫= _ = Some _ |- _ =>
          apply bind_Some in H as (? & ? & H)
      end;
    repeat (case_match; simplify_eq; cbn; try lia).
  all: match goal with
       | HE : ITE ?c ?t ?f ?q true ?d0 = (_, ?e) |- m ?e ≤ _ =>
           pose proof (proj2 (proj2 (proj2 (gates_m_le c t f q true d0))))
             as HI';
           by rewrite HE in HI'
       end.
Qed.

Lemma BDD_loop_m_le lits coeffs lo hi p (fuel : nat) : ∀ st st',
  BDD_loop fuel lits coeffs lo hi p st = Some st' →
  m (bdd_self st') ≤ m (bdd_self st) + Z.of_nat fuel.
Proof.
  induction fuel as [|fuel IH]; intros st st'; [done|].
  cbn [BDD_loop]. destruct (call_stack st) as [|key rest].
  { intros [= <-]. lia. }
  intros (st1 & H1 & H2)%bind_Some.
  apply BDD_body_m_le in H1. apply IH in H2. lia.
Qed.

Lemma BDD_fuel_mono n n' : n ≤ n' → (BDD_fuel n ≤ BDD_fuel n')%nat.
Proof. intros H. unfold BDD_fuel. apply Nat.pow_le_mono_r; lia. Qed.

Lemma BDD_m_le lits coeffs nterms lo hi p d r d' :
  BDD lits coeffs nterms lo hi p d = Some (r, d') →
  m d' ≤ m d + Z.of_nat (BDD_fuel nterms).
Proof.
  unfold BDD. intros (st & Hloop & H)%bind_Some.
  apply bind_Some in H as (r' & _ & [= _ <-]).
  by apply BDD_loop_m_le in Hloop.
Qed.

Lemma assign_m_le v d : m (assign v d).2 ≤ m d + 1.
Proof. destruct v; cbn; lia. Qed.

Lemma All_scan_assign_m_le (args : list value) : ∀ vals d,
  m (All_scan assign args vals d).2 ≤ m d + Z.of_nat (length args).
Proof.
  induction args as [|v args IH]; intros vals d; cbn [All_scan length].
  { cbn. lia. }
  pose proof (assign_m_le v d) as Hv.
  destruct (assign v d) as [x e]. cbn in Hv.
  repeat case_match; cbn; try lia;
    match goal with
    | |- m (All_scan assign args ?w e).2 ≤ _ => specialize (IH w e); lia
    end.
Qed.

Lemma Combine_m_le (args : list value) p d :
  m (Combine args p d).2 ≤ m d + Z.of_nat (length args).
Proof.
  unfold Combine. destruct (existsb _ _); [cbn; lia|].
  pose proof (filter_length (λ v, negb (value_is TRUE v)) args) as Hlen.
  destruct (List.filter _ args) as [|v [|w rest]] eqn:Ef; cbn [fst snd];
    try (cbn; lia).
  destruct (forallb _ _); [cbn; lia|]. unfold All_iter.
  pose proof (All_scan_assign_m_le (v :: w :: rest) ∅ d) as Hs.
  destruct (All_scan assign (v :: w :: rest) ∅ d) as [[vals|] e];
    cbn [fst snd] in *; repeat case_match; cbn [fst snd]; lia.
Qed.

(** The number of variables by which a call of [LinearBound] can raise
    [m]: one for each pass of the loop of [BDD], two for [Combine]. *)
Definition encoding_room (coeffs : list Z) : Z :=
  Z.of_nat (BDD_fuel (Z.of_nat (length coeffs))) + 2.

Lemma LinearBound_tail_m_le lits coeffs lo hi preprocess p d v d' :
  LinearBound_tail lits coeffs lo hi preprocess p d = Some (v, d') →
  m d' ≤ m d + encoding_room coeffs.
Proof.
  unfold LinearBound_tail, encoding_room. intros HLB.
  assert (∀ n r e, n ≤ Z.of_nat (length coeffs) →
            BDD lits coeffs n
              (if preprocess then Z.max lo 0 else lo)
              (if preprocess
               then Z.min hi (sumZ (slice_to coeffs n)) else hi) p d
            = Some (r, e) →
            m e ≤ m d + Z.of_nat (BDD_fuel (Z.of_nat (length coeffs))))
    as HB.
  { intros n r e Hn HBDD. apply BDD_m_le in HBDD.
    pose proof (BDD_fuel_mono _ _ Hn). lia. }
  pose proof (filter_length (λ c, c >? hi) coeffs) as Hfl.
  repeat (case_match; simplify_eq); try (cbn; lia);
    apply bind_Some in HLB as ([res d1] & HBDD & HLB);
    (assert (m d1 ≤ m d + Z.of_nat (BDD_fuel (Z.of_nat (length coeffs))))
      as Hd1
      by (simplify_eq; first [lia | eapply HB; [|eassumption]; lia]));
    repeat case_match; simplify_eq; try lia.
  all: match goal with
       | HA : All ?i ?q ?d1 = (?prune, ?e),
         HC : Combine ?a ?q' ?e = _ |- _ =>
           pose proof (All_same_driver i q d1) as E1; rewrite HA in E1;
           pose proof (Combine_m_le a q' e) as E2; rewrite HC in E2;
           cbn in E1, E2; subst; lia
       end.
Qed.
(** * Solutions and assignments *)

Lemma lit_true_canon (M : Z → bool) (n : nat) l :
  Z.of_nat n < TRUE → in_scope (Z.of_nat n) l →
  lit_true (model_of (canon M n)) l = lit_true M l.
Proof.
  intros Hn Hl. unfold in_scope in Hl. sentinel_facts.
  rewrite (lit_true_model_of (Z.of_nat n)) by (by apply canon_assignment || lia).
  apply Bool.eq_true_iff_eq. rewrite bool_decide_eq_true, elem_of_canon.
  unfold lit_true. case_eqb; try lia.
  destruct (Z.ltb_spec 0 l); [tauto|].
  rewrite negb_true_iff. tauto.
Qed.

Lemma models_canon (M : Z → bool) (n : nat) cs :
  Z.of_nat n < TRUE → scoped (Z.of_nat n) cs →
  models (model_of (canon M n)) cs ↔ models M cs.
Proof.
  intros Hn Hcs. unfold models.
  induction Hcs as [|c cs Hc Hcs IH]; cbn; [done|].
  rewrite !andb_true_iff, IH.
  assert (clause_true (model_of (canon M n)) c = clause_true M c) as ->;
    [|done].
  unfold clause_true. induction Hc as [|l c Hl Hc IHc]; cbn; [done|].
  by rewrite IHc, lit_true_canon.
Qed.

(** An assignment, as a function, gives a solution, as a list, of the
    clauses it models. *)
Lemma canon_satisfies (M : Z → bool) (n : nat) cs :
  Z.of_nat n < TRUE → scoped (Z.of_nat n) cs → models M cs →
  satisfies_all (canon M n) cs.
Proof.
  intros Hn Hcs HM.
  apply (models_satisfies_all (Z.of_nat n)); [by apply canon_assignment|done|].
  by apply models_canon.
Qed.

(** A solution over more variables, cut down to the first [n]. *)
Definition restrict (n : Z) (sol : list Z) : list Z :=
  canon (model_of sol) (Z.to_nat n).

Lemma restrict_spec n n' sol :
  0 ≤ n ≤ n' → assignment n' sol →
  assignment n (restrict n sol)
  ∧ ∀ l, in_scope n l → (l ∈ restrict n sol ↔ l ∈ sol).
Proof.
  intros Hn Hsol. pose proof (assignment_below_TRUE _ _ Hsol) as Hb.
  split.
  - unfold restrict. rewrite <- (Z2Nat.id n) at 1 by lia.
    apply canon_assignment. lia.
  - intros l Hl. unfold in_scope in Hl. unfold restrict.
    rewrite elem_of_canon, Z2Nat.id by lia. unfold model_of.
    destruct Hsol as (_ & _ & Ht).
    destruct (Z.ltb_spec 0 l).
    + rewrite bool_decide_eq_true. tauto.
    + rewrite bool_decide_eq_false.
      pose proof (Ht (- l) ltac:(lia)) as Hv.
      rewrite Z.opp_involutive in Hv.
      destruct (decide (l ∈ sol)); tauto.
Qed.

Lemma restrict_satisfies n n' sol cs :
  0 ≤ n ≤ n' → assignment n' sol → scoped n cs →
  satisfies_all sol cs → satisfies_all (restrict n sol) cs.
Proof.
  intros Hn Hsol Hcs. destruct (restrict_spec n n' sol Hn Hsol) as [_ Hin].
  rewrite !satisfies_all_iff. intros Hs c Hc.
  destruct (Hs c Hc) as (l & Hl & Hls). exists l. split; [done|].
  apply Hin; [|done]. unfold scoped in Hcs. rewrite Forall_forall in Hcs.
  specialize (Hcs c Hc). rewrite Forall_forall in Hcs. by apply Hcs.
Qed.

Lemma wsum_ext M M' lits coeffs :
  (∀ l, l ∈ lits → lit_true M l = lit_true M' l) →
  wsum M lits coeffs = wsum M' lits coeffs.
Proof.
  intros H. unfold wsum. f_equal. apply map_ext_in.
  intros [c a] Hin%list_elem_of_In%elem_of_zip_r. cbn. by rewrite H.
Qed.

Lemma restrict_sum_val n n' sol lits coeffs :
  0 ≤ n ≤ n' → assignment n' sol → objective_ok n lits coeffs →
  sum_val (restrict n sol) (objective_dict_of lits coeffs)
  = sum_val sol (objective_dict_of lits coeffs).
Proof.
  intros Hn Hsol Hok. pose proof Hok as (_ & _ & _ & Hnd & Hl).
  destruct (restrict_spec n n' sol Hn Hsol) as [Hsol0 Hin].
  rewrite (sum_val_wsum n) by done.
  rewrite (sum_val_wsum n'); [|done|done|].
  2:{ eapply Forall_impl; [exact Hl|]. intros l [? ?]. split; [lia|done]. }
  apply wsum_ext. intros l Hlin. rewrite Forall_forall in Hl.
  destruct (Hl l Hlin) as [Hr Hs].
  rewrite (lit_true_model_of n), (lit_true_model_of n') by (done || lia).
  apply bool_decide_ext, Hin. done.
Qed.

(** * The probes of [minimize] *)

Lemma lits_where_in_scope nvars (keep : Z → bool) lits coeffs :
  objective_ok nvars lits coeffs →
  Forall (in_scope nvars) (lits_where keep lits coeffs).
Proof.
  intros (_ & _ & _ & _ & Hl). apply Forall_forall.
  intros a (c & Hin & _)%elem_of_lits_where.
  apply elem_of_zip_r in Hin. rewrite Forall_forall in Hl.
  by destruct (Hl a Hin).
Qed.

(** The clauses of a probe of the peak stage are over the variables of
    the objective. *)
Lemma peak_probe_scoped nvars lits coeffs lo mid d F :
  objective_ok nvars lits coeffs →
  (self ← Prevent (run_call (Call_Any
                     (lits_where (λ c, c >? mid) lits coeffs))) d;
   match lits_where (λ c, (lo <=? c) && (c <=? mid)) lits coeffs with
   | [] => Some self
   | _ =>
       Require (run_call (Call_Any
                  (lits_where (λ c, (lo <=? c) && (c <=? mid)) lits coeffs)))
         self
   end)
  = Some (mkClauses (unsat d) (m d) (_clauses d ++ F) (backend_runs d)) →
  scoped nvars F.
Proof.
  intros Hok.
  pose proof (lits_where_in_scope nvars (λ c, c >? mid) _ _ Hok) as Hpin.
  pose proof (lits_where_in_scope nvars
                (λ c, (lo <=? c) && (c <=? mid)) _ _ Hok) as Hrin.
  destruct (objective_ok_literals _ _ _
              (objective_ok_filter nvars (λ c, c >? mid) _ _ Hok))
    as [Hps Hpnd].
  destruct (objective_ok_literals _ _ _
              (objective_ok_filter nvars
                 (λ c, (lo <=? c) && (c <=? mid)) _ _ Hok))
    as [Hrs Hrnd].
  remember (lits_where (λ c, c >? mid) lits coeffs) as prevent.
  remember (lits_where (λ c, (lo <=? c) && (c <=? mid)) lits coeffs)
    as require.
  clear Heqprevent Heqrequire.
  destruct (Prevent_Any prevent d Hps Hpnd) as (ps & Hpperm & ->).
  cbn [mbind option_bind].
  assert (scoped nvars (map (λ v, [- v]) ps)) as Hsp.
  { apply Forall_map, Forall_forall. intros v Hv.
    apply Forall_cons. split; [|by apply Forall_nil].
    apply in_scope_opp. rewrite Forall_forall in Hpin. apply Hpin.
    by rewrite <- Hpperm. }
  destruct (decide (require = [])) as [->|Hne].
  - intros [= HF]. apply app_inv_head in HF. by subst F.
  - destruct (Require_Any require
                (mkClauses (unsat d) (m d)
                   (_clauses d ++ map (λ v, [- v]) ps) (backend_runs d))
                Hrs Hrnd Hne) as (rs & Hrperm & HR).
    rewrite HR. destruct require as [|r require']; [done|].
    cbn. intros [= HF].
    rewrite <- app_assoc in HF. apply app_inv_head in HF. subst F.
    apply scoped_app. split; [done|].
    apply Forall_cons. split; [|by apply Forall_nil].
    by rewrite Hrperm.
Qed.

Lemma Eval_m (func : combinator) (polarity : bool) d v d0 d' :
  func (Some polarity) d = Some (v, d0) →
  Eval_ func polarity d = Some d' → m d' = m d0.
Proof.
  intros Hf. rewrite (Eval_unfold _ _ _ _ _ Hf).
  destruct v; [case_match|]; by intros [= <-].
Qed.

(** The probe of the sum stage: [Require(LinearBound, ..., False)] on a
    normalized objective. *)
Lemma sum_probe_exact nvars lits coeffs lo mid d :
  objective_ok nvars lits coeffs → nvars ≤ m d → 0 ≤ m d → 0 ≤ lo →
  ∃ F d',
    Require (run_call (Call_LinearBound lits coeffs lo mid false)) d = Some d'
    ∧ _clauses d' = _clauses d ++ F ∧ m d ≤ m d'
    ∧ m d' ≤ m d + encoding_room coeffs
    ∧ (m d' < TRUE →
       (unsat d' = unsat d
        ∧ scoped (m d') F
        ∧ (∀ M, models M F → lo ≤ wsum M lits coeffs ≤ mid)
        ∧ (∀ M0, lo ≤ wsum M0 lits coeffs ≤ mid →
             ∃ M, agree_upto (m d) M0 M ∧ models M F))
       ∨ (unsat d' = true ∧ F = []
          ∧ ∀ M0, ¬ lo ≤ wsum M0 lits coeffs ≤ mid)).
Proof.
  intros Hok Hnv Hm Hlo. pose proof Hok as (Hlen & Hpos & Hsorted & Hnd & Hl).
  assert (Forall (in_scope (m d)) lits) as Hin.
  { eapply Forall_impl; [exact Hl|]. intros l [? _]. unfold in_scope. lia. }
  assert (Forall (λ c, 0 ≤ c) coeffs) as Hnn.
  { eapply Forall_impl; [exact Hpos|]. intros c ?. simpl in *. lia. }
  assert (Forall (λ l, l ≠ 0) lits) as Hnz.
  { eapply Forall_impl; [exact Hin|]. intros l. apply in_scope_nz. }
  destruct (Eval_LinearBound_tail true lits coeffs lo mid false d
              Hin Hnn Hsorted Hlen Hm (λ _, Hlo))
    as (F & d' & HE & Hcl & Hmd & _ & Hsem).
  destruct (LinearBound_tail_ok lits coeffs lo mid false (Some true) d
              Hnz Hnn Hsorted Hlen Hm (λ _, Hlo))
    as (v & d0 & E & HLB & _).
  pose proof (LinearBound_tail_m_le _ _ _ _ _ _ _ _ _ HLB) as Hroom.
  pose proof (Eval_m _ _ _ _ _ _ HLB HE) as Hmeq.
  assert (Require (run_call (Call_LinearBound lits coeffs lo mid false)) d
          = Some d') as HR.
  { rewrite <- HE. unfold Require, Eval_, run_call.
    by rewrite LinearBound_unfold. }
  exists F, d'. split_and!; [done|done|done|lia|].
  intros Hb. destruct (Hsem Hb) as [(Hu & Hsc & Hs & Hc)|(Hu & -> & Hn)].
  - left. split_and!; [done|done| |].
    + intros M HM. apply in_range_spec. by apply Hs.
    + intros M0 HM0. apply Hc. by apply in_range_spec.
  - right. split_and!; [done|done|]. intros M0 HM0%in_range_spec.
    by rewrite Hn in HM0.
Qed.

(** ** Room below the sentinel *)

(** [probes_fit m0 lits coeffs]: every probe of the sum stage on this
    objective, [Require(LinearBound, lits, coeffs, lo, hi, False)] on a
    driver with [m0] variables, leaves the number of variables below the
    sentinel, whatever the bounds are. *)
Definition probes_fit (m0 : Z) (lits coeffs : list Z) : Prop :=
  ∀ (lo hi : Z) (d d' : Clauses),
    m d = m0 →
    Require (run_call (Call_LinearBound lits coeffs lo hi false)) d = Some d' →
    m d' < TRUE.

(** [encodings_fit m0 lits coeffs]: so do the probes on the objective cut
    at any coefficient [P], the objective of the sum stage that follows a
    peak stage. *)
Definition encodings_fit (m0 : Z) (lits coeffs : list Z) : Prop :=
  ∀ P : Z,
    probes_fit m0 (lits_where (λ c, c <=? P) lits coeffs)
      (List.filter (λ c, c <=? P) coeffs).

Lemma Require_LinearBound_m_le lits coeffs lo hi d d' :
  Require (run_call (Call_LinearBound lits coeffs lo hi false)) d = Some d' →
  m d' ≤ m d + encoding_room coeffs.
Proof.
  intros HR.
  destruct (LinearBound lits coeffs lo hi false (Some true) d)
    as [[v d0]|] eqn:HLB.
  - assert (run_call (Call_LinearBound lits coeffs lo hi false) (Some true) d
            = Some (v, d0)) as Hf by exact HLB.
    rewrite (Eval_m _ _ _ _ _ _ Hf HR).
    rewrite LinearBound_unfold in HLB.
    by eapply LinearBound_tail_m_le.
  - unfold Require, Eval_, run_call in HR. by rewrite HLB in HR.
Qed.

Lemma encoding_room_filter (keep : Z → bool) (l : list Z) :
  encoding_room (List.filter keep l) ≤ encoding_room l.
Proof.
  unfold encoding_room. pose proof (filter_length keep l) as Hlen.
  pose proof (BDD_fuel_mono (Z.of_nat (length (List.filter keep l)))
                (Z.of_nat (length l)) ltac:(lia)). lia.
Qed.

(** A bound that suffices, whatever the bounds of the probes: [BDD] adds
    at most one variable in each pass of its loop, and [Combine] at most
    two. *)
Lemma encoding_room_fits (m0 : Z) (lits coeffs : list Z) :
  m0 + encoding_room coeffs < TRUE → encodings_fit m0 lits coeffs.
Proof.
  intros Hroom P lo hi d d' Hm HR.
  apply Require_LinearBound_m_le in HR.
  pose proof (encoding_room_filter (λ c, c <=? P) coeffs). lia.
Qed.

(** A cut above every coefficient keeps the objective. *)
Lemma lits_where_all (keep : Z → bool) (lits coeffs : list Z) :
  length lits = length coeffs → Forall (λ c, keep c = true) coeffs →
  lits_where keep lits coeffs = lits ∧ List.filter keep coeffs = coeffs.
Proof.
  intros Hlen Hall. unfold lits_where. revert lits Hlen.
  induction Hall as [|c coeffs Hc _ IH]; intros [|l lits] Hlen;
    try done; cbn in *.
  rewrite Hc. cbn. destruct (IH lits) as [-> ->]; [lia|done].
Qed.

Lemma encodings_fit_all (m0 : Z) (lits coeffs : list Z) :
  length lits = length coeffs →
  encodings_fit m0 lits coeffs → probes_fit m0 lits coeffs.
Proof.
  intros Hlen Hfit.
  destruct (py_max coeffs) as [P|] eqn:HP.
  - specialize (Hfit P).
    destruct (lits_where_all (λ c, c <=? P) lits coeffs Hlen) as [E1 E2].
    + apply Forall_forall. intros c Hc. apply Z.leb_le.
      by apply (proj2 (py_max_spec _ _ HP)).
    + by rewrite E1, E2 in Hfit.
  - destruct coeffs; [|done]. destruct lits; [|done].
    exact (Hfit 0).
Qed.
(** * [minimize] reaches the optimum *)

(** No pass of the bisection leaves the lower bound above the upper
    one. *)
Definition no_bad_failure (log : list event) : Prop :=
  Forall (λ e, match e with
               | Bisection_failure lo hi => lo ≤ hi
               | _ => True
               end) log.

(** What shrinks from one pass of the loop to the next. *)
Definition measure (st : bisect_state) : Z :=
  bs_hi st - bs_lo st
  + match bs_try0 st with Some _ => 1 | None => 0 end.

Lemma no_bad_failure_snoc log e :
  no_bad_failure log →
  match e with Bisection_failure lo hi => lo ≤ hi | _ => True end →
  no_bad_failure (log ++ [e]).
Proof.
  intros Hlog He. apply Forall_app. split; [done|].
  apply Forall_cons. split; [done|by apply Forall_nil].
Qed.

Section optimum.

Variable run : list clause → Z → Z → option (list Z).
Hypothesis run_sound : backend_sound run.
Hypothesis run_complete : backend_complete run.

(** A loop whose passes keep an invariant and shrink the measure ends,
    by a [break], within as many passes as the measure allows. *)
Lemma bisect_loop_total (Inv Post : bisect_state → Prop) peak lits coeffs dict
    m_orig saved_state :
  (∀ st, Inv st → 0 ≤ measure st) →
  (∀ st, Inv st →
     ∃ b st',
       bisect_body run peak lits coeffs dict m_orig saved_state st
       = Some (b, st')
       ∧ if b then Post st' else Inv st' ∧ measure st' < measure st) →
  ∀ (fuel : nat) st, Inv st → measure st < Z.of_nat fuel →
    ∃ st',
      bisect_loop run fuel peak lits coeffs dict m_orig saved_state st
      = (Returned (), st')
      ∧ Post st'.
Proof.
  intros Hpos Hbody.
  induction fuel as [|fuel IH]; intros st Hinv Hfuel.
  { specialize (Hpos st Hinv). lia. }
  cbn [bisect_loop].
  destruct (Hbody st Hinv) as (b & st' & -> & Hres).
  destruct b; [by exists st'|].
  destruct Hres as [Hinv' Hlt]. apply IH; [done|lia].
Qed.

(** The part of a pass after the constraints of the probe are in
    place. *)
Definition bisect_tail (peak : bool) (objective_dict : gmap Z Z)
    (m_orig : Z) (saved_state : nat) (mid : Z) (st : bisect_state)
    (self : Clauses) : option (bool * bisect_state) :=
  let lo := bs_lo st in
  let hi := bs_hi st in
  let '(newsol, self) := sat run None false 0 self in
  match newsol with
  | None =>
      let lo := mid + 1 in
      let log := bs_log st ++ [Bisection_failure lo hi] in
      if lo >? hi then
        Some (true, mkBisect lo hi (bs_try0 st) (bs_bestsol st)
                      (bs_bestval st) self log)
      else
        Some (false, mkBisect lo hi None (bs_bestsol st) (bs_bestval st)
                       (bisect_reset m_orig saved_state self) log)
  | Some newsol =>
      let done := lo =? mid in
      bestval ← objval peak newsol objective_dict;
      let hi := bestval in
      let log := bs_log st ++ [Bisection_success lo hi] in
      if done then
        Some (true, mkBisect lo hi (bs_try0 st) newsol bestval self log)
      else
        Some (false, mkBisect lo hi None newsol bestval
                       (bisect_reset m_orig saved_state self) log)
  end.

Lemma bisect_body_peak lits coeffs dict m_orig saved_state st :
  bisect_body run true lits coeffs dict m_orig saved_state st
  = let mid := match bs_try0 st with
               | None => (bs_lo st + bs_hi st) `div` 2
               | Some try0 => try0
               end in
    (self ← Prevent (run_call (Call_Any
                       (lits_where (λ c, c >? mid) lits coeffs)))
              (bs_self st);
     match lits_where (λ c, (bs_lo st <=? c) && (c <=? mid)) lits coeffs with
     | [] => Some self
     | _ =>
         Require (run_call (Call_Any
                    (lits_where (λ c, (bs_lo st <=? c) && (c <=? mid))
                       lits coeffs))) self
     end)
    ≫= bisect_tail true dict m_orig saved_state mid st.
Proof. reflexivity. Qed.

Lemma bisect_body_sum lits coeffs dict m_orig saved_state st :
  bisect_body run false lits coeffs dict m_orig saved_state st
  = let mid := match bs_try0 st with
               | None => (bs_lo st + bs_hi st) `div` 2
               | Some try0 => try0
               end in
    Require (run_call (Call_LinearBound lits coeffs (bs_lo st) mid false))
      (bs_self st)
    ≫= bisect_tail false dict m_orig saved_state mid st.
Proof. reflexivity. Qed.

Section stage.

Variables (nvars : Z) (lits coeffs : list Z) (m_orig : Z) (H : list clause).
Hypothesis objective : objective_ok nvars lits coeffs.
Hypothesis nvars_le : nvars ≤ m_orig.
Hypothesis m_orig_pos : 1 ≤ m_orig.

Let dict := objective_dict_of lits coeffs.

(** A solution of the clauses at the entry of the stage. *)
Definition feasible (sol : list Z) : Prop :=
  assignment m_orig sol ∧ satisfies_all sol H.

(** What the constraints of the probe [(P, P)] of the peak stage say. *)
Definition peak_constraint (P : Z) (sol : list Z) : Prop :=
  (∀ a, a ∈ lits_where (λ c, c >? P) lits coeffs → - a ∈ sol)
  ∧ (lits_where (λ c, (P <=? c) && (c <=? P)) lits coeffs ≠ [] →
     ∃ a, a ∈ lits_where (λ c, (P <=? c) && (c <=? P)) lits coeffs
          ∧ a ∈ sol).

Definition peak_inv2 (st : bisect_state) : Prop :=
  bs_lo st ≤ bs_hi st
  ∧ ((bs_try0 st = Some 0 ∧ bs_lo st = 0)
     ∨ (bs_try0 st = None ∧ 1 ≤ bs_lo st))
  ∧ unsat (bs_self st) = false ∧ m (bs_self st) = m_orig
  ∧ _clauses (bs_self st) = H
  ∧ peak_at_least lits coeffs m_orig H (bs_lo st)
  ∧ feasible (bs_bestsol st)
  ∧ peak_val (bs_bestsol st) dict = Some (bs_hi st)
  ∧ bs_bestval st = bs_hi st
  ∧ no_bad_failure (bs_log st).

Definition peak_post2 (st : bisect_state) : Prop :=
  ∃ F,
    unsat (bs_self st) = false ∧ m (bs_self st) = m_orig
    ∧ _clauses (bs_self st) = H ++ F ∧ scoped nvars F
    ∧ (∀ sol, satisfies_all sol F ↔ peak_constraint (bs_bestval st) sol)
    ∧ assignment m_orig (bs_bestsol st)
    ∧ satisfies_all (bs_bestsol st) (H ++ F)
    ∧ peak_val (bs_bestsol st) dict = Some (bs_bestval st)
    ∧ peak_at_least lits coeffs m_orig H (bs_bestval st)
    ∧ no_bad_failure (bs_log st).

Lemma peak_body2 st :
  peak_inv2 st →
  ∃ b st',
    bisect_body run true lits coeffs dict m_orig (length H) st = Some (b, st')
    ∧ if b then peak_post2 st' else peak_inv2 st' ∧ measure st' < measure st.
Proof.
  destruct st as [lo hi try0 bestsol bestval d log].
  intros (Hlohi & Htry & Hu & Hm & Hcl & Hfeas & Hbest & Hpeak & Hbv & Hlog);
    cbn [bs_lo bs_hi bs_try0 bs_self bs_log bs_bestsol bs_bestval] in *.
  unfold peak_inv2, peak_post2. subst dict.
  set (mid := match try0 with None => (lo + hi) `div` 2 | Some t => t end).
  assert (lo ≤ mid ≤ hi ∧ (lo = 0 → mid = 0)
          ∧ (try0 = None → lo < hi → mid < hi)) as (Hmid & Hmid0 & Hmidlt).
  { destruct Htry as [[-> ->]|[-> Hlo]]; subst mid; cbn; [by split_and!; try lia|].
    split_and!; [| |lia|].
    - apply Z.div_le_lower_bound; lia.
    - apply Z.div_le_upper_bound; lia.
    - intros _ Hlt. apply Z.div_lt_upper_bound; lia. }
  pose proof (peak_probe nvars lits coeffs lo mid d objective) as HP.
  cbv zeta in HP. destruct HP as (F & Hprobe & HF).
  pose proof (peak_probe_scoped nvars lits coeffs lo mid d F objective Hprobe)
    as HFs.
  rewrite bisect_body_peak.
  cbn [bs_lo bs_hi bs_try0 bs_self bs_log bs_bestsol bs_bestval].
  cbv zeta. fold mid. rewrite Hprobe. cbn [mbind option_bind].
  unfold bisect_tail.
  cbn [bs_lo bs_hi bs_try0 bs_self bs_log bs_bestsol bs_bestval].
  rewrite sat_plain by (cbn; lia).
  cbn [unsat m _clauses backend_runs].
  rewrite Hu, Hm, Hcl. clearbody mid.
  assert (0 ≤ lo) as Hlo0 by (destruct Htry as [[_ ->]|[_ ?]]; lia).
  pose proof objective as (Hlen & Hpos & Hsorted & Hnd & Hl).
  assert (NoDup lits) as Hndl by by apply NoDup_abs.
  assert (lo = 0 →
          lits_where (λ c, (lo <=? c) && (c <=? mid)) lits coeffs = [])
    as Hreq0.
  { intros Hz. specialize (Hmid0 Hz). apply elem_of_nil_inv.
    intros a (c & Hin & Hk)%elem_of_lits_where.
    apply elem_of_zip_l in Hin. rewrite Forall_forall in Hpos.
    apply Hpos in Hin. lia. }
  rewrite Z.gtb_ltb.
  destruct (run (H ++ F) m_orig 0) as [newsol|] eqn:Hrun.
  - destruct (run_sound _ _ _ _ Hrun) as [Hsol Hsat].
    pose proof Hsat as [HsatH HsatF]%satisfies_all_app.
    pose proof HsatF as [Hprev Hreq]%HF.
    destruct (peak_val_is_Some newsol (objective_dict_of lits coeffs))
      as [p Hp].
    { by eapply assignment_nonempty. }
    cbn [objval]. rewrite Hp. cbn [mbind option_bind].
    assert (lo ≤ p ≤ mid) as Hpm.
    { split; [by eapply Hfeas|].
      pose proof Hp as [(s & Hs & Hval) _]%peak_val_spec. rewrite <- Hval.
      destruct (objective_dict_of lits coeffs !! s) as [c|] eqn:Hc; cbn;
        [|lia].
      destruct (Z.le_gt_cases c mid); [done|]. exfalso.
      apply dict_lookup in Hc; [|done].
      eapply (assignment_consistent _ _ s Hsol Hs). apply Hprev.
      apply elem_of_lits_where. exists c. split; [done|]. lia. }
    destruct (Z.eqb_spec lo mid) as [Heq|Hne].
    + eexists true, _. split; [reflexivity|].
      exists F. cbn. assert (p = mid) as -> by lia. subst lo.
      split_and!; try done.
      by apply no_bad_failure_snoc.
    + eexists false, _. split; [reflexivity|].
      rewrite bisect_reset_spec by (by apply prefix_app_r).
      assert (try0 = None ∧ 1 ≤ lo) as [-> Hlo1].
      { destruct Htry as [[_ Hz]|[? ?]]; [|done].
        specialize (Hmid0 Hz). lia. }
      unfold peak_inv2, measure; cbn.
      split_and!; try done; try lia.
      * by apply no_bad_failure_snoc.
      * specialize (Hmidlt eq_refl ltac:(lia)). lia.
  - assert (peak_at_least lits coeffs m_orig H (mid + 1)) as Hfeas'.
    { intros sol p Hsol HsatH Hp.
      destruct (Z.lt_ge_cases mid p) as [|Hle]; [lia|]. exfalso.
      apply (run_complete (H ++ F) m_orig sol Hsol); [|done].
      apply satisfies_all_app. split; [done|]. apply HF.
      pose proof (Hfeas sol p Hsol HsatH Hp) as Hlop.
      apply peak_val_spec in Hp as [(s & Hs & Hval) Hbound].
      split.
      + intros a (c & Hin & Hk)%elem_of_lits_where.
        apply (assignment_total m_orig); [done| |].
        * rewrite Forall_forall in Hl.
          destruct (Hl a (elem_of_zip_r _ _ _ _ Hin)); lia.
        * intros Ha. specialize (Hbound a Ha).
          apply dict_lookup in Hin; [|done].
          rewrite Hin in Hbound. cbn in Hbound. lia.
      + intros Hne. destruct (decide (lo = 0)) as [Hz|Hnz];
          [by apply Hreq0 in Hz|].
        exists s. split; [|done]. apply elem_of_lits_where.
        destruct (objective_dict_of lits coeffs !! s) as [c|] eqn:Hc;
          cbn in Hval; [|lia].
        subst c. exists p. split; [by apply dict_lookup in Hc|]. lia. }
    assert (mid + 1 ≤ hi) as Hle.
    { destruct Hbest as [Hb1 Hb2]. by apply (Hfeas' bestsol hi). }
    destruct (Z.ltb_spec hi (mid + 1)); [lia|].
    eexists false, _. split; [reflexivity|].
    rewrite bisect_reset_spec by (by apply prefix_app_r).
    unfold peak_inv2, measure; cbn.
    split_and!; try done; try lia.
    + right. split; [done|lia].
    + by apply no_bad_failure_snoc.
    + destruct try0; lia.
Qed.

(** ** The sum stage *)

Hypothesis H_scoped : scoped m_orig H.
Hypothesis room : probes_fit m_orig lits coeffs.

Definition sum_at_least (lo : Z) : Prop :=
  ∀ sol, feasible sol → lo ≤ sum_val sol dict.

Definition sum_inv2 (st : bisect_state) : Prop :=
  bs_lo st ≤ bs_hi st ∧ 0 ≤ bs_lo st
  ∧ (∀ t, bs_try0 st = Some t → bs_lo st - 1 ≤ t ≤ bs_hi st)
  ∧ unsat (bs_self st) = false ∧ m (bs_self st) = m_orig
  ∧ _clauses (bs_self st) = H
  ∧ sum_at_least (bs_lo st)
  ∧ (∃ sol0, feasible sol0 ∧ sum_val sol0 dict = bs_hi st)
  ∧ (∃ n, m_orig ≤ n ∧ assignment n (bs_bestsol st))
  ∧ satisfies_all (bs_bestsol st) H
  ∧ sum_val (bs_bestsol st) dict = bs_hi st
  ∧ bs_bestval st = bs_hi st
  ∧ no_bad_failure (bs_log st).

Definition sum_post2 (st : bisect_state) : Prop :=
  (∃ n, m_orig ≤ n ∧ assignment n (bs_bestsol st))
  ∧ satisfies_all (bs_bestsol st) H
  ∧ sum_val (bs_bestsol st) dict = bs_bestval st
  ∧ sum_at_least (bs_bestval st)
  ∧ no_bad_failure (bs_log st).

Lemma objective_in (n : Z) :
  m_orig ≤ n → Forall (λ l, 1 ≤ Z.abs l ≤ n ∧ Z.abs l ≠ TRUE) lits.
Proof.
  intros Hn. pose proof objective as (_ & _ & _ & _ & Hl).
  eapply Forall_impl; [exact Hl|]. intros l [? ?]. split; [lia|done].
Qed.

Lemma feasible_sum_val sol :
  feasible sol → sum_val sol dict = wsum (model_of sol) lits coeffs.
Proof.
  intros [Hsol _]. pose proof objective as (_ & _ & _ & Hnd & _).
  apply (sum_val_wsum m_orig); [done|done|by apply objective_in].
Qed.

Lemma sum_body2 st :
  sum_inv2 st →
  ∃ b st',
    bisect_body run false lits coeffs dict m_orig (length H) st = Some (b, st')
    ∧ if b then sum_post2 st' else sum_inv2 st' ∧ measure st' < measure st.
Proof.
  destruct st as [lo hi try0 bestsol bestval d log].
  intros (Hlohi & Hlo0 & Htry & Hu & Hm & Hcl & Hfeas & Hatt & Hbest & Hbsat
          & Hbsum & Hbv & Hlog);
    cbn [bs_lo bs_hi bs_try0 bs_self bs_log bs_bestsol bs_bestval] in *.
  unfold sum_inv2, sum_post2.
  set (mid := match try0 with None => (lo + hi) `div` 2 | Some t => t end).
  assert (lo - 1 ≤ mid ≤ hi
          ∧ (try0 = None → lo ≤ mid ∧ (lo < hi → mid < hi)))
    as (Hmid & Hmidlt).
  { destruct try0 as [t|]; subst mid; cbn; [split; [by apply Htry|done]|].
    assert (lo ≤ (lo + hi) `div` 2) by (apply Z.div_le_lower_bound; lia).
    split; [split; [lia|apply Z.div_le_upper_bound; lia]|].
    intros _. split; [done|]. intros ?.
    apply Z.div_lt_upper_bound; lia. }
  pose proof objective as (Hlen & Hpos & Hsorted & Hnd & Hl).
  destruct (sum_probe_exact nvars lits coeffs lo mid d objective)
    as (F & d1 & HReq & Hcl1 & Hmd & _ & Hsem); [lia..|].
  rewrite Hm in Hmd, Hsem. rewrite Hcl in Hcl1.
  assert (m d1 < TRUE) as Hb by exact (room lo mid d d1 Hm HReq).
  rewrite bisect_body_sum.
  cbn [bs_lo bs_hi bs_try0 bs_self bs_log bs_bestsol bs_bestval].
  cbv zeta. fold mid. rewrite HReq. cbn [mbind option_bind].
  unfold bisect_tail.
  cbn [bs_lo bs_hi bs_try0 bs_self bs_log bs_bestsol bs_bestval].
  rewrite sat_plain by lia. clearbody mid.
  rewrite Z.gtb_ltb.
  (* a failed probe *)
  assert (∀ self,
            H `prefix_of` _clauses self →
            (∀ sol, feasible sol →
               ¬ lo ≤ wsum (model_of sol) lits coeffs ≤ mid) →
            ∃ b st',
              (if hi <? mid + 1 then
                 Some (true, mkBisect (mid + 1) hi try0 bestsol bestval self
                               (log ++ [Bisection_failure (mid + 1) hi]))
               else
                 Some (false, mkBisect (mid + 1) hi None bestsol bestval
                                (bisect_reset m_orig (length H) self)
                                (log ++ [Bisection_failure (mid + 1) hi])))
              = Some (b, st')
              ∧ if b
                then sum_post2 st'
                else sum_inv2 st'
                     ∧ measure st'
                       < measure (mkBisect lo hi try0 bestsol bestval d log))
    as Hfail.
  { intros self Hpre Hno.
    assert (mid + 1 ≤ hi) as Hle.
    { destruct Hatt as (sol0 & Hf0 & Hs0).
      specialize (Hno sol0 Hf0). rewrite <- (feasible_sum_val _ Hf0) in Hno.
      specialize (Hfeas sol0 Hf0). lia. }
    destruct (Z.ltb_spec hi (mid + 1)); [lia|].
    eexists false, _. split; [reflexivity|].
    rewrite bisect_reset_spec by done.
    unfold sum_inv2, measure; cbn.
    split_and!; try done; try lia.
    - intros sol Hf. specialize (Hno sol Hf). specialize (Hfeas sol Hf).
      rewrite <- (feasible_sum_val _ Hf) in Hno. lia.
    - by apply no_bad_failure_snoc.
    - destruct try0 as [t|]; [lia|].
      destruct (Hmidlt eq_refl). lia. }
  destruct (Hsem Hb) as [(Hu1 & Hsc & Hsound & Hcomplete)|(Hu1 & -> & Hnone)].
  2:{ rewrite Hu1. apply Hfail; [by rewrite Hcl1, app_nil_r|].
      intros sol _. apply Hnone. }
  rewrite Hu1, Hu, Hcl1.
  destruct (run (H ++ F) (m d1) 0) as [newsol|] eqn:Hrun.
  - destruct (run_sound _ _ _ _ Hrun) as [Hsol Hsat].
    pose proof Hsat as [HsatH HsatF]%satisfies_all_app.
    pose proof (satisfies_all_models _ _ _ Hsol HsatF) as HMF.
    pose proof (Hsound _ HMF) as Hrange.
    assert (sum_val newsol dict = wsum (model_of newsol) lits coeffs) as Hval.
    { apply (sum_val_wsum (m d1)); [done|done|by apply objective_in]. }
    cbn [objval mbind option_bind]. rewrite Hval.
    set (p := wsum (model_of newsol) lits coeffs) in *.
    destruct (Z.eqb_spec lo mid) as [Heq|Hne].
    + eexists true, _. split; [reflexivity|]. cbn.
      split_and!; try done.
      * by exists (m d1).
      * assert (p = lo) as -> by lia. done.
      * by apply no_bad_failure_snoc.
    + eexists false, _. split; [reflexivity|].
      rewrite bisect_reset_spec by (cbn; by apply prefix_app_r).
      unfold sum_inv2, measure; cbn.
      split_and!; try done; try lia.
      * exists (restrict m_orig newsol).
        destruct (restrict_spec m_orig (m d1) newsol) as [Hr _];
          [lia|done|].
        split; [split; [done|]|].
        -- by apply (restrict_satisfies m_orig (m d1)); [lia|..].
        -- unfold dict. rewrite (restrict_sum_val m_orig (m d1)); try done.
           ++ lia.
           ++ by eapply objective_ok_mono.
      * by exists (m d1).
      * by apply no_bad_failure_snoc.
      * destruct try0 as [t|]; [specialize (Htry t eq_refl); lia|].
        destruct (Hmidlt eq_refl) as [? Hlt]. specialize (Hlt ltac:(lia)).
        lia.
  - apply Hfail; [cbn; by apply prefix_app_r|].
    intros sol [Hsol HsolH] Hrange.
    destruct (Hcomplete (model_of sol) Hrange) as (M & Hag & HM).
    apply (run_complete (H ++ F) (m d1) (canon M (Z.to_nat (m d1)))).
    + rewrite <- (Z2Nat.id (m d1)) at 1 by lia.
      apply canon_assignment. lia.
    + apply satisfies_all_app. split.
      * apply canon_satisfies; [lia| |].
        -- rewrite Z2Nat.id by lia. by eapply scoped_mono.
        -- eapply (models_agree m_orig); [lia|done|done|].
           by eapply satisfies_all_models.
      * apply canon_satisfies; [lia| |done]. by rewrite Z2Nat.id by lia.
    + done.
Qed.

End stage.
End optimum.
(** ** The two stages *)

Lemma sumZ_filter_le (keep : Z → bool) (l : list Z) :
  Forall (λ c, 0 ≤ c) l → sumZ (List.filter keep l) ≤ sumZ l.
Proof.
  induction 1 as [|c l Hc Hl IH]; [done|]. cbn [List.filter].
  change (sumZ (c :: l)) with (c + sumZ l).
  destruct (keep c);
    [change (sumZ (c :: List.filter keep l))
       with (c + sumZ (List.filter keep l))|]; lia.
Qed.

Lemma feasible_peak_le_sum nvars lits coeffs m_orig H sol p :
  objective_ok nvars lits coeffs → nvars ≤ m_orig →
  feasible m_orig H sol →
  peak_val sol (objective_dict_of lits coeffs) = Some p →
  0 ≤ p ∧ p ≤ sum_val sol (objective_dict_of lits coeffs)
  ∧ sum_val sol (objective_dict_of lits coeffs) ≤ sumZ coeffs.
Proof.
  intros Hok Hnv [Hsol _] Hp.
  pose proof Hok as (_ & Hpos & _ & Hnd & Hl).
  assert (NoDup lits) as Hndl by by apply NoDup_abs.
  split_and!.
  - by eapply peak_val_nonneg.
  - by apply peak_le_sum.
  - rewrite (sum_val_wsum m_orig); [|done|done|].
    + apply wsum_bounds. eapply Forall_impl; [exact Hpos|]. cbn. lia.
    + eapply Forall_impl; [exact Hl|]. intros l [? ?]. split; [lia|done].
Qed.

Section stages.

Variable run : list clause → Z → Z → option (list Z).
Hypothesis run_sound : backend_sound run.
Hypothesis run_complete : backend_complete run.

Lemma minimize_stage_peak2 nvars (fuel : nat) trymax lits coeffs bestsol d log :
  objective_ok nvars lits coeffs → nvars ≤ m d → 1 ≤ m d →
  unsat d = false → feasible (m d) (_clauses d) bestsol →
  no_bad_failure log → sumZ coeffs + 1 < Z.of_nat fuel →
  ∃ st',
    minimize_stage run fuel true trymax lits coeffs 0 0 bestsol d log
    = (Returned (), st')
    ∧ peak_post2 nvars lits coeffs (m d) (_clauses d) st'.
Proof.
  intros Hok Hnv Hm Hu Hfeas Hlog Hfuel. unfold minimize_stage.
  destruct (peak_val_is_Some bestsol (objective_dict_of lits coeffs))
    as [hi Hhi].
  { destruct Hfeas as [Hsol _]. by eapply assignment_nonempty. }
  cbn [objval]. rewrite Hhi. cbv zeta. rewrite andb_false_r.
  destruct (feasible_peak_le_sum _ _ _ _ _ _ _ Hok Hnv Hfeas Hhi)
    as (Hhi0 & Hle1 & Hle2).
  apply (bisect_loop_total run
           (peak_inv2 lits coeffs (m d) (_clauses d))
           (peak_post2 nvars lits coeffs (m d) (_clauses d))).
  - intros st (? & _). unfold measure. destruct (bs_try0 st); lia.
  - intros st Hinv. by apply (peak_body2 run run_sound run_complete nvars).
  - unfold peak_inv2; cbn. split_and!; try done.
    + by left.
    + intros sol p _ _ Hp. pose proof Hok as (_ & Hpos & _ & Hnd & _).
      eapply peak_val_nonneg; [done|by apply NoDup_abs|done].
    + apply no_bad_failure_snoc; [|done]. by apply no_bad_failure_snoc.
  - unfold measure; cbn. lia.
Qed.

Lemma minimize_stage_sum2 nvars (fuel : nat) trymax lits coeffs lo try0
    bestsol d log :
  objective_ok nvars lits coeffs → nvars ≤ m d → 1 ≤ m d →
  unsat d = false → scoped (m d) (_clauses d) →
  probes_fit (m d) lits coeffs →
  feasible (m d) (_clauses d) bestsol →
  0 ≤ lo → sum_at_least lits coeffs (m d) (_clauses d) lo →
  lo - 1 ≤ try0 ≤ sum_val bestsol (objective_dict_of lits coeffs) →
  no_bad_failure log → sumZ coeffs + 1 < Z.of_nat fuel →
  ∃ st',
    minimize_stage run fuel false trymax lits coeffs lo try0 bestsol d log
    = (Returned (), st')
    ∧ sum_post2 lits coeffs (m d) (_clauses d) st'.
Proof.
  intros Hok Hnv Hm Hu Hsc Hroom Hfeas Hlo Hleast Htry Hlog Hfuel.
  unfold minimize_stage. cbn [objval]. cbv zeta. rewrite andb_true_r.
  set (hi := sum_val bestsol (objective_dict_of lits coeffs)) in *.
  assert (lo ≤ hi) as Hlohi by by apply Hleast.
  assert (hi ≤ sumZ coeffs) as Hhi.
  { pose proof Hok as (_ & Hpos & _ & Hnd & Hl). destruct Hfeas as [Hsol _].
    unfold hi. rewrite (sum_val_wsum (m d)); [|done|done|].
    - apply wsum_bounds. eapply Forall_impl; [exact Hpos|]. cbn. lia.
    - eapply Forall_impl; [exact Hl|]. intros l [? ?]. split; [lia|done]. }
  apply (bisect_loop_total run
           (sum_inv2 lits coeffs (m d) (_clauses d))
           (sum_post2 lits coeffs (m d) (_clauses d))).
  - intros st (? & _). unfold measure. destruct (bs_try0 st); lia.
  - intros st Hinv.
    by apply (sum_body2 run run_sound run_complete nvars).
  - unfold sum_inv2; cbn. destruct Hfeas as [Hsol Hsat].
    split_and!; try done.
    + intros t [= <-]. destruct trymax; lia.
    + by exists bestsol.
    + exists (m d). split; [lia|done].
    + apply no_bad_failure_snoc; [|done]. by apply no_bad_failure_snoc.
  - unfold measure; cbn. lia.
Qed.

End stages.

(** ** From the peak stage to the sum stage *)

(** Dropping the terms above [b] keeps the values of a solution none of
    whose literals has a coefficient above [b]. *)
Lemma prune_keeps_values_le nvars lits coeffs sol b :
  objective_ok nvars lits coeffs →
  (∀ s, s ∈ sol → default 0 (objective_dict_of lits coeffs !! s) ≤ b) →
  objective_values sol
    (objective_dict_of (lits_where (λ c, c <=? b) lits coeffs)
       (List.filter (λ c, c <=? b) coeffs))
  = objective_values sol (objective_dict_of lits coeffs).
Proof.
  intros Hok Hbound.
  pose proof (objective_ok_filter nvars (λ c, c <=? b) _ _ Hok) as Hok'.
  pose proof Hok as (Hlen & _ & _ & Hnd%NoDup_abs & _).
  pose proof Hok' as (_ & _ & _ & Hnd'%NoDup_abs & _).
  unfold objective_values. apply map_ext_in. intros s Hs%list_elem_of_In.
  specialize (Hbound s Hs).
  assert (∀ c, (c, s) ∈ zip (List.filter (λ c, c <=? b) coeffs)
                          (lits_where (λ c, c <=? b) lits coeffs)
               ↔ (c, s) ∈ zip coeffs lits ∧ c ≤ b) as Hzip.
  { intros c. rewrite zip_filter_fst by done.
    rewrite !list_elem_of_In, filter_In. cbn. by rewrite Z.leb_le. }
  destruct (objective_dict_of lits coeffs !! s) as [c|] eqn:E1.
  - cbn in Hbound. apply dict_lookup in E1; [|done].
    assert (objective_dict_of (lits_where (λ c, c <=? b) lits coeffs)
              (List.filter (λ c, c <=? b) coeffs) !! s = Some c) as ->; [|done].
    apply dict_lookup; [done|]. by apply Hzip.
  - destruct (objective_dict_of (lits_where (λ c, c <=? b) lits coeffs)
                (List.filter (λ c, c <=? b) coeffs) !! s) as [c|] eqn:E2;
      [|done].
    apply dict_lookup in E2; [|done]. apply Hzip in E2 as [E2 _].
    apply dict_lookup in E2; [|done]. congruence.
Qed.

(** A solution that meets the constraints of the probe [(P, P)] has no
    literal with a coefficient above [P]. *)
Lemma peak_constraint_values nvars lits coeffs n sol P s :
  objective_ok nvars lits coeffs → assignment n sol → 0 ≤ P →
  peak_constraint lits coeffs P sol → s ∈ sol →
  default 0 (objective_dict_of lits coeffs !! s) ≤ P.
Proof.
  intros Hok Hsol HP [Hprev _] Hs.
  pose proof Hok as (_ & _ & _ & Hnd%NoDup_abs & _).
  destruct (objective_dict_of lits coeffs !! s) as [c|] eqn:Hc; cbn; [|done].
  destruct (Z.le_gt_cases c P); [done|]. exfalso.
  apply dict_lookup in Hc; [|done].
  eapply (assignment_consistent _ _ s Hsol Hs). apply Hprev.
  apply elem_of_lits_where. exists c. split; [done|]. lia.
Qed.

(** A solution whose peak is [P] meets the constraints of the probe
    [(P, P)]. *)
Lemma peak_constraint_of_peak nvars lits coeffs n sol P :
  objective_ok nvars lits coeffs → nvars ≤ n → assignment n sol →
  peak_val sol (objective_dict_of lits coeffs) = Some P →
  peak_constraint lits coeffs P sol.
Proof.
  intros Hok Hnv Hsol Hp.
  pose proof Hok as (_ & Hpos & _ & Hnd%NoDup_abs & Hl).
  apply peak_val_spec in Hp as [(s & Hs & Hval) Hbound]. split.
  - intros a (c & Hin & Hk)%elem_of_lits_where.
    apply (assignment_total n); [done| |].
    + rewrite Forall_forall in Hl.
      destruct (Hl a (elem_of_zip_r _ _ _ _ Hin)); lia.
    + intros Ha. specialize (Hbound a Ha).
      apply dict_lookup in Hin; [|done].
      rewrite Hin in Hbound. cbn in Hbound. lia.
  - intros Hne. exists s. split; [|done]. apply elem_of_lits_where.
    destruct (objective_dict_of lits coeffs !! s) as [c|] eqn:Hc;
      cbn in Hval.
    + subst c. exists P. split; [by apply dict_lookup in Hc|]. lia.
    + exfalso. subst P. apply Hne. apply elem_of_nil_inv.
      intros a (c & Hin & Hk)%elem_of_lits_where.
      apply elem_of_zip_l in Hin. rewrite Forall_forall in Hpos.
      apply Hpos in Hin. lia.
Qed.

(** ** The result of [minimize] *)

(** [optimum m_orig H lits coeffs sol v]: [sol] is a solution of the
    clauses [H], possibly over more variables than [m_orig]; [v] is the sum
    of the coefficients of its literals; no solution of [H] over the
    variables [1..m_orig] has a smaller peak (largest coefficient of a true
    literal), and none of the same peak has a smaller sum. *)
Definition optimum (m_orig : Z) (H : list clause) (lits coeffs : list Z)
    (sol : list Z) (v : Z) : Prop :=
  (∃ n, m_orig ≤ n ∧ assignment n sol)
  ∧ satisfies_all sol H
  ∧ v = sum_val sol (objective_dict_of lits coeffs)
  ∧ ∀ sol' p p',
      feasible m_orig H sol' →
      peak_val sol (objective_dict_of lits coeffs) = Some p →
      peak_val sol' (objective_dict_of lits coeffs) = Some p' →
      p ≤ p' ∧ (p' = p → v ≤ sum_val sol' (objective_dict_of lits coeffs)).

Lemma sumZ_zero (l : list Z) : Forall (λ x, x = 0) l → sumZ l = 0.
Proof.
  induction 1 as [|x l -> _ IH]; [done|].
  change (sumZ (0 :: l)) with (0 + sumZ l). by rewrite IH.
Qed.

Lemma peak_zero_sum_zero lits coeffs sol :
  Forall (λ c, 0 < c) coeffs → NoDup lits →
  peak_val sol (objective_dict_of lits coeffs) = Some 0 →
  sum_val sol (objective_dict_of lits coeffs) = 0.
Proof.
  intros Hpos Hnd [_ Hbound]%peak_val_spec. unfold sum_val.
  apply sumZ_zero, Forall_forall. intros x Hx.
  unfold objective_values in Hx.
  apply list_elem_of_fmap in Hx as (s & -> & Hs).
  specialize (Hbound s Hs).
  pose proof (dict_value_nonneg lits coeffs s Hpos Hnd). lia.
Qed.

Section result.

Variables (nvars : Z) (lits coeffs : list Z) (m_orig : Z) (H : list clause).
Hypothesis objective : objective_ok nvars lits coeffs.
Hypothesis nvars_le : nvars ≤ m_orig.
Hypothesis m_orig_pos : 1 ≤ m_orig.

Lemma sum_val_nonneg sol :
  0 ≤ sum_val sol (objective_dict_of lits coeffs).
Proof.
  pose proof objective as (_ & Hpos & _ & Hnd%NoDup_abs & _).
  apply sumZ_nonneg. by apply objective_values_nonneg.
Qed.

(** The peak stage found a solution of peak 0. *)
Lemma optimum_peak_zero st :
  peak_post2 nvars lits coeffs m_orig H st → bs_bestval st = 0 →
  optimum m_orig H lits coeffs (bs_bestsol st) (bs_bestval st).
Proof.
  intros (F & _ & _ & _ & _ & _ & Hsol & [HsatH _]%satisfies_all_app
          & Hp & _ & _) Hz.
  pose proof objective as (_ & Hpos & _ & Hnd%NoDup_abs & _).
  rewrite Hz in *.
  pose proof (peak_zero_sum_zero _ _ _ Hpos Hnd Hp) as Hs.
  split_and!; [by exists m_orig|done|done|].
  intros sol' p p' _ Hp0 Hp'. rewrite Hp in Hp0. injection Hp0 as <-.
  pose proof (peak_val_nonneg _ _ _ _ Hpos Hnd Hp').
  split; [done|]. intros _. apply sum_val_nonneg.
Qed.

(** What the sum stage starts from after the peak stage. *)
Lemma sum_stage_entry st :
  peak_post2 nvars lits coeffs m_orig H st →
  let P := bs_bestval st in
  let lits' := lits_where (λ c, c <=? P) lits coeffs in
  let coeffs' := List.filter (λ c, c <=? P) coeffs in
  let d := bs_self st in
  objective_ok nvars lits' coeffs'
  ∧ feasible (m d) (_clauses d) (bs_bestsol st)
  ∧ (scoped m_orig H → scoped (m d) (_clauses d))
  ∧ 0 ≤ P
  ∧ sum_at_least lits' coeffs' (m d) (_clauses d) P
  ∧ sum_val (bs_bestsol st) (objective_dict_of lits' coeffs')
    = sum_val (bs_bestsol st) (objective_dict_of lits coeffs)
  ∧ P ≤ sum_val (bs_bestsol st) (objective_dict_of lits coeffs).
Proof.
  intros (F & Hu & Hm & Hcl & HFs & HF & Hsol & Hsat & Hp & Hleast & _).
  cbv zeta. rewrite Hm, Hcl.
  pose proof objective as (_ & Hpos & _ & Hnd%NoDup_abs & _).
  pose proof (peak_val_nonneg _ _ _ _ Hpos Hnd Hp) as HP0.
  pose proof (prune_keeps_values nvars _ _ _ _ objective Hp) as Hkeep.
  split_and!.
  - by apply objective_ok_filter.
  - done.
  - intros HH. apply scoped_app. split; [done|]. by eapply scoped_mono.
  - done.
  - intros sol [Hs [HsH HsF]%satisfies_all_app].
    destruct (peak_val_is_Some sol (objective_dict_of lits coeffs))
      as [p Hsp]; [by eapply assignment_nonempty|].
    pose proof (Hleast sol p Hs HsH Hsp) as HPp.
    pose proof (peak_le_sum _ _ _ _ Hpos Hnd Hsp) as Hps.
    unfold sum_val in *.
    rewrite (prune_keeps_values_le nvars); [lia|done|].
    intros s Hsin. apply (peak_constraint_values nvars _ _ m_orig sol);
      try done. by apply HF.
  - unfold sum_val. by rewrite Hkeep.
  - by apply peak_le_sum.
Qed.

(** The sum stage after the peak stage. *)
Lemma optimum_after_peak st1 st2 :
  peak_post2 nvars lits coeffs m_orig H st1 →
  sum_post2
    (lits_where (λ c, c <=? bs_bestval st1) lits coeffs)
    (List.filter (λ c, c <=? bs_bestval st1) coeffs)
    (m (bs_self st1)) (_clauses (bs_self st1)) st2 →
  optimum m_orig H lits coeffs (bs_bestsol st2) (bs_bestval st2).
Proof.
  intros (F & Hu & Hm & Hcl & HFs & HF & Hsol1 & Hsat1 & Hp1 & Hleast & _).
  rewrite Hm, Hcl.
  intros ((n & Hn & Hsol) & [HsatH HsatF]%satisfies_all_app & Hval & Hmin & _).
  pose proof objective as (_ & Hpos & _ & Hnd%NoDup_abs & _).
  pose proof (peak_val_nonneg _ _ _ _ Hpos Hnd Hp1) as HP0.
  set (P := bs_bestval st1) in *.
  assert (∀ s, s ∈ bs_bestsol st2 →
            default 0 (objective_dict_of lits coeffs !! s) ≤ P) as Hvals.
  { intros s Hs. apply (peak_constraint_values nvars _ _ n (bs_bestsol st2));
      try done. by apply HF. }
  split_and!; [by exists n|done| |].
  - rewrite <- Hval. unfold sum_val.
    by rewrite (prune_keeps_values_le nvars).
  - intros sol' p p' [Hs' HsH'] Hp Hp'.
    assert (p ≤ P) as HpP.
    { apply peak_val_spec in Hp as [(s & Hs & <-) _]. by apply Hvals. }
    pose proof (Hleast sol' p' Hs' HsH' Hp') as HPp'.
    split; [lia|]. intros ->. assert (p = P) as -> by lia.
    assert (feasible m_orig (H ++ F) sol') as Hf'.
    { split; [done|]. apply satisfies_all_app. split; [done|].
      apply HF. by apply (peak_constraint_of_peak nvars _ _ m_orig). }
    specialize (Hmin sol' Hf'). unfold sum_val in *.
    rewrite (prune_keeps_values_le nvars) in Hmin; [done|done|].
    intros s Hs. by apply (proj2 (peak_val_spec _ _ _ Hp')).
Qed.

(** The sum stage alone, when no coefficient exceeds 1. *)
Lemma optimum_sum_only st :
  Forall (λ c, c ≤ 1) coeffs →
  sum_post2 lits coeffs m_orig H st →
  optimum m_orig H lits coeffs (bs_bestsol st) (bs_bestval st).
Proof.
  intros Hone ((n & Hn & Hsol) & HsatH & Hval & Hmin & _).
  pose proof objective as (_ & Hpos & _ & Hnd%NoDup_abs & _).
  split_and!; [by exists n|done|done|].
  intros sol' p p' Hf' Hp Hp'. specialize (Hmin sol' Hf').
  pose proof (peak_val_nonneg _ _ _ _ Hpos Hnd Hp') as Hp'0.
  pose proof (peak_le_sum _ _ _ _ Hpos Hnd Hp) as Hps.
  split; [|by intros _].
  assert (p ≤ 1) as Hp1.
  { apply peak_val_spec in Hp as [(s & Hs & <-) _].
    destruct (objective_dict_of lits coeffs !! s) as [c|] eqn:Hc; cbn;
      [|lia].
    apply dict_lookup in Hc; [|done]. apply elem_of_zip_l in Hc.
    rewrite Forall_forall in Hone. by apply Hone. }
  destruct (decide (p' = 0)) as [->|]; [|lia].
  rewrite (peak_zero_sum_zero _ _ _ Hpos Hnd Hp') in Hmin. lia.
Qed.

End result.
(** * A bound on the variables of [BDD] by its memo keys *)

(** A pass of [BDD] allocates a variable only when it stores the entry of
    a key that has none yet, and the keys the loop reaches are pairs of an
    index and a partial sum: [BDD] allocates at most
    [(nterms + 1) * (total + 1)] variables. *)
Section keys.

Variables (lits coeffs : list Z) (lo hi : Z) (polarity : option bool).
Variables (N T m0 : Z).
Hypothesis coeffs_nonneg : Forall (λ c, 0 ≤ c) coeffs.

(** The keys the loop reaches from the target [(N - 1, 0, T)]. *)
Definition key_in (k : bdd_key) : Prop :=
  let '(ndx, csum, total) := k in
  -1 ≤ ndx ∧ ndx < N ∧ ndx < Z.of_nat (length coeffs)
  ∧ total = sumZ (take (Z.to_nat (ndx + 1)) coeffs)
  ∧ 0 ≤ csum ∧ csum + total ≤ T.

Definition key_code (k : bdd_key) : Z := (k.1.1 + 1) * (T + 1) + k.1.2.

Definition keys_inv (st : bdd_state) : Prop :=
  Forall key_in (call_stack st)
  ∧ map_Forall (λ k _, key_in k) (ret st)
  ∧ Forall (λ k, ret st !! k = None) (call_stack st)
  ∧ StronglySorted (λ k1 k2 : bdd_key, k1.1.1 < k2.1.1) (call_stack st)
  ∧ m (bdd_self st) ≤ m0 + Z.of_nat (size (ret st)).

Lemma sumZ_take_nonneg (n : nat) : 0 ≤ sumZ (take n coeffs).
Proof. apply sumZ_nonneg. by apply Forall_take. Qed.

Lemma keys_inv_store key rest memo d v d' :
  keys_inv (mkBDD (key :: rest) memo d) → m d' ≤ m d + 1 →
  keys_inv (mkBDD rest (<[key := v]> memo) d').
Proof.
  intros (Hst & Hmemo & Hfresh & Hsort & Hm) Hd; cbn in *.
  apply Forall_cons in Hst as [Hk Hst].
  apply Forall_cons in Hfresh as [Hnone Hfresh].
  apply StronglySorted_inv in Hsort as [Hsort Hlt].
  unfold keys_inv; cbn. split_and!; try done.
  - by apply map_Forall_insert_2.
  - rewrite Forall_forall in Hfresh, Hlt. apply Forall_forall.
    intros k Hin. rewrite lookup_insert_ne; [by apply Hfresh|].
    intros ->. specialize (Hlt _ Hin). lia.
  - rewrite map_size_insert_None by done. lia.
Qed.

Lemma keys_inv_push key rest memo d k' :
  keys_inv (mkBDD (key :: rest) memo d) →
  key_in k' → memo !! k' = None → k'.1.1 < key.1.1 →
  keys_inv (mkBDD (k' :: key :: rest) memo d).
Proof.
  intros (Hst & Hmemo & Hfresh & Hsort & Hm) Hk' Hnone Hlt; cbn in *.
  unfold keys_inv; cbn. split_and!; try done.
  - by apply Forall_cons.
  - by apply Forall_cons.
  - apply SSorted_cons; [done|].
    pose proof Hsort as [_ Hall]%StronglySorted_inv.
    apply Forall_cons. split; [done|].
    eapply Forall_impl; [exact Hall|]. cbn. intros k ?. lia.
Qed.

Lemma BDD_body_keys key rest memo d st' :
  keys_inv (mkBDD (key :: rest) memo d) →
  BDD_body lits coeffs lo hi polarity key rest memo d = Some st' →
  keys_inv st'.
Proof.
  intros Hinv. pose proof Hinv as (Hst & _). cbn in Hst.
  apply Forall_cons in Hst as [Hk _].
  destruct key as [[ndx csum] total].
  destruct Hk as (H1 & H2 & H3 & Htot & Hc & HcT).
  unfold BDD_body.
  destruct ((lo - csum <=? 0) && (hi - csum >=? total)) eqn:C1.
  { intros [= <-]. apply (keys_inv_store _ _ _ d); [done|lia]. }
  destruct ((lo - csum >? total) || (hi - csum <? 0)) eqn:C2.
  { intros [= <-]. apply (keys_inv_store _ _ _ d); [done|lia]. }
  apply andb_false_iff in C1. apply orb_false_iff in C2 as [C2 C2'].
  assert (0 ≤ ndx) as Hndx.
  { destruct (decide (ndx = -1)) as [->|]; [|lia].
    assert (total = 0) by (rewrite Htot; reflexivity). lia. }
  intros (LA & _ & Hbody)%bind_Some.
  apply bind_Some in Hbody as (LC & HC & Hbody).
  unfold getitem in HC. destruct (Z.ltb_spec ndx 0); [lia|].
  assert (0 ≤ LC) as HLC
    by exact (Forall_lookup_1 _ _ _ _ coeffs_nonneg HC).
  assert (total - LC = sumZ (take (Z.to_nat (ndx - 1 + 1)) coeffs)) as Htot'.
  { replace (Z.to_nat (ndx - 1 + 1)) with (Z.to_nat ndx) by lia.
    rewrite Htot. replace (Z.to_nat (ndx + 1)) with (S (Z.to_nat ndx)) by lia.
    rewrite (sumZ_take_S _ _ _ HC). lia. }
  assert (∀ c', (c' = csum ∨ c' = csum + LC) →
            key_in (ndx - 1, c', total - LC)) as Hchild.
  { intros c' Hc'. unfold key_in. split_and!; try done; lia. }
  cbv zeta in Hbody.
  destruct (memo !! (ndx - 1, if LA <? 0 then csum else csum + LC,
                     total - LC)) as [thi|] eqn:Ehi.
  2:{ injection Hbody as <-. apply keys_inv_push; try done; [|cbn; lia].
      apply Hchild. destruct (LA <? 0); auto. }
  destruct (memo !! (ndx - 1, if LA <? 0 then csum + LC else csum,
                     total - LC)) as [tlo|] eqn:Elo.
  2:{ injection Hbody as <-. apply keys_inv_push; try done; [|cbn; lia].
      apply Hchild. destruct (LA <? 0); auto. }
  pose proof (proj2 (proj2 (proj2
                (gates_m_le (Z.abs LA) thi tlo polarity true d)))) as Hm.
  destruct (ITE (Z.abs LA) thi tlo polarity true d) as [[x|] e];
    [|done]. injection Hbody as <-.
  by apply (keys_inv_store _ _ _ d).
Qed.

Lemma BDD_loop_keys (fuel : nat) : ∀ st st',
  keys_inv st →
  BDD_loop fuel lits coeffs lo hi polarity st = Some st' → keys_inv st'.
Proof.
  induction fuel as [|fuel IH]; intros st st' Hinv; [done|].
  cbn [BDD_loop]. destruct st as [[|key rest] memo d]; cbn.
  { by intros [= <-]. }
  intros (st1 & H1 & H2)%bind_Some.
  eapply IH; [|exact H2]. by eapply BDD_body_keys.
Qed.

Lemma key_code_inj (k1 k2 : bdd_key) :
  key_in k1 → key_in k2 → key_code k1 = key_code k2 → k1 = k2.
Proof.
  destruct k1 as [[i1 c1] t1], k2 as [[i2 c2] t2].
  intros (? & ? & ? & -> & ? & ?) (? & ? & ? & -> & ? & ?).
  unfold key_code; cbn. intros Heq.
  pose proof (sumZ_take_nonneg (Z.to_nat (i1 + 1))).
  pose proof (sumZ_take_nonneg (Z.to_nat (i2 + 1))).
  assert (i1 = i2) as -> by nia.
  assert (c1 = c2) as -> by lia. done.
Qed.

Lemma key_code_range (k : bdd_key) :
  key_in k → 0 ≤ key_code k < (N + 1) * (T + 1).
Proof.
  destruct k as [[i c] t]. intros (? & ? & ? & -> & ? & ?).
  pose proof (sumZ_take_nonneg (Z.to_nat (i + 1))).
  unfold key_code; cbn. nia.
Qed.

Lemma keys_count (memo : gmap bdd_key Z) :
  0 ≤ N → 0 ≤ T → map_Forall (λ k _, key_in k) memo →
  Z.of_nat (size memo) ≤ (N + 1) * (T + 1).
Proof.
  intros HN HT Hall.
  assert (∀ k, k ∈ (map_to_list memo).*1 → key_in k) as Hin.
  { intros k ([k' v] & -> & Hkv%elem_of_map_to_list)%list_elem_of_fmap.
    by apply (Hall k' v). }
  assert (key_code <$> (map_to_list memo).*1
          ⊆+ seqZ 0 ((N + 1) * (T + 1))) as Hsub.
  { apply NoDup_submseteq.
    - apply NoDup_fmap_2_strong; [|apply NoDup_fst_map_to_list].
      intros k1 k2 Hk1 Hk2. apply key_code_inj; by apply Hin.
    - intros x (k & -> & Hk)%list_elem_of_fmap.
      apply elem_of_seqZ. pose proof (key_code_range k (Hin k Hk)). lia. }
  apply submseteq_length in Hsub.
  rewrite !length_fmap, length_map_to_list, length_seqZ in Hsub. nia.
Qed.

End keys.

Lemma sumZ_take_le (n : nat) (l : list Z) :
  Forall (λ c, 0 ≤ c) l → 0 ≤ sumZ (take n l) ≤ sumZ l.
Proof.
  intros Hl. rewrite <- (take_drop n l) at 3. rewrite sumZ_app.
  assert (0 ≤ sumZ (take n l)) by (apply sumZ_nonneg; by apply Forall_take).
  assert (0 ≤ sumZ (drop n l)) by (apply sumZ_nonneg; by apply Forall_drop).
  lia.
Qed.

Lemma BDD_keys_m_le lits coeffs nterms lo hi p d r d' :
  Forall (λ c, 0 ≤ c) coeffs → 0 ≤ nterms ≤ Z.of_nat (length coeffs) →
  BDD lits coeffs nterms lo hi p d = Some (r, d') →
  m d' ≤ m d + (nterms + 1) * (sumZ (take (Z.to_nat nterms) coeffs) + 1).
Proof.
  intros Hnn Hn. unfold BDD. intros (st & Hloop & H)%bind_Some.
  apply bind_Some in H as (r' & _ & [= _ <-]).
  assert (slice_to coeffs nterms = take (Z.to_nat nterms) coeffs) as Hs.
  { unfold slice_to. by destruct (Z.ltb_spec nterms 0); [lia|]. }
  rewrite Hs in Hloop.
  pose proof (sumZ_take_le (Z.to_nat nterms) coeffs Hnn) as HT.
  eapply (BDD_loop_keys lits coeffs lo hi p nterms
            (sumZ (take (Z.to_nat nterms) coeffs)) (m d) Hnn) in Hloop
    as (_ & Hmemo & _ & _ & Hm).
  - apply (keys_count coeffs nterms _ Hnn) in Hmemo; lia.
  - unfold keys_inv; cbn. split_and!.
    + apply Forall_cons. split; [|by apply Forall_nil].
      unfold key_in. replace (nterms - 1 + 1) with nterms by lia.
      split_and!; try done; lia.
    + apply map_Forall_empty.
    + apply Forall_cons. split; [by rewrite lookup_empty|by apply Forall_nil].
    + repeat constructor.
    + rewrite map_size_empty. lia.
Qed.

Lemma filter_length_le (keep : Z → bool) (l : list Z) :
  Z.of_nat (length (List.filter keep l)) ≤ Z.of_nat (length l).
Proof. induction l as [|x l IH]; cbn; [done|]. destruct (keep x); cbn; lia. Qed.

(** The number of variables by which a call of [LinearBound] on
    nonnegative coefficients can raise [m]: one for each memo key of
    [BDD], two for [Combine]. *)
Definition encoding_keys (coeffs : list Z) : Z :=
  (Z.of_nat (length coeffs) + 1) * (sumZ coeffs + 1) + 2.

Lemma LinearBound_tail_keys_m_le lits coeffs lo hi preprocess p d v d' :
  Forall (λ c, 0 ≤ c) coeffs →
  LinearBound_tail lits coeffs lo hi preprocess p d = Some (v, d') →
  m d' ≤ m d + encoding_keys coeffs.
Proof.
  unfold LinearBound_tail, encoding_keys. intros Hnn HLB.
  pose proof (sumZ_nonneg _ Hnn) as Hsum.
  assert (∀ n r e, 0 ≤ n ≤ Z.of_nat (length coeffs) →
            BDD lits coeffs n
              (if preprocess then Z.max lo 0 else lo)
              (if preprocess
               then Z.min hi (sumZ (slice_to coeffs n)) else hi) p d
            = Some (r, e) →
            m e ≤ m d + (Z.of_nat (length coeffs) + 1) * (sumZ coeffs + 1))
    as HB.
  { intros n r e Hn HBDD. apply BDD_keys_m_le in HBDD; [|done..].
    pose proof (sumZ_take_le (Z.to_nat n) coeffs Hnn). nia. }
  pose proof (filter_length_le (λ c, c >? hi) coeffs) as Hfl.
  repeat (case_match; simplify_eq); try (cbn; nia);
    apply bind_Some in HLB as ([res d1] & HBDD & HLB);
    (assert (m d1 ≤ m d + (Z.of_nat (length coeffs) + 1) * (sumZ coeffs + 1))
      as Hd1
      by (simplify_eq; first [nia | eapply HB; [|eassumption]; lia]));
    repeat case_match; simplify_eq; try lia.
  all: match goal with
       | HA : All ?i ?q ?d1 = (?prune, ?e),
         HC : Combine ?a ?q' ?e = _ |- _ =>
           pose proof (All_same_driver i q d1) as E1; rewrite HA in E1;
           pose proof (Combine_m_le a q' e) as E2; rewrite HC in E2;
           cbn in E1, E2; subst; lia
       end.
Qed.

(** A second bound that suffices, polynomial in the size of the
    objective. *)
Lemma encoding_keys_fits (m0 : Z) (lits coeffs : list Z) :
  Forall (λ c, 0 ≤ c) coeffs →
  m0 + encoding_keys coeffs < TRUE → encodings_fit m0 lits coeffs.
Proof.
  intros Hnn Hroom P lo hi d d' Hm HR.
  set (coeffs' := List.filter (λ c, c <=? P) coeffs) in *.
  assert (Forall (λ c, 0 ≤ c) coeffs') as Hnn'.
  { apply Forall_forall. intros c [Hc _]%list_elem_of_In%filter_In.
    rewrite Forall_forall in Hnn. apply Hnn. by apply list_elem_of_In. }
  assert (m d' ≤ m d + encoding_keys coeffs') as Hle.
  { destruct (LinearBound (lits_where (λ c, c <=? P) lits coeffs) coeffs'
                lo hi false (Some true) d) as [[v d0]|] eqn:HLB.
    - assert (run_call
                (Call_LinearBound (lits_where (λ c, c <=? P) lits coeffs)
                   coeffs' lo hi false) (Some true) d
              = Some (v, d0)) as Hf by exact HLB.
      rewrite (Eval_m _ _ _ _ _ _ Hf HR).
      rewrite LinearBound_unfold in HLB.
      by eapply LinearBound_tail_keys_m_le.
    - unfold Require, Eval_, run_call in HR. by rewrite HLB in HR. }
  pose proof (filter_length_le (λ c, c <=? P) coeffs) as Hlen.
  pose proof (sumZ_filter_le (λ c, c <=? P) coeffs Hnn) as Hsum.
  pose proof (sumZ_nonneg _ Hnn') as Hsum'.
  fold coeffs' in Hlen, Hsum. unfold encoding_keys in *. nia.
Qed.

(** The bound holds of an objective of a hundred unit terms on a driver
    with a hundred variables. *)
Example encodings_fit_hundred_terms :
  encodings_fit 100 (seqZ 1 100) (replicate 100 1).
Proof.
  apply encoding_keys_fits.
  - by apply Forall_replicate.
  - by vm_compute.
Qed.
(** ** [minimize] as a whole *)

(** What a call of [minimize] gives: no pass of a bisection ended with its
    bounds crossed; an answer without a solution means that the clauses
    have none; an answer with a solution is an optimum of the processed
    objective. *)
Definition minimize_post (d : Clauses) (lits coeffs : list Z)
    (r : outcome (option (list Z) * Z) * list event * Clauses) : Prop :=
  no_bad_failure r.1.2
  ∧ match r.1.1 with
    | Returned (Some sol, v) =>
        optimum (m d) (_clauses d) (LB_Preprocess lits coeffs).1.1
          (LB_Preprocess lits coeffs).1.2 sol v
    | Returned (None, v) =>
        (∀ sol, ¬ feasible (m d) (_clauses d) sol)
        ∧ v = sumZ (map Z.abs coeffs) + 1
    | _ => False
    end.

Section whole.

Variable run : list clause → Z → Z → option (list Z).
Hypothesis run_sound : backend_sound run.
Hypothesis run_complete : backend_complete run.

Lemma minimize_initial (bestsol : option (list Z)) d :
  unsat d = false → 1 ≤ m d →
  (∀ sol, bestsol = Some sol → m d ≤ Z.of_nat (length sol) →
          feasible (m d) (_clauses d) sol) →
  let r := match bestsol with
           | None => sat run None false 0 d
           | Some sol =>
               if Z.of_nat (length sol) <? m d then sat run None false 0 d
               else (Some sol, d)
           end in
  unsat r.2 = false ∧ m r.2 = m d ∧ _clauses r.2 = _clauses d
  ∧ match r.1 with
    | Some sol => feasible (m d) (_clauses d) sol
    | None => ∀ sol, ¬ feasible (m d) (_clauses d) sol
    end.
Proof.
  intros Hu Hm Hbest.
  assert (let r := sat run None false 0 d in
          unsat r.2 = false ∧ m r.2 = m d ∧ _clauses r.2 = _clauses d
          ∧ match r.1 with
            | Some sol => feasible (m d) (_clauses d) sol
            | None => ∀ sol, ¬ feasible (m d) (_clauses d) sol
            end) as Hsat.
  { rewrite sat_plain by lia. rewrite Hu. cbn.
    destruct (run (_clauses d) (m d) 0) as [sol|] eqn:Hrun.
    - by apply run_sound in Hrun.
    - split_and!; try done. intros sol [Ha Hs].
      by apply (run_complete (_clauses d) (m d) sol). }
  destruct bestsol as [sol|]; [|done].
  destruct (Z.ltb_spec (Z.of_nat (length sol)) (m d)); [done|].
  cbn. split_and!; try done. by apply Hbest.
Qed.

Lemma minimize_spec (fuel : nat) lits coeffs bestsol trymax d :
  unsat d = false → 1 ≤ m d → scoped (m d) (_clauses d) →
  NoDup (map Z.abs lits) → Forall (λ l, 1 ≤ Z.abs l ≤ m d) lits →
  (LB_Preprocess lits coeffs).1.2 ≠ [] →
  encodings_fit (m d) (LB_Preprocess lits coeffs).1.1
    (LB_Preprocess lits coeffs).1.2 →
  (∀ sol, bestsol = Some sol → m d ≤ Z.of_nat (length sol) →
          feasible (m d) (_clauses d) sol) →
  sumZ (LB_Preprocess lits coeffs).1.2 + 1 < Z.of_nat fuel →
  minimize_post d lits coeffs (minimize run fuel lits coeffs bestsol trymax d).
Proof.
  intros Hu Hm Hsc Hnd Hl Hne Hroom Hbest Hfuel.
  unfold minimize_post, minimize.
  pose proof (minimize_initial bestsol d Hu Hm Hbest) as Hinit.
  cbv zeta in Hinit.
  match goal with
  | |- context [let '(_, _) := ?r in _] => set (r0 := r) in *
  end.
  destruct r0 as [[sol0|] d0]; cbn [fst snd] in Hinit;
    destruct Hinit as (Hu0 & Hm0 & Hc0 & Hsol0).
  2:{ cbn. split; [by apply Forall_nil|]. split; [done|].
      destruct coeffs; [|done]. by destruct Hne. }
  rewrite Hu0.
  destruct coeffs as [|c0 coeffs0].
  { exfalso. apply Hne. rewrite LB_Preprocess_unfold. by destruct lits. }
  set (coeffs := c0 :: coeffs0) in *.
  pose proof (LB_Preprocess_objective_ok (m d) lits coeffs Hnd Hl) as Hok.
  destruct (LB_Preprocess lits coeffs) as [[lits' coeffs'] offset].
  cbn [fst snd] in *.
  destruct (py_max coeffs') as [maxval|] eqn:Hmax;
    [|by destruct coeffs'].
  rewrite <- Hm0, <- Hc0 in *. clear Hm0 Hc0 Hl Hnd Hbest.
  pose proof Hok as (_ & Hpos & _ & Hndl%NoDup_abs & _).
  destruct (Z.gtb_spec maxval 1) as [Hbig|Hsmall].
  - destruct (minimize_stage_peak2 run run_sound run_complete (m d0) fuel
                trymax lits' coeffs' sol0 d0 [] Hok (Z.le_refl _) Hm Hu0
                Hsol0 ltac:(by apply Forall_nil) Hfuel)
      as (st & -> & Hpost).
    cbn [fst snd].
    pose proof Hpost as (F & _ & _ & _ & _ & _ & _ & _ & _ & _ & Hlog1).
    destruct (Z.eqb_spec (bs_bestval st) 0) as [Hz|Hnz].
    { cbn [fst snd]. split; [by apply no_bad_failure_snoc|].
      eapply (optimum_peak_zero (m d0)); first [eassumption|lia]. }
    pose proof (sum_stage_entry (m d0) lits' coeffs' (m d0) (_clauses d0)
                  Hok (Z.le_refl _) Hm st Hpost)
      as (Hok' & Hfeas' & Hsc' & HP0 & Hleast' & Hsame & HPsum).
    cbv zeta in *.
    assert (m (bs_self st) = m d0) as Hmst by by destruct Hpost as (? & ? & ? & _).
    set (P := bs_bestval st) in *.
    assert (unsat (bs_self st) = false) as Hust
      by by destruct Hpost as (? & ? & _).
    assert (probes_fit (m (bs_self st))
              (lits_where (λ c, c <=? P) lits' coeffs')
              (List.filter (λ c, c <=? P) coeffs')) as Hroom'
      by (rewrite Hmst; apply Hroom).
    assert (sumZ (List.filter (λ c, c <=? P) coeffs') + 1 < Z.of_nat fuel)
      as Hfuel'.
    { pose proof (sumZ_filter_le (λ c, c <=? P) coeffs'
                    ltac:(eapply Forall_impl; [exact Hpos|]; cbn; lia)).
      lia. }
    destruct (minimize_stage_sum2 run run_sound run_complete (m d0) fuel trymax
                (lits_where (λ c, c <=? P) lits' coeffs')
                (List.filter (λ c, c <=? P) coeffs')
                P (sum_val (bs_bestsol st) (objective_dict_of lits' coeffs'))
                (bs_bestsol st) (bs_self st)
                (bs_log st ++ [Final_objective true P])
                Hok' ltac:(lia) ltac:(lia) Hust (Hsc' Hsc) Hroom' Hfeas' HP0
                Hleast' ltac:(rewrite Hsame; lia)
                ltac:(by apply no_bad_failure_snoc) Hfuel')
      as (st2 & -> & Hpost2).
    cbn [fst snd].
    pose proof Hpost2 as (_ & _ & _ & _ & Hlog2).
    assert (optimum (m d0) (_clauses d0) lits' coeffs' (bs_bestsol st2)
              (bs_bestval st2)) as Hopt
      by (eapply (optimum_after_peak (m d0)); first [eassumption|lia]).
    destruct (bs_bestval st2 =? 0); cbn [fst snd];
      (split; [by apply no_bad_failure_snoc|done]).
  - pose proof (sum_val_nonneg (m d0) lits' coeffs' Hok sol0) as Hnn.
    destruct (minimize_stage_sum2 run run_sound run_complete (m d0) fuel trymax
                lits' coeffs' 0 0 sol0 d0 [] Hok (Z.le_refl _) Hm Hu0 Hsc
                (encodings_fit_all _ _ _ (proj1 Hok) Hroom) Hsol0
                (Z.le_refl _)
                ltac:(intros sol _; by apply (sum_val_nonneg (m d0)))
                ltac:(lia) ltac:(by apply Forall_nil) Hfuel)
      as (st2 & -> & Hpost2).
    cbn [fst snd].
    pose proof Hpost2 as (_ & _ & _ & _ & Hlog2).
    assert (optimum (m d0) (_clauses d0) lits' coeffs' (bs_bestsol st2)
              (bs_bestval st2)) as Hopt.
    { eapply (optimum_sum_only (m d0)); try first [eassumption|lia].
      apply Forall_forall. intros c Hc.
      apply py_max_spec in Hmax as [_ Hle]. specialize (Hle c Hc). lia. }
    destruct (bs_bestval st2 =? 0); cbn [fst snd];
      (split; [by apply no_bad_failure_snoc|done]).
Qed.

End whole.

(** X18 ([minimize] returns a lexicographic optimum). On a sound and
    complete backend, for a driver that is not marked unsatisfiable, has at
    least one variable and whose clauses are over its variables, an
    objective whose literals are over pairwise distinct variables of the
    driver and keeps at least one term after [LB_Preprocess], an initial
    solution that, when given in full length, is a solution of the clauses,
    and provided the probes of the sum stage leave the number of variables
    below the sentinel ([encodings_fit]: every call
    [Require(LinearBound, ..., False)] on the processed objective, cut at
    any coefficient, made on a driver with as many variables; by lemmas
    [encoding_room_fits] and [encoding_keys_fits] this holds when
    [m + 2^(n+2) + 2] or [m + (n+1) * (s+1) + 2] is below the sentinel, [n]
    being the number of processed terms and [s] the sum of their
    coefficients):
    [minimize] returns, it neither raises nor loops for more than the sum of
    the processed coefficients plus one passes. It returns no solution only
    when the clauses have none, with the cost [sum(abs(coeffs)) + 1].
    Otherwise the solution returned satisfies the clauses of the driver,
    the value returned is the sum of the processed coefficients of its true
    literals, no solution of the clauses has a smaller largest coefficient
    of a true literal, and among those of the same largest coefficient none
    has a smaller sum. *)
Theorem minimize_optimal
    (run : list clause → Z → Z → option (list Z))
    (fuel : nat) (lits coeffs : list Z) (bestsol : option (list Z))
    (trymax : bool) (d : Clauses) :
  backend_sound run → backend_complete run →
  unsat d = false → 1 ≤ m d → scoped (m d) (_clauses d) →
  NoDup (map Z.abs lits) → Forall (λ l, 1 ≤ Z.abs l ≤ m d) lits →
  (LB_Preprocess lits coeffs).1.2 ≠ [] →
  encodings_fit (m d) (LB_Preprocess lits coeffs).1.1
    (LB_Preprocess lits coeffs).1.2 →
  (∀ sol, bestsol = Some sol → m d ≤ Z.of_nat (length sol) →
          feasible (m d) (_clauses d) sol) →
  sumZ (LB_Preprocess lits coeffs).1.2 + 1 < Z.of_nat fuel →
  match (minimize run fuel lits coeffs bestsol trymax d).1.1 with
  | Returned (Some sol, v) =>
      optimum (m d) (_clauses d) (LB_Preprocess lits coeffs).1.1
        (LB_Preprocess lits coeffs).1.2 sol v
  | Returned (None, v) =>
      (∀ sol, ¬ feasible (m d) (_clauses d) sol)
      ∧ v = sumZ (map Z.abs coeffs) + 1
  | _ => False
  end.
Proof.
  intros Hsound Hcomplete Hu Hm Hsc Hnd Hl Hne Hroom Hbest Hfuel.
  by destruct (minimize_spec run Hsound Hcomplete fuel lits coeffs bestsol
                 trymax d Hu Hm Hsc Hnd Hl Hne Hroom Hbest Hfuel).
Qed.

Lemma minimize_optimal_witness :
  match (minimize brute_force 14 [1; 2; 3; 4] [1; 1; 5; 5]
           (Some [1; 2; 3; 4]) false
           (add_clauses [[1; 3]; [2]] (Clauses_init 4))).1.1 with
  | Returned (Some sol, v) =>
      optimum 4 [[1; 3]; [2]] (LB_Preprocess [1; 2; 3; 4] [1; 1; 5; 5]).1.1
        (LB_Preprocess [1; 2; 3; 4] [1; 1; 5; 5]).1.2 sol v
  | Returned (None, v) =>
      (∀ sol, ¬ feasible 4 [[1; 3]; [2]] sol) ∧ v = 13
  | _ => False
  end.
Proof.
  apply (minimize_optimal brute_force 14 [1; 2; 3; 4] [1; 1; 5; 5]
           (Some [1; 2; 3; 4]) false
           (add_clauses [[1; 3]; [2]] (Clauses_init 4))).
  - exact brute_force_sound.
  - exact brute_force_complete.
  - reflexivity.
  - cbn. lia.
  - repeat constructor; cbn; lia.
  - by apply (bool_decide_unpack _).
  - repeat constructor; cbn; lia.
  - vm_compute. discriminate.
  - apply encoding_room_fits. vm_compute. reflexivity.
  - intros sol [= <-] _. split.
    + exact (canon_assignment (λ _, true) 4 eq_refl).
    + reflexivity.
  - vm_compute. reflexivity.
Defined.

(** X19 (the bounds of the bisection never cross). Under the conditions of
    X18, no pass of a [while] loop of [minimize] that found no solution
    leaves [lo] above [hi]: the branch under the comment "FIXME: This is
    not supposed to happen!", which breaks out of the loop, is never
    taken. *)
Theorem minimize_bounds_never_cross
    (run : list clause → Z → Z → option (list Z))
    (fuel : nat) (lits coeffs : list Z) (bestsol : option (list Z))
    (trymax : bool) (d : Clauses) :
  backend_sound run → backend_complete run →
  unsat d = false → 1 ≤ m d → scoped (m d) (_clauses d) →
  NoDup (map Z.abs lits) → Forall (λ l, 1 ≤ Z.abs l ≤ m d) lits →
  (LB_Preprocess lits coeffs).1.2 ≠ [] →
  encodings_fit (m d) (LB_Preprocess lits coeffs).1.1
    (LB_Preprocess lits coeffs).1.2 →
  (∀ sol, bestsol = Some sol → m d ≤ Z.of_nat (length sol) →
          feasible (m d) (_clauses d) sol) →
  sumZ (LB_Preprocess lits coeffs).1.2 + 1 < Z.of_nat fuel →
  no_bad_failure (minimize run fuel lits coeffs bestsol trymax d).1.2.
Proof.
  intros Hsound Hcomplete Hu Hm Hsc Hnd Hl Hne Hroom Hbest Hfuel.
  by destruct (minimize_spec run Hsound Hcomplete fuel lits coeffs bestsol
                 trymax d Hu Hm Hsc Hnd Hl Hne Hroom Hbest Hfuel).
Qed.

Lemma minimize_bounds_never_cross_witness :
  no_bad_failure
    (minimize brute_force 14 [1; 2; 3; 4] [1; 1; 5; 5] (Some [1; 2; 3; 4]) true
       (add_clauses [[1; 3]; [2]] (Clauses_init 4))).1.2.
Proof.
  apply (minimize_bounds_never_cross brute_force 14 [1; 2; 3; 4]
           [1; 1; 5; 5] (Some [1; 2; 3; 4]) true
           (add_clauses [[1; 3]; [2]] (Clauses_init 4))).
  - exact brute_force_sound.
  - exact brute_force_complete.
  - reflexivity.
  - cbn. lia.
  - repeat constructor; cbn; lia.
  - by apply (bool_decide_unpack _).
  - repeat constructor; cbn; lia.
  - vm_compute. discriminate.
  - apply encoding_room_fits. vm_compute. reflexivity.
  - intros sol [= <-] _. split.
    + exact (canon_assignment (λ _, true) 4 eq_refl).
    + reflexivity.
  - vm_compute. reflexivity.
Defined.
